(** * The incremental image cache of the portfolio build script

    A shallow embedding of the image-processing part of the build script
    (the second document of [scripts/extract-images.js]): the content-hash
    keyed store ([imageCache], [loadImageCache], [saveImageCache]), the
    change detector ([needsProcessing] and the inlined checks), the
    derivation engine ([processImage]) and the three orchestrating loops
    ([processImages], [processHomepageImages], [processLandingImages]),
    together with the skeleton of [build].

    The image library, the file system and the page generator are not part
    of the script; they appear as an environment of oracles ([Env]), each
    of which either returns a value or throws.

    After it come the other stages of the build ([clean], [loadProjects],
    the pages, grids and descriptions of [generatePages], the site map and
    the cache manifest) and the migration script, the first document of
    the file ([extractImageUrls], [extractVimeoEmbed], [createSlug] and
    the loop of [extractImages]). *)

From stdpp Require Import gmap strings list fin_maps pretty.
From Stdlib Require Import ZArith Lia Ascii Sorted.

Local Open Scope string_scope.
Local Open Scope list_scope.
Local Open Scope Z_scope.

(** ** JavaScript values used by the script *)

Module JS.

(** The result of [Math.max]: an integer of the ladder, or [-Infinity]
    when it is applied to no argument at all. *)
Inductive number :=
| NegInfinity
| Num (z : Z).

Definition Math_max (xs : list Z) : number :=
  foldr (fun x acc =>
           match acc with
           | NegInfinity => Num x
           | Num y => Num (Z.max x y)
           end) NegInfinity xs.

(** Template-literal interpolation [`${n}`] of a number. *)
Definition toString (n : number) : string :=
  match n with
  | NegInfinity => "-Infinity"
  | Num z => pretty z
  end.

(** [Array.prototype.join]. *)
Fixpoint join (sep : string) (xs : list string) : string :=
  match xs with
  | [] => ""
  | [x] => x
  | x :: rest => x +:+ sep +:+ join sep rest
  end.

Fixpoint repeat_string (n : nat) (c : string) : string :=
  match n with
  | O => ""
  | S k => c +:+ repeat_string k c
  end.

(** [String.prototype.padStart] with a one-character filler. *)
Definition padStart (s : string) (len : nat) (c : string) : string :=
  repeat_string (len - String.length s) c +:+ s.

Definition hex_char (d : N) : ascii :=
  match d with
  | 0 => "0" | 1 => "1" | 2 => "2" | 3 => "3" | 4 => "4" | 5 => "5"
  | 6 => "6" | 7 => "7" | 8 => "8" | 9 => "9" | 10 => "a" | 11 => "b"
  | 12 => "c" | 13 => "d" | 14 => "e" | _ => "f"
  end%N%char.

Fixpoint hex_go (fuel : nat) (n : N) (acc : string) : string :=
  match fuel with
  | O => acc
  | S k =>
      if (n =? 0)%N then acc
      else hex_go k (n / 16)%N (String (hex_char (n mod 16)%N) acc)
  end.

(** [Number.prototype.toString(16)] on a non-negative integer. *)
Definition toString16 (n : N) : string :=
  if (n =? 0)%N then "0" else hex_go (N.size_nat n) n "".

Definition lower_ascii (c : ascii) : ascii :=
  let n := N_of_ascii c in
  if ((65 <=? n) && (n <=? 90))%N then ascii_of_N (n + 32) else c.

(** The lower case of a code unit below 256: of the letters [A-Z], and of
    the capital letters of Latin-1, which are the code units 192 to 222
    but for the sign at 215. *)
Definition lower_char (c : ascii) : ascii :=
  let n := N_of_ascii c in
  if ((65 <=? n) && (n <=? 90))%N
     || ((192 <=? n) && (n <=? 222) && negb (n =? 215))%N
  then ascii_of_N (n + 32) else c.

(** [String.prototype.toLowerCase], on strings of code units below 256. *)
Fixpoint toLowerCase (s : string) : string :=
  match s with
  | EmptyString => EmptyString
  | String c rest => String (lower_char c) (toLowerCase rest)
  end.

Definition isDigit (c : ascii) : bool :=
  let n := N_of_ascii c in ((48 <=? n) && (n <=? 57))%N.

(** The longest prefix of decimal digits, and what follows it. *)
Fixpoint span_digits (s : string) : string * string :=
  match s with
  | EmptyString => (EmptyString, EmptyString)
  | String c rest =>
      if isDigit c then
        let '(ds, tl) := span_digits rest in (String c ds, tl)
      else (EmptyString, s)
  end.

Fixpoint digits_value (acc : Z) (ds : string) : Z :=
  match ds with
  | EmptyString => acc
  | String c rest => digits_value (10 * acc + (Z.of_N (N_of_ascii c) - 48)) rest
  end.

(** [parseInt] on a string that starts with a decimal digit: the value of
    its leading digits.  (The script applies it to such strings only.) *)
Definition parseInt (s : string) : Z := digits_value 0 (fst (span_digits s)).

(** Does [s] end in [suffix]? *)
Fixpoint endsWith (s suffix : string) : bool :=
  if String.eqb s suffix then true
  else match s with
       | EmptyString => false
       | String _ rest => endsWith rest suffix
       end.

(** Stable insertion sort, for [Array.prototype.sort] with the comparator
    [(a, b) => key(a) - key(b)]. *)
Fixpoint insert_by {A} (key : A → Z) (x : A) (xs : list A) : list A :=
  match xs with
  | [] => [x]
  | y :: rest =>
      if bool_decide (key x <= key y) then x :: xs
      else y :: insert_by key x rest
  end.

Definition sort_by {A} (key : A → Z) (xs : list A) : list A :=
  foldr (fun x acc => insert_by key x acc) [] xs.

Definition nl : string := String (ascii_of_nat 10) EmptyString.
Definition dquote : string := String (ascii_of_nat 34) EmptyString.

End JS.

(** [path.join] on segments that are already normalised: the folder of
    the script, and after it plain names, which [path.join] puts one after
    the other.  A slug is a plain name when it is not empty, is neither
    [.] nor [..] and holds no separator; what is stated about one folder
    being another is stated for such slugs. *)
Definition path_join (segments : list string) : string := JS.join "/" segments.

Fixpoint hasSeparator (s : string) : bool :=
  match s with
  | EmptyString => false
  | String c rest => Ascii.eqb c "/" || hasSeparator rest
  end.

Definition isPlainName (s : string) : bool :=
  negb (String.eqb s "") && negb (String.eqb s ".") && negb (String.eqb s "..")
  && negb (hasSeparator s).

(** ** Configuration *)

Record Config := {
  srcDir : string;
  distDir : string;
  projectsDir : string;
  homepageDir : string;
  imageCachePath : string;
  imageSizes : list Z;
  imageQuality : Z;
  avifQuality : Z
}.

Definition CONFIG (dirname : string) : Config := {|
  srcDir := dirname;
  distDir := path_join [dirname; "dist"];
  projectsDir := path_join [dirname; "projects"];
  homepageDir := path_join [dirname; "homepage"];
  imageCachePath := path_join [dirname; ".image-cache.json"];
  imageSizes := [400; 800; 1200];
  imageQuality := 85;
  avifQuality := 65
|}.

(** ** Data model *)

Definition exn := string.

(** The outcome of an awaited call: a value, or a thrown error with its
    message. *)
Inductive result (A : Type) :=
| Ok (a : A)
| Throw (e : exn).
Arguments Ok {A} a.
Arguments Throw {A} e.

Inductive Format := AVIF | WEBP | JPEG.

Definition extension (f : Format) : string :=
  match f with AVIF => ".avif" | WEBP => ".webp" | JPEG => ".jpg" end.

(** What [sharp(...).metadata()] yields, as far as the script reads it. *)
Record Metadata := { m_width : Z; m_height : Z }.

(** The object built and returned by [processImage].  [aspectRatio] is the
    floating-point quotient [width / height]; it is kept as the pair of its
    operands. *)
Record Results := {
  sizes : gmap Z bool;
  placeholder : string;
  aspectRatio : Z * Z;
  width : Z;
  height : Z;
  dominantColor : string
}.

Record Srcset := { ss_avif : string; ss_webp : string; ss_jpg : string }.

(** The object stored in [homepageImages[num]]. *)
Record HomepageImage := {
  h_index : Z;
  h_path : string;
  h_srcset : Srcset;
  h_src : string;
  h_placeholder : string;
  h_aspectRatio : Z * Z;
  h_width : Z;
  h_height : Z;
  h_dominantColor : string
}.

(** The object pushed by [processFolder] for a landing image. *)
Record LandingImage := {
  l_src : string;
  l_srcset : Srcset;
  l_width : Z;
  l_height : Z;
  l_aspectRatio : Z * Z
}.

(** The [data] field of a cache entry holds whatever the loop that wrote it
    stored: a [Results] (project images) or a homepage object. *)
Inductive DerivedData :=
| ProjectData (r : Results)
| HomepageData (h : HomepageImage).

Record CacheEntry := { hash : string; data : DerivedData }.

(** [{ ...data, size }], the value of [imageData[slug][index]]. *)
Record ProjectImage := { pi_data : DerivedData; pi_size : string }.

(** The source inventory handed over by [loadProjects]. *)
Record Image := { img_file : string; img_index : Z; img_size : string }.

Record Project := {
  p_slug : string;
  p_title : string;
  p_hasImages : bool;
  p_images : list Image
}.

(** The other stages of [build]; none of them touches the image cache, and
    [clean] empties [dist] but for [dist/images], the one folder the image
    loops look at. *)
Inductive Stage :=
| Clean | LoadVideos | LoadPrints | LoadCriticalCss | GeneratePages
| CopyAssets | GenerateCacheManifest | GenerateSitemap | GenerateRobotsTxt.

(** ** The world the script runs in *)

(** Lines sent to the terminal. *)
Inductive Output :=
| Stdout (s : string)
| Stderr (s : string).

(** Calls into the outside world that the claims speak about; this trace is
    ghost state, the script itself keeps no such record. *)
Inductive Call :=
| HashCall (inputPath : string)
| EngineCall (inputPath outputDir : string).

Record World := {
  imageCache : gmap string CacheEntry;
  imageCacheUpdated : bool;
  dirs : gset string;
  written : list string;
  cacheFile : option (result (gmap string CacheEntry));
  console : list Output;
  calls : list Call;
  stored : list string
}.

Definition set_imageCache (c : gmap string CacheEntry) (w : World) : World :=
  {| imageCache := c; imageCacheUpdated := imageCacheUpdated w; dirs := dirs w;
     written := written w; cacheFile := cacheFile w; console := console w;
     calls := calls w;
     stored := stored w |}.

Definition set_imageCacheUpdated (b : bool) (w : World) : World :=
  {| imageCache := imageCache w; imageCacheUpdated := b; dirs := dirs w;
     written := written w; cacheFile := cacheFile w; console := console w;
     calls := calls w;
     stored := stored w |}.

Definition add_dir (d : string) (w : World) : World :=
  {| imageCache := imageCache w; imageCacheUpdated := imageCacheUpdated w;
     dirs := {[ d ]} ∪ dirs w; written := written w; cacheFile := cacheFile w;
     console := console w; calls := calls w;
     stored := stored w |}.

Definition add_written (f : string) (w : World) : World :=
  {| imageCache := imageCache w; imageCacheUpdated := imageCacheUpdated w;
     dirs := dirs w; written := f :: written w; cacheFile := cacheFile w;
     console := console w; calls := calls w;
     stored := stored w |}.

Definition set_cacheFile (c : option (result (gmap string CacheEntry))) (w : World) : World :=
  {| imageCache := imageCache w; imageCacheUpdated := imageCacheUpdated w;
     dirs := dirs w; written := written w; cacheFile := c;
     console := console w; calls := calls w;
     stored := stored w |}.

Definition print (o : Output) (w : World) : World :=
  {| imageCache := imageCache w; imageCacheUpdated := imageCacheUpdated w;
     dirs := dirs w; written := written w; cacheFile := cacheFile w;
     console := o :: console w; calls := calls w;
     stored := stored w |}.

Definition record_call (c : Call) (w : World) : World :=
  {| imageCache := imageCache w; imageCacheUpdated := imageCacheUpdated w;
     dirs := dirs w; written := written w; cacheFile := cacheFile w;
     console := console w; calls := c :: calls w;
     stored := stored w |}.

(** The keys that [imageCache[cacheKey] = ...] was run for, the latest
    first: ghost state as [calls] is. *)
Definition record_store (k : string) (w : World) : World :=
  {| imageCache := imageCache w; imageCacheUpdated := imageCacheUpdated w;
     dirs := dirs w; written := written w; cacheFile := cacheFile w;
     console := console w; calls := calls w; stored := k :: stored w |}.

(** The outside world: every oracle answers for one call of the library
    function of the same name, [Throw] (or [Some e]) standing for a
    rejected promise. *)
Record Env := {
  fs_readFile_md5 : string → result string;
  sharp_metadata : string → result Metadata;
  sharp_toFile : string → Z → Format → string → option exn;
  sharp_toBuffer : string → result string;
  sharp_stats : string → result (N * N * N);
  fs_copy : string → string → option exn;
  fs_ensureDir : string → option exn;
  fs_outputJson : string → option exn;
  fs_readdir : string → result (list string);
  read_projects : result (list Project);
  stage : Stage → option exn
}.

(** ** A state-and-exception monad over [World] *)

Definition M (A : Type) : Type := World → World * result A.

Definition ret {A} (a : A) : M A := fun w => (w, Ok a).
Definition throw {A} (e : exn) : M A := fun w => (w, Throw e).
Definition bind {A B} (m : M A) (k : A → M B) : M B :=
  fun w => match m w with
           | (w', Ok a) => k a w'
           | (w', Throw e) => (w', Throw e)
           end.
Definition try_catch {A} (m : M A) (handler : exn → M A) : M A :=
  fun w => match m w with
           | (w', Ok a) => (w', Ok a)
           | (w', Throw e) => handler e w'
           end.
Definition modify (f : World → World) : M unit := fun w => (f w, Ok tt).
Definition lift {A} (r : result A) : M A := fun w => (w, r).
Definition lift_unit (r : option exn) : M unit :=
  fun w => match r with None => (w, Ok tt) | Some e => (w, Throw e) end.

Notation "'let!' x ':=' m 'in' k" := (bind m (fun x => k))
  (at level 10, x name, m at level 100, k at level 200).
Notation "m ';;;' k" := (bind m (fun _ => k))
  (at level 100, k at level 200, right associativity).

(** ** The library calls, as monadic actions *)

Section Script.

Variable dirname : string.
Variable env : Env.

Definition getFileHash (filePath : string) : M string :=
  modify (record_call (HashCall filePath));;;
  lift (fs_readFile_md5 env filePath).

Definition metadata (inputPath : string) : M Metadata :=
  lift (sharp_metadata env inputPath).

Definition ensureDir (dir : string) : M unit :=
  lift_unit (fs_ensureDir env dir);;;
  modify (add_dir dir).

Definition pathExists (p : string) : M bool :=
  fun w => (w, Ok (bool_decide (p ∈ dirs w))).

(** [image.clone().resize(width).<format>(...).toFile(out)] *)
Definition toFile (inputPath : string) (width : Z) (f : Format) (out : string) : M unit :=
  lift_unit (sharp_toFile env inputPath width f out);;;
  modify (add_written out).

(** [image.clone().resize(20).blur(10).jpeg({quality: 50}).toBuffer()],
    already base64-encoded. *)
Definition placeholderBuffer (inputPath : string) : M string :=
  lift (sharp_toBuffer env inputPath).

Definition copy (from to : string) : M unit :=
  lift_unit (fs_copy env from to);;;
  modify (add_written to).

Definition log (s : string) : M unit := modify (print (Stdout s)).
Definition error (s : string) : M unit := modify (print (Stderr s)).

Definition hex2 (n : N) : string := JS.padStart (JS.toString16 n) 2 "0".

(** [extractDominantColor]: its own [try]/[catch] swallows every failure. *)
Definition extractDominantColor (inputPath : string) : M string :=
  match sharp_stats env inputPath with
  | Ok (r, g, b) => ret ("#" +:+ hex2 r +:+ hex2 g +:+ hex2 b)
  | Throw _ => ret "#e8e8e6"
  end.

(** ** The derivation engine *)

Definition sizeFile (outputDir : string) (width : Z) (f : Format) : string :=
  path_join [outputDir; pretty width] +:+ extension f.

(** The [for (const width of CONFIG.imageSizes)] loop of [processImage];
    [acc] is [results.sizes]. *)
Fixpoint resizeLoop (inputPath outputDir : string) (W : Z)
    (widths : list Z) (acc : gmap Z bool) : M (gmap Z bool) :=
  match widths with
  | [] => ret acc
  | width :: rest =>
      if bool_decide (W >= width) then
        toFile inputPath width AVIF (sizeFile outputDir width AVIF);;;
        toFile inputPath width WEBP (sizeFile outputDir width WEBP);;;
        toFile inputPath width JPEG (sizeFile outputDir width JPEG);;;
        resizeLoop inputPath outputDir W rest (<[width := true]> acc)
      else resizeLoop inputPath outputDir W rest acc
  end.

Definition processImage (inputPath outputDir filename : string)
    (cacheKey : option string) : M Results :=
  modify (record_call (EngineCall inputPath outputDir));;;
  let! md := metadata inputPath in
  ensureDir outputDir;;;
  let! color := extractDominantColor inputPath in
  let! szs := resizeLoop inputPath outputDir (m_width md)
                (imageSizes (CONFIG dirname)) ∅ in
  let! buffer := placeholderBuffer inputPath in
  copy inputPath (path_join [outputDir; "original.jpg"]);;;
  ret {| sizes := szs;
         placeholder := "data:image/jpeg;base64," +:+ buffer;
         aspectRatio := (m_width md, m_height md);
         width := m_width md;
         height := m_height md;
         dominantColor := color |}.

(** ** The content-hash store *)

(** [loadImageCache]: a missing file and an unreadable file both give the
    empty cache. *)
Definition loadImageCache : M unit :=
  fun w =>
    match cacheFile w with
    | Some (Ok c) =>
        (print (Stdout ("  Loaded image cache with "
                        +:+ pretty (size c) +:+ " entries"))
           (set_imageCache c w), Ok tt)
    | Some (Throw e) =>
        (set_imageCache ∅
           (print (Stderr ("  Warning: Could not load image cache: " +:+ e)) w), Ok tt)
    | None =>
        (print (Stdout "  No image cache found, will process all images")
           (set_imageCache ∅ w), Ok tt)
    end.

(** [saveImageCache] *)
Definition saveImageCache : M unit :=
  fun w =>
    if negb (imageCacheUpdated w) then (w, Ok tt)
    else
      match fs_outputJson env (imageCachePath (CONFIG dirname)) with
      | None =>
          (print (Stdout ("  Saved image cache with "
                          +:+ pretty (size (imageCache w)) +:+ " entries"))
             (set_cacheFile (Some (Ok (imageCache w))) w), Ok tt)
      | Some e =>
          (print (Stderr ("  Error saving image cache: " +:+ e)) w, Ok tt)
      end.

(** ** The change detector *)


(** The test inlined in both caching loops:
    [cached && cached.hash === fileHash && await fs.pathExists(outputDir)]. *)
Definition cacheHit (w : World) (cacheKey fileHash outputDir : string)
    : option CacheEntry :=
  match imageCache w !! cacheKey with
  | Some cached =>
      if String.eqb (hash cached) fileHash && bool_decide (outputDir ∈ dirs w)
      then Some cached else None
  | None => None
  end.

(** [imageCache[cacheKey] = { hash, data }; imageCacheUpdated = true] *)
Definition updateCache (cacheKey fileHash : string) (d : DerivedData) : M unit :=
  modify (fun w =>
    record_store cacheKey
      (set_imageCacheUpdated true
         (set_imageCache (<[cacheKey := {| hash := fileHash; data := d |}]> (imageCache w))
            w))).

(** ** The orchestrator: project images *)

Record ImagesState := {
  imageData : gmap string (gmap Z ProjectImage);
  allFilenames : gmap string string;
  warnings : list string;
  totalProcessed : nat;
  totalSkipped : nat;
  projectProcessed : nat;
  projectSkipped : nat
}.

Definition initialImagesState : ImagesState :=
  {| imageData := ∅; allFilenames := ∅; warnings := [];
     totalProcessed := 0; totalSkipped := 0;
     projectProcessed := 0; projectSkipped := 0 |}.

(** [imageData[project.slug] = {}; let projectProcessed = 0; let projectSkipped = 0] *)
Definition startProject (slug : string) (st : ImagesState) : ImagesState :=
  {| imageData := <[slug := ∅]> (imageData st); allFilenames := allFilenames st;
     warnings := warnings st; totalProcessed := totalProcessed st;
     totalSkipped := totalSkipped st; projectProcessed := 0; projectSkipped := 0 |}.

Definition pushWarnings (ws : list string) (st : ImagesState) : ImagesState :=
  {| imageData := imageData st; allFilenames := allFilenames st;
     warnings := warnings st ++ ws; totalProcessed := totalProcessed st;
     totalSkipped := totalSkipped st; projectProcessed := projectProcessed st;
     projectSkipped := projectSkipped st |}.

Definition setFilename (lower slug : string) (st : ImagesState) : ImagesState :=
  {| imageData := imageData st; allFilenames := <[lower := slug]> (allFilenames st);
     warnings := warnings st; totalProcessed := totalProcessed st;
     totalSkipped := totalSkipped st; projectProcessed := projectProcessed st;
     projectSkipped := projectSkipped st |}.

(** [imageData[slug][index] = v] *)
Definition setImageData (slug : string) (idx : Z) (v : ProjectImage)
    (st : ImagesState) : ImagesState :=
  {| imageData := <[slug := <[idx := v]> (default ∅ (imageData st !! slug))]> (imageData st);
     allFilenames := allFilenames st;
     warnings := warnings st; totalProcessed := totalProcessed st;
     totalSkipped := totalSkipped st; projectProcessed := projectProcessed st;
     projectSkipped := projectSkipped st |}.

(** [projectSkipped++; totalSkipped++] *)
Definition countSkipped (st : ImagesState) : ImagesState :=
  {| imageData := imageData st; allFilenames := allFilenames st;
     warnings := warnings st; totalProcessed := totalProcessed st;
     totalSkipped := S (totalSkipped st); projectProcessed := projectProcessed st;
     projectSkipped := S (projectSkipped st) |}.

(** [projectProcessed++; totalProcessed++] *)
Definition countProcessed (st : ImagesState) : ImagesState :=
  {| imageData := imageData st; allFilenames := allFilenames st;
     warnings := warnings st; totalProcessed := S (totalProcessed st);
     totalSkipped := totalSkipped st; projectProcessed := S (projectProcessed st);
     projectSkipped := projectSkipped st |}.

(** [validateImage]: never throws, returns the warnings to report. *)
Definition validateImage (filePath filename : string) : M (option Metadata * list string) :=
  try_catch
    (let! md := metadata filePath in
     if bool_decide (m_width md < 1200) then
       ret (Some md, ["Warning: " +:+ filename +:+ " is only " +:+ pretty (m_width md)
                      +:+ "px wide (recommended: 1200px+)"])
     else ret (Some md, []))
    (fun e => ret (None, ["Error reading " +:+ filename +:+ ": " +:+ e])).

Definition projectInputPath (project : Project) (img : Image) : string :=
  path_join [projectsDir (CONFIG dirname); p_slug project; "original"; img_file img].

Definition projectOutputDir (project : Project) (img : Image) : string :=
  path_join [distDir (CONFIG dirname); "images"; p_slug project;
             JS.padStart (pretty (img_index img)) 2 "0"].

Definition projectCacheKey (project : Project) (img : Image) : string :=
  p_slug project +:+ "/" +:+ img_file img.

(** The duplicate-filename pass over one project. *)
Definition checkDuplicate (project : Project) (img : Image) (st : ImagesState)
    : ImagesState :=
  let lowerFilename := JS.toLowerCase (img_file img) in
  match allFilenames st !! lowerFilename with
  | Some other =>
      pushWarnings ["Duplicate filename: " +:+ JS.dquote +:+ img_file img +:+ JS.dquote
                    +:+ " in " +:+ p_slug project +:+ " (also in " +:+ other +:+ ")"] st
  | None => setFilename lowerFilename (p_slug project) st
  end.

(** The body of [for (const img of project.images)].  [validateImage]
    cannot throw, so its call and the push of its warnings are written
    ahead of the [try]; everything else is the [try] block with its
    [catch]. *)
Definition processProjectImage (project : Project) (img : Image)
    (st : ImagesState) : M ImagesState :=
  let inputPath := projectInputPath project img in
  let outputDir := projectOutputDir project img in
  let cacheKey := projectCacheKey project img in
  let! validation := validateImage inputPath (p_slug project +:+ "/" +:+ img_file img) in
  let st := pushWarnings (snd validation) st in
  try_catch
    (let! fileHash := getFileHash inputPath in
     fun w =>
       match cacheHit w cacheKey fileHash outputDir with
       | Some cached =>
           (modify (print (Stdout "."));;;
            ret (countSkipped
                   (setImageData (p_slug project) (img_index img)
                      {| pi_data := data cached; pi_size := img_size img |} st))) w
       | None =>
           (let! result := processImage inputPath outputDir (img_file img) (Some cacheKey) in
            updateCache cacheKey fileHash (ProjectData result);;;
            modify (print (Stdout "+"));;;
            ret (countProcessed
                   (setImageData (p_slug project) (img_index img)
                      {| pi_data := ProjectData result; pi_size := img_size img |} st))) w
       end)
    (fun e =>
       error (JS.nl +:+ "    Error processing " +:+ img_file img +:+ ": " +:+ e);;;
       ret st).

(** A [for ... of] loop whose body updates the local variables [S]. *)
Fixpoint forEach {A S : Type} (body : A → S → M S) (xs : list A) (s : S) : M S :=
  match xs with
  | [] => ret s
  | x :: rest => let! s' := body x s in forEach body rest s'
  end.

(** The body of [for (const project of projects)]. *)
Definition processProject (project : Project) (st : ImagesState) : M ImagesState :=
  if negb (p_hasImages project) then ret st
  else
    log ("  Processing " +:+ p_title project +:+ "...");;;
    let st := startProject (p_slug project) st in
    let st := foldl (fun acc img => checkDuplicate project img acc) st (p_images project) in
    let! st := forEach (processProjectImage project) (p_images project) st in
    log (" (" +:+ pretty (projectProcessed st) +:+ " new, "
         +:+ pretty (projectSkipped st) +:+ " cached, "
         +:+ pretty (length (p_images project)) +:+ " total)");;;
    ret st.

(** [processImages(projects)]; the local variables are returned along
    with [imageData] so that the counts can be read. *)
Definition processImages (projects : list Project) : M ImagesState :=
  log "Processing project images...";;;
  let! st := forEach processProject projects initialImagesState in
  (if bool_decide (0 < length (warnings st))%nat then
     log (JS.nl +:+ "  Image validation warnings:");;;
     forEach (fun wn (_ : unit) => log ("    - " +:+ wn)) (warnings st) tt
   else ret tt);;;
  log (JS.nl +:+ "  Summary: " +:+ pretty (totalProcessed st) +:+ " images processed, "
       +:+ pretty (totalSkipped st) +:+ " cached");;;
  ret st.

(** ** The orchestrator: homepage slideshow *)

Record SrcsetLists := {
  avifSrcset : list string;
  webpSrcset : list string;
  jpgSrcset : list string
}.

Definition joinSrcset (l : SrcsetLists) : Srcset :=
  {| ss_avif := JS.join ", " (avifSrcset l);
     ss_webp := JS.join ", " (webpSrcset l);
     ss_jpg := JS.join ", " (jpgSrcset l) |}.

Definition srcsetItem (urlDir : string) (width : Z) (f : Format) : string :=
  urlDir +:+ "/" +:+ pretty width +:+ extension f +:+ " " +:+ pretty width +:+ "w".

(** The resize loop written out in [processHomepageImages] and again in
    [processFolder]: the same three [toFile] calls and three [push]es per
    width that the source is wide enough for.  [urlDir] is
    [/images/homepage/<num>] in the first and
    [/images/landing/<type>/<baseName>] in the second. *)
Fixpoint srcsetLoop (inputPath outputDir urlDir : string) (W : Z)
    (widths : list Z) (acc : SrcsetLists) : M SrcsetLists :=
  match widths with
  | [] => ret acc
  | width :: rest =>
      if bool_decide (W >= width) then
        toFile inputPath width AVIF (path_join [outputDir; pretty width +:+ ".avif"]);;;
        toFile inputPath width WEBP (path_join [outputDir; pretty width +:+ ".webp"]);;;
        toFile inputPath width JPEG (path_join [outputDir; pretty width +:+ ".jpg"]);;;
        srcsetLoop inputPath outputDir urlDir W rest
          {| avifSrcset := avifSrcset acc ++ [srcsetItem urlDir width AVIF];
             webpSrcset := webpSrcset acc ++ [srcsetItem urlDir width WEBP];
             jpgSrcset := jpgSrcset acc ++ [srcsetItem urlDir width JPEG] |}
      else srcsetLoop inputPath outputDir urlDir W rest acc
  end.

(** [Math.max(...sizes.filter(s => metadata.width >= s))] *)
Definition maxAvailableSize (ladder : list Z) (W : Z) : JS.number :=
  JS.Math_max (filter (fun s => W >= s) ladder).

Definition homepageSizes : list Z := imageSizes (CONFIG dirname).

Definition homepageUrlDir (num : Z) : string := "/images/homepage/" +:+ pretty num.

(** The derivation written out in the homepage loop, from
    [sharp(inputPath)] to the object stored in [homepageImages[num]]. *)
Definition deriveHomepageImage (num : Z) (inputPath outputDir : string)
    : M HomepageImage :=
  modify (record_call (EngineCall inputPath outputDir));;;
  let! md := metadata inputPath in
  ensureDir outputDir;;;
  let! sets := srcsetLoop inputPath outputDir (homepageUrlDir num) (m_width md)
                 homepageSizes
                 {| avifSrcset := []; webpSrcset := []; jpgSrcset := [] |} in
  let! buffer := placeholderBuffer inputPath in
  let! color := extractDominantColor inputPath in
  ret {| h_index := num;
         h_path := homepageUrlDir num;
         h_srcset := joinSrcset sets;
         h_src := homepageUrlDir num +:+ "/"
                  +:+ JS.toString (maxAvailableSize homepageSizes (m_width md))
                  +:+ ".jpg";
         h_placeholder := "data:image/jpeg;base64," +:+ buffer;
         h_aspectRatio := (m_width md, m_height md);
         h_width := m_width md;
         h_height := m_height md;
         h_dominantColor := color |}.

Record HomepageState := {
  homepageImages : gmap Z DerivedData;
  processedCount : nat;
  skippedCount : nat
}.

(** [/^\d+\.(jpg|jpeg|png)$/i] *)
Definition isNumberedImage (f : string) : bool :=
  let '(ds, rest) := JS.span_digits f in
  negb (String.eqb ds "")
  && bool_decide (JS.toLowerCase rest ∈ [".jpg"; ".jpeg"; ".png"]).

(** [parseInt(path.basename(file, path.extname(file)))]; on a name that
    passed the filter the base name is its run of leading digits.  The
    number is the one the digits spell as long as it is a safe integer, at
    most [MAX_SAFE_INTEGER]; beyond that the script computes with a rounded
    number, and what is stated about the order and the folders of the
    slides is stated for safe numbers. *)
Definition fileNumber (f : string) : Z := JS.parseInt f.

(** [Number.MAX_SAFE_INTEGER] *)
Definition MAX_SAFE_INTEGER : Z := 2 ^ 53 - 1.

Definition homepageInputPath (f : string) : string :=
  path_join [homepageDir (CONFIG dirname); f].

Definition homepageOutputDir (f : string) : string :=
  path_join [distDir (CONFIG dirname); "images"; "homepage"; pretty (fileNumber f)].

Definition homepageCacheKey (f : string) : string := "homepage/" +:+ f.

(** The body of [for (const file of numberedImages)]. *)
Definition processHomepageFile (f : string) (st : HomepageState) : M HomepageState :=
  let num := fileNumber f in
  let inputPath := homepageInputPath f in
  let outputDir := homepageOutputDir f in
  let cacheKey := homepageCacheKey f in
  try_catch
    (let! fileHash := getFileHash inputPath in
     fun w =>
       match cacheHit w cacheKey fileHash outputDir with
       | Some cached =>
           (modify (print (Stdout "."));;;
            ret {| homepageImages := <[num := data cached]> (homepageImages st);
                   processedCount := processedCount st;
                   skippedCount := S (skippedCount st) |}) w
       | None =>
           (let! entry := deriveHomepageImage num inputPath outputDir in
            updateCache cacheKey fileHash (HomepageData entry);;;
            modify (print (Stdout "+"));;;
            ret {| homepageImages := <[num := HomepageData entry]> (homepageImages st);
                   processedCount := S (processedCount st);
                   skippedCount := skippedCount st |}) w
       end)
    (fun e =>
       error (JS.nl +:+ "  Error processing " +:+ f +:+ ": " +:+ e);;;
       ret st).

Definition readdir (dir : string) : M (list string) := lift (fs_readdir env dir).

Definition outputJson (p : string) : M unit :=
  lift_unit (fs_outputJson env p);;;
  modify (add_written p).

(** [processHomepageImages]; the counters are returned along with
    [homepageImages]. *)
Definition processHomepageImages : M HomepageState :=
  log "Processing homepage images...";;;
  let st0 := {| homepageImages := ∅; processedCount := 0; skippedCount := 0 |} in
  let! present := pathExists (homepageDir (CONFIG dirname)) in
  if negb present then
    log "  No homepage folder found";;;
    ret st0
  else
    let! files := readdir (homepageDir (CONFIG dirname)) in
    let numberedImages := JS.sort_by fileNumber (filter (fun f => isNumberedImage f = true) files) in
    let! st := forEach processHomepageFile numberedImages st0 in
    (if bool_decide (0 < size (homepageImages st))%nat then
       outputJson (path_join [distDir (CONFIG dirname); "homepage.json"])
     else ret tt);;;
    log (JS.nl +:+ "  Homepage: " +:+ pretty (processedCount st) +:+ " processed, "
         +:+ pretty (skippedCount st) +:+ " cached ("
         +:+ pretty (size (homepageImages st)) +:+ " total)");;;
    ret st.

(** ** The orchestrator: landing-page categories *)

Definition landingSizes : list Z := [800; 1200; 1800].

Definition outputBase : string := path_join [distDir (CONFIG dirname); "images"; "landing"].

(** [/\.(jpg|jpeg|png|webp)$/i] *)
Definition isLandingImage (f : string) : bool :=
  let lower := JS.toLowerCase f in
  JS.endsWith lower ".jpg" || JS.endsWith lower ".jpeg"
  || JS.endsWith lower ".png" || JS.endsWith lower ".webp".

Definition landingBaseName (type : string) (i : nat) : string :=
  type +:+ "-" +:+ pretty (i + 1)%nat.

Definition landingOutputDir (type : string) (i : nat) : string :=
  path_join [outputBase; type; landingBaseName type i].

Definition landingUrlDir (type : string) (i : nat) : string :=
  "/images/landing/" +:+ type +:+ "/" +:+ landingBaseName type i.

(** The [try] block of [processFolder], up to the pushed object. *)
Definition deriveLandingImage (type : string) (i : nat) (inputPath : string)
    : M LandingImage :=
  modify (record_call (EngineCall inputPath (landingOutputDir type i)));;;
  let! md := metadata inputPath in
  let! sets := srcsetLoop inputPath (landingOutputDir type i) (landingUrlDir type i)
                 (m_width md) landingSizes
                 {| avifSrcset := []; webpSrcset := []; jpgSrcset := [] |} in
  ret {| l_src := landingUrlDir type i +:+ "/"
                  +:+ JS.toString (maxAvailableSize landingSizes (m_width md))
                  +:+ ".jpg";
         l_srcset := joinSrcset sets;
         l_width := m_width md;
         l_height := m_height md;
         l_aspectRatio := (m_width md, m_height md) |}.

(** The [try] block of [processFolder] with its [catch]. *)
Definition processLandingFile (type : string) (i : nat) (f inputPath : string)
    (results : list LandingImage) : M (list LandingImage) :=
  try_catch
    (let! entry := deriveLandingImage type i inputPath in
     modify (print (Stdout "."));;;
     ret (results ++ [entry]))
    (fun e =>
       error (JS.nl +:+ "  Error processing " +:+ f +:+ ": " +:+ e);;;
       ret results).

(** The [for (let i = 0; i < imageFiles.length; i++)] loop of
    [processFolder]; [ensureDir] stands outside the [try]. *)
Fixpoint processFolderLoop (inputDir type : string) (i : nat)
    (imageFiles : list string) (results : list LandingImage) : M (list LandingImage) :=
  match imageFiles with
  | [] => ret results
  | f :: rest =>
      let inputPath := path_join [inputDir; f] in
      ensureDir (landingOutputDir type i);;;
      let! results' := processLandingFile type i f inputPath results in
      processFolderLoop inputDir type (S i) rest results'
  end.

Definition processFolder (inputDir outputDir type : string) : M (list LandingImage) :=
  let! present := pathExists inputDir in
  if negb present then
    log ("  No " +:+ type +:+ " landing folder found");;;
    ret []
  else
    let! files := readdir inputDir in
    let imageFiles := filter (fun f => isLandingImage f = true) files in
    processFolderLoop inputDir type 0 imageFiles [].

Record LandingImages := { commercial : list LandingImage; personal : list LandingImage }.

Definition commercialDir : string :=
  path_join [homepageDir (CONFIG dirname); "Commercial Home Images"].
Definition personalDir : string :=
  path_join [homepageDir (CONFIG dirname); "Personal Home Images"].

Definition processLandingImages : M LandingImages :=
  log "Processing landing page images...";;;
  let! c := processFolder commercialDir outputBase "commercial" in
  let! p := processFolder personalDir outputBase "personal" in
  log (JS.nl +:+ "  Landing: " +:+ pretty (length c) +:+ " commercial, "
       +:+ pretty (length p) +:+ " personal");;;
  ret {| commercial := c; personal := p |}.

(** ** The build *)

Definition external (s : Stage) : M unit := lift_unit (stage env s).

(** [loadProjects]: the guard on the projects directory is the script's;
    reading and ordering the [project.json] files is left to the
    environment. *)
Definition loadProjects : M (list Project) :=
  let! present := pathExists (projectsDir (CONFIG dirname)) in
  if negb present then
    log "No projects directory found, skipping project loading";;;
    ret []
  else lift (read_projects env).

(** The body of the [try] block of [build], up to the call of
    [saveImageCache]. *)
Definition buildStages : M unit :=
  log "Loading image cache...";;;
  loadImageCache;;;
  external Clean;;;
  let! projects := loadProjects in
  log ("Found " +:+ pretty (length projects) +:+ " projects");;;
  external LoadVideos;;;
  external LoadPrints;;;
  let! imageData := processImages projects in
  let! homepageImages := processHomepageImages in
  let! landingImages := processLandingImages in
  external LoadCriticalCss;;;
  external GeneratePages;;;
  external CopyAssets;;;
  external GenerateCacheManifest;;;
  external GenerateSitemap;;;
  external GenerateRobotsTxt.

(** [build]: everything runs inside one [try]; its [catch] is the only
    place that calls [process.exit(1)].  The value returned is the status
    the process ends with: 1 from [process.exit(1)], 0 when the script runs
    to its end. *)
Definition build : M Z :=
  log "Building Jonathan Clifford Portfolio";;;
  try_catch
    (buildStages;;;
     saveImageCache;;;
     log "Build complete";;;
     ret 0)
    (fun e =>
       error ("Build failed: " +:+ e);;;
       ret 1).

End Script.

(** ** Vocabulary of the statements *)

(** ** Frame conditions

    [keeps R m]: whatever [m] does and however it ends, the world it leaves
    is [R]-related to the world it started in. *)

Definition keeps {A} (R : relation World) (m : M A) : Prop :=
  ∀ w w' r, m w = (w', r) → R w w'.

(** What the derivation code never touches: the cache, its dirty flag and
    the cache file. *)
Record store_eq (w w' : World) : Prop := {
  se_cache : imageCache w' = imageCache w;
  se_updated : imageCacheUpdated w' = imageCacheUpdated w;
  se_file : cacheFile w' = cacheFile w
}.

(** What the library calls of a derivation may do to the rest of the
    world: create directories and write files, never remove any, and print
    nothing. *)
Record grows (w w' : World) : Prop := {
  gr_dirs : dirs w ⊆ dirs w';
  gr_written : ∃ new, written w' = new ++ written w;
  gr_console : console w' = console w;
  gr_calls : calls w' = calls w
}.

(** [validateImage], as the value it returns. *)
Definition validation (env : Env) (filePath filename : string)
    : option Metadata * list string :=
  match sharp_metadata env filePath with
  | Ok md =>
      if bool_decide (m_width md < 1200) then
        (Some md, ["Warning: " +:+ filename +:+ " is only " +:+ pretty (m_width md)
                   +:+ "px wide (recommended: 1200px+)"])
      else (Some md, [])
  | Throw e => (None, ["Error reading " +:+ filename +:+ ": " +:+ e])
  end.

Definition encodings (outputDir : string) (x : Z) : list string :=
  [sizeFile outputDir x AVIF; sizeFile outputDir x WEBP; sizeFile outputDir x JPEG].

Definition markAll (acc : gmap Z bool) (xs : list Z) : gmap Z bool :=
  foldl (fun m x => <[x := true]> m) acc xs.


(** ** A concrete site, used to run the script on examples *)

Module Demo.

(** Every file can be read and hashed; a file whose name ends in
    [corrupt.jpg] is not an image; [small.jpg] and [7.jpg] are 300 pixels
    wide, [photo.jpg] 2000, anything else 900.  Encoding [halfway.jpg] at
    800 pixels fails, everything else succeeds.  The homepage folder holds
    two slides and a text file, the commercial landing folder two images. *)
Definition env : Env := {|
  fs_readFile_md5 := fun p => Ok ("md5 of " +:+ p);
  sharp_metadata := fun p =>
    if JS.endsWith p "corrupt.jpg"
    then Throw "Input file contains unsupported image format"
    else if JS.endsWith p "small.jpg" || JS.endsWith p "/7.jpg"
    then Ok {| m_width := 300; m_height := 200 |}
    else if JS.endsWith p "photo.jpg" then Ok {| m_width := 2000; m_height := 1000 |}
    else Ok {| m_width := 900; m_height := 600 |};
  sharp_toFile := fun p x _ _ =>
    if JS.endsWith p "halfway.jpg" && bool_decide (x = 800)
    then Some "No space left on device" else None;
  sharp_toBuffer := fun _ => Ok "AAAA";
  sharp_stats := fun _ => Ok (232, 232, 230)%N;
  fs_copy := fun _ _ => None;
  fs_ensureDir := fun _ => None;
  fs_outputJson := fun _ => None;
  fs_readdir := fun d =>
    if String.eqb d "./homepage" then Ok ["2.jpg"; "notes.txt"; "1.jpg"]
    else if String.eqb d "./homepage/Commercial Home Images" then Ok ["a.jpg"; "small.jpg"]
    else Ok [];
  read_projects := Ok [ {| p_slug := "a"; p_title := "A"; p_hasImages := true;
                           p_images := [ {| img_file := "01.jpg"; img_index := 1;
                                            img_size := "full" |};
                                         {| img_file := "02.jpg"; img_index := 2;
                                            img_size := "full" |} ] |} ];
  stage := fun _ => None
|}.

Definition results900 : Results := {|
  sizes := <[800 := true]> (<[400 := true]> ∅);
  placeholder := "data:image/jpeg;base64,AAAA";
  aspectRatio := (900, 600);
  width := 900;
  height := 600;
  dominantColor := "#e8e8e6"
|}.

Definition image (f : string) (i : Z) : Image :=
  {| img_file := f; img_index := i; img_size := "full" |}.

Definition project (images : list Image) : Project :=
  {| p_slug := "a"; p_title := "A"; p_hasImages := bool_decide (0 < length images)%nat;
     p_images := images |}.

(** The project of the site, with its two images. *)
Definition projects : list Project := [ project [ image "01.jpg" 1; image "02.jpg" 2 ] ].

(** A batch of ten images whose fifth file is not an image. *)
Definition ten : list Image :=
  [ image "01.jpg" 1; image "02.jpg" 2; image "03.jpg" 3; image "04.jpg" 4;
    image "corrupt.jpg" 5; image "06.jpg" 6; image "07.jpg" 7; image "08.jpg" 8;
    image "09.jpg" 9; image "10.jpg" 10 ].

(** A fresh checkout: nothing cached, nothing built, no folders. *)
Definition empty : World := {|
  imageCache := ∅; imageCacheUpdated := false; dirs := ∅; written := [];
  cacheFile := None; console := []; calls := []; stored := []
|}.


(** A checkout with its [projects] and [homepage] folders, not built
    yet. *)
Definition site : World := {|
  imageCache := ∅; imageCacheUpdated := false;
  dirs := {[ "./projects"; "./homepage" ]}; written := [];
  cacheFile := None; console := []; calls := []; stored := []
|}.

(** The cache of a run that was asked to remember a landing image under
    every key one could think of, with the hash its source has. *)
Definition landingRemembered : World := {|
  imageCache :=
    {[ "commercial/a.jpg" := {| hash := "md5 of ./homepage/Commercial Home Images/a.jpg";
                                data := ProjectData results900 |};
       "landing/a.jpg" := {| hash := "md5 of ./homepage/Commercial Home Images/a.jpg";
                             data := ProjectData results900 |};
       "landing/commercial/a.jpg" :=
         {| hash := "md5 of ./homepage/Commercial Home Images/a.jpg";
            data := ProjectData results900 |} ]};
  imageCacheUpdated := false;
  dirs := {[ "./homepage/Commercial Home Images";
             "./dist/images/landing/commercial/commercial-1" ]};
  written := []; cacheFile := None; console := []; calls := []; stored := []
|}.

(** A checkout that has only the commercial landing folder. *)
Definition landing : World := {|
  imageCache := ∅; imageCacheUpdated := false;
  dirs := {[ "./homepage/Commercial Home Images" ]}; written := [];
  cacheFile := None; console := []; calls := []; stored := []
|}.

(** A run that has put one new entry into the cache. *)
Definition dirty : World := {|
  imageCache := {[ "a/01.jpg" := {| hash := "md5 of ./projects/a/original/01.jpg";
                                    data := ProjectData results900 |} ]};
  imageCacheUpdated := true; dirs := {[ "./dist/images/a/01" ]}; written := [];
  cacheFile := None; console := []; calls := []; stored := []
|}.

(** The cache remembers [a/01.jpg] with the hash its source still has,
    but the [dist] folder is gone. *)
Definition cachedNoOutput : World := {|
  imageCache := {[ "a/01.jpg" := {| hash := "md5 of ./projects/a/original/01.jpg";
                                    data := ProjectData results900 |} ]};
  imageCacheUpdated := false; dirs := ∅; written := [];
  cacheFile := None; console := []; calls := []; stored := []
|}.


(** The same for the first slide of the homepage. *)
Definition cachedSlideNoOutput : World := {|
  imageCache := {[ "homepage/1.jpg" := {| hash := "md5 of ./homepage/1.jpg";
                                          data := ProjectData results900 |} ]};
  imageCacheUpdated := false; dirs := {[ "./homepage" ]}; written := [];
  cacheFile := None; console := []; calls := []; stored := []
|}.




Definition noSlides : HomepageState :=
  {| homepageImages := ∅; processedCount := 0; skippedCount := 0 |}.

(** Two slides with one number, [1.jpg] and [1.png]: the cache remembers
    both from an earlier run, and their folder is gone. *)
Definition slidesLost : World := {|
  imageCache :=
    imageCache (fst (forEach (processHomepageFile "." env) ["1.jpg"; "1.png"] noSlides site));
  imageCacheUpdated := false; dirs := {[ "./homepage" ]}; written := [];
  cacheFile := None; console := []; calls := []; stored := []
|}.

End Demo.

(** The two caching loops share the shape of their bodies: hash the source,
    look the key up, then either hand out the cached data or derive, store
    and hand out the new data, with one [catch] around it all.
    [cachedStep] is that shape; [processProjectImage_shape] and
    [processHomepageFile_shape] state that the two bodies are instances of
    it. *)
Definition cachedStep {D S : Type} (env : Env) (inputPath outputDir cacheKey : string)
    (derive : M D) (wrap : D → DerivedData) (message : exn → string)
    (onHit : DerivedData → S) (onDerived : D → S) (onError : S) : M S :=
  try_catch
    (let! fileHash := getFileHash env inputPath in
     fun w =>
       match cacheHit w cacheKey fileHash outputDir with
       | Some cached =>
           (modify (print (Stdout "."));;;
            ret (onHit (data cached))) w
       | None =>
           (let! d := derive in
            updateCache cacheKey fileHash (wrap d);;;
            modify (print (Stdout "+"));;;
            ret (onDerived d)) w
       end)
    (fun e => error (message e);;; ret onError).

(** How one pass through the body of a caching loop can end. *)
Inductive StepResult (D : Type) :=
| HashFailed (e : exn)
| Hit (fileHash : string) (cached : CacheEntry)
| DeriveFailed (fileHash : string) (e : exn)
| Derived (fileHash : string) (d : D).
Arguments HashFailed {D} e.
Arguments Hit {D} fileHash cached.
Arguments DeriveFailed {D} fileHash e.
Arguments Derived {D} fileHash d.

(** [stepResult] replays the decisions of [cachedStep] without building its
    local state: which of the four ways the step takes from [w]. *)
Definition stepResult {D : Type} (env : Env) (inputPath outputDir cacheKey : string)
    (derive : M D) (w : World) : StepResult D :=
  match fs_readFile_md5 env inputPath with
  | Throw e => HashFailed e
  | Ok fileHash =>
      match cacheHit w cacheKey fileHash outputDir with
      | Some cached => Hit fileHash cached
      | None =>
          match derive (record_call (HashCall inputPath) w) with
          | (_, Ok d) => Derived fileHash d
          | (_, Throw e) => DeriveFailed fileHash e
          end
      end
  end.

(** The world a step leaves behind, by the way it took. *)
Definition stepWorld {D : Type} (inputPath cacheKey : string)
    (derive : M D) (wrap : D → DerivedData) (message : exn → string)
    (res : StepResult D) (w : World) : World :=
  let w1 := record_call (HashCall inputPath) w in
  match res with
  | HashFailed e => print (Stderr (message e)) w1
  | Hit _ _ => print (Stdout ".") w1
  | DeriveFailed _ e => print (Stderr (message e)) (fst (derive w1))
  | Derived fileHash d =>
      let w2 := fst (derive w1) in
      print (Stdout "+")
        (record_store cacheKey
           (set_imageCacheUpdated true
              (set_imageCache
                 (<[cacheKey := {| hash := fileHash; data := wrap d |}]> (imageCache w2))
                 w2)))
  end.

(** The local state a step leaves behind, by the way it took. *)
Definition stepState {D S : Type} (onHit : DerivedData → S) (onDerived : D → S)
    (onError : S) (res : StepResult D) : S :=
  match res with
  | HashFailed _ | DeriveFailed _ _ => onError
  | Hit _ cached => onHit (data cached)
  | Derived _ d => onDerived d
  end.

(** The number of lines sent to [console.error]. *)
Fixpoint errorLines (out : list Output) : nat :=
  match out with
  | [] => 0
  | Stderr _ :: rest => S (errorLines rest)
  | Stdout _ :: rest => errorLines rest
  end.

Definition stderrCount (w : World) : nat := errorLines (console w).

(** The number of images [processImages] loops over. *)
Definition imagesCount (projects : list Project) : nat :=
  sum_list_with (fun p => if p_hasImages p then length (p_images p) else 0%nat) projects.

(** What the caching loops rely on in a derivation: it leaves the store
    alone, removes no directory and prints nothing; and whether it returns
    or throws, and what it returns, does not depend on the world it starts
    in. *)
Definition well_behaved {D} (derive : M D) : Prop :=
  ∀ w w' r, derive w = (w', r) →
    store_eq w w' ∧ dirs w ⊆ dirs w' ∧ console w' = console w.

Definition blind {A} (m : M A) : Prop := ∀ w w', snd (m w) = snd (m w').

(** The four counters that [processImages] keeps. *)
Definition counters (st : ImagesState) : nat * nat * nat * nat :=
  (totalProcessed st, totalSkipped st, projectProcessed st, projectSkipped st).

(** Images accounted for so far: counted as processed, counted as skipped,
    or reported on [console.error]. *)
Definition served (st : ImagesState) (w : World) : nat :=
  (totalProcessed st + totalSkipped st + stderrCount w)%nat.

(** The cache keys of the images [processImages] loops over, in order. *)
Definition imageKeys (project : Project) : list string :=
  projectCacheKey project <$> p_images project.


(** Two worlds whose caches hold the same under each key of a list. *)
Definition agree (keys : list string) (w w' : World) : Prop :=
  ∀ k, k ∈ keys → imageCache w !! k = imageCache w' !! k.

(** What it takes for a loop body (or a whole loop) [body], working on the
    cache keys [keysOf x], to be quiet when it is run again: it always
    returns; it touches the cache under its own keys only, removes no
    directory and takes back no error line; and run again from any world
    that still holds, under those keys, what the first run left there, and
    still has the directories, it leaves the cache alone and counts nothing
    as processed.  If moreover the first run reported no error, the second
    run counts each of the [n x] images as skipped, reports no error, and
    hands out the same data ([Rel] relates the local state of the two
    runs). *)
Record Rerun {X St : Type} (body : X → St → M St) (keysOf : X → list string)
    (n : X → nat) (proc skip : St → nat) (Rel : relation St) : Prop := {
  rr_total : ∀ x st w, ∃ w1 st1, body x st w = (w1, Ok st1);
  rr_footprint : ∀ x st w w1 r,
    body x st w = (w1, r) →
    (∀ k, k ∉ keysOf x → imageCache w1 !! k = imageCache w !! k)
    ∧ dirs w ⊆ dirs w1
    ∧ (stderrCount w ≤ stderrCount w1)%nat;
  rr_again : ∀ x st st' w w1 st1 w',
    body x st w = (w1, Ok st1) →
    NoDup (keysOf x) →
    agree (keysOf x) w' w1 →
    dirs w1 ⊆ dirs w' →
    ∃ w2 st2,
      body x st' w' = (w2, Ok st2)
      ∧ imageCache w2 = imageCache w'
      ∧ imageCacheUpdated w2 = imageCacheUpdated w'
      ∧ proc st2 = proc st'
      ∧ (stderrCount w1 = stderrCount w → Rel st st' →
         Rel st1 st2 ∧ stderrCount w2 = stderrCount w'
         ∧ skip st2 = (n x + skip st')%nat)
}.

(** The local states of two runs of [processImages] hold the same data. *)
Definition sameImageData (st st' : ImagesState) : Prop := imageData st = imageData st'.

Definition sameHomepageImages (st st' : HomepageState) : Prop :=
  homepageImages st = homepageImages st'.

(** A computation that creates no directory but those of [outs], and only
    adds to the trace of calls. *)
Record within (outs : gset string) (w w' : World) : Prop := {
  wi_dirs : dirs w' ⊆ outs ∪ dirs w;
  wi_calls : ∃ new, calls w' = new ++ calls w
}.

(** The output directories of the images [processImages] loops over. *)
Definition imageOutputs (dirname : string) (project : Project) : list string :=
  projectOutputDir dirname project <$> p_images project.

Definition projectOutputs (dirname : string) (projects : list Project) : list string :=
  mjoin ((fun p => if p_hasImages p then imageOutputs dirname p else []) <$> projects).

(** [untouched w w']: when the dirty flag is down in [w'], it was down in
    [w] already and the mapping has not moved since. *)
Definition untouched (w w' : World) : Prop :=
  imageCacheUpdated w' = false →
  imageCacheUpdated w = false ∧ imageCache w' = imageCache w.

(** [storedSince w w']: from [w] to [w'] the keys [new] were stored, the
    latest first.  The dirty flag of [w'] is up exactly when it was up in
    [w] or a key was stored; the mapping has lost no key and holds an entry
    under every key that was stored. *)
Definition storedSince (w w' : World) : Prop :=
  ∃ new,
    stored w' = new ++ stored w
    ∧ imageCacheUpdated w' = imageCacheUpdated w || bool_decide (new ≠ [])
    ∧ dom (imageCache w) ⊆ dom (imageCache w')
    ∧ ∀ k, k ∈ new → is_Some (imageCache w' !! k).


(** * The other stages of the build *)

(** ** Reading a colour back *)

(** The value of a hexadecimal digit, as [parseInt(c, 16)] reads it. *)
Definition hexDigitValue (c : ascii) : option N :=
  let n := N_of_ascii c in
  if ((48 <=? n) && (n <=? 57))%N then Some (n - 48)%N
  else if ((97 <=? n) && (n <=? 102))%N then Some (n - 87)%N
  else None.

(** A CSS colour [#rrggbb] read back into its three channels. *)
Definition cssColour (s : string) : option (N * N * N) :=
  match s with
  | String "#" (String r1 (String r2 (String g1 (String g2 (String b1 (String b2 "")))))) =>
      match hexDigitValue r1, hexDigitValue r2, hexDigitValue g1,
            hexDigitValue g2, hexDigitValue b1, hexDigitValue b2 with
      | Some r1, Some r2, Some g1, Some g2, Some b1, Some b2 =>
          Some (16 * r1 + r2, 16 * g1 + g2, 16 * b1 + b2)%N
      | _, _, _, _, _, _ => None
      end
  | _ => None
  end.

(** ** Strings *)

(** The characters of a string, one by one. *)
Fixpoint chars (s : string) : list ascii :=
  match s with
  | EmptyString => []
  | String c rest => c :: chars rest
  end.

(** ** [clean] *)

(** Does [s] start with [p]? *)
Fixpoint startsWith (p s : string) : bool :=
  match p, s with
  | EmptyString, _ => true
  | String a p', String b s' => Ascii.eqb a b && startsWith p' s'
  | String _ _, EmptyString => false
  end.

(** Is [d] the path [p] or a path below it? *)
Definition isUnder (p d : string) : bool :=
  String.eqb d p || startsWith (p +:+ "/") d.

(** What [fs.remove(p)] does to the folders: [p] goes, with all that is
    below it. *)
Definition remove_path (p : string) (w : World) : World :=
  {| imageCache := imageCache w; imageCacheUpdated := imageCacheUpdated w;
     dirs := filter (fun d => isUnder p d = false) (dirs w);
     written := written w; cacheFile := cacheFile w;
     console := console w; calls := calls w;
     stored := stored w |}.

Section Clean.

Variable dirname : string.
Variable env : Env.

(** [fs.remove], which may be refused. *)
Variable fs_remove : string → option exn.

Definition remove (p : string) : M unit :=
  lift_unit (fs_remove p);;;
  modify (remove_path p).

(** The body of [for (const item of items)]. *)
Definition cleanItem (item : string) (_ : unit) : M unit :=
  if negb (String.eqb item "images")
  then remove (path_join [distDir (CONFIG dirname); item])
  else ret tt.

(** [clean] *)
Definition clean : M unit :=
  log "Cleaning dist directory...";;;
  let! present := pathExists (distDir (CONFIG dirname)) in
  if present then
    let! items := readdir env (distDir (CONFIG dirname)) in
    forEach cleanItem items tt
  else ensureDir env (distDir (CONFIG dirname)).

End Clean.

(** [imagesKept dirname w w']: the cache is the same in [w'] as in [w],
    and so is every folder at or below [dist/images]. *)
Record imagesKept (dirname : string) (w w' : World) : Prop := {
  ik_cache : imageCache w' = imageCache w;
  ik_updated : imageCacheUpdated w' = imageCacheUpdated w;
  ik_file : cacheFile w' = cacheFile w;
  ik_dirs : ∀ rest : string,
    (rest = "" ∨ ∃ rest', rest = String "/" rest') →
    path_join [distDir (CONFIG dirname); "images"] +:+ rest ∈ dirs w' ↔
    path_join [distDir (CONFIG dirname); "images"] +:+ rest ∈ dirs w
}.

(** ** [loadProjects]: the inventory of a project *)

(** An entry of the [images] array of a [project.json]. *)
Record ConfigImage := { ci_file : option string; ci_size : option string }.

(** A [project.json], as far as the script reads it.  A field that is
    absent is [None]; [title] is the string the script calls methods on. *)
Record ProjectConfig := {
  c_title : string;
  c_slug : option string;
  c_order : option Z;
  c_images : list ConfigImage;
  c_portfolio : option string;
  c_featured : option bool;
  c_description : option string;
  c_location : option string;
  c_client : option string;
  c_category : option string
}.

(** [x || fallback] on an optional string: the empty string is falsy. *)
Definition orElse (x : option string) (fallback : string) : string :=
  match x with
  | Some s => if String.eqb s "" then fallback else s
  | None => fallback
  end.

(** Is an optional string truthy? *)
Definition truthy (x : option string) : bool :=
  match x with
  | Some s => negb (String.eqb s "")
  | None => false
  end.

(** [/\.(jpg|jpeg|png)$/i] *)
Definition isProjectImage (f : string) : bool :=
  let lower := JS.toLowerCase f in
  JS.endsWith lower ".jpg" || JS.endsWith lower ".jpeg" || JS.endsWith lower ".png".

Module JSArray.

(** [Array.prototype.sort] with a comparator: a stable sort, written as
    an insertion sort.  The element that stood first goes in front of
    those it does not compare greater than. *)
Fixpoint insert_with {A} (cmp : A → A → Z) (x : A) (xs : list A) : list A :=
  match xs with
  | [] => [x]
  | y :: rest =>
      if bool_decide (cmp x y <= 0) then x :: xs
      else y :: insert_with cmp x rest
  end.

Definition sort_with {A} (cmp : A → A → Z) (xs : list A) : list A :=
  foldr (fun x acc => insert_with cmp x acc) [] xs.

(** [Array.prototype.find] *)
Fixpoint find {A} (p : A → bool) (xs : list A) : option A :=
  match xs with
  | [] => None
  | x :: rest => if p x then Some x else find p rest
  end.

(** [Array.prototype.includes] on strings *)
Definition includes (xs : list string) (x : string) : bool := bool_decide (x ∈ xs).

End JSArray.

Section LoadProjects.

(** [a.localeCompare(b, undefined, { numeric: true })] and
    [a.localeCompare(b)] are the collation of the machine the build runs
    on. *)
Variable localeCompareNumeric : string → string → Z.
Variable localeCompare : string → string → Z.

(** [config.images?.find(i => i.file === file)?.size || 'full'] *)
Definition sizeOf (images : list ConfigImage) (file : string) : string :=
  match JSArray.find (fun i => bool_decide (ci_file i = Some file)) images with
  | Some i => orElse (ci_size i) "full"
  | None => "full"
  end.

(** [.map((file, index) => ({ file, index: index + 1, size }))] *)
Definition numberImages (size : string → string) (files : list string) : list Image :=
  imap (fun index file =>
          {| img_file := file; img_index := Z.of_nat index + 1; img_size := size file |})
       files.

(** The [images] of a project, from the [images] array of its
    [project.json] and the listing of its [original] folder. *)
Definition projectImages (configImages : list ConfigImage) (files : list string)
    : list Image :=
  let imageFiles := filter (fun f => isProjectImage f = true) files in
  if bool_decide (0 < length configImages)%nat then
    let orderedFiles :=
      filter (fun f => JSArray.includes imageFiles f = true) (omap ci_file configImages) in
    let unlistedFiles :=
      JSArray.sort_with localeCompareNumeric
        (filter (fun f => JSArray.includes orderedFiles f = false) imageFiles) in
    numberImages (sizeOf configImages) (orderedFiles ++ unlistedFiles)
  else
    numberImages (fun _ => "full") (JSArray.sort_with localeCompareNumeric imageFiles).

(** What [loadProjects] pushes for a folder: the fields of [project.json]
    spread out, with [slug], [images] and [hasImages] on top. *)
Record Loaded := { config : ProjectConfig; entry : Project }.

(** A folder of [projects/] as [loadProjects] finds it: its name, its
    [project.json] if there is one (readable or not) and the listing of
    its [original] folder if there is one. *)
Record ProjectDir := {
  d_name : string;
  d_config : option (result ProjectConfig);
  d_original : option (result (list string))
}.

Definition makeLoaded (dir : string) (cfg : ProjectConfig) (images : list Image) : Loaded :=
  {| config := cfg;
     entry := {| p_slug := orElse (c_slug cfg) dir;
                 p_title := c_title cfg;
                 p_hasImages := bool_decide (0 < length images)%nat;
                 p_images := images |} |}.

(** The body of [for (const dir of projectDirs)]. *)
Definition loadProject (d : ProjectDir) (projects : list Loaded) : result (list Loaded) :=
  match d_config d with
  | None => Ok projects
  | Some (Throw e) => Throw e
  | Some (Ok cfg) =>
      match d_original d with
      | None => Ok (projects ++ [makeLoaded (d_name d) cfg []])
      | Some (Throw e) => Throw e
      | Some (Ok files) =>
          Ok (projects ++ [makeLoaded (d_name d) cfg (projectImages (c_images cfg) files)])
      end
  end.

Fixpoint loadProjectDirs (ds : list ProjectDir) (projects : list Loaded)
    : result (list Loaded) :=
  match ds with
  | [] => Ok projects
  | d :: rest =>
      match loadProject d projects with
      | Ok projects' => loadProjectDirs rest projects'
      | Throw e => Throw e
      end
  end.

(** [a.order], as a condition: absent and [0] are falsy. *)
Definition orderOf (p : Loaded) : option Z :=
  match c_order (config p) with
  | Some 0 => None
  | o => o
  end.

(** The comparator of the final [sort], on projects that have a title:
    the record holds one always, whereas the script throws a [TypeError]
    from the last line when [a.title] is missing. *)
Definition compareProjects (a b : Loaded) : Z :=
  match orderOf a, orderOf b with
  | Some x, Some y => x - y
  | Some _, None => -1
  | None, Some _ => 1
  | None, None => localeCompare (c_title (config a)) (c_title (config b))
  end.

(** [loadProjects], once the [projects] folder is known to exist and has
    been listed. *)
Definition loadProjectList (ds : list ProjectDir) : result (list Loaded) :=
  match loadProjectDirs ds [] with
  | Ok projects => Ok (JSArray.sort_with compareProjects projects)
  | Throw e => Throw e
  end.

End LoadProjects.

(** A folder whose [project.json], or whose [original] folder, cannot be
    read: the error [loadProjects] meets there. *)
Definition unreadable (d : ProjectDir) (e : exn) : Prop :=
  d_config d = Some (Throw e)
  ∨ (∃ cfg, d_config d = Some (Ok cfg) ∧ d_original d = Some (Throw e)).

(** ** [generatePages]: which pages, and where *)

Definition siteUrl : string := "https://jonathanclifford.com".

(** [p.portfolio === 'personal' || !p.portfolio] *)
Definition isPersonal (p : Loaded) : bool :=
  bool_decide (c_portfolio (config p) = Some "personal")
  || negb (truthy (c_portfolio (config p))).

(** [p.portfolio === 'commercial'] *)
Definition isCommercial (p : Loaded) : bool :=
  bool_decide (c_portfolio (config p) = Some "commercial").

Definition personalProjects (projects : list Loaded) : list Loaded :=
  filter (fun p => isPersonal p = true) projects.

Definition commercialProjects (projects : list Loaded) : list Loaded :=
  filter (fun p => isCommercial p = true) projects.

(** [p.featured !== false] *)
Definition featured (projects : list Loaded) : list Loaded :=
  filter (fun p => c_featured (config p) ≠ Some false) projects.

(** The slugs of [commercialCategories], in their order. *)
Definition commercialCategorySlugs : list string :=
  ["food-drink"; "interiors"; "product"; "travel"; "sport-lifestyle"; "people"].

(** A call of [nunjucks.render] followed by [fs.outputFile]: of the
    context, the three fields that place the page, and the file it is
    written to. *)
Record Page := {
  template : string;
  currentPath : string;
  portfolio : option string;
  file : string
}.

Section Pages.

Variable dirname : string.

Definition distFile (segments : list string) : string :=
  path_join (distDir (CONFIG dirname) :: segments).

(** The two pages of a project under [/personal/], [/commercial/] or, for
    the legacy pages, under the root. *)
Definition projectPages (urlBase : string) (folders : list string)
    (portfolioOf : Loaded → option string) (p : Loaded) : list Page :=
  let slug := p_slug (entry p) in
  [ {| template := "project.njk";
       currentPath := urlBase +:+ "/projects/" +:+ slug +:+ "/";
       portfolio := portfolioOf p;
       file := distFile (folders ++ ["projects"; slug; "index.html"]) |};
    {| template := "project-grid.njk";
       currentPath := urlBase +:+ "/projects/" +:+ slug +:+ "/grid/";
       portfolio := portfolioOf p;
       file := distFile (folders ++ ["projects"; slug; "grid"; "index.html"]) |} ].

Definition categoryPage (slug : string) : Page :=
  {| template := "category-commercial.njk";
     currentPath := "/commercial/" +:+ slug +:+ "/";
     portfolio := Some "commercial";
     file := distFile ["commercial"; slug; "index.html"] |}.

(** The pages of [generatePages], in the order they are rendered and
    written. *)
Definition pages (projects : list Loaded) : list Page :=
  [ {| template := "landing.njk"; currentPath := "/"; portfolio := None;
       file := distFile ["index.html"] |};
    {| template := "home.njk"; currentPath := "/personal/"; portfolio := Some "personal";
       file := distFile ["personal"; "index.html"] |};
    {| template := "work.njk"; currentPath := "/personal/work/";
       portfolio := Some "personal";
       file := distFile ["personal"; "work"; "index.html"] |} ]
  ++ mjoin (projectPages "/personal" ["personal"] (fun _ => Some "personal")
              <$> personalProjects projects)
  ++ [ {| template := "about.njk"; currentPath := "/personal/about/";
          portfolio := Some "personal";
          file := distFile ["personal"; "about"; "index.html"] |};
       {| template := "contact.njk"; currentPath := "/personal/contact/";
          portfolio := Some "personal";
          file := distFile ["personal"; "contact"; "index.html"] |};
       {| template := "work-commercial.njk"; currentPath := "/commercial/";
          portfolio := Some "commercial";
          file := distFile ["commercial"; "index.html"] |};
       {| template := "work-commercial.njk"; currentPath := "/commercial/work/";
          portfolio := Some "commercial";
          file := distFile ["commercial"; "work"; "index.html"] |} ]
  ++ (categoryPage <$> commercialCategorySlugs)
  ++ mjoin (projectPages "/commercial" ["commercial"] (fun _ => Some "commercial")
              <$> commercialProjects projects)
  ++ [ {| template := "about.njk"; currentPath := "/commercial/about/";
          portfolio := Some "commercial";
          file := distFile ["commercial"; "about"; "index.html"] |};
       {| template := "contact.njk"; currentPath := "/commercial/contact/";
          portfolio := Some "commercial";
          file := distFile ["commercial"; "contact"; "index.html"] |};
       {| template := "video.njk"; currentPath := "/video/"; portfolio := None;
          file := distFile ["video"; "index.html"] |};
       {| template := "video.njk"; currentPath := "/commercial/video/";
          portfolio := Some "commercial";
          file := distFile ["commercial"; "video"; "index.html"] |};
       {| template := "prints.njk"; currentPath := "/prints/";
          portfolio := Some "personal";
          file := distFile ["prints"; "index.html"] |};
       {| template := "prints-success.njk"; currentPath := "/prints/success/";
          portfolio := Some "personal";
          file := distFile ["prints"; "success"; "index.html"] |};
       {| template := "work.njk"; currentPath := "/work/"; portfolio := None;
          file := distFile ["work"; "index.html"] |};
       {| template := "about.njk"; currentPath := "/about/"; portfolio := None;
          file := distFile ["about"; "index.html"] |};
       {| template := "contact.njk"; currentPath := "/contact/"; portfolio := None;
          file := distFile ["contact"; "index.html"] |} ]
  ++ mjoin (projectPages "" []
              (fun p => Some (orElse (c_portfolio (config p)) "personal"))
              <$> projects)
  ++ [ {| template := "404.njk"; currentPath := "/404.html"; portfolio := None;
          file := distFile ["404.html"] |} ].

(** The template engine and the file system under [generatePages]. *)
Record PageEnv := {
  nunjucks_render : Page → result string;
  fs_outputFile : string → option exn
}.

Variable penv : PageEnv.

(** A page that cannot be rendered, or cannot be written. *)
Definition pageFails (pg : Page) (e : exn) : Prop :=
  nunjucks_render penv pg = Throw e
  ∨ (∃ html, nunjucks_render penv pg = Ok html) ∧ fs_outputFile penv (file pg) = Some e.

Definition pageWritten (pg : Page) : Prop :=
  (∃ html, nunjucks_render penv pg = Ok html) ∧ fs_outputFile penv (file pg) = None.

(** [const html = nunjucks.render(...); await fs.outputFile(...);
    pageCount++] *)
Definition writePage (pg : Page) (pageCount : nat) : M nat :=
  let! html := lift (nunjucks_render penv pg) in
  lift_unit (fs_outputFile penv (file pg));;;
  modify (add_written (file pg));;;
  ret (S pageCount).

Definition generatePages (projects : list Loaded) : M unit :=
  modify (print (Stdout "Generating HTML pages..."));;;
  let! pageCount := forEach writePage (pages projects) 0%nat in
  modify (print (Stdout ("  Generated " +:+ pretty pageCount +:+ " pages"))).

End Pages.

(** ** [generatePages]: the commercial grids *)

(** Does [s], from its first character to its last, match
    [/\/\d+\.jpg$/]?  The digits are taken greedily; since what must follow
    them is a dot, giving some of them back never helps. *)
Definition isSizeName (s : string) : bool :=
  match s with
  | String "/" rest =>
      let '(ds, tl) := JS.span_digits rest in
      negb (String.eqb ds "") && String.eqb tl ".jpg"
  | _ => false
  end.

(** [src.replace(/\/\d+\.jpg$/, '')]: the first position from which the
    pattern matches is cut off with all that follows. *)
Fixpoint stripSize (s : string) : string :=
  if isSizeName s then ""
  else match s with
       | EmptyString => EmptyString
       | String c rest => String c (stripSize rest)
       end.

(** An entry of [commercialGridImages]; its [placeholder] is [null]. *)
Record GridImage := { g_path : string; g_link : string; g_alt : string }.

Definition gridImage (img : LandingImage) (number : nat) : GridImage :=
  {| g_path := stripSize (l_src img);
     g_link := "/commercial/";
     g_alt := "Commercial photography " +:+ pretty number |}.

(** The [while] loop that fills the grid up to six images.  Reading
    [landingImages.commercial[idx].src] past the end of the array would be
    a [TypeError]. *)
Fixpoint gridLoop (fuel : nat) (commercial : list LandingImage) (grid : list GridImage)
    : result (list GridImage) :=
  match fuel with
  | O => Ok grid
  | S fuel' =>
      if bool_decide (length grid < 6)%nat && bool_decide (0 < length commercial)%nat then
        match commercial !! (length grid mod length commercial)%nat with
        | Some img => gridLoop fuel' commercial (grid ++ [gridImage img (length grid + 1)])
        | None => Throw "TypeError: Cannot read properties of undefined (reading 'src')"
        end
      else Ok grid
  end.

(** [commercialGridImages] after the loop; six rounds are all the loop can
    make. *)
Definition commercialGridImages (commercial : list LandingImage) : result (list GridImage) :=
  gridLoop 6 commercial (imap (fun i img => gridImage img (i + 1)) commercial).

(** [gridImages: commercialGridImages.slice(0, 6)] *)
Definition gridImages (commercial : list LandingImage) : result (list GridImage) :=
  match commercialGridImages commercial with
  | Ok grid => Ok (take 6 grid)
  | Throw e => Throw e
  end.

(** The grid holds, at every position, the image of the landing array at
    that position taken modulo the length of the array. *)
Definition gridCycles (commercial : list LandingImage) (grid : list GridImage) : Prop :=
  ∀ i, (i < length grid)%nat →
    ∃ img, commercial !! (i mod length commercial)%nat = Some img
           ∧ grid !! i = Some (gridImage img (i + 1)).

(** [img.aspectRatio || 1.5]: the quotient [width / height] is falsy when
    it is [0] or [NaN], that is when the width is 0. *)
Inductive Ratio :=
| Quotient (w h : Z)
| OneAndAHalf.

Record PortfolioImage := {
  f_path : string;
  f_alt : string;
  f_aspectRatio : Ratio;
  f_width : Z;
  f_height : Z
}.

(** The [portfolioImages] of the category at [categoryIndex]; on an empty
    array the index [(categoryIndex + i) % 0] is [NaN] and reads
    [undefined]. *)
Definition portfolioImages (commercial : list LandingImage) (categoryIndex : nat)
    (title : string) : list PortfolioImage :=
  let numImages := (9 + categoryIndex mod 4)%nat in
  omap (fun i =>
          let img :=
            if bool_decide (length commercial = 0)%nat then None
            else commercial !! ((categoryIndex + i) mod length commercial)%nat in
          match img with
          | Some img =>
              Some {| f_path := stripSize (l_src img);
                      f_alt := title +:+ " photography - Image " +:+ pretty (i + 1)%nat;
                      f_aspectRatio :=
                        (let '(w, h) := l_aspectRatio img in
                         if bool_decide (w = 0) then OneAndAHalf else Quotient w h);
                      f_width := l_width img;
                      f_height := l_height img |}
          | None => None
          end)
       (seq 0 numImages).

(** ** [generatePages]: the description of a project *)

Fixpoint contains (c : ascii) (s : string) : bool :=
  match s with
  | EmptyString => false
  | String d rest => Ascii.eqb d c || contains c rest
  end.

(** [str.replace(/<[^>]*>/g, '')], read from left to right.  A [<] opens a
    match when a [>] follows somewhere, and the match runs up to the first
    one; when none follows, nothing from there on can match.  [inTag] says
    that the text is being read inside such a match. *)
Fixpoint stripFrom (inTag : bool) (s : string) : string :=
  match s with
  | EmptyString => EmptyString
  | String c rest =>
      if inTag then
        if Ascii.eqb c ">" then stripFrom false rest else stripFrom true rest
      else if Ascii.eqb c "<" then
        if contains ">" rest then stripFrom true rest else s
      else String c (stripFrom false rest)
  end.

Definition stripTags (s : string) : string := stripFrom false s.

(** A text in which no [>] follows a [<]: it holds no complete tag. *)
Definition tagFree (s : string) : Prop :=
  ∀ l1 l2, chars s = l1 ++ "<"%char :: l2 → ">"%char ∉ l2.

(** [s.substring(0, n)] *)
Fixpoint substring0 (n : nat) (s : string) : string :=
  match n, s with
  | S k, String c rest => String c (substring0 k rest)
  | _, _ => EmptyString
  end.

(** [project.description ? project.description.replace(/<[^>]*>/g,
    '').substring(0, 160) : fallback] *)
Definition describe (p : Loaded) (fallback : string) : string :=
  if truthy (c_description (config p))
  then substring0 160 (stripTags (orElse (c_description (config p)) ""))
  else fallback.

(** [x ? prefix + x : ''] *)
Definition withPrefix (prefix : string) (x : option string) : string :=
  if truthy x then prefix +:+ orElse x "" else "".

(** [projectDesc] of the personal, the commercial and the legacy page of a
    project. *)
Definition personalDesc (p : Loaded) : string :=
  describe p (p_title (entry p) +:+ " - Documentary photography project"
              +:+ withPrefix " from " (c_location (config p))
              +:+ " by Jonathan Clifford.").

Definition commercialDesc (p : Loaded) : string :=
  describe p (p_title (entry p) +:+ " - Commercial photography"
              +:+ withPrefix " for " (c_client (config p))
              +:+ withPrefix " in " (c_location (config p)) +:+ ".").

Definition legacyDesc (p : Loaded) : string :=
  describe p (p_title (entry p) +:+ " - Photography project"
              +:+ withPrefix " from " (c_location (config p))
              +:+ " by Jonathan Clifford.").

(** ** [generatePages]: the preview image of a project *)

(** [imageData[project.slug]?.[img.index] || null] *)
Definition imageDataOf (imageData : gmap string (gmap Z ProjectImage))
    (p : Loaded) (img : Image) : option ProjectImage :=
  match imageData !! p_slug (entry p) with
  | Some ofProject => ofProject !! img_index img
  | None => None
  end.

(** [ogImage: projectImages[0]?.data ?
    `${CONFIG.siteUrl}/images/${project.slug}/01/1200.jpg` : null] *)
Definition ogImage (imageData : gmap string (gmap Z ProjectImage)) (p : Loaded)
    : option string :=
  match p_images (entry p) with
  | img :: _ =>
      match imageDataOf imageData p img with
      | Some _ => Some (siteUrl +:+ "/images/" +:+ p_slug (entry p) +:+ "/01/1200.jpg")
      | None => None
      end
  | [] => None
  end.

(** ** [generateSitemap] and [generateCacheManifest] *)

Record SitemapUrl := {
  loc : string;
  priority : string;
  changefreq : string
}.

(** The [urls] of [generateSitemap]; [lastmod] is the day of the build and
    the same for all. *)
Definition sitemapUrls (projects : list Loaded) : list SitemapUrl :=
  [ {| loc := siteUrl +:+ "/"; priority := "1.0"; changefreq := "weekly" |};
    {| loc := siteUrl +:+ "/personal/"; priority := "1.0"; changefreq := "weekly" |};
    {| loc := siteUrl +:+ "/personal/work/"; priority := "0.9"; changefreq := "weekly" |};
    {| loc := siteUrl +:+ "/personal/about/"; priority := "0.8"; changefreq := "monthly" |};
    {| loc := siteUrl +:+ "/personal/contact/"; priority := "0.8"; changefreq := "monthly" |};
    {| loc := siteUrl +:+ "/commercial/"; priority := "1.0"; changefreq := "weekly" |};
    {| loc := siteUrl +:+ "/commercial/work/"; priority := "0.9"; changefreq := "weekly" |};
    {| loc := siteUrl +:+ "/commercial/about/"; priority := "0.8"; changefreq := "monthly" |};
    {| loc := siteUrl +:+ "/commercial/contact/"; priority := "0.8";
       changefreq := "monthly" |};
    {| loc := siteUrl +:+ "/prints/"; priority := "0.8"; changefreq := "monthly" |};
    {| loc := siteUrl +:+ "/video/"; priority := "0.8"; changefreq := "monthly" |} ]
  ++ ((fun slug => {| loc := siteUrl +:+ "/commercial/" +:+ slug +:+ "/";
                      priority := "0.85"; changefreq := "monthly" |})
        <$> commercialCategorySlugs)
  ++ mjoin ((fun p =>
               [ {| loc := siteUrl +:+ "/personal/projects/" +:+ p_slug (entry p) +:+ "/";
                    priority := "0.9"; changefreq := "monthly" |};
                 {| loc := siteUrl +:+ "/personal/projects/" +:+ p_slug (entry p)
                           +:+ "/grid/";
                    priority := "0.7"; changefreq := "monthly" |} ])
              <$> personalProjects projects)
  ++ mjoin ((fun p =>
               [ {| loc := siteUrl +:+ "/commercial/projects/" +:+ p_slug (entry p) +:+ "/";
                    priority := "0.9"; changefreq := "monthly" |};
                 {| loc := siteUrl +:+ "/commercial/projects/" +:+ p_slug (entry p)
                           +:+ "/grid/";
                    priority := "0.7"; changefreq := "monthly" |} ])
              <$> commercialProjects projects).

(** The [<url>] element of one entry. *)
Definition urlElement (today : string) (u : SitemapUrl) : string :=
  "  <url>" +:+ JS.nl
  +:+ "    <loc>" +:+ loc u +:+ "</loc>" +:+ JS.nl
  +:+ "    <lastmod>" +:+ today +:+ "</lastmod>" +:+ JS.nl
  +:+ "    <changefreq>" +:+ changefreq u +:+ "</changefreq>" +:+ JS.nl
  +:+ "    <priority>" +:+ priority u +:+ "</priority>" +:+ JS.nl
  +:+ "  </url>".

(** The text of [sitemap.xml]. *)
Definition sitemapXml (today : string) (projects : list Loaded) : string :=
  "<?xml version=" +:+ JS.dquote +:+ "1.0" +:+ JS.dquote
  +:+ " encoding=" +:+ JS.dquote +:+ "UTF-8" +:+ JS.dquote +:+ "?>" +:+ JS.nl
  +:+ "<urlset xmlns=" +:+ JS.dquote +:+ "http://www.sitemaps.org/schemas/sitemap/0.9"
  +:+ JS.dquote +:+ JS.nl
  +:+ "        xmlns:image=" +:+ JS.dquote
  +:+ "http://www.google.com/schemas/sitemap-image/1.1" +:+ JS.dquote +:+ ">" +:+ JS.nl
  +:+ JS.join JS.nl (urlElement today <$> sitemapUrls projects) +:+ JS.nl
  +:+ "</urlset>".

(** The object written to [cache-manifest.json], but for its [version]
    (the time of the build). *)
Record CacheManifest := {
  cm_static : list string;
  cm_pages : list string;
  cm_personal : list string;
  cm_commercial : list string;
  cm_legacy : list string
}.

Definition cacheManifest (projects : list Loaded) : CacheManifest :=
  {| cm_static := ["/css/styles.css"; "/js/critical.js"; "/js/interactive.js";
                   "/favicon.ico"; "/favicon.svg"; "/manifest.json"];
     cm_pages := ["/"; "/personal/"; "/personal/work/"; "/personal/about/";
                  "/personal/contact/"; "/commercial/"; "/commercial/work/";
                  "/commercial/about/"; "/commercial/contact/"; "/prints/"; "/video/";
                  "/work/"; "/about/"; "/contact/"; "/404.html"];
     cm_personal := (fun p => "/personal/projects/" +:+ p_slug (entry p) +:+ "/")
                      <$> personalProjects projects;
     cm_commercial := (fun p => "/commercial/projects/" +:+ p_slug (entry p) +:+ "/")
                        <$> commercialProjects projects;
     cm_legacy := (fun p => "/projects/" +:+ p_slug (entry p) +:+ "/") <$> projects |}.

(** The number printed by [generateCacheManifest] as its count of pages. *)
Definition manifestPageCount (m : CacheManifest) : nat :=
  length (cm_pages m)
  + (length (cm_personal m) + length (cm_commercial m) + length (cm_legacy m)).

(** ** Reading the trace of calls *)

(** The files that were hashed, latest first. *)
Definition hashed (cs : list Call) : list string :=
  omap (fun c => match c with HashCall p => Some p | EngineCall _ _ => None end) cs.

(** ** The cache file *)

(** [fileKept w w']: the cache file is in [w'] what it was in [w]. *)
Definition fileKept (w w' : World) : Prop := cacheFile w' = cacheFile w.

Module Sample.

(** An image library that cannot compute statistics. *)
Definition noStats : Env := {|
  fs_readFile_md5 := fs_readFile_md5 Demo.env;
  sharp_metadata := sharp_metadata Demo.env;
  sharp_toFile := sharp_toFile Demo.env;
  sharp_toBuffer := sharp_toBuffer Demo.env;
  sharp_stats := fun _ => Throw "stats failed";
  fs_copy := fs_copy Demo.env;
  fs_ensureDir := fs_ensureDir Demo.env;
  fs_outputJson := fs_outputJson Demo.env;
  fs_readdir := fs_readdir Demo.env;
  read_projects := read_projects Demo.env;
  stage := stage Demo.env
|}.

(** A disk on which the second commercial landing folder cannot be
    created. *)
Definition noSecondFolder : Env := {|
  fs_readFile_md5 := fs_readFile_md5 Demo.env;
  sharp_metadata := sharp_metadata Demo.env;
  sharp_toFile := sharp_toFile Demo.env;
  sharp_toBuffer := sharp_toBuffer Demo.env;
  sharp_stats := sharp_stats Demo.env;
  fs_copy := fs_copy Demo.env;
  fs_ensureDir := fun d =>
    if JS.endsWith d "commercial-2" then Some "EACCES: permission denied" else None;
  fs_outputJson := fs_outputJson Demo.env;
  fs_readdir := fs_readdir Demo.env;
  read_projects := read_projects Demo.env;
  stage := stage Demo.env
|}.

(** A site whose templates do not render. *)
Definition brokenTemplates : Env := {|
  fs_readFile_md5 := fs_readFile_md5 Demo.env;
  sharp_metadata := sharp_metadata Demo.env;
  sharp_toFile := sharp_toFile Demo.env;
  sharp_toBuffer := sharp_toBuffer Demo.env;
  sharp_stats := sharp_stats Demo.env;
  fs_copy := fs_copy Demo.env;
  fs_ensureDir := fs_ensureDir Demo.env;
  fs_outputJson := fs_outputJson Demo.env;
  fs_readdir := fs_readdir Demo.env;
  read_projects := read_projects Demo.env;
  stage := fun s =>
    match s with
    | GeneratePages => Some "Template render error"
    | _ => None
    end
|}.

(** Byte-wise comparison, standing for the collation of the machine. *)
Definition collate (a b : string) : Z :=
  if String.ltb a b then -1 else if String.eqb a b then 0 else 1.

Definition projectJson (title : string) (order : option Z) : ProjectConfig :=
  {| c_title := title; c_slug := None; c_order := order; c_images := [];
     c_portfolio := None; c_featured := None; c_description := None;
     c_location := None; c_client := None; c_category := None |}.

(** Five folders: three with an [order] (one of them 0), one without, and
    one that has no [project.json]. *)
Definition folders : list ProjectDir :=
  [ {| d_name := "harbour"; d_config := Some (Ok (projectJson "Harbour" (Some 2)));
       d_original := Some (Ok ["02.jpg"; "01.jpg"; "10.jpg"]) |};
    {| d_name := "drafts"; d_config := None; d_original := Some (Ok ["x.jpg"]) |};
    {| d_name := "allotments"; d_config := Some (Ok (projectJson "Allotments" None));
       d_original := None |};
    {| d_name := "zero"; d_config := Some (Ok (projectJson "Zero" (Some 0)));
       d_original := Some (Ok []) |};
    {| d_name := "markets"; d_config := Some (Ok (projectJson "Markets" (Some 1)));
       d_original := Some (Ok ["a.png"]) |} ].

(** The same folders, one of which holds a [project.json] that does not
    parse. *)
Definition brokenFolders : list ProjectDir :=
  folders ++ [ {| d_name := "broken"; d_config := Some (Throw "Unexpected token } in JSON");
                  d_original := None |} ].

(** Three projects: one personal by default, one commercial, and one
    filed under a portfolio the site does not have. *)
Definition portfolioOf (slug : string) (portfolio : option string) : Loaded :=
  {| config := {| c_title := slug; c_slug := Some slug; c_order := None; c_images := [];
                  c_portfolio := portfolio; c_featured := None; c_description := None;
                  c_location := None; c_client := None; c_category := None |};
     entry := {| p_slug := slug; p_title := slug; p_hasImages := false; p_images := [] |} |}.

Definition threeProjects : list Loaded :=
  [ portfolioOf "harbour" None;
    portfolioOf "canteen" (Some "commercial");
    portfolioOf "zine" (Some "editorial") ].

(** A template engine that fails on the first category page, over a disk
    that takes every file. *)
Definition categoryFails : PageEnv := {|
  nunjucks_render := fun pg =>
    if String.eqb (currentPath pg) "/commercial/food-drink/"
    then Throw "Template render error: category-commercial.njk"
    else Ok "<html></html>";
  fs_outputFile := fun _ => None
|}.

Definition rendersAll : PageEnv := {|
  nunjucks_render := fun _ => Ok "<html></html>";
  fs_outputFile := fun _ => None
|}.

(** The project of [Demo.projects], as [loadProjects] hands it over. *)
Definition harbour : Loaded :=
  {| config := projectJson "A" None;
     entry := Demo.project [Demo.image "01.jpg" 1; Demo.image "02.jpg" 2] |}.

(** A [dist] folder left by an earlier build: pages, styles, and the
    images of project [a]. *)
Definition builtBefore : World := {|
  imageCache := {[ "a/01.jpg" := {| hash := "md5 of ./projects/a/original/01.jpg";
                                    data := ProjectData Demo.results900 |} ]};
  imageCacheUpdated := false;
  dirs := {[ "./dist"; "./dist/css"; "./dist/personal"; "./dist/personal/work";
             "./dist/images"; "./dist/images/a"; "./dist/images/a/01";
             "./dist/imagesets"; "./projects" ]};
  written := []; cacheFile := None; console := []; calls := []; stored := []
|}.

(** A disk that lets everything be removed. *)
Definition removesAll : string → option exn := fun _ => None.

(** The listing of that [dist] folder. *)
Definition listsDist : Env := {|
  fs_readFile_md5 := fs_readFile_md5 Demo.env;
  sharp_metadata := sharp_metadata Demo.env;
  sharp_toFile := sharp_toFile Demo.env;
  sharp_toBuffer := sharp_toBuffer Demo.env;
  sharp_stats := sharp_stats Demo.env;
  fs_copy := fs_copy Demo.env;
  fs_ensureDir := fs_ensureDir Demo.env;
  fs_outputJson := fs_outputJson Demo.env;
  fs_readdir := fun d =>
    if String.eqb d "./dist"
    then Ok ["css"; "images"; "imagesets"; "index.html"; "personal"]
    else fs_readdir Demo.env d;
  read_projects := read_projects Demo.env;
  stage := stage Demo.env
|}.

(** [É.jpg] and [é.jpg]: one name in lower case. *)
Definition accented (capital : bool) : string :=
  String (ascii_of_nat (if capital then 201 else 233)) ".jpg".

End Sample.

(** * The migration script

    It reads the export of the old site, collects the image addresses of
    every gallery page and the Vimeo embeds, and writes the migration
    manifest.  Its three regular expressions are literals, character
    classes and greedy [+] and [*] in a row, so the matcher below covers
    them: it backtracks as [RegExp.prototype.exec] does, longest
    repetition first. *)

Module Regex.

Inductive quantifier := One | Star | Plus.

(** One character class of a pattern, with its repetition, and whether it
    stands in a capture group. *)
Record atom := {
  accepts : ascii → bool;
  quant : quantifier;
  captured : bool
}.

Definition Match : Type := list string * string.

Definition keep (a : atom) (text : string) (r : option Match) : option Match :=
  match r with
  | Some (caps, rest) => Some (if captured a then text :: caps else caps, rest)
  | None => None
  end.

(** A greedy repetition of [a] that has taken [taken] already: take one
    more character if there is one, and fall back on stopping here when
    the rest of the pattern, [k], fails after it. *)
Fixpoint more (a : atom) (k : string → option Match) (taken s : string)
    : option Match :=
  let stop := keep a taken (k s) in
  match s with
  | String c rest =>
      if accepts a c then
        match more a k (taken +:+ String c EmptyString) rest with
        | Some r => Some r
        | None => stop
        end
      else stop
  | EmptyString => stop
  end.

(** A match of the whole pattern at the start of [s]: the captures, and
    the text after the match. *)
Fixpoint matchAt (atoms : list atom) (s : string) {struct atoms} : option Match :=
  match atoms with
  | [] => Some ([], s)
  | a :: atoms' =>
      match s with
      | String c rest =>
          if accepts a c then
            match quant a with
            | One => keep a (String c EmptyString) (matchAt atoms' rest)
            | Plus => more a (matchAt atoms') (String c EmptyString) rest
            | Star => more a (matchAt atoms') EmptyString s
            end
          else
            match quant a with
            | Star => keep a EmptyString (matchAt atoms' s)
            | _ => None
            end
      | EmptyString =>
          match quant a with
          | Star => keep a EmptyString (matchAt atoms' s)
          | _ => None
          end
      end
  end.

(** The leftmost match in [s]. *)
Fixpoint search (atoms : list atom) (s : string) : option Match :=
  match matchAt atoms s with
  | Some r => Some r
  | None =>
      match s with
      | String _ rest => search atoms rest
      | EmptyString => None
      end
  end.

(** The loop [while ((match = regex.exec(s)) !== null)] of a global
    pattern: every search starts where the last match ended. *)
Fixpoint matchAll (fuel : nat) (atoms : list atom) (s : string) : list (list string) :=
  match fuel with
  | O => []
  | S fuel' =>
      match search atoms s with
      | Some (caps, rest) => caps :: matchAll fuel' atoms rest
      | None => []
      end
  end.

(** [match[n]] *)
Definition group (n : nat) (caps : list string) : string := nth (n - 1) caps "".

(** A literal character under the flag [i]. *)
Definition lit (c : ascii) : atom :=
  {| accepts := fun x => Ascii.eqb (JS.lower_ascii x) (JS.lower_ascii c);
     quant := One; captured := false |}.

Definition lits (s : string) : list atom := lit <$> chars s.

Definition class (p : ascii → bool) (q : quantifier) : atom :=
  {| accepts := p; quant := q; captured := false |}.

Definition capture (p : ascii → bool) (q : quantifier) : atom :=
  {| accepts := p; quant := q; captured := true |}.

(** The least number of characters in a match. *)
Definition minLength (atoms : list atom) : nat :=
  foldr (fun a n => match quant a with Star => n | _ => S n end) O atoms.

(** What a match is: the text starts with one piece for each atom, made
    of characters of its class and as long as its repetition allows, and
    the pieces of the capture groups are the captures. *)
Definition fits (a : atom) (p : string) : Prop :=
  Forall (fun c => accepts a c = true) (chars p)
  ∧ match quant a with
    | One => String.length p = 1%nat
    | Plus => (1 <= String.length p)%nat
    | Star => True
    end.

Inductive matches : list atom → string → list string → string → Prop :=
| matches_nil s : matches [] s [] s
| matches_cons a atoms p s caps rest :
    fits a p →
    matches atoms s caps rest →
    matches (a :: atoms) (p +:+ s) (if captured a then p :: caps else caps) rest.

End Regex.

Module JSString.

(** [String.prototype.includes] *)
Fixpoint includes (s needle : string) : bool :=
  startsWith needle s ||
  match s with
  | String _ rest => includes rest needle
  | EmptyString => false
  end.

(** [\s], among the code units below 256. *)
Definition isSpace (c : ascii) : bool :=
  bool_decide (nat_of_ascii c ∈ [9; 10; 11; 12; 13; 32; 160]%nat).

(** [s.replace(/[^...]/g, '')]: the characters of the class go. *)
Fixpoint removeAll (p : ascii → bool) (s : string) : string :=
  match s with
  | EmptyString => EmptyString
  | String c rest => if p c then removeAll p rest else String c (removeAll p rest)
  end.

(** [s.replace(/[...]+/g, '-')]: every run of characters of the class
    becomes one hyphen.  [inRun] says that the character before was of
    the class. *)
Fixpoint hyphenate (p : ascii → bool) (inRun : bool) (s : string) : string :=
  match s with
  | EmptyString => EmptyString
  | String c rest =>
      if p c then
        if inRun then hyphenate p true rest
        else String "-" (hyphenate p true rest)
      else String c (hyphenate p false rest)
  end.

Fixpoint trimStart (s : string) : string :=
  match s with
  | String c rest => if isSpace c then trimStart rest else s
  | EmptyString => EmptyString
  end.

Fixpoint trimEnd (s : string) : string :=
  match s with
  | String c rest =>
      match trimEnd rest with
      | EmptyString => if isSpace c then EmptyString else String c EmptyString
      | rest' => String c rest'
      end
  | EmptyString => EmptyString
  end.

(** [String.prototype.trim] *)
Definition trim (s : string) : string := trimEnd (trimStart s).

End JSString.

Module Migration.

Import Regex.

Definition EXCLUDED_SLUGS : list string :=
  ["home"; "contact"; "about"; "jc-cv"; "capturing-medieval-london";
   "parliament-hill-lido"].

Definition VIDEO_PAGE_SLUGS : list string :=
  ["trick-or-treat"; "jaunt"; "the-heroes-within-zine"; "i-am-sarajevan-video";
   "his-land-his-spirit-video"].

Definition isQuote (c : ascii) : bool :=
  Ascii.eqb c (ascii_of_nat 34) || Ascii.eqb c "'".

Definition notQuote (c : ascii) : bool := negb (isQuote c).

Definition notGt (c : ascii) : bool := negb (Ascii.eqb c ">").

(** The pattern of [extractImageUrls], with the flags [g] and [i]: the
    letters [<img], one character or more that are not [>], the letters
    [src=], a quote of either kind, the captured address (one character or
    more, none a quote), a quote again, any characters but [>], and [>]. *)
Definition imgRegex : list atom :=
  lits "<img" ++ [class notGt Plus] ++ lits "src="
  ++ [class isQuote One; capture notQuote Plus; class isQuote One; class notGt Star]
  ++ lits ">".

(** The second pattern of [extractVimeoEmbed], [/vimeo\.com\/video\/(\d+)/i]. *)
Definition simpleVimeoRegex : list atom :=
  lits "vimeo.com/video/" ++ [capture JS.isDigit Plus].

(** The first pattern of [extractVimeoEmbed]: the same, then any
    characters that are not quotes, a quote, any characters but [>], the
    letters [title=], and a captured title between two quotes. *)
Definition vimeoRegex : list atom :=
  simpleVimeoRegex
  ++ [class notQuote Star; class isQuote One; class notGt Star]
  ++ lits "title="
  ++ [class isQuote One; capture notQuote Plus; class isQuote One].

(** The test of the loop of [extractImageUrls]: no blank slide, no text
    overlay, and an address of the old host. *)
Definition isPhoto (url : string) : bool :=
  negb (String.eqb url "")
  && negb (JSString.includes url "blank_slide")
  && negb (JSString.includes url "Project_Text")
  && negb (JSString.includes url "_Text_")
  && JSString.includes url "squarespace-cdn.com".

(** [[...new Set(urls)]]: the first occurrence of every address, in the
    order of the list. *)
Fixpoint unique (seen urls : list string) : list string :=
  match urls with
  | [] => []
  | url :: rest =>
      if bool_decide (url ∈ seen) then unique seen rest
      else url :: unique (url :: seen) rest
  end.

(** The content of an item is a string, or undefined when the item has
    none.  No match of [imgRegex] is empty, so the loop ends within as
    many rounds as the text has characters. *)
Definition extractImageUrls (html : option string) : list string :=
  match html with
  | None => []
  | Some h =>
      if String.eqb h "" then []
      else unique [] (filter (fun url => isPhoto url = true)
                        (group 1 <$> matchAll (S (String.length h)) imgRegex h))
  end.

Record Embed := {
  vimeoId : string;
  embedTitle : option string
}.

Definition extractVimeoEmbed (html : option string) : option Embed :=
  match html with
  | None => None
  | Some h =>
      if String.eqb h "" then None
      else
        match search vimeoRegex h with
        | Some (caps, _) =>
            Some {| vimeoId := group 1 caps; embedTitle := Some (group 2 caps) |}
        | None =>
            match search simpleVimeoRegex h with
            | Some (caps, _) => Some {| vimeoId := group 1 caps; embedTitle := None |}
            | None => None
            end
        end
  end.

(** [/[^a-z0-9\s-]/] *)
Definition notSlugChar (c : ascii) : bool :=
  let n := N_of_ascii c in
  negb (((97 <=? n) && (n <=? 122))%N || JS.isDigit c || JSString.isSpace c
        || Ascii.eqb c "-").

Definition isHyphen (c : ascii) : bool := Ascii.eqb c "-".

(** Strings hold code units below 256 here. *)
Definition createSlug (title : string) : string :=
  JSString.trim
    (JSString.hyphenate isHyphen false
       (JSString.hyphenate JSString.isSpace false
          (JSString.removeAll notSlugChar (JS.toLowerCase title)))).

(** An item of the export, as the parser hands it over: an element that
    is missing is undefined. *)
Record Item := {
  post_type : option string;
  post_name : option string;
  title : string;
  content : option string
}.

Record Video := {
  v_title : string;
  v_slug : option string;
  v_vimeoId : string
}.

Record Gallery := {
  g_title : string;
  images : list string
}.

(** What the loop over the items builds: the object [projects], keyed by
    slug (a map, as the object is for every slug but [__proto__]), the array
    [videos], and the lines on the console. *)
Record Collected := {
  projects : gmap string Gallery;
  videos : list Video;
  logged : list string
}.

Definition log (line : string) (c : Collected) : Collected :=
  {| projects := projects c; videos := videos c; logged := logged c ++ [line] |}.

Definition isExcluded (name : option string) : bool :=
  match name with
  | Some n => JSArray.includes EXCLUDED_SLUGS n
  | None => false
  end.

Definition isVideoPage (name : option string) : bool :=
  match name with
  | Some n => JSArray.includes VIDEO_PAGE_SLUGS n
  | None => false
  end.

(** [`${postName}`] *)
Definition shown (name : option string) : string := default "undefined" name.

Definition videoOf (item : Item) (e : Embed) : Video :=
  {| v_title := orElse (embedTitle e) (title item);
     v_slug := post_name item;
     v_vimeoId := vimeoId e |}.

Definition slugOf (item : Item) : string :=
  orElse (post_name item) (createSlug (title item)).

(** The images of the item, if it has any, become the project of its
    slug. *)
Definition addGallery (item : Item) (c : Collected) : Collected :=
  let imageUrls := extractImageUrls (content item) in
  if bool_decide (0 < length imageUrls)%nat then
    log ("  Found project: " +:+ title item +:+ " (" +:+ slugOf item +:+ ") - "
         +:+ pretty (length imageUrls) +:+ " images")
      {| projects := <[slugOf item := {| g_title := title item; images := imageUrls |}]>
                       (projects c);
         videos := videos c; logged := logged c |}
  else c.

(** One round of the loop over the items. *)
Definition visit (c : Collected) (item : Item) : Collected :=
  if negb (bool_decide (post_type item = Some "page")) then c
  else if isExcluded (post_name item) then
    log ("  Skipping excluded page: " +:+ shown (post_name item)) c
  else
    match extractVimeoEmbed (content item) with
    | Some e =>
        let c' := {| projects := projects c; videos := videos c ++ [videoOf item e];
                     logged := logged c |} in
        if isVideoPage (post_name item) then
          log ("  Found video page: " +:+ shown (post_name item)
               +:+ " (Vimeo ID: " +:+ vimeoId e +:+ ")") c'
        else addGallery item c'
    | None => addGallery item c
    end.

Definition collect (items : list Item) : Collected :=
  foldl visit {| projects := ∅; videos := []; logged := [] |} items.

(** Is the item a page that the loop looks into? *)
Definition isRead (item : Item) : bool :=
  bool_decide (post_type item = Some "page") && negb (isExcluded (post_name item)).

(** Is the item a page that the loop takes a project from: a page it
    looks into, with an image, and not a video page with an embed? *)
Definition hasGallery (item : Item) : bool :=
  isRead item
  && negb (isVideoPage (post_name item)
           && bool_decide (is_Some (extractVimeoEmbed (content item))))
  && bool_decide (extractImageUrls (content item) ≠ []).

Definition galleryOf (item : Item) : Gallery :=
  {| g_title := title item; images := extractImageUrls (content item) |}.

(** [/[a-z0-9-]/] *)
Definition slugChar (c : ascii) : bool :=
  let n := N_of_ascii c in
  ((97 <=? n) && (n <=? 122))%N || JS.isDigit c || Ascii.eqb c "-".

End Migration.

Module MigrationSample.

Import Migration.

Definition q : string := JS.dquote.

Definition cdn : string := "https://images.squarespace-cdn.com/content/".

(** A gallery of two photographs, one of them twice, around a blank
    slide; the second tag has a lazy-loading attribute before [src]. *)
Definition galleryHtml : string :=
  "<p>Harbour</p><img src=" +:+ q +:+ cdn +:+ "one.jpg" +:+ q +:+ " alt='a'>"
  +:+ "<IMG data-src=" +:+ q +:+ cdn +:+ "lazy.jpg" +:+ q +:+ " src='" +:+ cdn +:+ "two.jpg'>"
  +:+ "<img src=" +:+ q +:+ cdn +:+ "blank_slide.png" +:+ q +:+ ">"
  +:+ "<img src=" +:+ q +:+ cdn +:+ "one.jpg" +:+ q +:+ ">".

Definition videoHtml : string :=
  "<iframe src=" +:+ q +:+ "https://player.Vimeo.com/video/76979871?h=1" +:+ q
  +:+ " width='640' title=" +:+ q +:+ "Jaunt" +:+ q +:+ "></iframe>".

Definition page (name title : string) (html : string) : Item :=
  {| post_type := Some "page"; post_name := Some name; title := title;
     content := Some html |}.

Definition items : list Item :=
  [ page "home" "Home" galleryHtml;
    {| post_type := Some "attachment"; post_name := Some "one"; title := "one";
       content := Some galleryHtml |};
    page "harbour" "Harbour" galleryHtml;
    page "jaunt" "Jaunt" (videoHtml +:+ galleryHtml);
    page "notes" "Notes" "<p>No pictures</p>" ].

(** Two pages under one slug, and a page without pictures after them. *)
Definition oldHarbour : Item :=
  page "harbour" "Harbour (2019)"
    ("<img src='" +:+ cdn +:+ "old.jpg'>").

Definition newHarbour : Item := page "harbour" "Harbour" galleryHtml.

Definition notes : Item := page "notes" "Notes" "<p>No pictures</p>".

End MigrationSample.
(** ** Reasoning about monadic code *)

Lemma bind_Ok {A B} (m : M A) (k : A → M B) w w' b :
  bind m k w = (w', Ok b) →
  ∃ w1 a, m w = (w1, Ok a) ∧ k a w1 = (w', Ok b).
Proof.
  unfold bind. destruct (m w) as [w1 [a|e]]; intros H; [eauto | discriminate].
Qed.

Lemma bind_Throw {A B} (m : M A) (k : A → M B) w w' e :
  bind m k w = (w', Throw e) →
  m w = (w', Throw e) ∨ ∃ w1 a, m w = (w1, Ok a) ∧ k a w1 = (w', Throw e).
Proof.
  unfold bind. destruct (m w) as [w1 [a|e1]]; intros H; [eauto | left; congruence].
Qed.

Lemma bind_modify {A} f (k : unit → M A) w : bind (modify f) k w = k tt (f w).
Proof. reflexivity. Qed.

Lemma modify_Ok f w w' u : modify f w = (w', Ok u) → w' = f w.
Proof. unfold modify. congruence. Qed.

Lemma lift_Ok {A} (r : result A) w w' a : lift r w = (w', Ok a) → w' = w ∧ r = Ok a.
Proof. unfold lift. intros H; by simplify_eq. Qed.

Lemma lift_unit_Ok r w w' u : lift_unit r w = (w', Ok u) → w' = w ∧ r = None.
Proof. unfold lift_unit. destruct r; intros H; by simplify_eq. Qed.

Lemma toFile_Ok env i x f out w w' u :
  toFile env i x f out w = (w', Ok u) →
  w' = add_written out w ∧ sharp_toFile env i x f out = None.
Proof.
  unfold toFile. intros (w1 & [] & H1 & H2)%bind_Ok.
  apply lift_unit_Ok in H1 as [-> ?]. apply modify_Ok in H2. done.
Qed.

Lemma try_catch_inv {A} (m : M A) (h : exn → M A) w w' r :
  try_catch m h w = (w', r) →
  (∃ a, m w = (w', Ok a) ∧ r = Ok a)
  ∨ (∃ w1 e, m w = (w1, Throw e) ∧ h e w1 = (w', r)).
Proof.
  unfold try_catch. destruct (m w) as [w1 [a|e]]; intros H.
  - left. exists a. by simplify_eq.
  - right. eauto.
Qed.

(** Step through a successful run of a sequence of actions. *)
Tactic Notation "mstep" hyp(H) "as" ident(w1) ident(a) ident(H1) :=
  apply bind_Ok in H as (w1 & a & H1 & H).

Section Keeps.

Context (R : relation World) `{!PreOrder R}.

Lemma keeps_ret {A} (a : A) : keeps R (ret a).
Proof. intros w w' r [= <- _]. reflexivity. Qed.

Lemma keeps_throw {A} e : keeps R (@throw A e).
Proof. intros w w' r [= <- _]. reflexivity. Qed.

Lemma keeps_lift {A} (x : result A) : keeps R (lift x).
Proof. intros w w' r [= <- _]. reflexivity. Qed.

Lemma keeps_lift_unit x : keeps R (lift_unit x).
Proof. intros w w' r. unfold lift_unit. destruct x; intros [= <- _]; reflexivity. Qed.

Lemma keeps_modify f : (∀ w, R w (f w)) → keeps R (modify f).
Proof. intros Hf w w' r [= <- _]. apply Hf. Qed.

Lemma keeps_bind {A B} (m : M A) (k : A → M B) :
  keeps R m → (∀ a, keeps R (k a)) → keeps R (bind m k).
Proof.
  intros Hm Hk w w' r. unfold bind.
  destruct (m w) as [w1 [a|e]] eqn:E; intros H.
  - etrans; [eapply Hm, E | eapply Hk, H].
  - simplify_eq. eapply Hm, E.
Qed.

Lemma keeps_try_catch {A} (m : M A) h :
  keeps R m → (∀ e, keeps R (h e)) → keeps R (try_catch m h).
Proof.
  intros Hm Hh w w' r. unfold try_catch.
  destruct (m w) as [w1 [a|e]] eqn:E; intros H.
  - simplify_eq. eapply Hm, E.
  - etrans; [eapply Hm, E | eapply Hh, H].
Qed.

Lemma keeps_forEach {A S} (body : A → S → M S) xs :
  (∀ x s, keeps R (body x s)) → ∀ s, keeps R (forEach body xs s).
Proof.
  intros Hb. induction xs as [|x xs IH]; intros s; simpl.
  - apply keeps_ret.
  - apply keeps_bind; [apply Hb | intros; apply IH].
Qed.

End Keeps.

Global Instance store_eq_preorder : PreOrder store_eq.
Proof.
  split.
  - intros w. by split.
  - intros w1 w2 w3 [] []. split; congruence.
Qed.

Global Instance grows_preorder : PreOrder grows.
Proof.
  split.
  - intros w. split; [done | by exists [] | done | done].
  - intros w1 w2 w3 [? [n1 ?] ? ?] [? [n2 ?] ? ?]. split.
    + by etrans.
    + exists (n2 ++ n1). rewrite <- app_assoc. congruence.
    + congruence.
    + congruence.
Qed.

Ltac keeps_tac :=
  repeat first
    [ apply keeps_bind; [exact _ | | intros ?]
    | apply keeps_try_catch; [exact _ | | intros ?]
    | apply keeps_ret; exact _
    | apply keeps_lift; exact _
    | apply keeps_lift_unit; exact _
    | apply keeps_throw; exact _
    | apply keeps_modify; intros ?; split; simpl; try done ].

Section EngineFrame.

Context (dirname : string) (env : Env).

Lemma keeps_store_toFile i x f out : keeps store_eq (toFile env i x f out).
Proof. unfold toFile. keeps_tac. Qed.

Lemma keeps_grows_toFile i x f out : keeps grows (toFile env i x f out).
Proof. unfold toFile. keeps_tac. by exists [out]. Qed.

Lemma keeps_store_ensureDir d : keeps store_eq (ensureDir env d).
Proof. unfold ensureDir. keeps_tac. Qed.

Lemma keeps_grows_ensureDir d : keeps grows (ensureDir env d).
Proof. unfold ensureDir. keeps_tac; [apply union_subseteq_r | by exists []]. Qed.

Lemma keeps_extractDominantColor R `{!PreOrder R} i :
  keeps R (extractDominantColor env i).
Proof.
  unfold extractDominantColor.
  destruct (sharp_stats env i) as [[[r g] b]|e]; by apply keeps_ret.
Qed.

Lemma keeps_store_resizeLoop i o W widths acc :
  keeps store_eq (resizeLoop env i o W widths acc).
Proof.
  revert acc. induction widths as [|x widths IH]; intros acc; simpl.
  - keeps_tac.
  - case_bool_decide; [|apply IH].
    repeat (apply keeps_bind; [exact _ | apply keeps_store_toFile | intros ?]). apply IH.
Qed.

Lemma keeps_grows_resizeLoop i o W widths acc :
  keeps grows (resizeLoop env i o W widths acc).
Proof.
  revert acc. induction widths as [|x widths IH]; intros acc; simpl.
  - keeps_tac.
  - case_bool_decide; [|apply IH].
    repeat (apply keeps_bind; [exact _ | apply keeps_grows_toFile | intros ?]). apply IH.
Qed.

Lemma keeps_store_processImage i o f k :
  keeps store_eq (processImage dirname env i o f k).
Proof.
  unfold processImage, metadata, placeholderBuffer, copy.
  apply keeps_bind; [exact _ | keeps_tac | intros ?].
  apply keeps_bind; [exact _ | keeps_tac | intros ?].
  apply keeps_bind; [exact _ | apply keeps_store_ensureDir | intros ?].
  apply keeps_bind; [exact _ | apply (keeps_extractDominantColor store_eq) | intros ?].
  apply keeps_bind; [exact _ | apply keeps_store_resizeLoop | intros ?].
  keeps_tac.
Qed.

Lemma keeps_grows_processImage_body i o md :
  keeps grows
    (ensureDir env o;;;
     let! color := extractDominantColor env i in
     let! szs := resizeLoop env i o (m_width md) (imageSizes (CONFIG dirname)) ∅ in
     let! buffer := placeholderBuffer env i in
     copy env i (path_join [o; "original.jpg"]);;;
     ret {| sizes := szs;
            placeholder := "data:image/jpeg;base64," +:+ buffer;
            aspectRatio := (m_width md, m_height md);
            width := m_width md;
            height := m_height md;
            dominantColor := color |}).
Proof.
  unfold placeholderBuffer, copy.
  apply keeps_bind; [exact _ | apply keeps_grows_ensureDir | intros ?].
  apply keeps_bind; [exact _ | apply (keeps_extractDominantColor grows) | intros ?].
  apply keeps_bind; [exact _ | apply keeps_grows_resizeLoop | intros ?].
  keeps_tac. by eexists [_].
Qed.

(** Whatever [processImage] does, and however it ends, it leaves the
    store alone and only adds to the rest of the world. *)
Lemma processImage_frame i o f k w w' r :
  processImage dirname env i o f k w = (w', r) →
  store_eq w w' ∧ grows (record_call (EngineCall i o) w) w'.
Proof.
  intros H. split; [by eapply keeps_store_processImage|].
  unfold processImage in H. rewrite bind_modify in H.
  revert H. apply keeps_bind; [exact _ | unfold metadata; keeps_tac | intros md].
  apply keeps_grows_processImage_body.
Qed.

Lemma keeps_store_srcsetLoop i o u W widths acc :
  keeps store_eq (srcsetLoop env i o u W widths acc).
Proof.
  revert acc. induction widths as [|x widths IH]; intros acc; simpl.
  - keeps_tac.
  - case_bool_decide; [|apply IH].
    repeat (apply keeps_bind; [exact _ | apply keeps_store_toFile | intros ?]). apply IH.
Qed.

Lemma keeps_grows_srcsetLoop i o u W widths acc :
  keeps grows (srcsetLoop env i o u W widths acc).
Proof.
  revert acc. induction widths as [|x widths IH]; intros acc; simpl.
  - keeps_tac.
  - case_bool_decide; [|apply IH].
    repeat (apply keeps_bind; [exact _ | apply keeps_grows_toFile | intros ?]). apply IH.
Qed.

Lemma deriveHomepageImage_frame num i o w w' r :
  deriveHomepageImage dirname env num i o w = (w', r) →
  store_eq w w' ∧ grows (record_call (EngineCall i o) w) w'.
Proof.
  intros H. split.
  - revert H. unfold deriveHomepageImage, metadata, placeholderBuffer.
    apply keeps_bind; [exact _ | keeps_tac | intros ?].
    apply keeps_bind; [exact _ | keeps_tac | intros ?].
    apply keeps_bind; [exact _ | apply keeps_store_ensureDir | intros ?].
    apply keeps_bind; [exact _ | apply keeps_store_srcsetLoop | intros ?].
    apply keeps_bind; [exact _ | keeps_tac | intros ?].
    apply keeps_bind; [exact _ | apply (keeps_extractDominantColor store_eq) | intros ?].
    keeps_tac.
  - unfold deriveHomepageImage in H. rewrite bind_modify in H.
    revert H. unfold metadata, placeholderBuffer.
    apply keeps_bind; [exact _ | keeps_tac | intros ?].
    apply keeps_bind; [exact _ | apply keeps_grows_ensureDir | intros ?].
    apply keeps_bind; [exact _ | apply keeps_grows_srcsetLoop | intros ?].
    apply keeps_bind; [exact _ | keeps_tac | intros ?].
    apply keeps_bind; [exact _ | apply (keeps_extractDominantColor grows) | intros ?].
    keeps_tac.
Qed.

Lemma deriveLandingImage_frame type n i w w' r :
  deriveLandingImage dirname env type n i w = (w', r) →
  store_eq w w' ∧ grows (record_call (EngineCall i (landingOutputDir dirname type n)) w) w'.
Proof.
  intros H. split.
  - revert H. unfold deriveLandingImage, metadata.
    apply keeps_bind; [exact _ | keeps_tac | intros ?].
    apply keeps_bind; [exact _ | keeps_tac | intros ?].
    apply keeps_bind; [exact _ | apply keeps_store_srcsetLoop | intros ?].
    keeps_tac.
  - unfold deriveLandingImage in H. rewrite bind_modify in H.
    revert H. unfold metadata.
    apply keeps_bind; [exact _ | keeps_tac | intros ?].
    apply keeps_bind; [exact _ | apply keeps_grows_srcsetLoop | intros ?].
    keeps_tac.
Qed.

End EngineFrame.

(** ** The derivation engine: what a successful run produces *)



Lemma lookup_markAll xs acc x :
  markAll acc xs !! x = if bool_decide (x ∈ xs) then Some true else acc !! x.
Proof.
  revert acc. induction xs as [|y xs IH]; intros acc.
  - done.
  - unfold markAll in *. simpl. rewrite IH.
    destruct (decide (x ∈ xs)) as [Hin|Hin].
    + rewrite !bool_decide_eq_true_2; [done | by right | done].
    + rewrite (bool_decide_eq_false_2 _ Hin).
      destruct (decide (x = y)) as [->|Hne].
      * rewrite bool_decide_eq_true_2 by left. by rewrite lookup_insert_eq.
      * rewrite bool_decide_eq_false_2; [by rewrite lookup_insert_ne|].
        by intros [?|?]%elem_of_cons.
Qed.

Lemma resizeLoop_Ok env i o W widths acc w w' szs :
  resizeLoop env i o W widths acc w = (w', Ok szs) →
  szs = markAll acc (filter (fun x => W >= x) widths)
  ∧ dirs w' = dirs w ∧ calls w' = calls w
  ∧ ∃ new, written w' = new ++ written w
      ∧ ∀ p : string, p ∈ new ↔ ∃ x : Z, x ∈ widths ∧ x ≤ W ∧ p ∈ encodings o x.
Proof.
  revert acc w. induction widths as [|x widths IH]; intros acc w; simpl.
  - intros [= <- <-]. do 3 (split; [done|]). exists []. split; [done|].
    intros p. rewrite elem_of_nil. split; [done|].
    intros (y & Hy & _). by apply elem_of_nil in Hy.
  - case_bool_decide as Hx.
    + intros H.
      mstep H as w1 u1 H1. mstep H as w2 u2 H2. mstep H as w3 u3 H3.
      apply toFile_Ok in H1 as [-> _].
      apply toFile_Ok in H2 as [-> _].
      apply toFile_Ok in H3 as [-> _].
      apply IH in H as (-> & Hd & Hc & new & Hnew & Hmem).
      split.
      { by rewrite filter_cons_True. }
      do 2 (split; [done|]).
      exists (new ++ reverse (encodings o x)). split.
      { rewrite Hnew. simpl. by rewrite <- app_assoc. }
      intros p. rewrite elem_of_app, elem_of_reverse, Hmem.
      setoid_rewrite elem_of_cons. split.
      * intros [(y & ? & ? & ?)|?].
        -- exists y. auto.
        -- exists x. split; [auto|]. split; [lia | done].
      * intros (y & [->|?] & ? & ?); [by right | left; eauto].
    + intros H. apply IH in H as (-> & Hd & Hc & new & Hnew & Hmem).
      split.
      { by rewrite filter_cons_False. }
      do 2 (split; [done|]).
      exists new. split; [done|].
      intros p. rewrite Hmem. setoid_rewrite elem_of_cons. split.
      * intros (y & ? & ? & ?); eauto.
      * intros (y & [->|?] & ? & ?); [lia | eauto].
Qed.

Lemma extractDominantColor_inv env i w w' r :
  extractDominantColor env i w = (w', r) → w' = w ∧ ∃ c, r = Ok c.
Proof.
  unfold extractDominantColor.
  destruct (sharp_stats env i) as [[[? ?] ?]|?]; intros [= <- <-]; eauto.
Qed.

Lemma processImage_Ok dirname env i o f k w w' r :
  processImage dirname env i o f k w = (w', Ok r) →
  ∃ md, sharp_metadata env i = Ok md
    ∧ width r = m_width md ∧ height r = m_height md
    ∧ sizes r = markAll ∅ (filter (fun x => m_width md >= x) (imageSizes (CONFIG dirname)))
    ∧ dirs w' = {[ o ]} ∪ dirs w
    ∧ calls w' = EngineCall i o :: calls w
    ∧ ∃ new, written w' = path_join [o; "original.jpg"] :: new ++ written w
        ∧ ∀ p : string, p ∈ new ↔
            ∃ x : Z, x ∈ imageSizes (CONFIG dirname) ∧ x ≤ m_width md ∧ p ∈ encodings o x.
Proof.
  unfold processImage. intros H.
  mstep H as w1 u1 H1. apply modify_Ok in H1 as ->.
  mstep H as w2 md H2. apply lift_Ok in H2 as [-> Hmd].
  mstep H as w3 u3 H3. unfold ensureDir in H3.
  mstep H3 as w4 u4 H4.
  apply lift_unit_Ok in H4 as [-> _]. apply modify_Ok in H3 as ->.
  mstep H as w5 color H5. apply extractDominantColor_inv in H5 as [-> _].
  mstep H as w6 szs H6.
  apply resizeLoop_Ok in H6 as (-> & Hd & Hc & new & Hnew & Hmem).
  mstep H as w7 buffer H7. apply lift_Ok in H7 as [-> _].
  mstep H as w8 u8 H8. unfold copy in H8.
  mstep H8 as w9 u9 H9.
  apply lift_unit_Ok in H9 as [-> _]. apply modify_Ok in H8 as ->.
  unfold ret in H. injection H as <- <-. exists md. simpl.
  do 4 (split; [done|]). rewrite Hd, Hc. do 2 (split; [done|]).
  exists new. split; [by rewrite Hnew | done].
Qed.



(** ** The body of the caching loops *)

Lemma cacheHit_record_call c w k h o : cacheHit (record_call c w) k h o = cacheHit w k h o.
Proof. reflexivity. Qed.

(** [cachedStep] always returns normally, and does what [stepResult]
    says. *)
Lemma cachedStep_eq {D S} env i o k (derive : M D) wrap message
    (onHit : DerivedData → S) onDerived onError w :
  let res := stepResult env i o k derive w in
  cachedStep env i o k derive wrap message onHit onDerived onError w
  = (stepWorld i k derive wrap message res w,
     Ok (stepState onHit onDerived onError res)).
Proof.
  unfold cachedStep, stepResult, stepWorld, stepState, try_catch, getFileHash.
  unfold bind, modify, lift. simpl.
  destruct (fs_readFile_md5 env i) as [h|e]; [|reflexivity].
  rewrite cacheHit_record_call.
  destruct (cacheHit w k h o) as [cached|]; [reflexivity|].
  destruct (derive (record_call (HashCall i) w)) as [w2 [d|e]]; reflexivity.
Qed.

Lemma validateImage_eq env filePath filename w :
  validateImage env filePath filename w = (w, Ok (validation env filePath filename)).
Proof.
  unfold validateImage, validation, try_catch, bind, metadata, lift.
  destruct (sharp_metadata env filePath) as [md|e]; [|reflexivity].
  by case_bool_decide.
Qed.

Lemma processProjectImage_shape dirname env project img st w :
  processProjectImage dirname env project img st w
  = let st0 := pushWarnings
                 (snd (validation env (projectInputPath dirname project img)
                         (p_slug project +:+ "/" +:+ img_file img))) st in
    cachedStep env (projectInputPath dirname project img)
      (projectOutputDir dirname project img) (projectCacheKey project img)
      (processImage dirname env (projectInputPath dirname project img)
         (projectOutputDir dirname project img) (img_file img)
         (Some (projectCacheKey project img)))
      ProjectData
      (fun e => JS.nl +:+ "    Error processing " +:+ img_file img +:+ ": " +:+ e)
      (fun d => countSkipped
                  (setImageData (p_slug project) (img_index img)
                     {| pi_data := d; pi_size := img_size img |} st0))
      (fun r => countProcessed
                  (setImageData (p_slug project) (img_index img)
                     {| pi_data := ProjectData r; pi_size := img_size img |} st0))
      st0 w.
Proof.
  unfold processProjectImage. unfold bind at 1. by rewrite validateImage_eq.
Qed.

Lemma processHomepageFile_shape dirname env f st w :
  processHomepageFile dirname env f st w
  = cachedStep env (homepageInputPath dirname f) (homepageOutputDir dirname f)
      (homepageCacheKey f)
      (deriveHomepageImage dirname env (fileNumber f) (homepageInputPath dirname f)
         (homepageOutputDir dirname f))
      HomepageData
      (fun e => JS.nl +:+ "  Error processing " +:+ f +:+ ": " +:+ e)
      (fun d => {| homepageImages := <[fileNumber f := d]> (homepageImages st);
                   processedCount := processedCount st;
                   skippedCount := S (skippedCount st) |})
      (fun h => {| homepageImages := <[fileNumber f := HomepageData h]> (homepageImages st);
                   processedCount := S (processedCount st);
                   skippedCount := skippedCount st |})
      st w.
Proof. reflexivity. Qed.

(** ** The change detector *)


(** The inlined test asks for the output directory as well. *)
Lemma cacheHit_Some w cacheKey fileHash outputDir cached :
  cacheHit w cacheKey fileHash outputDir = Some cached
  ↔ imageCache w !! cacheKey = Some cached ∧ hash cached = fileHash
    ∧ outputDir ∈ dirs w.
Proof.
  unfold cacheHit. destruct (imageCache w !! cacheKey) as [c|].
  - destruct (String.eqb_spec (hash c) fileHash) as [Heq|Hne]; simpl.
    + case_bool_decide as Hd.
      * split; [intros [= <-]; done | intros ([= <-] & _); done].
      * split; [done | intros (_ & _ & ?); done].
    + split; [done | intros ([= <-] & ? & _); done].
  - split; [done | intros (? & _); done].
Qed.

Lemma cacheHit_None w cacheKey fileHash outputDir :
  cacheHit w cacheKey fileHash outputDir = None
  ↔ imageCache w !! cacheKey = None
    ∨ (∃ cached, imageCache w !! cacheKey = Some cached ∧ hash cached ≠ fileHash)
    ∨ outputDir ∉ dirs w.
Proof.
  destruct (cacheHit w cacheKey fileHash outputDir) as [c|] eqn:E.
  - apply cacheHit_Some in E as (Hc & Hh & Hd). split; [done|].
    intros [?|[(c' & ? & ?)|?]]; [congruence | | done].
    assert (c' = c) as -> by congruence. done.
  - split; [|done]. intros _.
    destruct (imageCache w !! cacheKey) as [c|] eqn:Hc; [|by left].
    destruct (decide (hash c = fileHash)) as [Hh|Hh]; [|right; left; eauto].
    destruct (decide (outputDir ∈ dirs w)) as [Hd|Hd]; [|by right; right].
    assert (cacheHit w cacheKey fileHash outputDir = Some c) as E'
      by (apply cacheHit_Some; done).
    congruence.
Qed.


(** ** Reprocessing when the output directory is gone *)

Lemma grows_calls i o w w' :
  grows (record_call (EngineCall i o) w) w' → calls w' = EngineCall i o :: calls w.
Proof. by intros [_ _ _ ->]. Qed.

(** ** Persisting the store *)

Lemma saveImageCache_Ok dirname env w :
  ∃ w', saveImageCache dirname env w = (w', Ok tt) ∧ imageCache w' = imageCache w.
Proof.
  unfold saveImageCache. destruct (imageCacheUpdated w); simpl; [|eauto].
  destruct (fs_outputJson env _); eauto.
Qed.

(** ** The fallback [src] of homepage and landing images *)

Lemma srcsetLoop_Ok env i o u W widths acc w w' sets :
  srcsetLoop env i o u W widths acc w = (w', Ok sets) →
  dirs w' = dirs w ∧ calls w' = calls w
  ∧ ∃ new, written w' = new ++ written w
      ∧ ∀ p : string, p ∈ new ↔
          ∃ (x : Z) (f : Format),
            x ∈ widths ∧ x ≤ W ∧ p = path_join [o; pretty x +:+ extension f].
Proof.
  revert acc w. induction widths as [|x widths IH]; intros acc w; simpl.
  - intros [= <- <-]. do 2 (split; [done|]). exists []. split; [done|].
    intros p. rewrite elem_of_nil. split; [done|].
    intros (y & f & Hy & _). by apply elem_of_nil in Hy.
  - case_bool_decide as Hx.
    + intros H.
      mstep H as w1 u1 H1. mstep H as w2 u2 H2. mstep H as w3 u3 H3.
      apply toFile_Ok in H1 as [-> _].
      apply toFile_Ok in H2 as [-> _].
      apply toFile_Ok in H3 as [-> _].
      apply IH in H as (Hd & Hc & new & Hnew & Hmem).
      do 2 (split; [done|]).
      exists (new ++ [path_join [o; pretty x +:+ ".jpg"];
                      path_join [o; pretty x +:+ ".webp"];
                      path_join [o; pretty x +:+ ".avif"]]). split.
      { rewrite Hnew. simpl. by rewrite <- app_assoc. }
      intros p. rewrite elem_of_app, Hmem, !elem_of_cons, elem_of_nil. split.
      * intros [(y & f & ? & ? & ->)|Hp].
        -- exists y, f. rewrite elem_of_cons. auto.
        -- assert (x ≤ W) by lia.
           destruct Hp as [->|[->|[->|[]]]];
             [exists x, JPEG | exists x, WEBP | exists x, AVIF];
             rewrite elem_of_cons; auto.
      * intros (y & f & [->|Hin]%elem_of_cons & Hle & ->).
        -- right. destruct f; simpl; auto.
        -- left. eauto.
    + intros H. apply IH in H as (Hd & Hc & new & Hnew & Hmem).
      do 2 (split; [done|]).
      exists new. split; [done|].
      intros p. rewrite Hmem. split.
      * intros (y & f & ? & ? & ->). exists y, f. rewrite elem_of_cons. auto.
      * intros (y & f & [->|Hin]%elem_of_cons & Hle & ->); [lia | eauto].
Qed.

Lemma Math_max_cons x xs :
  JS.Math_max (x :: xs)
  = match JS.Math_max xs with
    | JS.NegInfinity => JS.Num x
    | JS.Num y => JS.Num (Z.max x y)
    end.
Proof. reflexivity. Qed.

Lemma Math_max_elem xs :
  xs ≠ [] → ∃ z, JS.Math_max xs = JS.Num z ∧ z ∈ xs.
Proof.
  induction xs as [|x xs IH]; [done|]. intros _. rewrite Math_max_cons.
  destruct xs as [|y ys].
  - exists x. split; [done | by left].
  - destruct IH as (z & -> & Hin); [done|].
    exists (Z.max x z). split; [done|].
    destruct (Z.max_spec x z) as [[_ ->]|[_ ->]]; [by right | by left].
Qed.

Lemma Math_max_nil : JS.Math_max [] = JS.NegInfinity.
Proof. reflexivity. Qed.

Lemma deriveHomepageImage_Ok dirname env num i o w w' entry :
  deriveHomepageImage dirname env num i o w = (w', Ok entry) →
  h_src entry = homepageUrlDir num +:+ "/"
                +:+ JS.toString (maxAvailableSize (homepageSizes dirname) (h_width entry))
                +:+ ".jpg"
  ∧ sharp_metadata env i = Ok {| m_width := h_width entry; m_height := h_height entry |}
  ∧ dirs w' = {[ o ]} ∪ dirs w
  ∧ ∃ new, written w' = new ++ written w
      ∧ ∀ p : string, p ∈ new ↔
          ∃ (x : Z) (f : Format),
            x ∈ homepageSizes dirname ∧ x ≤ h_width entry
            ∧ p = path_join [o; pretty x +:+ extension f].
Proof.
  unfold deriveHomepageImage. intros H.
  mstep H as w1 u1 H1. apply modify_Ok in H1 as ->.
  mstep H as w2 md H2. apply lift_Ok in H2 as [-> Hmd].
  mstep H as w3 u3 H3. unfold ensureDir in H3.
  mstep H3 as w4 u4 H4.
  apply lift_unit_Ok in H4 as [-> _]. apply modify_Ok in H3 as ->.
  mstep H as w5 sets H5.
  apply srcsetLoop_Ok in H5 as (Hd & Hc & new & Hnew & Hmem).
  mstep H as w6 buffer H6. apply lift_Ok in H6 as [-> _].
  mstep H as w7 color H7. apply extractDominantColor_inv in H7 as [-> _].
  unfold ret in H. injection H as <- <-. simpl.
  split; [done|]. split; [by destruct md|]. split; [done|].
  exists new. split; [by rewrite Hnew | done].
Qed.

Lemma deriveLandingImage_Ok dirname env type n i w w' entry :
  deriveLandingImage dirname env type n i w = (w', Ok entry) →
  l_src entry = landingUrlDir type n +:+ "/"
                +:+ JS.toString (maxAvailableSize landingSizes (l_width entry))
                +:+ ".jpg"
  ∧ sharp_metadata env i = Ok {| m_width := l_width entry; m_height := l_height entry |}
  ∧ dirs w' = dirs w
  ∧ ∃ new, written w' = new ++ written w
      ∧ ∀ p : string, p ∈ new ↔
          ∃ (x : Z) (f : Format),
            x ∈ landingSizes ∧ x ≤ l_width entry
            ∧ p = path_join [landingOutputDir dirname type n; pretty x +:+ extension f].
Proof.
  unfold deriveLandingImage. intros H.
  mstep H as w1 u1 H1. apply modify_Ok in H1 as ->.
  mstep H as w2 md H2. apply lift_Ok in H2 as [-> Hmd].
  mstep H as w5 sets H5.
  apply srcsetLoop_Ok in H5 as (Hd & Hc & new & Hnew & Hmem).
  unfold ret in H. injection H as <- <-. simpl.
  split; [done|]. split; [by destruct md|]. split; [done|].
  exists new. split; [by rewrite Hnew | done].
Qed.

Lemma string_app_assoc (s1 s2 s3 : string) : (s1 +:+ s2) +:+ s3 = s1 +:+ (s2 +:+ s3).
Proof.
  induction s1 as [|a s1 IH]; [reflexivity|].
  change (String a ((s1 +:+ s2) +:+ s3) = String a (s1 +:+ s2 +:+ s3)).
  by rewrite IH.
Qed.

(** A file of the homepage output directory, named by its URL. *)
Lemma homepage_file_url dirname num name :
  path_join [path_join [distDir (CONFIG dirname); "images"; "homepage"; pretty num]; name]
  = distDir (CONFIG dirname) +:+ (homepageUrlDir num +:+ "/" +:+ name).
Proof.
  unfold homepageUrlDir, path_join. simpl JS.join.
  rewrite !string_app_assoc. reflexivity.
Qed.

(** A file of a landing output directory, named by its URL. *)
Lemma landing_file_url dirname type n name :
  path_join [landingOutputDir dirname type n; name]
  = distDir (CONFIG dirname) +:+ (landingUrlDir type n +:+ "/" +:+ name).
Proof.
  unfold landingOutputDir, landingUrlDir, outputBase, path_join. simpl JS.join.
  rewrite !string_app_assoc. reflexivity.
Qed.

Lemma no_members_nil {A} (l : list A) : (∀ x, x ∉ l) → l = [].
Proof. destruct l as [|x l]; [done|]. intros H. destruct (H x). by left. Qed.

(** C9. A homepage slide narrower than 400 pixels, or a landing image
    narrower than 800, gets [Math.max()] of nothing, that is [-Infinity],
    as the width in its fallback [src]: the entry names
    [<dir>/-Infinity.jpg], and the derivation has written no file at all.
    In general the file that [src] names was written by the derivation
    exactly when the source is at least as wide as the smallest rung. *)
Theorem fallback_src_of_small_source dirname env :
  (∀ f w w' entry,
     deriveHomepageImage dirname env (fileNumber f) (homepageInputPath dirname f)
       (homepageOutputDir dirname f) w = (w', Ok entry) →
     ∃ new, written w' = new ++ written w
       ∧ (h_width entry < 400 →
          h_src entry = "/images/homepage/" +:+ pretty (fileNumber f) +:+ "/-Infinity.jpg"
          ∧ new = [])
       ∧ (distDir (CONFIG dirname) +:+ h_src entry ∈ new ↔ 400 ≤ h_width entry))
  ∧ (∀ type n inputPath w w' entry,
       deriveLandingImage dirname env type n inputPath w = (w', Ok entry) →
       ∃ new, written w' = new ++ written w
         ∧ (l_width entry < 800 →
            l_src entry = "/images/landing/" +:+ type +:+ "/" +:+ type +:+ "-"
                          +:+ pretty (n + 1)%nat +:+ "/-Infinity.jpg"
            ∧ new = [])
         ∧ (distDir (CONFIG dirname) +:+ l_src entry ∈ new ↔ 800 ≤ l_width entry)).
Proof.
  split.
  - intros f w w' entry H.
    apply deriveHomepageImage_Ok in H as (Hsrc & _ & _ & new & Hnew & Hmem).
    exists new. split; [done|]. split.
    + intros Hsmall. split.
      * rewrite Hsrc. unfold maxAvailableSize, homepageSizes. simpl imageSizes.
        rewrite !filter_cons_False, filter_nil by lia. reflexivity.
      * apply no_members_nil. intros p Hp.
        apply Hmem in Hp as (x & fmt & Hin & Hle & _).
        unfold homepageSizes in Hin. simpl in Hin.
        rewrite !elem_of_cons, elem_of_nil in Hin. lia.
    + split.
      * intros Hp. apply Hmem in Hp as (x & fmt & Hin & Hle & _).
        unfold homepageSizes in Hin. simpl in Hin.
        rewrite !elem_of_cons, elem_of_nil in Hin. lia.
      * intros Hwide. apply Hmem.
        destruct (Math_max_elem
                    (filter (fun s => h_width entry >= s) (homepageSizes dirname)))
          as (z & Hz & Hin).
        { unfold homepageSizes. simpl imageSizes. by rewrite filter_cons_True by lia. }
        apply list_elem_of_filter in Hin as [Hle Hin].
        exists z, JPEG. split; [done|]. split; [lia|].
        rewrite Hsrc. unfold maxAvailableSize. rewrite Hz. simpl JS.toString.
        unfold homepageOutputDir. rewrite homepage_file_url.
        by rewrite ?string_app_assoc.
  - intros type n inputPath w w' entry H.
    apply deriveLandingImage_Ok in H as (Hsrc & _ & _ & new & Hnew & Hmem).
    exists new. split; [done|]. split.
    + intros Hsmall. split.
      * rewrite Hsrc. unfold maxAvailableSize, landingSizes.
        rewrite !filter_cons_False, filter_nil by lia.
        unfold landingUrlDir, landingBaseName. simpl JS.toString.
        by rewrite ?string_app_assoc.
      * apply no_members_nil. intros p Hp.
        apply Hmem in Hp as (x & fmt & Hin & Hle & _).
        unfold landingSizes in Hin.
        rewrite !elem_of_cons, elem_of_nil in Hin. lia.
    + split.
      * intros Hp. apply Hmem in Hp as (x & fmt & Hin & Hle & _).
        unfold landingSizes in Hin.
        rewrite !elem_of_cons, elem_of_nil in Hin. lia.
      * intros Hwide. apply Hmem.
        destruct (Math_max_elem (filter (fun s => l_width entry >= s) landingSizes))
          as (z & Hz & Hin).
        { unfold landingSizes. by rewrite filter_cons_True by lia. }
        apply list_elem_of_filter in Hin as [Hle Hin].
        exists z, JPEG. split; [done|]. split; [lia|].
        rewrite Hsrc. unfold maxAvailableSize. rewrite Hz. simpl JS.toString.
        rewrite landing_file_url.
        by rewrite ?string_app_assoc.
Qed.

Lemma fallback_src_of_small_source_witness :
  (∃ w' entry,
     deriveHomepageImage "." Demo.env (fileNumber "7.jpg") (homepageInputPath "." "7.jpg")
       (homepageOutputDir "." "7.jpg") Demo.site = (w', Ok entry)
     ∧ h_src entry = "/images/homepage/7/-Infinity.jpg"
     ∧ written w' = [])
  ∧ (∃ w' entry,
       deriveLandingImage "." Demo.env "commercial" 1
         "./homepage/Commercial Home Images/small.jpg" Demo.landing = (w', Ok entry)
       ∧ l_src entry = "/images/landing/commercial/commercial-2/-Infinity.jpg"
       ∧ written w' = []).
Proof.
  split.
  - eexists _, _. split; [vm_compute; reflexivity|].
    edestruct (proj1 (fallback_src_of_small_source "." Demo.env) "7.jpg" Demo.site)
      as (new & Hnew & Hsmall & _).
    { vm_compute. reflexivity. }
    destruct Hsmall as [Hsrc Hnil]; [vm_compute; reflexivity|].
    split; [exact Hsrc|]. rewrite Hnew, Hnil. reflexivity.
  - eexists _, _. split; [vm_compute; reflexivity|].
    edestruct (proj2 (fallback_src_of_small_source "." Demo.env) "commercial" 1%nat
                 "./homepage/Commercial Home Images/small.jpg" Demo.landing)
      as (new & Hnew & Hsmall & _).
    { vm_compute. reflexivity. }
    destruct Hsmall as [Hsrc Hnil]; [vm_compute; reflexivity|].
    split; [exact Hsrc|]. rewrite Hnew, Hnil. reflexivity.
Defined.

(** ** The exit status of the build *)

Lemma build_status dirname env w0 :
  ∃ w' code,
    build dirname env w0 = (w', Ok code)
    ∧ ((code = 0
        ∧ ∃ w1, buildStages dirname env
                  (print (Stdout "Building Jonathan Clifford Portfolio") w0) = (w1, Ok tt))
       ∨ (code = 1
          ∧ ∃ w1 e, buildStages dirname env
                      (print (Stdout "Building Jonathan Clifford Portfolio") w0)
                    = (w1, Throw e))).
Proof.
  unfold build, log. rewrite bind_modify. unfold try_catch. unfold bind at 1.
  destruct (buildStages dirname env _) as [w1 [[]|e]] eqn:E.
  - destruct (saveImageCache_Ok dirname env w1) as (w2 & Hsave & _).
    unfold bind at 1. rewrite Hsave. eexists _, 0. split; [reflexivity|]. left. eauto.
  - eexists _, 1. split; [reflexivity|]. right. eauto.
Qed.

Lemma bind_eq {A B} (m : M A) (k : A → M B) w w1 a :
  m w = (w1, Ok a) → bind m k w = k a w1.
Proof. intros H. unfold bind. by rewrite H. Qed.

Lemma bind_log {B} s (k : unit → M B) w : bind (log s) k w = k tt (print (Stdout s) w).
Proof. reflexivity. Qed.

Lemma external_ok env s w : stage env s = None → external env s w = (w, Ok tt).
Proof. intros H. unfold external, lift_unit. by rewrite H. Qed.

Lemma pathExists_missing p w : p ∉ dirs w → pathExists p w = (w, Ok false).
Proof. intros H. unfold pathExists. by rewrite bool_decide_eq_false_2. Qed.

Lemma pathExists_present p w : p ∈ dirs w → pathExists p w = (w, Ok true).
Proof. intros H. unfold pathExists. by rewrite bool_decide_eq_true_2. Qed.

Lemma loadImageCache_Ok w :
  ∃ w', loadImageCache w = (w', Ok tt) ∧ dirs w' = dirs w ∧ calls w' = calls w
        ∧ written w' = written w.
Proof.
  unfold loadImageCache. destruct (cacheFile w) as [[c|e]|]; eauto.
Qed.

Lemma loadProjects_missing dirname env w :
  projectsDir (CONFIG dirname) ∉ dirs w →
  loadProjects dirname env w
  = (print (Stdout "No projects directory found, skipping project loading") w, Ok []).
Proof.
  intros H. unfold loadProjects. erewrite bind_eq by by apply pathExists_missing.
  reflexivity.
Qed.

Lemma processImages_nil dirname env w :
  processImages dirname env [] w
  = (print (Stdout (JS.nl +:+ "  Summary: " +:+ pretty 0%nat +:+ " images processed, "
                    +:+ pretty 0%nat +:+ " cached"))
       (print (Stdout "Processing project images...") w), Ok initialImagesState).
Proof. reflexivity. Qed.

Lemma processHomepageImages_missing dirname env w :
  homepageDir (CONFIG dirname) ∉ dirs w →
  processHomepageImages dirname env w
  = (print (Stdout "  No homepage folder found")
       (print (Stdout "Processing homepage images...") w),
     Ok {| homepageImages := ∅; processedCount := 0; skippedCount := 0 |}).
Proof.
  intros H. unfold processHomepageImages. rewrite bind_log.
  erewrite bind_eq by by apply pathExists_missing.
  reflexivity.
Qed.

Lemma processFolder_missing dirname env inputDir outputDir type w :
  inputDir ∉ dirs w →
  processFolder dirname env inputDir outputDir type w
  = (print (Stdout ("  No " +:+ type +:+ " landing folder found")) w, Ok []).
Proof.
  intros H. unfold processFolder. erewrite bind_eq by by apply pathExists_missing.
  reflexivity.
Qed.

Lemma processLandingImages_missing dirname env w :
  commercialDir dirname ∉ dirs w →
  personalDir dirname ∉ dirs w →
  ∃ w', processLandingImages dirname env w
        = (w', Ok {| commercial := []; personal := [] |})
        ∧ dirs w' = dirs w ∧ calls w' = calls w ∧ written w' = written w.
Proof.
  intros Hc Hp. unfold processLandingImages. rewrite bind_log.
  erewrite bind_eq by by apply processFolder_missing.
  erewrite bind_eq by by apply processFolder_missing.
  rewrite bind_log. eexists. split; [reflexivity|]. done.
Qed.

Lemma buildStages_nothing_to_do dirname env w :
  projectsDir (CONFIG dirname) ∉ dirs w →
  homepageDir (CONFIG dirname) ∉ dirs w →
  commercialDir dirname ∉ dirs w →
  personalDir dirname ∉ dirs w →
  (∀ s, stage env s = None) →
  ∃ w', buildStages dirname env w = (w', Ok tt)
        ∧ calls w' = calls w ∧ written w' = written w.
Proof.
  intros Hp Hh Hc Hpe Hstage.
  destruct (loadImageCache_Ok (print (Stdout "Loading image cache...") w))
    as (w1 & Hload & Hd1 & Hc1 & Hw1).
  unfold buildStages. rewrite bind_log.
  erewrite bind_eq by exact Hload.
  erewrite bind_eq by by apply external_ok.
  erewrite bind_eq by (apply loadProjects_missing; by rewrite Hd1).
  rewrite bind_log.
  erewrite bind_eq by by apply external_ok.
  erewrite bind_eq by by apply external_ok.
  erewrite bind_eq by apply processImages_nil.
  erewrite bind_eq by (apply processHomepageImages_missing; simpl; by rewrite Hd1).
  edestruct (processLandingImages_missing dirname env) as (w2 & Hl & Hd2 & Hc2 & Hw2);
    [| | erewrite bind_eq by exact Hl]; [simpl; by rewrite Hd1 ..|].
  do 5 (erewrite bind_eq by by apply external_ok).
  rewrite external_ok by done.
  eexists. split; [reflexivity|]. rewrite Hc2, Hw2. simpl. auto.
Qed.

(** C8, as the script has it.  The status of [build] is 1 exactly when a
    stage of its [try] block throws, and 0 exactly when all of them return.
    Missing folders are not failures: when the projects directory, the
    homepage folder and both landing folders are missing and the remaining
    stages succeed, no image is hashed or derived, no file is written, and
    the build still ends with status 0. *)
Theorem build_exit_status dirname env w0 :
  (∃ w' code,
     build dirname env w0 = (w', Ok code)
     ∧ (code = 1 ↔
        ∃ w1 e, buildStages dirname env
                  (print (Stdout "Building Jonathan Clifford Portfolio") w0)
                = (w1, Throw e))
     ∧ (code = 0 ↔
        ∃ w1, buildStages dirname env
                (print (Stdout "Building Jonathan Clifford Portfolio") w0)
              = (w1, Ok tt)))
  ∧ (projectsDir (CONFIG dirname) ∉ dirs w0 →
     homepageDir (CONFIG dirname) ∉ dirs w0 →
     commercialDir dirname ∉ dirs w0 →
     personalDir dirname ∉ dirs w0 →
     (∀ s, stage env s = None) →
     ∃ w', build dirname env w0 = (w', Ok 0)
           ∧ calls w' = calls w0 ∧ written w' = written w0).
Proof.
  split.
  - destruct (build_status dirname env w0)
      as (w' & code & Hb & [[-> (w1 & H1)]|[-> (w1 & e & H1)]]).
    + exists w', 0. split; [done|]. split.
      * split; [done|]. intros (w2 & e & H2). congruence.
      * split; eauto.
    + exists w', 1. split; [done|]. split.
      * split; eauto.
      * split; [done|]. intros (w2 & H2). congruence.
  - intros Hp Hh Hc Hpe Hstage.
    destruct (buildStages_nothing_to_do dirname env
                (print (Stdout "Building Jonathan Clifford Portfolio") w0))
      as (w1 & Hs & Hc1 & Hw1); [done..|].
    destruct (saveImageCache_Ok dirname env w1) as (w2 & Hsave & _).
    exists (print (Stdout "Build complete") w2).
    assert (calls w2 = calls w1 ∧ written w2 = written w1) as [Hc2 Hw2].
    { revert Hsave. unfold saveImageCache.
      destruct (imageCacheUpdated w1); simpl; [|by intros [= <-]].
      destruct (fs_outputJson env _); by intros [= <-]. }
    split.
    + unfold build. rewrite bind_log. unfold try_catch.
      erewrite bind_eq by exact Hs.
      erewrite bind_eq by exact Hsave.
      reflexivity.
    + simpl. rewrite Hc2, Hw2, Hc1, Hw1. done.
Qed.

Lemma build_exit_status_witness :
  ∃ w', build "." Demo.env Demo.empty = (w', Ok 0)
        ∧ calls w' = calls Demo.empty ∧ written w' = written Demo.empty.
Proof.
  apply (proj2 (build_exit_status "." Demo.env Demo.empty)).
  - apply not_elem_of_empty.
  - apply not_elem_of_empty.
  - apply not_elem_of_empty.
  - apply not_elem_of_empty.
  - reflexivity.
Defined.

(** C8, as stated, at a checkout without any folder: the build processes
    nothing at all and its status is 0, not a non-zero one. *)
Lemma build_without_collections_exits_zero :
  (projectsDir (CONFIG ".") ∉ dirs Demo.empty)
  ∧ (homepageDir (CONFIG ".") ∉ dirs Demo.empty)
  ∧ ∃ w', build "." Demo.env Demo.empty = (w', Ok 0)
          ∧ calls w' = []
          ∧ ¬ (∃ code, build "." Demo.env Demo.empty = (w', Ok code) ∧ code ≠ 0).
Proof.
  split; [apply not_elem_of_empty|]. split; [apply not_elem_of_empty|].
  eexists. split; [vm_compute; reflexivity|]. split; [reflexivity|].
  intros (code & H & Hne). vm_compute in H. injection H as <-. by apply Hne.
Qed.

(** ** One pass through the body of a caching loop *)

Lemma processImage_well_behaved dirname env i o f k :
  well_behaved (processImage dirname env i o f k).
Proof.
  intros w w' r H. apply processImage_frame in H as [Hs [Hd _ Hc _]]. auto.
Qed.

Lemma deriveHomepageImage_well_behaved dirname env num i o :
  well_behaved (deriveHomepageImage dirname env num i o).
Proof.
  intros w w' r H. apply deriveHomepageImage_frame in H as [Hs [Hd _ Hc _]]. auto.
Qed.

Section CachedStep.

Context {D St : Type} (env : Env) (i o k : string) (derive : M D)
  (wrap : D → DerivedData) (message : exn → string)
  (onHit : DerivedData → St) (onDerived : D → St) (onError : St).
Context (Hderive : well_behaved derive).

(** The cache changes in one way only: a whole entry is put under the key
    of an image whose derivation has returned. *)
Lemma stepWorld_cache w :
  imageCache (stepWorld i k derive wrap message (stepResult env i o k derive w) w)
  = match stepResult env i o k derive w with
    | Derived h d => <[k := {| hash := h; data := wrap d |}]> (imageCache w)
    | _ => imageCache w
    end.
Proof.
  unfold stepResult, stepWorld.
  destruct (fs_readFile_md5 env i) as [h|e]; [|done].
  destruct (cacheHit w k h o) as [c|]; [done|].
  destruct (derive (record_call (HashCall i) w)) as [w2 [d|e]] eqn:E;
    apply Hderive in E as ([Hc _ _] & _ & _); simpl; by rewrite Hc.
Qed.

Lemma stepWorld_flag w :
  imageCacheUpdated (stepWorld i k derive wrap message (stepResult env i o k derive w) w)
  = match stepResult env i o k derive w with
    | Derived h d => true
    | _ => imageCacheUpdated w
    end.
Proof.
  unfold stepResult, stepWorld.
  destruct (fs_readFile_md5 env i) as [h|e]; [|done].
  destruct (cacheHit w k h o) as [c|]; [done|].
  destruct (derive (record_call (HashCall i) w)) as [w2 [d|e]] eqn:E;
    apply Hderive in E as ([_ Hc _] & _ & _); simpl; by rewrite ?Hc.
Qed.

Lemma stepWorld_dirs w :
  dirs w ⊆ dirs (stepWorld i k derive wrap message (stepResult env i o k derive w) w).
Proof.
  unfold stepResult, stepWorld.
  destruct (fs_readFile_md5 env i) as [h|e]; [|done].
  destruct (cacheHit w k h o) as [c|]; [done|].
  destruct (derive (record_call (HashCall i) w)) as [w2 [d|e]] eqn:E;
    apply Hderive in E as (_ & Hd & _); simpl; done.
Qed.

Lemma stepWorld_errors w :
  stderrCount (stepWorld i k derive wrap message (stepResult env i o k derive w) w)
  = match stepResult env i o k derive w with
    | HashFailed _ | DeriveFailed _ _ => S (stderrCount w)
    | _ => stderrCount w
    end.
Proof.
  unfold stepResult, stepWorld, stderrCount.
  destruct (fs_readFile_md5 env i) as [h|e]; [|done].
  destruct (cacheHit w k h o) as [c|]; [done|].
  destruct (derive (record_call (HashCall i) w)) as [w2 [d|e]] eqn:E;
    apply Hderive in E as (_ & _ & Hc); simpl; by rewrite Hc.
Qed.

End CachedStep.

(** ** Failures stay inside the loop *)

Lemma forEach_measure {A St} (body : A → St → M St) (μ : St → World → nat) :
  (∀ x s w, ∃ w' s', body x s w = (w', Ok s') ∧ μ s' w' = S (μ s w)) →
  ∀ xs s w, ∃ w' s',
    forEach body xs s w = (w', Ok s') ∧ μ s' w' = (length xs + μ s w)%nat.
Proof.
  intros Hbody. induction xs as [|x xs IH]; intros s w; simpl.
  - eauto.
  - destruct (Hbody x s w) as (w1 & s1 & H1 & Hm1).
    destruct (IH s1 w1) as (w2 & s2 & H2 & Hm2).
    exists w2, s2. split.
    + by erewrite bind_eq by exact H1.
    + rewrite Hm2, Hm1. lia.
Qed.

Lemma processProjectImage_served dirname env project img st w :
  ∃ w' st',
    processProjectImage dirname env project img st w = (w', Ok st')
    ∧ served st' w' = S (served st w).
Proof.
  rewrite processProjectImage_shape. cbv zeta. rewrite cachedStep_eq.
  eexists _, _. split; [reflexivity|]. unfold served.
  rewrite stepWorld_errors by apply processImage_well_behaved.
  destruct (stepResult _ _ _ _ _ _) as [e|h c|h e|h d]; simpl; lia.
Qed.

Lemma checkDuplicate_totals project img st :
  totalProcessed (checkDuplicate project img st) = totalProcessed st
  ∧ totalSkipped (checkDuplicate project img st) = totalSkipped st.
Proof. unfold checkDuplicate. by destruct (allFilenames st !! _). Qed.

Lemma checkDuplicates_totals project imgs st :
  totalProcessed (foldl (fun acc img => checkDuplicate project img acc) st imgs)
  = totalProcessed st
  ∧ totalSkipped (foldl (fun acc img => checkDuplicate project img acc) st imgs)
    = totalSkipped st.
Proof.
  revert st. induction imgs as [|img imgs IH]; intros st; simpl; [done|].
  destruct (IH (checkDuplicate project img st)) as [-> ->].
  apply checkDuplicate_totals.
Qed.

Lemma processProject_served dirname env project st w :
  ∃ w' st',
    processProject dirname env project st w = (w', Ok st')
    ∧ served st' w'
      = ((if p_hasImages project then length (p_images project) else 0) + served st w)%nat.
Proof.
  unfold processProject. destruct (p_hasImages project); cbn [negb].
  - rewrite bind_log.
    set (st1 := foldl _ _ _).
    destruct (forEach_measure (processProjectImage dirname env project) served
                (processProjectImage_served dirname env project)
                (p_images project) st1
                (print (Stdout ("  Processing " +:+ p_title project +:+ "...")) w))
      as (w2 & st2 & Hloop & Hm).
    erewrite bind_eq by exact Hloop. rewrite bind_log.
    eexists _, _. split; [reflexivity|].
    change (served st2 (print _ w2)) with (served st2 w2). rewrite Hm.
    unfold served, st1.
    destruct (checkDuplicates_totals project (p_images project)
                (startProject (p_slug project) st)) as [-> ->].
    reflexivity.
  - eauto.
Qed.

Lemma forEach_log_lines (ws : list string) w :
  ∃ w', forEach (fun wn (_ : unit) => log ("    - " +:+ wn)) ws tt w = (w', Ok tt)
        ∧ stderrCount w' = stderrCount w ∧ imageCache w' = imageCache w
        ∧ imageCacheUpdated w' = imageCacheUpdated w ∧ dirs w' = dirs w
        ∧ calls w' = calls w.
Proof.
  revert w. induction ws as [|x ws IH]; intros w; simpl; [by eauto 10|].
  rewrite bind_log. destruct (IH (print (Stdout ("    - " +:+ x)) w)) as (w' & -> & ?).
  eauto.
Qed.

Lemma processImages_served dirname env projects w :
  ∃ w' st,
    processImages dirname env projects w = (w', Ok st)
    ∧ (totalProcessed st + totalSkipped st + stderrCount w'
       = imagesCount projects + stderrCount w)%nat.
Proof.
  unfold processImages. rewrite bind_log.
  assert (Hloop : ∀ ps st0 w0, ∃ w1 st1,
            forEach (processProject dirname env) ps st0 w0 = (w1, Ok st1)
            ∧ served st1 w1 = (imagesCount ps + served st0 w0)%nat).
  { induction ps as [|p ps IH]; intros st0 w0; simpl; [eauto|].
    destruct (processProject_served dirname env p st0 w0) as (w1 & st1 & H1 & Hm1).
    destruct (IH st1 w1) as (w2 & st2 & H2 & Hm2).
    exists w2, st2. split; [by erewrite bind_eq by exact H1|].
    rewrite Hm2, Hm1. unfold imagesCount. simpl. lia. }
  destruct (Hloop projects initialImagesState
              (print (Stdout "Processing project images...") w))
    as (w1 & st1 & H1 & Hm1).
  erewrite bind_eq by exact H1.
  assert (∃ w2, (if bool_decide (0 < length (warnings st1))%nat
                 then log (JS.nl +:+ "  Image validation warnings:");;;
                      forEach (fun wn (_ : unit) => log ("    - " +:+ wn)) (warnings st1) tt
                 else ret tt) w1 = (w2, Ok tt)
                ∧ stderrCount w2 = stderrCount w1) as (w2 & H2 & Hm2).
  { case_bool_decide; [|by eauto].
    rewrite bind_log.
    destruct (forEach_log_lines (warnings st1)
                (print (Stdout (JS.nl +:+ "  Image validation warnings:")) w1))
      as (w2 & -> & He & _).
    eauto. }
  erewrite bind_eq by exact H2. rewrite bind_log.
  eexists _, _. split; [reflexivity|].
  change (stderrCount (print _ w2)) with (stderrCount w2).
  rewrite Hm2. unfold served in Hm1. simpl in Hm1. unfold stderrCount in *. simpl in *. lia.
Qed.

Lemma processHomepageFile_served dirname env f st w :
  ∃ w' st',
    processHomepageFile dirname env f st w = (w', Ok st')
    ∧ (processedCount st' + skippedCount st' + stderrCount w'
       = S (processedCount st + skippedCount st + stderrCount w))%nat.
Proof.
  rewrite processHomepageFile_shape, cachedStep_eq.
  eexists _, _. split; [reflexivity|].
  rewrite stepWorld_errors by apply deriveHomepageImage_well_behaved.
  destruct (stepResult _ _ _ _ _ _) as [e|h c|h e|h d]; simpl; lia.
Qed.

Lemma failed_step_counters dirname env project img st w :
  (∃ e, stepResult env (projectInputPath dirname project img)
          (projectOutputDir dirname project img) (projectCacheKey project img)
          (processImage dirname env (projectInputPath dirname project img)
             (projectOutputDir dirname project img) (img_file img)
             (Some (projectCacheKey project img))) w = HashFailed e)
  ∨ (∃ h e, stepResult env (projectInputPath dirname project img)
              (projectOutputDir dirname project img) (projectCacheKey project img)
              (processImage dirname env (projectInputPath dirname project img)
                 (projectOutputDir dirname project img) (img_file img)
                 (Some (projectCacheKey project img))) w = DeriveFailed h e) →
  ∃ w' st',
    processProjectImage dirname env project img st w = (w', Ok st')
    ∧ counters st' = counters st
    ∧ imageData st' = imageData st
    ∧ stderrCount w' = S (stderrCount w).
Proof.
  intros Hfail.
  rewrite processProjectImage_shape. cbv zeta. rewrite cachedStep_eq.
  eexists _, _. split; [reflexivity|].
  rewrite stepWorld_errors by apply processImage_well_behaved.
  destruct Hfail as [(e & ->)|(h & e & ->)]; done.
Qed.

(** C5, as the script has it.  Neither loop lets an exception out: the
    project orchestrator and the homepage loop always return, and every
    image of the batch is accounted for exactly once, as processed, as
    skipped, or by one line on [console.error].  There is no failure
    counter: an image whose hash or derivation throws leaves every counter
    and [imageData] as they were and adds that one line. *)
Theorem failures_stay_inside_the_loop dirname env :
  (∀ projects w, ∃ w' st,
     processImages dirname env projects w = (w', Ok st)
     ∧ (totalProcessed st + totalSkipped st + stderrCount w'
        = imagesCount projects + stderrCount w)%nat)
  ∧ (∀ files st w, ∃ w' st',
       forEach (processHomepageFile dirname env) files st w = (w', Ok st')
       ∧ (processedCount st' + skippedCount st' + stderrCount w'
          = length files + (processedCount st + skippedCount st + stderrCount w))%nat)
  ∧ (∀ project img st w h e,
       stepResult env (projectInputPath dirname project img)
         (projectOutputDir dirname project img) (projectCacheKey project img)
         (processImage dirname env (projectInputPath dirname project img)
            (projectOutputDir dirname project img) (img_file img)
            (Some (projectCacheKey project img))) w = DeriveFailed h e →
       ∃ w' st',
         processProjectImage dirname env project img st w = (w', Ok st')
         ∧ counters st' = counters st
         ∧ imageData st' = imageData st
         ∧ stderrCount w' = S (stderrCount w)).
Proof.
  split; [|split].
  - apply processImages_served.
  - intros files st w.
    apply (forEach_measure (processHomepageFile dirname env)
             (fun s w => (processedCount s + skippedCount s + stderrCount w)%nat)).
    apply processHomepageFile_served.
  - intros project img st w h e H. apply failed_step_counters. right. eauto.
Qed.

Lemma failures_stay_inside_the_loop_witness :
  ∃ w' st',
    processProjectImage "." Demo.env (Demo.project Demo.ten) (Demo.image "corrupt.jpg" 5)
      initialImagesState Demo.empty = (w', Ok st')
    ∧ counters st' = counters initialImagesState
    ∧ imageData st' = imageData initialImagesState
    ∧ stderrCount w' = S (stderrCount Demo.empty).
Proof.
  apply (proj2 (proj2 (failures_stay_inside_the_loop "." Demo.env))
           (Demo.project Demo.ten) (Demo.image "corrupt.jpg" 5) initialImagesState
           Demo.empty "md5 of ./projects/a/original/corrupt.jpg"
           "Input file contains unsupported image format").
  vm_compute. reflexivity.
Defined.

(** The scenario of the specification: ten images, the fifth one corrupt.
    The run returns with nine images processed and one error line. *)
Example batch_of_ten :
  ∃ w' st,
    processImages "." Demo.env [Demo.project Demo.ten] Demo.empty = (w', Ok st)
    ∧ totalProcessed st = 9%nat ∧ totalSkipped st = 0%nat
    ∧ stderrCount w' = 1%nat
    ∧ (size <$> imageData st !! "a") = Some 9%nat.
Proof.
  eexists _, _. split; [vm_compute; reflexivity|]. vm_compute. auto.
Qed.

(** C5, as stated, on that batch: the failing fifth image is reported, yet
    none of the counters the loop keeps has moved, so no failure counter
    was incremented. *)
Lemma no_failure_counter :
  ∃ w' st',
    processProjectImage "." Demo.env (Demo.project Demo.ten) (Demo.image "corrupt.jpg" 5)
      initialImagesState Demo.empty = (w', Ok st')
    ∧ stderrCount w' = 1%nat
    ∧ ¬ (totalProcessed st' ≠ totalProcessed initialImagesState
         ∨ totalSkipped st' ≠ totalSkipped initialImagesState
         ∨ projectProcessed st' ≠ projectProcessed initialImagesState
         ∨ projectSkipped st' ≠ projectSkipped initialImagesState).
Proof.
  eexists _, _. split; [vm_compute; reflexivity|]. split; [reflexivity|].
  vm_compute. intros [H|[H|[H|H]]]; by apply H.
Qed.

(** ** A failed derivation and the cache *)


Lemma project_miss_calls_engine dirname env project img st w h :
  fs_readFile_md5 env (projectInputPath dirname project img) = Ok h →
  cacheHit w (projectCacheKey project img) h (projectOutputDir dirname project img) = None →
  ∃ w' st',
    processProjectImage dirname env project img st w = (w', Ok st')
    ∧ calls w' = EngineCall (projectInputPath dirname project img)
                   (projectOutputDir dirname project img)
                 :: HashCall (projectInputPath dirname project img) :: calls w.
Proof.
  intros Hh Hmiss.
  rewrite processProjectImage_shape. cbv zeta. rewrite cachedStep_eq.
  eexists _, _. split; [reflexivity|].
  unfold stepResult, stepWorld, stepState. rewrite Hh, Hmiss.
  destruct (processImage _ _ _ _ _ _ _) as [w2 r] eqn:E.
  apply processImage_frame in E as [_ Hg]. apply grows_calls in Hg.
  destruct r as [d|e]; simpl; by rewrite Hg.
Qed.

Lemma homepage_miss_calls_engine dirname env f st w h :
  fs_readFile_md5 env (homepageInputPath dirname f) = Ok h →
  cacheHit w (homepageCacheKey f) h (homepageOutputDir dirname f) = None →
  ∃ w' st',
    processHomepageFile dirname env f st w = (w', Ok st')
    ∧ calls w' = EngineCall (homepageInputPath dirname f) (homepageOutputDir dirname f)
                 :: HashCall (homepageInputPath dirname f) :: calls w.
Proof.
  intros Hh Hmiss.
  rewrite processHomepageFile_shape, cachedStep_eq.
  eexists _, _. split; [reflexivity|].
  unfold stepResult, stepWorld, stepState. rewrite Hh, Hmiss.
  destruct (deriveHomepageImage _ _ _ _ _ _) as [w2 r] eqn:E.
  apply deriveHomepageImage_frame in E as [_ Hg]. apply grows_calls in Hg.
  destruct r as [d|e]; simpl; by rewrite Hg.
Qed.





(** ** Which collections go through the cache *)

Lemma processLandingFile_calls dirname env type n f inputPath results w :
  ∃ w' results',
    processLandingFile dirname env type n f inputPath results w = (w', Ok results')
    ∧ calls w' = EngineCall inputPath (landingOutputDir dirname type n) :: calls w
    ∧ imageCache w' = imageCache w
    ∧ imageCacheUpdated w' = imageCacheUpdated w.
Proof.
  unfold processLandingFile, try_catch. unfold bind at 1.
  destruct (deriveLandingImage _ _ _ _ _ _) as [w1 [entry|e]] eqn:E;
    apply deriveLandingImage_frame in E as [[Hc Hf _] Hg]; apply grows_calls in Hg;
    eexists _, _; (split; [reflexivity|]); simpl; auto.
Qed.

Lemma processFolderLoop_calls dirname env inputDir type files :
  ∀ n results w w' r,
    processFolderLoop dirname env inputDir type n files results w = (w', r) →
    imageCache w' = imageCache w
    ∧ imageCacheUpdated w' = imageCacheUpdated w
    ∧ ∃ new, calls w' = new ++ calls w
        ∧ (∀ c, c ∈ new → ∃ i o, c = EngineCall i o)
        ∧ (∀ res, r = Ok res → length new = length files).
Proof.
  induction files as [|f files IH]; intros n results w w' r; simpl.
  - intros [= <- <-]. do 2 (split; [done|]). exists []. split; [done|]. split; [|done].
    intros c Hc. by apply elem_of_nil in Hc.
  - unfold ensureDir, lift_unit, modify, bind at 1 2.
    destruct (fs_ensureDir env _) as [e|].
    + intros [= <- <-]. do 2 (split; [done|]). exists []. split; [done|]. split; [|done].
      intros c Hc. by apply elem_of_nil in Hc.
    + destruct (processLandingFile_calls dirname env type n f (path_join [inputDir; f])
                  results (add_dir (landingOutputDir dirname type n) w))
        as (w1 & res1 & H1 & Hc1 & Hi1 & Hf1).
      erewrite bind_eq by exact H1. intros Hrest.
      apply IH in Hrest as (Hi & Hf & new & Hnew & Hall & Hlen).
      split; [by rewrite Hi, Hi1|]. split; [by rewrite Hf, Hf1|].
      exists (new ++ [EngineCall (path_join [inputDir; f]) (landingOutputDir dirname type n)]).
      split; [|split].
      * rewrite Hnew, Hc1. simpl. by rewrite <- app_assoc.
      * intros c [Hc|Hc]%elem_of_app; [by apply Hall|].
        apply list_elem_of_singleton in Hc as ->. eauto.
      * intros res Hr. rewrite length_app, (Hlen res Hr). simpl. lia.
Qed.

Lemma stepResult_Hit {D} env i o k (derive : M D) w h cached :
  fs_readFile_md5 env i = Ok h → cacheHit w k h o = Some cached →
  stepResult env i o k derive w = Hit h cached.
Proof. intros Hh Hc. unfold stepResult. by rewrite Hh, Hc. Qed.

Lemma stepWorld_calls {D} env i o k (derive : M D) wrap message w :
  (∀ w1 w2 r, derive w1 = (w2, r) → ∃ c, calls w2 = c :: calls w1) →
  ∃ new, calls (stepWorld i k derive wrap message (stepResult env i o k derive w) w)
         = new ++ HashCall i :: calls w
         ∧ ∀ h cached, stepResult env i o k derive w = Hit h cached → new = [].
Proof.
  intros Hcalls. unfold stepResult, stepWorld.
  destruct (fs_readFile_md5 env i) as [h|e]; [|by exists []].
  destruct (cacheHit w k h o) as [c|]; [by exists []|].
  destruct (derive (record_call (HashCall i) w)) as [w2 [d|e]] eqn:E;
    apply Hcalls in E as (c & Hc); exists [c]; simpl; by rewrite Hc.
Qed.

(** C6, as the script has it.  The project loop and the homepage loop hash
    every image first and, on a cache hit, hand out the cached data without
    calling the engine or touching the cache.  The landing loop does
    neither: it never hashes, never reads or writes the cache, and calls
    the engine for every image it gets to. *)
Theorem cache_covers_projects_and_homepage dirname env :
  (∀ project img st w, ∃ w' st' new,
     processProjectImage dirname env project img st w = (w', Ok st')
     ∧ calls w' = new ++ HashCall (projectInputPath dirname project img) :: calls w
     ∧ ∀ h cached,
         fs_readFile_md5 env (projectInputPath dirname project img) = Ok h →
         cacheHit w (projectCacheKey project img) h (projectOutputDir dirname project img)
         = Some cached →
         new = [] ∧ imageCache w' = imageCache w
         ∧ totalSkipped st' = S (totalSkipped st)
         ∧ ∃ m, imageData st' !! p_slug project = Some m
                ∧ m !! img_index img
                  = Some {| pi_data := data cached; pi_size := img_size img |})
  ∧ (∀ f st w, ∃ w' st' new,
       processHomepageFile dirname env f st w = (w', Ok st')
       ∧ calls w' = new ++ HashCall (homepageInputPath dirname f) :: calls w
       ∧ ∀ h cached,
           fs_readFile_md5 env (homepageInputPath dirname f) = Ok h →
           cacheHit w (homepageCacheKey f) h (homepageOutputDir dirname f) = Some cached →
           new = [] ∧ imageCache w' = imageCache w
           ∧ skippedCount st' = S (skippedCount st)
           ∧ homepageImages st' !! fileNumber f = Some (data cached))
  ∧ (∀ inputDir type n files results w w' r,
       processFolderLoop dirname env inputDir type n files results w = (w', r) →
       imageCache w' = imageCache w
       ∧ imageCacheUpdated w' = imageCacheUpdated w
       ∧ ∃ new, calls w' = new ++ calls w
           ∧ (∀ c, c ∈ new → ∃ i o, c = EngineCall i o)
           ∧ (∀ res, r = Ok res → length new = length files)).
Proof.
  split; [|split].
  - intros project img st w.
    destruct (stepWorld_calls env (projectInputPath dirname project img)
                (projectOutputDir dirname project img) (projectCacheKey project img)
                (processImage dirname env (projectInputPath dirname project img)
                   (projectOutputDir dirname project img) (img_file img)
                   (Some (projectCacheKey project img)))
                ProjectData
                (fun e => JS.nl +:+ "    Error processing " +:+ img_file img +:+ ": " +:+ e)
                w) as (new & Hnew & Hhit).
    { intros w1 w2 r [_ Hg%grows_calls]%processImage_frame. eauto. }
    eexists _, _, new. split.
    { rewrite processProjectImage_shape. cbv zeta. by rewrite cachedStep_eq. }
    split; [exact Hnew|].
    intros h cached Hh Hc.
    pose proof (stepResult_Hit env _ _ _
                  (processImage dirname env (projectInputPath dirname project img)
                     (projectOutputDir dirname project img) (img_file img)
                     (Some (projectCacheKey project img))) w h cached Hh Hc) as Hres.
    split; [by eapply Hhit|]. rewrite Hres. simpl.
    split; [done|]. split; [done|].
    eexists. split; [apply lookup_insert_eq | apply lookup_insert_eq].
  - intros f st w.
    destruct (stepWorld_calls env (homepageInputPath dirname f) (homepageOutputDir dirname f)
                (homepageCacheKey f)
                (deriveHomepageImage dirname env (fileNumber f) (homepageInputPath dirname f)
                   (homepageOutputDir dirname f))
                HomepageData
                (fun e => JS.nl +:+ "  Error processing " +:+ f +:+ ": " +:+ e)
                w) as (new & Hnew & Hhit).
    { intros w1 w2 r [_ Hg%grows_calls]%deriveHomepageImage_frame. eauto. }
    eexists _, _, new. split.
    { by rewrite processHomepageFile_shape, cachedStep_eq. }
    split; [exact Hnew|].
    intros h cached Hh Hc.
    pose proof (stepResult_Hit env _ _ _
                  (deriveHomepageImage dirname env (fileNumber f)
                     (homepageInputPath dirname f) (homepageOutputDir dirname f))
                  w h cached Hh Hc) as Hres.
    split; [by eapply Hhit|]. rewrite Hres. simpl.
    split; [done|]. split; [done|]. apply lookup_insert_eq.
  - intros inputDir type n files results w w' r. apply processFolderLoop_calls.
Qed.

Lemma cache_covers_projects_and_homepage_witness :
  (∃ w' st' new,
     processProjectImage "." Demo.env (Demo.project [Demo.image "01.jpg" 1])
       (Demo.image "01.jpg" 1) initialImagesState Demo.dirty = (w', Ok st')
     ∧ calls w' = new ++ HashCall "./projects/a/original/01.jpg" :: calls Demo.dirty
     ∧ new = [] ∧ imageCache w' = imageCache Demo.dirty
     ∧ totalSkipped st' = 1%nat)
  ∧ (∃ w' res,
       processFolderLoop "." Demo.env "./homepage/Commercial Home Images" "commercial" 0
         ["a.jpg"; "small.jpg"] [] Demo.landingRemembered = (w', Ok res)
       ∧ imageCache w' = imageCache Demo.landingRemembered
       ∧ imageCacheUpdated w' = imageCacheUpdated Demo.landingRemembered
       ∧ ∃ new, calls w' = new ++ calls Demo.landingRemembered
           ∧ (∀ c, c ∈ new → ∃ i o, c = EngineCall i o)
           ∧ length new = 2%nat).
Proof.
  split.
  - destruct (proj1 (cache_covers_projects_and_homepage "." Demo.env)
                (Demo.project [Demo.image "01.jpg" 1]) (Demo.image "01.jpg" 1)
                initialImagesState Demo.dirty)
      as (w' & st' & new & Hrun & Hcalls & Hhit).
    destruct (Hhit "md5 of ./projects/a/original/01.jpg"
                {| hash := "md5 of ./projects/a/original/01.jpg";
                   data := ProjectData Demo.results900 |})
      as (Hnew & Hcache & Hskip & _).
    + reflexivity.
    + vm_compute. reflexivity.
    + exists w', st', new. auto.
  - eexists _, _. split; [vm_compute; reflexivity|].
    edestruct (proj2 (proj2 (cache_covers_projects_and_homepage "." Demo.env))
                 "./homepage/Commercial Home Images" "commercial" 0%nat
                 ["a.jpg"; "small.jpg"] [] Demo.landingRemembered)
      as (Hc & Hf & new & Hnew & Hall & Hlen).
    { vm_compute. reflexivity. }
    split; [exact Hc|]. split; [exact Hf|].
    exists new. split; [exact Hnew|]. split; [exact Hall|].
    eapply Hlen. reflexivity.
Defined.

(** C6, as stated, on a landing image: although the cache holds entries
    with the hash of [a.jpg] and its output directory exists, the landing
    loop computes no hash and runs the engine on it (and on its
    neighbour). *)
Lemma landing_images_bypass_cache :
  ∃ w' r,
    processLandingImages "." Demo.env Demo.landingRemembered = (w', Ok r)
    ∧ length (commercial r) = 2%nat
    ∧ calls w'
      = [EngineCall "./homepage/Commercial Home Images/small.jpg"
           "./dist/images/landing/commercial/commercial-2";
         EngineCall "./homepage/Commercial Home Images/a.jpg"
           "./dist/images/landing/commercial/commercial-1"]
    ∧ ¬ (HashCall "./homepage/Commercial Home Images/a.jpg" ∈ calls w')
    ∧ imageCache w' = imageCache Demo.landingRemembered.
Proof.
  eexists _, _. split; [vm_compute; reflexivity|].
  do 2 (split; [vm_compute; reflexivity|]).
  split.
  - vm_compute. intros H. apply list_elem_of_In in H. simpl in H.
    destruct H as [H|[H|[]]]; discriminate H.
  - vm_compute. reflexivity.
Qed.

(** ** Derivations do not look at the world *)

Lemma blind_ret {A} (a : A) : blind (ret a).
Proof. done. Qed.

Lemma blind_lift {A} (r : result A) : blind (lift r).
Proof. done. Qed.

Lemma blind_lift_unit r : blind (lift_unit r).
Proof. intros w w'. unfold lift_unit. by destruct r. Qed.

Lemma blind_modify f : blind (modify f).
Proof. done. Qed.

Lemma blind_bind {A B} (m : M A) (k : A → M B) :
  blind m → (∀ a, blind (k a)) → blind (bind m k).
Proof.
  intros Hm Hk w w'. unfold bind. specialize (Hm w w').
  destruct (m w) as [w1 [a|e]], (m w') as [w1' [a'|e']]; simpl in Hm; simplify_eq.
  - apply Hk.
  - done.
Qed.

Ltac blind_tac :=
  repeat first
    [ apply blind_bind; [|intros ?]
    | apply blind_ret | apply blind_lift | apply blind_lift_unit | apply blind_modify ].

Lemma blind_toFile env i x f out : blind (toFile env i x f out).
Proof. unfold toFile. blind_tac. Qed.

Lemma blind_ensureDir env d : blind (ensureDir env d).
Proof. unfold ensureDir. blind_tac. Qed.

Lemma blind_extractDominantColor env i : blind (extractDominantColor env i).
Proof.
  unfold extractDominantColor. destruct (sharp_stats env i) as [[[? ?] ?]|?]; apply blind_ret.
Qed.

Lemma blind_resizeLoop env i o W widths acc : blind (resizeLoop env i o W widths acc).
Proof.
  revert acc. induction widths as [|x widths IH]; intros acc; simpl; [apply blind_ret|].
  case_bool_decide; [|apply IH].
  repeat (apply blind_bind; [apply blind_toFile | intros ?]). apply IH.
Qed.

Lemma blind_srcsetLoop env i o u W widths acc : blind (srcsetLoop env i o u W widths acc).
Proof.
  revert acc. induction widths as [|x widths IH]; intros acc; simpl; [apply blind_ret|].
  case_bool_decide; [|apply IH].
  repeat (apply blind_bind; [apply blind_toFile | intros ?]). apply IH.
Qed.

Lemma blind_processImage dirname env i o f k : blind (processImage dirname env i o f k).
Proof.
  unfold processImage, metadata, placeholderBuffer, copy.
  apply blind_bind; [blind_tac | intros ?].
  apply blind_bind; [blind_tac | intros ?].
  apply blind_bind; [apply blind_ensureDir | intros ?].
  apply blind_bind; [apply blind_extractDominantColor | intros ?].
  apply blind_bind; [apply blind_resizeLoop | intros ?].
  blind_tac.
Qed.

Lemma blind_deriveHomepageImage dirname env num i o :
  blind (deriveHomepageImage dirname env num i o).
Proof.
  unfold deriveHomepageImage, metadata, placeholderBuffer.
  apply blind_bind; [blind_tac | intros ?].
  apply blind_bind; [blind_tac | intros ?].
  apply blind_bind; [apply blind_ensureDir | intros ?].
  apply blind_bind; [apply blind_srcsetLoop | intros ?].
  apply blind_bind; [blind_tac | intros ?].
  apply blind_bind; [apply blind_extractDominantColor | intros ?].
  blind_tac.
Qed.

Lemma processImage_creates_dir dirname env i o f k w w' r :
  processImage dirname env i o f k w = (w', Ok r) → o ∈ dirs w'.
Proof.
  intros (md & _ & _ & _ & _ & -> & _)%processImage_Ok.
  apply elem_of_union_l, elem_of_singleton. done.
Qed.

Lemma deriveHomepageImage_creates_dir dirname env num i o w w' r :
  deriveHomepageImage dirname env num i o w = (w', Ok r) → o ∈ dirs w'.
Proof.
  intros (_ & _ & -> & _)%deriveHomepageImage_Ok.
  apply elem_of_union_l, elem_of_singleton. done.
Qed.

(** ** Looking at an image a second time *)

Section StepAgain.

Context {D : Type} (env : Env) (i o k : string) (derive : M D)
  (wrap : D → DerivedData) (message : exn → string).
Context (Hderive : well_behaved derive) (Hblind : blind derive).
Context (Hdir : ∀ w w' d, derive w = (w', Ok d) → o ∈ dirs w').

(** A step takes the same way from any world that still has the entry
    and the directory it left behind, except that what it derived is now a
    hit and what failed in the engine may now be a hit too. *)
Lemma step_again w w' :
  let res1 := stepResult env i o k derive w in
  let wa := stepWorld i k derive wrap message res1 w in
  imageCache w' !! k = imageCache wa !! k →
  dirs wa ⊆ dirs w' →
  match res1 with
  | HashFailed e => stepResult env i o k derive w' = HashFailed e
  | Hit h c => stepResult env i o k derive w' = Hit h c
  | DeriveFailed h e =>
      stepResult env i o k derive w' = DeriveFailed h e
      ∨ ∃ c, stepResult env i o k derive w' = Hit h c
  | Derived h d =>
      stepResult env i o k derive w' = Hit h {| hash := h; data := wrap d |}
  end.
Proof.
  intros res1 wa.
  pose proof (stepWorld_cache env i o k derive wrap message Hderive w) as Hcache.
  pose proof (stepWorld_dirs env i o k derive wrap message Hderive w) as Hdirs.
  fold res1 in Hcache, Hdirs. fold wa in Hcache, Hdirs.
  intros Hk Hd. rewrite Hcache in Hk. clear Hcache.
  subst wa. revert Hk Hd Hdirs. subst res1. unfold stepResult at 1 2 3 4.
  destruct (fs_readFile_md5 env i) as [h|e] eqn:Hh.
  2: { intros _ _ _. unfold stepResult. by rewrite Hh. }
  destruct (cacheHit w k h o) as [c|] eqn:Hc.
  { intros Hk Hd Hdirs. unfold stepResult. rewrite Hh.
    apply cacheHit_Some in Hc as (Hc & Hhc & Ho).
    assert (cacheHit w' k h o = Some c) as ->; [|done].
    apply cacheHit_Some. rewrite Hk. split; [done|]. split; [done|].
    apply Hd, Hdirs, Ho. }
  destruct (derive (record_call (HashCall i) w)) as [w2 [d|e]] eqn:E.
  - intros Hk Hd _. unfold stepResult. rewrite Hh.
    assert (cacheHit w' k h o = Some {| hash := h; data := wrap d |}) as ->; [|done].
    apply cacheHit_Some. rewrite Hk, lookup_insert_eq. split; [done|]. split; [done|].
    apply Hd. unfold stepWorld. simpl. rewrite E. simpl. eapply Hdir, E.
  - intros _ _ _. unfold stepResult. rewrite Hh.
    destruct (cacheHit w' k h o) as [c|]; [right; eauto|]. left.
    pose proof (Hblind (record_call (HashCall i) w) (record_call (HashCall i) w')) as Hb.
    rewrite E in Hb. simpl in Hb.
    destruct (derive (record_call (HashCall i) w')) as [w3 [d'|e']]; simpl in Hb;
      by simplify_eq.
Qed.

(** A step that does not derive leaves the cache and the flag alone. *)
Lemma quiet_step w :
  (∀ h d, stepResult env i o k derive w ≠ Derived h d) →
  imageCache (stepWorld i k derive wrap message (stepResult env i o k derive w) w)
  = imageCache w
  ∧ imageCacheUpdated (stepWorld i k derive wrap message (stepResult env i o k derive w) w)
    = imageCacheUpdated w.
Proof.
  intros Hq. rewrite stepWorld_cache, stepWorld_flag by done.
  destruct (stepResult env i o k derive w) as [e|h c|h e|h d]; try done.
  by destruct (Hq h d).
Qed.

(** A step touches the cache under its own key only. *)
Lemma stepWorld_other_keys w k' :
  k' ≠ k →
  imageCache (stepWorld i k derive wrap message (stepResult env i o k derive w) w) !! k'
  = imageCache w !! k'.
Proof.
  intros Hne. rewrite stepWorld_cache by done.
  destruct (stepResult env i o k derive w) as [e|h c|h e|h d]; try done.
  by rewrite lookup_insert_ne.
Qed.

Lemma stepWorld_errors_le w :
  (stderrCount w
   ≤ stderrCount (stepWorld i k derive wrap message (stepResult env i o k derive w) w))%nat.
Proof.
  rewrite stepWorld_errors by done.
  destruct (stepResult env i o k derive w); lia.
Qed.

End StepAgain.

(** ** Running a loop again *)

Section RerunLoop.

Context {X St : Type} (body : X → St → M St) (keysOf : X → list string)
  (n : X → nat) (proc skip : St → nat) (Rel : relation St).
Context (Hbody : Rerun body keysOf n proc skip Rel).

Lemma forEach_total xs st w : ∃ w1 st1, forEach body xs st w = (w1, Ok st1).
Proof.
  revert st w. induction xs as [|x xs IH]; intros st w; simpl; [by eauto|].
  destruct (rr_total _ _ _ _ _ _ Hbody x st w) as (wa & sta & Ha).
  erewrite bind_eq by exact Ha. apply IH.
Qed.

Lemma forEach_footprint xs st w w1 r :
  forEach body xs st w = (w1, r) →
  (∀ k, k ∉ mjoin (keysOf <$> xs) → imageCache w1 !! k = imageCache w !! k)
  ∧ dirs w ⊆ dirs w1
  ∧ (stderrCount w ≤ stderrCount w1)%nat.
Proof.
  revert st w. induction xs as [|x xs IH]; intros st w; simpl.
  - intros [= <- _]. auto.
  - destruct (rr_total _ _ _ _ _ _ Hbody x st w) as (wa & sta & Ha).
    erewrite bind_eq by exact Ha. intros Hrest.
    apply (rr_footprint _ _ _ _ _ _ Hbody) in Ha as (Hk & Hd & He).
    apply IH in Hrest as (Hk' & Hd' & He').
    split; [|split].
    + intros k Hnot. rewrite Hk', Hk; [done | |].
      * intros ?. apply Hnot, elem_of_app. auto.
      * intros ?. apply Hnot, elem_of_app. auto.
    + by etrans.
    + lia.
Qed.

Lemma forEach_again xs : ∀ st st' w w1 st1 w',
  forEach body xs st w = (w1, Ok st1) →
  NoDup (mjoin (keysOf <$> xs)) →
  agree (mjoin (keysOf <$> xs)) w' w1 →
  dirs w1 ⊆ dirs w' →
  ∃ w2 st2,
    forEach body xs st' w' = (w2, Ok st2)
    ∧ imageCache w2 = imageCache w'
    ∧ imageCacheUpdated w2 = imageCacheUpdated w'
    ∧ proc st2 = proc st'
    ∧ (stderrCount w1 = stderrCount w → Rel st st' →
       Rel st1 st2 ∧ stderrCount w2 = stderrCount w'
       ∧ skip st2 = (sum_list_with n xs + skip st')%nat).
Proof.
  induction xs as [|x xs IH]; intros st st' w w1 st1 w'; simpl.
  - intros [= <- <-] _ _ _. exists w', st'. split; [done|]. auto 10.
  - destruct (rr_total _ _ _ _ _ _ Hbody x st w) as (wa & sta & Ha).
    erewrite bind_eq by exact Ha. intros Hrest Hnodup Hagree Hdirs.
    apply NoDup_app in Hnodup as (Hnd1 & Hdisj & Hnd2).
    destruct (forEach_footprint _ _ _ _ _ Hrest) as (Hk & Hd & He).
    destruct (rr_footprint _ _ _ _ _ _ Hbody _ _ _ _ _ Ha) as (_ & _ & Hea).
    destruct (rr_again _ _ _ _ _ _ Hbody x st st' w wa sta w' Ha Hnd1)
      as (w2a & st2a & H2a & Hc2a & Hf2a & Hp2a & Hcond).
    { intros k Hin. rewrite (Hagree k) by (apply elem_of_app; auto).
      apply Hk. by apply Hdisj. }
    { by etrans. }
    destruct (rr_footprint _ _ _ _ _ _ Hbody _ _ _ _ _ H2a) as (_ & Hd2a & _).
    destruct (IH sta st2a wa w1 st1 w2a Hrest Hnd2)
      as (w2 & st2 & H2 & Hc2 & Hf2 & Hp2 & Hcond2).
    { intros k Hin. rewrite Hc2a. apply Hagree, elem_of_app. auto. }
    { by etrans. }
    exists w2, st2. split; [by erewrite bind_eq by exact H2a|].
    split; [congruence|]. split; [congruence|]. split; [congruence|].
    intros Hnoerr Hrel.
    destruct Hcond as (Hrel' & He2a & Hs2a); [lia | done |].
    destruct Hcond2 as (Hrel2 & He2 & Hs2); [lia | done |].
    split; [done|]. split; [congruence|]. rewrite Hs2, Hs2a. lia.
Qed.

Lemma Rerun_forEach :
  Rerun (forEach body) (fun xs => mjoin (keysOf <$> xs)) (sum_list_with n) proc skip Rel.
Proof.
  split.
  - apply forEach_total.
  - apply forEach_footprint.
  - intros xs. apply forEach_again.
Qed.

End RerunLoop.

Section RerunStep.

Context {X D St : Type} (env : Env) (inp out key : X → string) (derive : X → M D)
  (wrap : D → DerivedData) (message : X → exn → string)
  (onHit : X → St → DerivedData → St) (onDerived : X → St → D → St)
  (onError : X → St → St)
  (proc skip : St → nat) (Rel : relation St)
  (body : X → St → M St).
Context (Hshape : ∀ x st w,
           body x st w
           = cachedStep env (inp x) (out x) (key x) (derive x) wrap (message x)
               (onHit x st) (onDerived x st) (onError x st) w).
Context (Hderive : ∀ x, well_behaved (derive x)) (Hblind : ∀ x, blind (derive x)).
Context (Hdir : ∀ x w w' d, derive x w = (w', Ok d) → out x ∈ dirs w').
Context (Hproc_hit : ∀ x st d, proc (onHit x st d) = proc st)
  (Hproc_err : ∀ x st, proc (onError x st) = proc st)
  (Hskip_hit : ∀ x st d, skip (onHit x st d) = S (skip st))
  (Hrel_hit : ∀ x st st' d, Rel st st' → Rel (onHit x st d) (onHit x st' d))
  (Hrel_derived : ∀ x st st' d,
     Rel st st' → Rel (onDerived x st d) (onHit x st' (wrap d))).

Lemma Rerun_step : Rerun body (fun x => [key x]) (fun _ => 1%nat) proc skip Rel.
Proof.
  split.
  - intros x st w. rewrite Hshape, cachedStep_eq. eauto.
  - intros x st w w1 r. rewrite Hshape, cachedStep_eq. intros [= <- _].
    split; [|split].
    + intros k Hk. apply stepWorld_other_keys; [done|].
      intros ->. apply Hk. by left.
    + by apply stepWorld_dirs.
    + by apply stepWorld_errors_le.
  - intros x st st' w w1 st1 w'. rewrite !Hshape, !cachedStep_eq.
    intros [= <- <-] _ Hagree Hdirs.
    pose proof (step_again env (inp x) (out x) (key x) (derive x) wrap (message x)
                  (Hderive x) (Hblind x) (Hdir x) w w') as Hagain.
    cbv zeta in Hagain.
    specialize (Hagain (Hagree _ (list_elem_of_here _ _)) Hdirs).
    pose proof (stepWorld_errors env (inp x) (out x) (key x) (derive x) wrap (message x)
                  (Hderive x) w) as Herr1.
    pose proof (stepWorld_errors env (inp x) (out x) (key x) (derive x) wrap (message x)
                  (Hderive x) w') as Herr2.
    eexists _, _. split; [reflexivity|].
    assert (Hquiet : ∀ h d, stepResult env (inp x) (out x) (key x) (derive x) w'
                            ≠ Derived h d).
    { intros h d Heq. rewrite Heq in Hagain.
      destruct (stepResult env (inp x) (out x) (key x) (derive x) w);
        [done | done | by destruct Hagain as [?|[? ?]] | done]. }
    destruct (quiet_step env (inp x) (out x) (key x) (derive x) wrap (message x)
                (Hderive x) w' Hquiet) as [Hc Hf].
    split; [exact Hc|]. split; [exact Hf|]. split.
    { destruct (stepResult env (inp x) (out x) (key x) (derive x) w') as [e|h c|h e|h d];
        simpl; auto. by destruct (Hquiet h d). }
    intros Hnoerr Hrel. rewrite Herr2.
    destruct (stepResult env (inp x) (out x) (key x) (derive x) w) as [e|h c|h e|h d];
      [lia | | lia |]; rewrite Hagain; simpl; auto.
Qed.

End RerunStep.

Lemma mjoin_singletons {A B} (f : A → B) (l : list A) :
  mjoin ((fun x => [f x]) <$> l) = f <$> l.
Proof. induction l as [|x l IH]; csimpl; [done | by f_equal]. Qed.

Lemma sum_list_with_ones {A} (l : list A) : sum_list_with (fun _ => 1%nat) l = length l.
Proof. induction l as [|x l IH]; simpl; [done | by f_equal]. Qed.

(** The homepage loop can be run again. *)
Lemma Rerun_processHomepageFile dirname env :
  Rerun (processHomepageFile dirname env) (fun f => [homepageCacheKey f])
    (fun _ => 1%nat) processedCount skippedCount sameHomepageImages.
Proof.
  apply (Rerun_step env (homepageInputPath dirname) (homepageOutputDir dirname)
           homepageCacheKey
           (fun f => deriveHomepageImage dirname env (fileNumber f)
                       (homepageInputPath dirname f) (homepageOutputDir dirname f))
           HomepageData
           (fun f e => JS.nl +:+ "  Error processing " +:+ f +:+ ": " +:+ e)
           (fun f st d => {| homepageImages := <[fileNumber f := d]> (homepageImages st);
                             processedCount := processedCount st;
                             skippedCount := S (skippedCount st) |})
           (fun f st h => {| homepageImages :=
                               <[fileNumber f := HomepageData h]> (homepageImages st);
                             processedCount := S (processedCount st);
                             skippedCount := skippedCount st |})
           (fun f st => st)).
  - intros f st w. apply processHomepageFile_shape.
  - intros f. apply deriveHomepageImage_well_behaved.
  - intros f. apply blind_deriveHomepageImage.
  - intros f w w' d. apply deriveHomepageImage_creates_dir.
  - done.
  - done.
  - done.
  - intros f st st' d Hrel. unfold sameHomepageImages in *. simpl. by rewrite Hrel.
  - intros f st st' d Hrel. unfold sameHomepageImages in *. simpl. by rewrite Hrel.
Qed.

(** The body of the project loop can be run again. *)
Lemma Rerun_processProjectImage dirname env project :
  Rerun (processProjectImage dirname env project)
    (fun img => [projectCacheKey project img]) (fun _ => 1%nat)
    totalProcessed totalSkipped sameImageData.
Proof.
  apply (Rerun_step env (projectInputPath dirname project)
           (projectOutputDir dirname project) (projectCacheKey project)
           (fun img => processImage dirname env (projectInputPath dirname project img)
                         (projectOutputDir dirname project img) (img_file img)
                         (Some (projectCacheKey project img)))
           ProjectData
           (fun img e => JS.nl +:+ "    Error processing " +:+ img_file img +:+ ": " +:+ e)
           (fun img st d =>
              countSkipped
                (setImageData (p_slug project) (img_index img)
                   {| pi_data := d; pi_size := img_size img |}
                   (pushWarnings
                      (snd (validation env (projectInputPath dirname project img)
                              (p_slug project +:+ "/" +:+ img_file img))) st)))
           (fun img st r =>
              countProcessed
                (setImageData (p_slug project) (img_index img)
                   {| pi_data := ProjectData r; pi_size := img_size img |}
                   (pushWarnings
                      (snd (validation env (projectInputPath dirname project img)
                              (p_slug project +:+ "/" +:+ img_file img))) st)))
           (fun img st =>
              pushWarnings
                (snd (validation env (projectInputPath dirname project img)
                        (p_slug project +:+ "/" +:+ img_file img))) st)).
  - intros img st w. apply processProjectImage_shape.
  - intros img. apply processImage_well_behaved.
  - intros img. apply blind_processImage.
  - intros img w w' d. apply processImage_creates_dir.
  - done.
  - done.
  - done.
  - intros img st st' d Hrel. unfold sameImageData in *. simpl. by rewrite Hrel.
  - intros img st st' d Hrel. unfold sameImageData in *. simpl. by rewrite Hrel.
Qed.

Lemma checkDuplicates_imageData project imgs st :
  imageData (foldl (fun acc img => checkDuplicate project img acc) st imgs) = imageData st.
Proof.
  revert st. induction imgs as [|img imgs IH]; intros st; simpl; [done|].
  rewrite IH. unfold checkDuplicate. by destruct (allFilenames st !! _).
Qed.

(** [processProject] on a project that has images: the loop over its
    images between two lines of output. *)
Lemma processProject_with_images dirname env project st w w1 r :
  p_hasImages project = true →
  processProject dirname env project st w = (w1, r) ↔
  ∃ wi sti,
    forEach (processProjectImage dirname env project) (p_images project)
      (foldl (fun acc img => checkDuplicate project img acc)
         (startProject (p_slug project) st) (p_images project))
      (print (Stdout ("  Processing " +:+ p_title project +:+ "...")) w) = (wi, Ok sti)
    ∧ w1 = print (Stdout (" (" +:+ pretty (projectProcessed sti) +:+ " new, "
                          +:+ pretty (projectSkipped sti) +:+ " cached, "
                          +:+ pretty (length (p_images project)) +:+ " total)")) wi
    ∧ r = Ok sti.
Proof.
  intros Hhas. unfold processProject. rewrite Hhas. cbn [negb]. rewrite bind_log.
  destruct (forEach_total _ _ _ _ _ _ (Rerun_processProjectImage dirname env project)
              (p_images project)
              (foldl (fun acc img => checkDuplicate project img acc)
                 (startProject (p_slug project) st) (p_images project))
              (print (Stdout ("  Processing " +:+ p_title project +:+ "...")) w))
    as (wi & sti & Hloop).
  erewrite bind_eq by exact Hloop. rewrite bind_log. unfold ret. split.
  - intros [= <- <-]. eauto.
  - intros (wi' & sti' & Hloop' & -> & ->). rewrite Hloop in Hloop'. by simplify_eq.
Qed.

(** The body of the loop over projects can be run again. *)
Lemma Rerun_processProject dirname env :
  Rerun (processProject dirname env)
    (fun p => if p_hasImages p then imageKeys p else [])
    (fun p => if p_hasImages p then length (p_images p) else 0%nat)
    totalProcessed totalSkipped sameImageData.
Proof.
  pose proof (fun project =>
                Rerun_forEach _ _ _ _ _ _ (Rerun_processProjectImage dirname env project))
    as Hinner.
  split.
  - intros p st w. destruct (p_hasImages p) eqn:Hhas.
    + destruct (rr_total _ _ _ _ _ _ (Hinner p) (p_images p)
                  (foldl (fun acc img => checkDuplicate p img acc)
                     (startProject (p_slug p) st) (p_images p))
                  (print (Stdout ("  Processing " +:+ p_title p +:+ "...")) w))
        as (wi & sti & Hloop).
      eexists _, sti. apply processProject_with_images; [done|]. eauto.
    + unfold processProject. rewrite Hhas. eauto.
  - intros p st w w1 r. destruct (p_hasImages p) eqn:Hhas.
    + intros (wi & sti & Hloop & -> & ->)%processProject_with_images; [|done].
      apply (rr_footprint _ _ _ _ _ _ (Hinner p)) in Hloop as (Hk & Hd & He).
      unfold imageKeys. rewrite <- mjoin_singletons. auto.
    + unfold processProject. rewrite Hhas. intros [= <- _]. auto.
  - intros p st st' w w1 st1 w'. destruct (p_hasImages p) eqn:Hhas.
    + intros (wi & sti & Hloop & -> & [= <-])%processProject_with_images; [|done].
      unfold imageKeys. rewrite <- mjoin_singletons. intros Hnd Hagree Hdirs.
      destruct (rr_again _ _ _ _ _ _ (Hinner p) (p_images p) _
                  (foldl (fun acc img => checkDuplicate p img acc)
                     (startProject (p_slug p) st') (p_images p))
                  _ _ _
                  (print (Stdout ("  Processing " +:+ p_title p +:+ "...")) w')
                  Hloop Hnd Hagree Hdirs)
        as (w2 & st2 & H2 & Hc & Hf & Hp & Hcond).
      eexists _, st2. split.
      { apply processProject_with_images; [done|]. eauto. }
      split; [exact Hc|]. split; [exact Hf|]. split.
      { rewrite Hp. by destruct (checkDuplicates_totals p (p_images p)
                                   (startProject (p_slug p) st')) as [-> _]. }
      intros Hnoerr Hrel.
      destruct Hcond as (Hrel2 & He2 & Hs2); [exact Hnoerr | |].
      { unfold sameImageData in *. rewrite !checkDuplicates_imageData. simpl.
        by rewrite Hrel. }
      split; [done|]. split; [exact He2|].
      rewrite Hs2, sum_list_with_ones.
      by destruct (checkDuplicates_totals p (p_images p)
                     (startProject (p_slug p) st')) as [_ ->].
    + unfold processProject. rewrite Hhas. cbn [negb]. intros [= <- <-] _ _ _.
      exists w', st'. split; [done|]. auto 10.
Qed.


Lemma imagesCount_sum projects :
  imagesCount projects
  = sum_list_with (fun p => if p_hasImages p then length (p_images p) else 0%nat) projects.
Proof. reflexivity. Qed.







(** ** The engine returns *)

(** When every call into the image library and the file system succeeds,
    [processImage] returns. *)
Lemma processImage_returns dirname env inputPath outputDir filename cacheKey md buffer w :
  sharp_metadata env inputPath = Ok md →
  fs_ensureDir env outputDir = None →
  (∀ x f out, sharp_toFile env inputPath x f out = None) →
  sharp_toBuffer env inputPath = Ok buffer →
  (∀ to, fs_copy env inputPath to = None) →
  ∃ w' r, processImage dirname env inputPath outputDir filename cacheKey w = (w', Ok r).
Proof.
  intros Hmd Hdir Hfile Hbuf Hcopy.
  assert (Hloop : ∀ widths acc w0, ∃ w1 szs,
            resizeLoop env inputPath outputDir (m_width md) widths acc w0 = (w1, Ok szs)).
  { induction widths as [|x widths IH]; intros acc w0; simpl; [by eauto|].
    case_bool_decide; [|apply IH].
    unfold toFile, lift_unit. rewrite !Hfile. unfold bind, modify. simpl. apply IH. }
  assert (Hcolor : ∃ color, ∀ w0, extractDominantColor env inputPath w0 = (w0, Ok color)).
  { unfold extractDominantColor.
    destruct (sharp_stats env inputPath) as [[[? ?] ?]|?]; eauto. }
  destruct Hcolor as (color & Hcolor).
  unfold processImage. rewrite bind_modify.
  erewrite bind_eq by (unfold metadata, lift; rewrite Hmd; reflexivity).
  erewrite bind_eq
    by (unfold ensureDir;
        erewrite bind_eq by (unfold lift_unit; rewrite Hdir; reflexivity);
        reflexivity).
  erewrite bind_eq by apply Hcolor.
  destruct (Hloop (imageSizes (CONFIG dirname)) ∅
              (add_dir outputDir (record_call (EngineCall inputPath outputDir) w)))
    as (w2 & szs & Hl).
  erewrite bind_eq by exact Hl.
  erewrite bind_eq by (unfold placeholderBuffer, lift; rewrite Hbuf; reflexivity).
  erewrite bind_eq
    by (unfold copy;
        erewrite bind_eq by (unfold lift_unit; rewrite Hcopy; reflexivity);
        reflexivity).
  unfold ret. eauto.
Qed.

(** The scenario of the specification: a source of 2000 by 1000 pixels is
    written at all three widths in all three formats, next to the copy of
    the original. *)
Example scenario_2000_by_1000 :
  ∃ w' r,
    processImage "." Demo.env "./projects/a/original/photo.jpg" "./dist/images/a/01"
      "photo.jpg" (Some "a/photo.jpg") Demo.empty = (w', Ok r)
    ∧ length (written w') = 10%nat
    ∧ sizes r = <[1200 := true]> (<[800 := true]> (<[400 := true]> ∅))
    ∧ aspectRatio r = (2000, 1000)
    ∧ dominantColor r = "#e8e8e6".
Proof.
  eexists _, _. split; [vm_compute; reflexivity|].
  repeat split; vm_compute; reflexivity.
Qed.

(** ** Which directories a run creates *)

Global Instance within_preorder outs : PreOrder (within outs).
Proof.
  split.
  - intros w. split; [apply union_subseteq_r | by exists []].
  - intros w1 w2 w3 [Hd1 [n1 Hc1]] [Hd2 [n2 Hc2]]. split.
    + etrans; [exact Hd2|]. apply union_least; [apply union_subseteq_l|exact Hd1].
    + exists (n2 ++ n1). rewrite Hc2, Hc1. by rewrite app_assoc.
Qed.

Lemma within_mono outs outs' w w' : outs ⊆ outs' → within outs w w' → within outs' w w'.
Proof.
  intros Hsub [Hd Hc]. split; [|done].
  etrans; [exact Hd|]. apply union_least; [|apply union_subseteq_r].
  etrans; [exact Hsub | apply union_subseteq_l].
Qed.

Lemma within_same outs (f : World → World) w :
  dirs (f w) = dirs w → calls (f w) = calls w → within outs w (f w).
Proof. intros Hd Hc. split; [rewrite Hd; apply union_subseteq_r | by exists []; rewrite Hc]. Qed.

Section Within.

Context (dirname : string) (env : Env) (outs : gset string).

Lemma keeps_within_toFile i x f out : keeps (within outs) (toFile env i x f out).
Proof.
  unfold toFile. apply keeps_bind; [exact _ | apply keeps_lift_unit; exact _ | intros _].
  apply keeps_modify. intros w. by apply within_same.
Qed.

Lemma keeps_within_ensureDir d : d ∈ outs → keeps (within outs) (ensureDir env d).
Proof.
  intros Hd. unfold ensureDir.
  apply keeps_bind; [exact _ | apply keeps_lift_unit; exact _ | intros _].
  apply keeps_modify. intros w. split; [|by exists []]. simpl.
  apply union_least; [|apply union_subseteq_r].
  etrans; [|apply union_subseteq_l]. by apply singleton_subseteq_l.
Qed.

Lemma keeps_within_record c : keeps (within outs) (modify (record_call c)).
Proof. apply keeps_modify. intros w. split; [apply union_subseteq_r | by exists [c]]. Qed.

Lemma keeps_within_print o : keeps (within outs) (modify (print o)).
Proof. apply keeps_modify. intros w. by apply within_same. Qed.

Lemma keeps_within_resizeLoop i o W widths acc :
  keeps (within outs) (resizeLoop env i o W widths acc).
Proof.
  revert acc. induction widths as [|x widths IH]; intros acc; simpl.
  - apply keeps_ret; exact _.
  - case_bool_decide; [|apply IH].
    repeat (apply keeps_bind; [exact _ | apply keeps_within_toFile | intros ?]). apply IH.
Qed.

Lemma keeps_within_srcsetLoop i o u W widths acc :
  keeps (within outs) (srcsetLoop env i o u W widths acc).
Proof.
  revert acc. induction widths as [|x widths IH]; intros acc; simpl.
  - apply keeps_ret; exact _.
  - case_bool_decide; [|apply IH].
    repeat (apply keeps_bind; [exact _ | apply keeps_within_toFile | intros ?]). apply IH.
Qed.

Lemma keeps_within_processImage i o f k :
  o ∈ outs → keeps (within outs) (processImage dirname env i o f k).
Proof.
  intros Ho. unfold processImage, metadata, placeholderBuffer, copy.
  apply keeps_bind; [exact _ | apply keeps_within_record | intros ?].
  apply keeps_bind; [exact _ | apply keeps_lift; exact _ | intros ?].
  apply keeps_bind; [exact _ | by apply keeps_within_ensureDir | intros ?].
  apply keeps_bind; [exact _ | apply (keeps_extractDominantColor env (within outs)) | intros ?].
  apply keeps_bind; [exact _ | apply keeps_within_resizeLoop | intros ?].
  apply keeps_bind; [exact _ | apply keeps_lift; exact _ | intros ?].
  apply keeps_bind; [exact _ | | intros ?; apply keeps_ret; exact _].
  apply keeps_bind; [exact _ | apply keeps_lift_unit; exact _ | intros _].
  apply keeps_modify. intros w. by apply within_same.
Qed.

Lemma keeps_within_deriveHomepageImage num i o :
  o ∈ outs → keeps (within outs) (deriveHomepageImage dirname env num i o).
Proof.
  intros Ho. unfold deriveHomepageImage, metadata, placeholderBuffer.
  apply keeps_bind; [exact _ | apply keeps_within_record | intros ?].
  apply keeps_bind; [exact _ | apply keeps_lift; exact _ | intros ?].
  apply keeps_bind; [exact _ | by apply keeps_within_ensureDir | intros ?].
  apply keeps_bind; [exact _ | apply keeps_within_srcsetLoop | intros ?].
  apply keeps_bind; [exact _ | apply keeps_lift; exact _ | intros ?].
  apply keeps_bind; [exact _ | apply (keeps_extractDominantColor env (within outs)) | intros ?].
  apply keeps_ret; exact _.
Qed.

(** A caching step creates no directory but the one its derivation
    creates. *)
Lemma keeps_within_cachedStep {D St} i o k (derive : M D) wrap message
    (onHit : DerivedData → St) onDerived onError :
  keeps (within outs) derive →
  keeps (within outs)
    (cachedStep env i o k derive wrap message onHit onDerived onError).
Proof.
  intros Hderive w w' r. rewrite cachedStep_eq. intros [= <- _].
  unfold stepResult, stepWorld.
  destruct (fs_readFile_md5 env i) as [h|e].
  2: { split; [apply union_subseteq_r | by exists [HashCall i]]. }
  destruct (cacheHit w k h o) as [c|].
  { split; [apply union_subseteq_r | by exists [HashCall i]]. }
  destruct (derive (record_call (HashCall i) w)) as [w2 [d|e]] eqn:E;
    destruct (Hderive _ _ _ E) as [Hd [new Hc]]; simpl;
    (split; simpl; [exact Hd | exists (new ++ [HashCall i]); rewrite Hc; simpl;
                                by rewrite <- app_assoc]).
Qed.

End Within.

Section Reach.

Context {X St : Type} (body : X → St → M St) (outsOf : X → list string).
Context (Htotal : ∀ x st w, ∃ w1 st1, body x st w = (w1, Ok st1)).
Context (Hbound : ∀ x st, keeps (within (list_to_set (outsOf x))) (body x st)).

Lemma forEach_returns xs st w : ∃ w1 st1, forEach body xs st w = (w1, Ok st1).
Proof.
  revert st w. induction xs as [|x xs IH]; intros st w; simpl; [by eauto|].
  destruct (Htotal x st w) as (wa & sta & Ha).
  erewrite bind_eq by exact Ha. apply IH.
Qed.

Lemma forEach_within xs st :
  keeps (within (list_to_set (mjoin (outsOf <$> xs)))) (forEach body xs st).
Proof.
  revert st. induction xs as [|x xs IH]; intros st; simpl.
  - apply keeps_ret; exact _.
  - apply keeps_bind; [exact _ | | intros st'].
    + intros w w' r H. eapply within_mono; [|by eapply Hbound].
      rewrite list_to_set_app_L. apply union_subseteq_l.
    + intros w w' r H. eapply within_mono; [|by eapply IH].
      rewrite list_to_set_app_L. apply union_subseteq_r.
Qed.

Lemma forEach_app xs1 xs2 st w :
  forEach body (xs1 ++ xs2) st w
  = bind (forEach body xs1 st) (fun st' => forEach body xs2 st') w.
Proof.
  revert st w. induction xs1 as [|x xs1 IH]; intros st w; simpl; [reflexivity|].
  unfold bind. destruct (body x st w) as [wa [sta|e]]; [|done].
  rewrite IH. reflexivity.
Qed.

(** An element of the batch is reached with every directory still missing
    that was missing at the start and is not the output of an earlier
    element; what it then records in the trace of calls is still there at
    the end. *)
Lemma forEach_reach xs1 x xs2 st w w1 r target c :
  forEach body (xs1 ++ x :: xs2) st w = (w1, r) →
  target ∉ dirs w →
  target ∉ mjoin (outsOf <$> xs1) →
  (∀ st' w' w'' r', target ∉ dirs w' → body x st' w' = (w'', r') → c ∈ calls w'') →
  c ∈ calls w1.
Proof.
  intros Hrun Hmissing Hearlier Hstep.
  rewrite forEach_app in Hrun.
  destruct (forEach_returns xs1 st w) as (wa & sta & Ha).
  erewrite bind_eq in Hrun by exact Ha. simpl in Hrun.
  destruct (Htotal x sta wa) as (wb & stb & Hb).
  erewrite bind_eq in Hrun by exact Hb.
  apply forEach_within in Ha as [Hda _].
  apply forEach_within in Hrun as [_ [new Hc]].
  rewrite Hc. apply elem_of_app. right.
  eapply Hstep; [|exact Hb].
  intros Hin. apply Hda in Hin. apply elem_of_union in Hin as [Hin|Hin]; [|done].
  by apply elem_of_list_to_set in Hin.
Qed.

End Reach.

Lemma processProjectImage_within dirname env project img st :
  keeps (within (list_to_set [projectOutputDir dirname project img]))
    (processProjectImage dirname env project img st).
Proof.
  intros w w' r. rewrite processProjectImage_shape. cbv zeta.
  apply keeps_within_cachedStep, keeps_within_processImage.
  apply elem_of_list_to_set. by left.
Qed.

Lemma processHomepageFile_within dirname env f st :
  keeps (within (list_to_set [homepageOutputDir dirname f]))
    (processHomepageFile dirname env f st).
Proof.
  intros w w' r. rewrite processHomepageFile_shape.
  apply keeps_within_cachedStep, keeps_within_deriveHomepageImage.
  apply elem_of_list_to_set. by left.
Qed.

Lemma processProject_within dirname env project st :
  keeps (within (list_to_set (if p_hasImages project then imageOutputs dirname project
                              else [])))
    (processProject dirname env project st).
Proof.
  intros w w' r. destruct (p_hasImages project) eqn:Hhas.
  - intros (wi & sti & Hloop & -> & _)%processProject_with_images; [|done].
    apply (forEach_within (processProjectImage dirname env project)
             (fun img => [projectOutputDir dirname project img])
             (processProjectImage_within dirname env project)) in Hloop.
    rewrite mjoin_singletons in Hloop. destruct Hloop as [Hd Hc]. split; simpl; done.
  - unfold processProject. rewrite Hhas. intros [= <- _]. reflexivity.
Qed.

Lemma processImages_calls dirname env projects w w1 r :
  processImages dirname env projects w = (w1, r) →
  ∃ wl stl,
    forEach (processProject dirname env) projects initialImagesState
      (print (Stdout "Processing project images...") w) = (wl, Ok stl)
    ∧ calls w1 = calls wl.
Proof.
  unfold processImages. rewrite bind_log.
  destruct (forEach_total _ _ _ _ _ _ (Rerun_processProject dirname env) projects
              initialImagesState (print (Stdout "Processing project images...") w))
    as (wl & stl & Hloop).
  erewrite bind_eq by exact Hloop.
  assert (∃ w2, (if bool_decide (0 < length (warnings stl))%nat
                 then log (JS.nl +:+ "  Image validation warnings:");;;
                      forEach (fun wn (_ : unit) => log ("    - " +:+ wn)) (warnings stl) tt
                 else ret tt) wl = (w2, Ok tt)
                ∧ calls w2 = calls wl)
    as (w2 & H2 & Hc).
  { case_bool_decide; [|by eauto].
    rewrite bind_log.
    destruct (forEach_log_lines (warnings stl)
                (print (Stdout (JS.nl +:+ "  Image validation warnings:")) wl))
      as (w2 & -> & _ & _ & _ & _ & Hc).
    eauto. }
  erewrite bind_eq by exact H2. rewrite bind_log. unfold ret. intros [= <- <-].
  exists wl, stl. simpl. auto.
Qed.

(** ** Reprocessing when the output directory is gone *)

Lemma project_reached dirname env project img st w w' r h :
  fs_readFile_md5 env (projectInputPath dirname project img) = Ok h →
  projectOutputDir dirname project img ∉ dirs w →
  processProjectImage dirname env project img st w = (w', r) →
  EngineCall (projectInputPath dirname project img) (projectOutputDir dirname project img)
  ∈ calls w'.
Proof.
  intros Hh Hd Hrun.
  destruct (project_miss_calls_engine dirname env project img st w h Hh)
    as (w2 & st2 & Hrun2 & Hc).
  { apply cacheHit_None. auto. }
  rewrite Hrun in Hrun2. injection Hrun2 as <- _. rewrite Hc. by left.
Qed.

Lemma homepage_reached dirname env f st w w' r h :
  fs_readFile_md5 env (homepageInputPath dirname f) = Ok h →
  homepageOutputDir dirname f ∉ dirs w →
  processHomepageFile dirname env f st w = (w', r) →
  EngineCall (homepageInputPath dirname f) (homepageOutputDir dirname f) ∈ calls w'.
Proof.
  intros Hh Hd Hrun.
  destruct (homepage_miss_calls_engine dirname env f st w h Hh)
    as (w2 & st2 & Hrun2 & Hc).
  { apply cacheHit_None. auto. }
  rewrite Hrun in Hrun2. injection Hrun2 as <- _. rewrite Hc. by left.
Qed.

(** C4, as the script has it.  When a caching loop reaches an image whose cache entry
    is intact (the stored hash is the hash of the source file) while the
    image's output directory does not exist, it calls the derivation
    engine for that image and does not count it as skipped.  For a whole
    run: if the entry is intact and the directory is missing when the run
    starts, and no image earlier in the batch has the same output
    directory, the run calls the engine for that image.  Both hold for the
    project loop, over slugs that are plain names, and for the homepage
    loop, over slides with safe numbers.  An image that comes after one
    with the same output directory finds the directory made again and is
    served from the cache. *)
Theorem missing_output_dir_reprocessed dirname env :
  (∀ project img st w cached,
     imageCache w !! projectCacheKey project img = Some cached →
     fs_readFile_md5 env (projectInputPath dirname project img) = Ok (hash cached) →
     projectOutputDir dirname project img ∉ dirs w →
     ∃ w' st',
       processProjectImage dirname env project img st w = (w', Ok st')
       ∧ calls w' = EngineCall (projectInputPath dirname project img)
                      (projectOutputDir dirname project img)
                    :: HashCall (projectInputPath dirname project img) :: calls w
       ∧ totalSkipped st' = totalSkipped st
       ∧ projectSkipped st' = projectSkipped st)
  ∧ (∀ f st w cached,
       imageCache w !! homepageCacheKey f = Some cached →
       fs_readFile_md5 env (homepageInputPath dirname f) = Ok (hash cached) →
       homepageOutputDir dirname f ∉ dirs w →
       ∃ w' st',
         processHomepageFile dirname env f st w = (w', Ok st')
         ∧ calls w' = EngineCall (homepageInputPath dirname f) (homepageOutputDir dirname f)
                      :: HashCall (homepageInputPath dirname f) :: calls w
         ∧ skippedCount st' = skippedCount st)
  ∧ (∀ before project after earlier img later w w1 r cached,
       Forall (fun p => isPlainName (p_slug p) = true) (before ++ [project]) →
       p_hasImages project = true →
       p_images project = earlier ++ img :: later →
       imageCache w !! projectCacheKey project img = Some cached →
       fs_readFile_md5 env (projectInputPath dirname project img) = Ok (hash cached) →
       projectOutputDir dirname project img ∉ dirs w →
       projectOutputDir dirname project img
         ∉ projectOutputs dirname before ++ (projectOutputDir dirname project <$> earlier) →
       processImages dirname env (before ++ project :: after) w = (w1, r) →
       EngineCall (projectInputPath dirname project img)
         (projectOutputDir dirname project img) ∈ calls w1)
  ∧ (∀ earlier f later st w w1 r cached,
       Forall (fun g => fileNumber g <= MAX_SAFE_INTEGER) (earlier ++ [f]) →
       imageCache w !! homepageCacheKey f = Some cached →
       fs_readFile_md5 env (homepageInputPath dirname f) = Ok (hash cached) →
       homepageOutputDir dirname f ∉ dirs w →
       homepageOutputDir dirname f ∉ (homepageOutputDir dirname <$> earlier) →
       forEach (processHomepageFile dirname env) (earlier ++ f :: later) st w = (w1, r) →
       EngineCall (homepageInputPath dirname f) (homepageOutputDir dirname f) ∈ calls w1).
Proof.
  split; [|split; [|split]].
  - intros project img st w cached Hc Hh Hd.
    rewrite processProjectImage_shape. cbv zeta. rewrite cachedStep_eq.
    eexists _, _. split; [reflexivity|].
    unfold stepResult, stepWorld, stepState. rewrite Hh.
    assert (cacheHit w (projectCacheKey project img) (hash cached)
              (projectOutputDir dirname project img) = None) as ->
      by (apply cacheHit_None; auto).
    destruct (processImage _ _ _ _ _ _ _) as [w2 r] eqn:E.
    apply processImage_frame in E as [_ Hg]. apply grows_calls in Hg.
    destruct r as [d|e]; simpl; rewrite Hg; done.
  - intros f st w cached Hc Hh Hd.
    rewrite processHomepageFile_shape, cachedStep_eq.
    eexists _, _. split; [reflexivity|].
    unfold stepResult, stepWorld, stepState. rewrite Hh.
    assert (cacheHit w (homepageCacheKey f) (hash cached)
              (homepageOutputDir dirname f) = None) as ->
      by (apply cacheHit_None; auto).
    destruct (deriveHomepageImage _ _ _ _ _ _) as [w2 r] eqn:E.
    apply deriveHomepageImage_frame in E as [_ Hg]. apply grows_calls in Hg.
    destruct r as [d|e]; simpl; rewrite Hg; done.
  - intros before project after earlier img later w w1 r cached
      _ Hhas Himgs Hc Hh Hd Hnot Hrun.
    apply not_elem_of_app in Hnot as [Hnot1 Hnot2].
    apply processImages_calls in Hrun as (wl & stl & Hloop & ->).
    eapply (forEach_reach (processProject dirname env)
              (fun p => if p_hasImages p then imageOutputs dirname p else [])
              (rr_total _ _ _ _ _ _ (Rerun_processProject dirname env))
              (processProject_within dirname env)); [exact Hloop | exact Hd | exact Hnot1 |].
    intros st' w' w'' r' Hd' (wi & sti & Hinner & -> & _)%processProject_with_images;
      [|done].
    rewrite Himgs in Hinner. simpl.
    eapply (forEach_reach (processProjectImage dirname env project)
              (fun img => [projectOutputDir dirname project img])
              (rr_total _ _ _ _ _ _ (Rerun_processProjectImage dirname env project))
              (processProjectImage_within dirname env project));
      [exact Hinner | exact Hd' | by rewrite mjoin_singletons |].
    intros st2 w2 w3 r3 Hd2 Hstep. by eapply project_reached.
  - intros earlier f later st w w1 r cached _ Hc Hh Hd Hnot Hrun.
    eapply (forEach_reach (processHomepageFile dirname env)
              (fun f => [homepageOutputDir dirname f])
              (rr_total _ _ _ _ _ _ (Rerun_processHomepageFile dirname env))
              (processHomepageFile_within dirname env));
      [exact Hrun | exact Hd | by rewrite mjoin_singletons |].
    intros st2 w2 w3 r3 Hd2 Hstep. by eapply homepage_reached.
Qed.

Lemma missing_output_dir_reprocessed_witness :
  (∃ w' st',
     processProjectImage "." Demo.env (Demo.project [Demo.image "01.jpg" 1])
       (Demo.image "01.jpg" 1) initialImagesState Demo.cachedNoOutput = (w', Ok st')
     ∧ calls w' = [EngineCall "./projects/a/original/01.jpg" "./dist/images/a/01";
                   HashCall "./projects/a/original/01.jpg"]
     ∧ totalSkipped st' = 0%nat
     ∧ projectSkipped st' = 0%nat)
  ∧ (∃ w' st',
       processHomepageFile "." Demo.env "1.jpg"
         {| homepageImages := ∅; processedCount := 0; skippedCount := 0 |}
         Demo.cachedSlideNoOutput = (w', Ok st')
       ∧ calls w' = [EngineCall "./homepage/1.jpg" "./dist/images/homepage/1";
                     HashCall "./homepage/1.jpg"]
       ∧ skippedCount st' = 0%nat)
  ∧ (∃ w1 st1,
       processImages "." Demo.env
         ([] ++ Demo.project [Demo.image "00.jpg" 0; Demo.image "01.jpg" 1] :: [])
         Demo.cachedNoOutput = (w1, Ok st1)
       ∧ EngineCall "./projects/a/original/01.jpg" "./dist/images/a/01" ∈ calls w1).
Proof.
  split; [|split].
  - apply (proj1 (missing_output_dir_reprocessed "." Demo.env)
             (Demo.project [Demo.image "01.jpg" 1]) (Demo.image "01.jpg" 1)
             initialImagesState Demo.cachedNoOutput
             {| hash := "md5 of ./projects/a/original/01.jpg";
                data := ProjectData Demo.results900 |}).
    + vm_compute. reflexivity.
    + reflexivity.
    + apply not_elem_of_empty.
  - apply (proj1 (proj2 (missing_output_dir_reprocessed "." Demo.env))
             "1.jpg" {| homepageImages := ∅; processedCount := 0; skippedCount := 0 |}
             Demo.cachedSlideNoOutput
             {| hash := "md5 of ./homepage/1.jpg";
                data := ProjectData Demo.results900 |}).
    + vm_compute. reflexivity.
    + reflexivity.
    + vm_compute. intros H. inversion H.
  - eexists _, _. split; [vm_compute; reflexivity|].
    eapply (proj1 (proj2 (proj2 (missing_output_dir_reprocessed "." Demo.env)))
              [] (Demo.project [Demo.image "00.jpg" 0; Demo.image "01.jpg" 1]) []
              [Demo.image "00.jpg" 0] (Demo.image "01.jpg" 1) []
              Demo.cachedNoOutput _ _
              {| hash := "md5 of ./projects/a/original/01.jpg";
                 data := ProjectData Demo.results900 |}).
    + repeat constructor.
    + reflexivity.
    + reflexivity.
    + vm_compute. reflexivity.
    + reflexivity.
    + apply not_elem_of_empty.
    + vm_compute. intros H. apply list_elem_of_In in H. simpl in H.
      destruct H as [H|[]]. discriminate H.
    + vm_compute. reflexivity.
Defined.

(** C4, as stated, on two slides with one number.  The cache remembers
    [1.jpg] and [1.png] with the hashes their sources have, and their
    common folder is gone.  The run derives [1.jpg] again, which makes the
    folder; it then finds the entry of [1.png] intact and the folder
    there, counts [1.png] as cached and does not call the engine for it. *)
Lemma shared_folder_not_reprocessed :
  ∃ cached w1 st1,
    imageCache Demo.slidesLost !! homepageCacheKey "1.png" = Some cached
    ∧ fs_readFile_md5 Demo.env (homepageInputPath "." "1.png") = Ok (hash cached)
    ∧ (homepageOutputDir "." "1.png" ∉ dirs Demo.slidesLost)
    ∧ forEach (processHomepageFile "." Demo.env) ["1.jpg"; "1.png"] Demo.noSlides
        Demo.slidesLost = (w1, Ok st1)
    ∧ processedCount st1 = 1%nat ∧ skippedCount st1 = 1%nat
    ∧ calls w1
      = [HashCall "./homepage/1.png";
         EngineCall "./homepage/1.jpg" "./dist/images/homepage/1";
         HashCall "./homepage/1.jpg"]
    ∧ homepageOutputDir "." "1.jpg" = homepageOutputDir "." "1.png".
Proof.
  eexists _, _, _. split; [vm_compute; reflexivity|].
  split; [vm_compute; reflexivity|].
  split; [vm_compute; set_solver|].
  split; [vm_compute; reflexivity|].
  repeat split; vm_compute; reflexivity.
Qed.

(** ** The dirty flag *)

Global Instance untouched_preorder : PreOrder untouched.
Proof.
  split.
  - intros w H. done.
  - intros w1 w2 w3 H12 H23 H3.
    destruct (H23 H3) as [H2 Hc23]. destruct (H12 H2) as [H1 Hc12].
    split; [done | congruence].
Qed.



Section Untouched.

Context (dirname : string) (env : Env).




















End Untouched.

(** ** What every stage leaves alone *)

(** A relation that holds across each elementary update of the world but
    the writing of the cache file holds across every stage of [build]. *)
Section Frame.

Context (dirname : string) (env : Env).
Context (R : relation World) `{!PreOrder R}.
Context (Rprint : ∀ o w, R w (print o w)).
Context (Rcall : ∀ c w, R w (record_call c w)).
Context (Rdir : ∀ d w, R w (add_dir d w)).
Context (Rwritten : ∀ p w, R w (add_written p w)).
Context (Rupdate : ∀ k h d w,
  R w (record_store k
         (set_imageCacheUpdated true
            (set_imageCache (<[k := {| hash := h; data := d |}]> (imageCache w)) w)))).

Ltac frame :=
  repeat first
    [ apply keeps_bind; [exact _ | | intros ?]
    | apply keeps_try_catch; [exact _ | | intros ?]
    | apply keeps_ret; exact _
    | apply keeps_lift; exact _
    | apply keeps_lift_unit; exact _
    | apply keeps_throw; exact _
    | apply keeps_modify; intros ?;
      first [apply Rprint | apply Rcall | apply Rdir | apply Rwritten | apply Rupdate] ].

Lemma frame_toFile i x f out : keeps R (toFile env i x f out).
Proof. unfold toFile. frame. Qed.

Lemma frame_ensureDir d : keeps R (ensureDir env d).
Proof. unfold ensureDir. frame. Qed.

Lemma frame_pathExists p : keeps R (pathExists p).
Proof. intros w w' r [= <- _]. reflexivity. Qed.

Lemma frame_outputJson p : keeps R (outputJson env p).
Proof. unfold outputJson. frame. Qed.

Lemma frame_resizeLoop i o W widths acc : keeps R (resizeLoop env i o W widths acc).
Proof.
  revert acc. induction widths as [|x widths IH]; intros acc; simpl.
  - frame.
  - case_bool_decide; [|apply IH].
    repeat (apply keeps_bind; [exact _ | apply frame_toFile | intros ?]). apply IH.
Qed.

Lemma frame_srcsetLoop i o u W widths acc : keeps R (srcsetLoop env i o u W widths acc).
Proof.
  revert acc. induction widths as [|x widths IH]; intros acc; simpl.
  - frame.
  - case_bool_decide; [|apply IH].
    repeat (apply keeps_bind; [exact _ | apply frame_toFile | intros ?]). apply IH.
Qed.

Lemma frame_processImage i o f k : keeps R (processImage dirname env i o f k).
Proof.
  unfold processImage, metadata, placeholderBuffer, copy.
  apply keeps_bind; [exact _ | frame | intros ?].
  apply keeps_bind; [exact _ | frame | intros ?].
  apply keeps_bind; [exact _ | apply frame_ensureDir | intros ?].
  apply keeps_bind; [exact _ | apply (keeps_extractDominantColor env R) | intros ?].
  apply keeps_bind; [exact _ | apply frame_resizeLoop | intros ?].
  frame.
Qed.

Lemma frame_deriveHomepageImage num i o :
  keeps R (deriveHomepageImage dirname env num i o).
Proof.
  unfold deriveHomepageImage, metadata, placeholderBuffer.
  apply keeps_bind; [exact _ | frame | intros ?].
  apply keeps_bind; [exact _ | frame | intros ?].
  apply keeps_bind; [exact _ | apply frame_ensureDir | intros ?].
  apply keeps_bind; [exact _ | apply frame_srcsetLoop | intros ?].
  apply keeps_bind; [exact _ | frame | intros ?].
  apply keeps_bind; [exact _ | apply (keeps_extractDominantColor env R) | intros ?].
  frame.
Qed.

Lemma frame_deriveLandingImage type n i :
  keeps R (deriveLandingImage dirname env type n i).
Proof.
  unfold deriveLandingImage, metadata.
  apply keeps_bind; [exact _ | frame | intros ?].
  apply keeps_bind; [exact _ | frame | intros ?].
  apply keeps_bind; [exact _ | apply frame_srcsetLoop | intros ?].
  frame.
Qed.

Lemma frame_cachedStep {D St} i o k (derive : M D) wrap message
    (onHit : DerivedData → St) onDerived onError :
  keeps R derive →
  keeps R (cachedStep env i o k derive wrap message onHit onDerived onError).
Proof.
  intros Hderive. unfold cachedStep, getFileHash, updateCache, error.
  apply keeps_try_catch; [exact _ | | intros ?]; [|frame].
  apply keeps_bind; [exact _ | frame | intros h].
  intros w w' r. destruct (cacheHit w k h o) as [c|].
  - revert w w' r. frame.
  - revert w w' r. apply keeps_bind; [exact _ | exact Hderive | intros ?]. frame.
Qed.

Lemma frame_processProjectImage project img st :
  keeps R (processProjectImage dirname env project img st).
Proof.
  intros w w' r. rewrite processProjectImage_shape. cbv zeta.
  apply frame_cachedStep, frame_processImage.
Qed.

Lemma frame_processHomepageFile f st :
  keeps R (processHomepageFile dirname env f st).
Proof.
  intros w w' r. rewrite processHomepageFile_shape.
  apply frame_cachedStep, frame_deriveHomepageImage.
Qed.

Lemma frame_processProject project st :
  keeps R (processProject dirname env project st).
Proof.
  unfold processProject, log.
  destruct (negb (p_hasImages project)); [apply keeps_ret; exact _|].
  apply keeps_bind; [exact _ | frame | intros ?]. cbv zeta.
  apply keeps_bind; [exact _ | | intros ?]; [|frame].
  apply keeps_forEach; [exact _|]. intros. apply frame_processProjectImage.
Qed.

Lemma frame_processImages projects : keeps R (processImages dirname env projects).
Proof.
  unfold processImages, log.
  apply keeps_bind; [exact _ | frame | intros ?].
  apply keeps_bind; [exact _ | | intros st].
  { apply keeps_forEach; [exact _|]. intros. apply frame_processProject. }
  apply keeps_bind; [exact _ | | intros ?]; [|frame].
  case_bool_decide; [|frame].
  apply keeps_bind; [exact _ | frame | intros ?].
  apply keeps_forEach; [exact _|]. intros wn []. frame.
Qed.

Lemma frame_processHomepageImages : keeps R (processHomepageImages dirname env).
Proof.
  unfold processHomepageImages, log, readdir.
  apply keeps_bind; [exact _ | frame | intros ?]. cbv zeta.
  apply keeps_bind; [exact _ | apply frame_pathExists | intros present].
  destruct (negb present); [frame|].
  apply keeps_bind; [exact _ | frame | intros files].
  apply keeps_bind; [exact _ | | intros st].
  { apply keeps_forEach; [exact _|]. intros. apply frame_processHomepageFile. }
  apply keeps_bind; [exact _ | | intros ?]; [|frame].
  case_bool_decide; [apply frame_outputJson | frame].
Qed.

Lemma frame_processFolderLoop inputDir type i files results :
  keeps R (processFolderLoop dirname env inputDir type i files results).
Proof.
  revert i results. induction files as [|f files IH]; intros i results; simpl.
  - frame.
  - apply keeps_bind; [exact _ | apply frame_ensureDir | intros ?].
    apply keeps_bind; [exact _ | | intros ?]; [|apply IH].
    unfold processLandingFile, error.
    apply keeps_try_catch; [exact _ | | intros ?]; [|frame].
    apply keeps_bind; [exact _ | apply frame_deriveLandingImage | intros ?]. frame.
Qed.

Lemma frame_processLandingImages : keeps R (processLandingImages dirname env).
Proof.
  assert (∀ inputDir outputDir type,
            keeps R (processFolder dirname env inputDir outputDir type)) as Hfolder.
  { intros. unfold processFolder, log, readdir.
    apply keeps_bind; [exact _ | apply frame_pathExists | intros present].
    destruct (negb present); [frame|].
    apply keeps_bind; [exact _ | frame | intros files].
    apply frame_processFolderLoop. }
  unfold processLandingImages, log.
  apply keeps_bind; [exact _ | frame | intros ?].
  apply keeps_bind; [exact _ | apply Hfolder | intros c].
  apply keeps_bind; [exact _ | apply Hfolder | intros p].
  frame.
Qed.

Lemma frame_loadProjects : keeps R (loadProjects dirname env).
Proof.
  unfold loadProjects, log.
  apply keeps_bind; [exact _ | apply frame_pathExists | intros present].
  destruct (negb present); frame.
Qed.

(** The stages of [build] that come after [loadImageCache]. *)
Lemma frame_buildStages w0 w r :
  buildStages dirname env w0 = (w, r) →
  ∃ wl, loadImageCache (print (Stdout "Loading image cache...") w0) = (wl, Ok tt)
        ∧ R wl w.
Proof.
  unfold buildStages. rewrite bind_log.
  destruct (loadImageCache_Ok (print (Stdout "Loading image cache...") w0))
    as (wl & Hload & _).
  erewrite bind_eq by exact Hload. intros Hrest.
  exists wl. split; [done|]. revert Hrest. unfold external, log.
  apply keeps_bind; [exact _ | frame | intros ?].
  apply keeps_bind; [exact _ | apply frame_loadProjects | intros projects].
  apply keeps_bind; [exact _ | frame | intros ?].
  apply keeps_bind; [exact _ | frame | intros ?].
  apply keeps_bind; [exact _ | frame | intros ?].
  apply keeps_bind; [exact _ | apply frame_processImages | intros ?].
  apply keeps_bind; [exact _ | apply frame_processHomepageImages | intros ?].
  apply keeps_bind; [exact _ | apply frame_processLandingImages | intros ?].
  frame.
Qed.

End Frame.

Global Instance storedSince_preorder : PreOrder storedSince.
Proof.
  split.
  - intros w. exists []. split; [done|]. split; [by rewrite orb_false_r|].
    split; [done|]. intros k Hk. by apply elem_of_nil in Hk.
  - intros w1 w2 w3 (new1 & Hs1 & Hf1 & Hd1 & Hk1) (new2 & Hs2 & Hf2 & Hd2 & Hk2).
    exists (new2 ++ new1). split; [by rewrite Hs2, Hs1, app_assoc|].
    split; [|split; [by etrans|]].
    + rewrite Hf2, Hf1, <- orb_assoc. f_equal.
      destruct new2, new1; done.
    + intros k [Hk|Hk]%elem_of_app; [by apply Hk2|].
      apply elem_of_dom, Hd2, elem_of_dom. by apply Hk1.
Qed.






(** * The other stages of the build *)

(** ** The dominant colour *)

Lemma hex2_two_digits (n : N) :
  (n < 256)%N →
  ∃ c1 c2 v1 v2,
    hex2 n = String c1 (String c2 "")
    ∧ hexDigitValue c1 = Some v1 ∧ hexDigitValue c2 = Some v2
    ∧ (16 * v1 + v2)%N = n.
Proof.
  intros Hn.
  pose (check := fun n : N =>
          match hex2 n with
          | String c1 (String c2 "") =>
              match hexDigitValue c1, hexDigitValue c2 with
              | Some v1, Some v2 => (16 * v1 + v2 =? n)%N
              | _, _ => false
              end
          | _ => false
          end).
  assert (forallb check (N.of_nat <$> seq 0 256) = true) as Hall
    by (vm_compute; reflexivity).
  rewrite forallb_forall in Hall.
  assert (check n = true) as Hcheck.
  { apply Hall, list_elem_of_In, list_elem_of_fmap.
    exists (N.to_nat n). split; [lia|]. apply elem_of_seq. lia. }
  unfold check in Hcheck.
  destruct (hex2 n) as [|c1 [|c2 [|]]]; try done.
  destruct (hexDigitValue c1) as [v1|] eqn:E1; [|done].
  destruct (hexDigitValue c2) as [v2|] eqn:E2; [|done].
  apply N.eqb_eq in Hcheck.
  exists c1, c2, v1, v2. auto.
Qed.

(** X1. [extractDominantColor] never throws.  When the library fails it
    answers the neutral [#e8e8e6]; when the library reports three channels
    below 256 it answers a seven-character [#rrggbb] from which the three
    channels can be read back. *)
Theorem extractDominantColor_css env inputPath w :
  (∀ e, sharp_stats env inputPath = Throw e →
     extractDominantColor env inputPath w = (w, Ok "#e8e8e6"))
  ∧ (∀ r g b, sharp_stats env inputPath = Ok (r, g, b) →
       (r < 256)%N → (g < 256)%N → (b < 256)%N →
       ∃ s, extractDominantColor env inputPath w = (w, Ok s)
            ∧ String.length s = 7%nat
            ∧ cssColour s = Some (r, g, b)).
Proof.
  split.
  - intros e He. unfold extractDominantColor. by rewrite He.
  - intros r g b Hs Hr Hg Hb. unfold extractDominantColor. rewrite Hs.
    destruct (hex2_two_digits r Hr) as (r1 & r2 & vr1 & vr2 & -> & Hr1 & Hr2 & <-).
    destruct (hex2_two_digits g Hg) as (g1 & g2 & vg1 & vg2 & -> & Hg1 & Hg2 & <-).
    destruct (hex2_two_digits b Hb) as (b1 & b2 & vb1 & vb2 & -> & Hb1 & Hb2 & <-).
    eexists. split; [reflexivity|]. split; [reflexivity|].
    simpl. by rewrite Hr1, Hr2, Hg1, Hg2, Hb1, Hb2.
Qed.

Lemma extractDominantColor_css_witness :
  extractDominantColor Sample.noStats "x.jpg" Demo.empty = (Demo.empty, Ok "#e8e8e6")
  ∧ ∃ s, extractDominantColor Demo.env "x.jpg" Demo.empty = (Demo.empty, Ok s)
         ∧ String.length s = 7%nat
         ∧ cssColour s = Some (232, 232, 230)%N.
Proof.
  split.
  - apply (proj1 (extractDominantColor_css Sample.noStats "x.jpg" Demo.empty)
             "stats failed"). reflexivity.
  - apply (proj2 (extractDominantColor_css Demo.env "x.jpg" Demo.empty)
             232%N 232%N 230%N); [reflexivity | reflexivity ..].
Defined.

(** ** The [srcset] lists *)

Lemma srcsetLoop_sets env i o u W widths acc w w' sets :
  srcsetLoop env i o u W widths acc w = (w', Ok sets) →
  let available := filter (fun s => W >= s) widths in
  avifSrcset sets = avifSrcset acc ++ ((fun x => srcsetItem u x AVIF) <$> available)
  ∧ webpSrcset sets = webpSrcset acc ++ ((fun x => srcsetItem u x WEBP) <$> available)
  ∧ jpgSrcset sets = jpgSrcset acc ++ ((fun x => srcsetItem u x JPEG) <$> available).
Proof.
  revert acc w. induction widths as [|x widths IH]; intros acc w; simpl.
  - intros [= <- <-]. by rewrite !app_nil_r.
  - rewrite filter_cons. case_bool_decide as Hx.
    + intros H.
      mstep H as w1 u1 H1. mstep H as w2 u2 H2. mstep H as w3 u3 H3.
      apply IH in H as (Ha & Hw & Hj). simpl in Ha, Hw, Hj.
      rewrite decide_True by done.
      rewrite Ha, Hw, Hj, !fmap_cons, <- !app_assoc. done.
    + intros H. apply IH in H. by rewrite decide_False.
Qed.

(** X2. Every candidate of the [srcset] strings of a homepage or landing image
    is a file of this derivation: the lists hold one candidate per ladder
    width the source is wide enough for, in ladder order, and the URL of
    each, read under [dist], is a file that was written. *)
Theorem srcset_candidates_written dirname env :
  (∀ f w w' entry,
     deriveHomepageImage dirname env (fileNumber f) (homepageInputPath dirname f)
       (homepageOutputDir dirname f) w = (w', Ok entry) →
     let available := filter (fun s => h_width entry >= s) (homepageSizes dirname) in
     h_srcset entry
     = {| ss_avif := JS.join ", " ((fun x => srcsetItem (h_path entry) x AVIF) <$> available);
          ss_webp := JS.join ", " ((fun x => srcsetItem (h_path entry) x WEBP) <$> available);
          ss_jpg := JS.join ", " ((fun x => srcsetItem (h_path entry) x JPEG) <$> available) |}
     ∧ ∀ x fmt, x ∈ available →
         distDir (CONFIG dirname)
         +:+ (h_path entry +:+ "/" +:+ pretty x +:+ extension fmt) ∈ written w')
  ∧ (∀ type n i w w' entry,
       deriveLandingImage dirname env type n i w = (w', Ok entry) →
       let available := filter (fun s => l_width entry >= s) landingSizes in
       l_srcset entry
       = {| ss_avif := JS.join ", "
                         ((fun x => srcsetItem (landingUrlDir type n) x AVIF) <$> available);
            ss_webp := JS.join ", "
                         ((fun x => srcsetItem (landingUrlDir type n) x WEBP) <$> available);
            ss_jpg := JS.join ", "
                        ((fun x => srcsetItem (landingUrlDir type n) x JPEG) <$> available) |}
       ∧ ∀ x fmt, x ∈ available →
           distDir (CONFIG dirname)
           +:+ (landingUrlDir type n +:+ "/" +:+ pretty x +:+ extension fmt) ∈ written w').
Proof.
  split.
  - intros f w w' entry H. unfold deriveHomepageImage in H.
    mstep H as w1 u1 H1. apply modify_Ok in H1 as ->.
    mstep H as w2 md H2. apply lift_Ok in H2 as [-> Hmd].
    mstep H as w3 u3 H3. unfold ensureDir in H3.
    mstep H3 as w4 u4 H4.
    apply lift_unit_Ok in H4 as [-> _]. apply modify_Ok in H3 as ->.
    mstep H as w5 sets H5.
    pose proof (srcsetLoop_sets _ _ _ _ _ _ _ _ _ _ H5) as (Ha & Hw & Hj).
    apply srcsetLoop_Ok in H5 as (_ & _ & new & Hnew & Hmem).
    mstep H as w6 buffer H6. apply lift_Ok in H6 as [-> _].
    mstep H as w7 color H7. apply extractDominantColor_inv in H7 as [-> _].
    unfold ret in H. injection H as <- <-. simpl. split.
    + unfold joinSrcset. simpl in Ha, Hw, Hj. by rewrite Ha, Hw, Hj.
    + intros x fmt [Hle Hin]%list_elem_of_filter.
      rewrite Hnew, elem_of_app. left. apply Hmem. exists x, fmt.
      split; [done|]. split; [lia|].
      unfold homepageOutputDir. by rewrite homepage_file_url.
  - intros type n i w w' entry H. unfold deriveLandingImage in H.
    mstep H as w1 u1 H1. apply modify_Ok in H1 as ->.
    mstep H as w2 md H2. apply lift_Ok in H2 as [-> Hmd].
    mstep H as w5 sets H5.
    pose proof (srcsetLoop_sets _ _ _ _ _ _ _ _ _ _ H5) as (Ha & Hw & Hj).
    apply srcsetLoop_Ok in H5 as (_ & _ & new & Hnew & Hmem).
    unfold ret in H. injection H as <- <-. simpl. split.
    + unfold joinSrcset. simpl in Ha, Hw, Hj. by rewrite Ha, Hw, Hj.
    + intros x fmt [Hle Hin]%list_elem_of_filter.
      rewrite Hnew, elem_of_app. left. apply Hmem. exists x, fmt.
      split; [done|]. split; [lia|].
      by rewrite landing_file_url.
Qed.

Lemma srcset_candidates_written_witness :
  ∃ w' entry,
    deriveHomepageImage "." Demo.env 1 "./homepage/1.jpg" "./dist/images/homepage/1"
      Demo.empty = (w', Ok entry)
    ∧ ss_jpg (h_srcset entry)
      = "/images/homepage/1/400.jpg 400w, /images/homepage/1/800.jpg 800w"
    ∧ "./dist/images/homepage/1/800.webp" ∈ written w'.
Proof.
  eexists _, _. split; [vm_compute; reflexivity|].
  destruct (proj1 (srcset_candidates_written "." Demo.env) "1.jpg" Demo.empty _ _
              ltac:(vm_compute; reflexivity)) as [Hsets Hfiles].
  split.
  - vm_compute. reflexivity.
  - apply (Hfiles 800 WEBP). vm_compute.
    apply list_elem_of_In. simpl. tauto.
Defined.

(** ** A folder that cannot be created *)

Lemma processFolderLoop_stops dirname env inputDir type before :
  ∀ f after n results w e,
    (∀ j, (j < length before)%nat →
          fs_ensureDir env (landingOutputDir dirname type (n + j)) = None) →
    fs_ensureDir env (landingOutputDir dirname type (n + length before)) = Some e →
    ∃ w' new,
      processFolderLoop dirname env inputDir type n (before ++ f :: after) results w
      = (w', Throw e)
      ∧ calls w' = new ++ calls w
      ∧ length new = length before.
Proof.
  induction before as [|b before IH]; intros f after n results w e Hbefore Hfail; simpl.
  - rewrite Nat.add_0_r in Hfail.
    unfold ensureDir, lift_unit, bind at 1 2. rewrite Hfail.
    exists w, []. done.
  - pose proof (Hbefore 0%nat ltac:(simpl; lia)) as H0. rewrite Nat.add_0_r in H0.
    unfold ensureDir, lift_unit, modify, bind at 1 2. rewrite H0.
    destruct (processLandingFile_calls dirname env type n b (path_join [inputDir; b])
                results (add_dir (landingOutputDir dirname type n) w))
      as (w1 & res1 & H1 & Hc1 & _).
    erewrite bind_eq by exact H1.
    destruct (IH f after (S n) res1 w1 e) as (w' & new & Hrun & Hc & Hlen).
    { intros j Hj. replace (S n + j)%nat with (n + S j)%nat by lia.
      apply Hbefore. simpl. lia. }
    { replace (S n + length before)%nat with (n + length (b :: before))%nat
        by (simpl; lia). exact Hfail. }
    exists w', (new ++ [EngineCall (path_join [inputDir; b]) (landingOutputDir dirname type n)]).
    split; [exact Hrun|]. split.
    + rewrite Hc, Hc1. simpl. by rewrite <- app_assoc.
    + rewrite length_app, Hlen. simpl. lia.
Qed.

(** X3. In the landing loop [ensureDir] stands outside the [try]: when the
    folder of an image cannot be created, [processFolder] throws that
    error, and the images after it are never handed to the engine.  What
    the image library throws for an image is caught, as in the other
    loops. *)
Theorem landing_folder_failure_propagates dirname env inputDir type :
  (∀ before f after n results w e,
     (∀ j, (j < length before)%nat →
           fs_ensureDir env (landingOutputDir dirname type (n + j)) = None) →
     fs_ensureDir env (landingOutputDir dirname type (n + length before)) = Some e →
     ∃ w' new,
       processFolderLoop dirname env inputDir type n (before ++ f :: after) results w
       = (w', Throw e)
       ∧ calls w' = new ++ calls w
       ∧ length new = length before)
  ∧ (∀ n f inputPath results w,
       ∃ w' results',
         processLandingFile dirname env type n f inputPath results w = (w', Ok results')
         ∧ ∀ e, sharp_metadata env inputPath = Throw e →
                results' = results
                ∧ head (console w')
                  = Some (Stderr (JS.nl +:+ "  Error processing " +:+ f +:+ ": " +:+ e))).
Proof.
  split.
  - intros before. apply processFolderLoop_stops.
  - intros n f inputPath results w.
    destruct (processLandingFile_calls dirname env type n f inputPath results w)
      as (w' & results' & Hrun & _).
    exists w', results'. split; [exact Hrun|].
    intros e He. revert Hrun.
    unfold processLandingFile, try_catch, deriveLandingImage, metadata.
    unfold bind at 1. rewrite bind_modify. unfold bind at 1. unfold lift. rewrite He.
    unfold error. rewrite bind_modify. unfold ret. intros [= <- <-]. done.
Qed.

Lemma landing_folder_failure_propagates_witness :
  ∃ w',
    processFolderLoop "." Sample.noSecondFolder "./homepage/Commercial Home Images"
      "commercial" 0 (["a.jpg"] ++ "small.jpg" :: ["c.jpg"]) [] Demo.landing
    = (w', Throw "EACCES: permission denied")
    ∧ calls w' = [EngineCall "./homepage/Commercial Home Images/a.jpg"
                    "./dist/images/landing/commercial/commercial-1"].
Proof.
  destruct (proj1 (landing_folder_failure_propagates "." Sample.noSecondFolder
                     "./homepage/Commercial Home Images" "commercial")
              ["a.jpg"] "small.jpg" ["c.jpg"] 0%nat [] Demo.landing
              "EACCES: permission denied") as (w' & new & Hrun & Hc & Hlen).
  - intros j Hj. simpl in Hj. assert (j = 0%nat) as -> by lia. reflexivity.
  - reflexivity.
  - exists w'. split; [exact Hrun|].
    vm_compute in Hrun. injection Hrun as <-. reflexivity.
Defined.

(** ** The order of the homepage slides *)

Lemma insert_by_perm {A} (key : A → Z) x xs : JS.insert_by key x xs ≡ₚ x :: xs.
Proof.
  induction xs as [|y xs IH]; simpl; [done|].
  case_bool_decide; [done|]. rewrite IH. apply Permutation_swap.
Qed.

Lemma sort_by_perm {A} (key : A → Z) xs : JS.sort_by key xs ≡ₚ xs.
Proof.
  induction xs as [|x xs IH]; simpl; [done|].
  unfold JS.sort_by in *. simpl. by rewrite insert_by_perm, IH.
Qed.

Lemma insert_by_sorted {A} (key : A → Z) x xs :
  StronglySorted (fun a b => key a <= key b) xs →
  StronglySorted (fun a b => key a <= key b) (JS.insert_by key x xs).
Proof.
  induction 1 as [|y xs Hs IH Hall]; simpl.
  - repeat constructor.
  - case_bool_decide as Hxy.
    + constructor; [by constructor|].
      constructor; [done|]. eapply Forall_impl; [exact Hall|]. simpl. intros; lia.
    + constructor; [exact IH|].
      rewrite insert_by_perm. constructor; [lia | done].
Qed.

Lemma sort_by_sorted {A} (key : A → Z) xs :
  StronglySorted (fun a b => key a <= key b) (JS.sort_by key xs).
Proof.
  induction xs as [|x xs IH]; simpl; [constructor|].
  by apply insert_by_sorted.
Qed.

Lemma hashed_app cs1 cs2 : hashed (cs1 ++ cs2) = hashed cs1 ++ hashed cs2.
Proof. unfold hashed. apply omap_app. Qed.

Lemma processHomepageFile_hashes dirname env f st w :
  ∃ w' st' new,
    processHomepageFile dirname env f st w = (w', Ok st')
    ∧ calls w' = new ++ HashCall (homepageInputPath dirname f) :: calls w
    ∧ hashed new = [].
Proof.
  rewrite processHomepageFile_shape, cachedStep_eq.
  unfold stepResult, stepWorld.
  destruct (fs_readFile_md5 env _) as [h|e].
  2: { eexists _, _, []. split; [reflexivity|]. done. }
  destruct (cacheHit w _ h _) as [c|].
  { eexists _, _, []. split; [reflexivity|]. done. }
  destruct (deriveHomepageImage _ _ _ _ _ _) as [w2 [d|e]] eqn:E;
    apply deriveHomepageImage_frame in E as [_ Hg%grows_calls];
    eexists _, _, [EngineCall (homepageInputPath dirname f) (homepageOutputDir dirname f)];
    (split; [reflexivity|]); simpl; by rewrite Hg.
Qed.

Lemma homepage_loop_hashes dirname env files :
  ∀ st w, ∃ w' st' new,
    forEach (processHomepageFile dirname env) files st w = (w', Ok st')
    ∧ calls w' = new ++ calls w
    ∧ hashed new = reverse (homepageInputPath dirname <$> files).
Proof.
  induction files as [|f files IH]; intros st w; simpl.
  - by exists w, st, [].
  - destruct (processHomepageFile_hashes dirname env f st w)
      as (w1 & st1 & new1 & H1 & Hc1 & Hh1).
    erewrite bind_eq by exact H1.
    destruct (IH st1 w1) as (w' & st' & new & Hrun & Hc & Hh).
    exists w', st', (new ++ new1 ++ [HashCall (homepageInputPath dirname f)]).
    split; [exact Hrun|]. split.
    + rewrite Hc, Hc1, <- !app_assoc. done.
    + rewrite !hashed_app, Hh, Hh1, reverse_cons. done.
Qed.

(** X4. When the numbers of the slides are safe integers,
    [processHomepageImages] hashes the entries of the homepage folder
    named [<digits>.jpg], [.jpeg] or [.png], each once, in ascending order
    of their number, and no other file. *)
Theorem homepage_slides_in_order dirname env files w w' r :
  homepageDir (CONFIG dirname) ∈ dirs w →
  fs_readdir env (homepageDir (CONFIG dirname)) = Ok files →
  (∀ f, f ∈ files → isNumberedImage f = true → fileNumber f <= MAX_SAFE_INTEGER) →
  processHomepageImages dirname env w = (w', r) →
  ∃ slides new,
    slides ≡ₚ filter (fun f => isNumberedImage f = true) files
    ∧ StronglySorted (fun a b => fileNumber a <= fileNumber b) slides
    ∧ calls w' = new ++ calls w
    ∧ hashed new = reverse (homepageInputPath dirname <$> slides).
Proof.
  intros Hdir Hfiles _. unfold processHomepageImages. rewrite bind_log. cbv zeta.
  erewrite bind_eq by (apply pathExists_present; exact Hdir). cbn [negb].
  unfold readdir. rewrite Hfiles. erewrite bind_eq by reflexivity.
  set (slides := JS.sort_by fileNumber (filter (fun f => isNumberedImage f = true) files)).
  destruct (homepage_loop_hashes dirname env slides
              {| homepageImages := ∅; processedCount := 0; skippedCount := 0 |}
              (print (Stdout "Processing homepage images...") w))
    as (w1 & st1 & new & Hloop & Hc & Hh).
  erewrite bind_eq by exact Hloop. intros Hrest.
  exists slides, new.
  split; [apply sort_by_perm|]. split; [apply sort_by_sorted|].
  split; [|exact Hh].
  assert (calls w' = calls w1) as ->; [|by rewrite Hc].
  revert Hrest. case_bool_decide.
  - unfold outputJson, lift_unit. unfold bind at 1 2.
    destruct (fs_outputJson env _); [by intros [= <- _]|].
    simpl. rewrite bind_log. by intros [= <- _].
  - unfold ret at 1. unfold bind at 1. rewrite bind_log. by intros [= <- _].
Qed.

Lemma homepage_slides_in_order_witness :
  ∃ w' r slides new,
    processHomepageImages "." Demo.env Demo.site = (w', r)
    ∧ slides ≡ₚ ["2.jpg"; "1.jpg"]
    ∧ StronglySorted (fun a b => fileNumber a <= fileNumber b) slides
    ∧ calls w' = new ++ calls Demo.site
    ∧ hashed new = reverse (homepageInputPath "." <$> slides).
Proof.
  eexists _, _.
  assert (Hsafe : ∀ f, f ∈ ["2.jpg"; "notes.txt"; "1.jpg"] →
            isNumberedImage f = true → fileNumber f <= MAX_SAFE_INTEGER).
  { intros f Hf _. apply list_elem_of_In in Hf. simpl in Hf.
    destruct Hf as [<-|[<-|[<-|[]]]]; vm_compute; discriminate. }
  destruct (homepage_slides_in_order "." Demo.env ["2.jpg"; "notes.txt"; "1.jpg"]
              Demo.site _ _
              ltac:(vm_compute; set_solver) ltac:(reflexivity) Hsafe
              ltac:(vm_compute; reflexivity))
    as (slides & new & Hp & Hs & Hc & Hh).
  exists slides, new. split; [vm_compute; reflexivity|]. auto.
Defined.

(** ** Validation and the cache *)

(** X5. The width check of [validateImage] does not go through the cache: the
    body of the project loop returns normally and appends exactly the
    warnings of [validateImage] for this image, whether the image is then
    served from the cache, derived, or fails.  [validateImage] itself never
    throws: an unreadable file becomes one [Error reading] warning, a
    readable one is warned about when it is narrower than 1200 pixels. *)
Theorem validation_ignores_cache dirname env project img st w :
  let inputPath := projectInputPath dirname project img in
  let name := p_slug project +:+ "/" +:+ img_file img in
  ∃ w' st' v,
    processProjectImage dirname env project img st w = (w', Ok st')
    ∧ validateImage env inputPath name w = (w, Ok v)
    ∧ warnings st' = warnings st ++ snd v
    ∧ match sharp_metadata env inputPath with
      | Ok md =>
          v = (Some md,
               if bool_decide (m_width md < 1200)
               then ["Warning: " +:+ name +:+ " is only " +:+ pretty (m_width md)
                     +:+ "px wide (recommended: 1200px+)"]
               else [])
      | Throw e => v = (None, ["Error reading " +:+ name +:+ ": " +:+ e])
      end.
Proof.
  intros inputPath name.
  rewrite processProjectImage_shape. cbv zeta. rewrite cachedStep_eq.
  eexists _, _, _. split; [reflexivity|].
  split; [apply validateImage_eq|]. split.
  - destruct (stepResult _ _ _ _ _ _); reflexivity.
  - unfold validation. fold inputPath. fold name.
    destruct (sharp_metadata env inputPath) as [md|e]; [|done].
    by case_bool_decide.
Qed.

(** ** Duplicate file names *)

Lemma checkDuplicate_spec project img st :
  let k := JS.toLowerCase (img_file img) in
  let st' := checkDuplicate project img st in
  match allFilenames st !! k with
  | Some other =>
      allFilenames st' = allFilenames st
      ∧ warnings st'
        = warnings st ++ ["Duplicate filename: " +:+ JS.dquote +:+ img_file img +:+ JS.dquote
                          +:+ " in " +:+ p_slug project +:+ " (also in " +:+ other +:+ ")"]
  | None =>
      allFilenames st' = <[k := p_slug project]> (allFilenames st)
      ∧ warnings st' = warnings st
  end.
Proof. unfold checkDuplicate. by destruct (allFilenames st !! _). Qed.

(** X6. The duplicate check of one project compares file names in lower
    case ([É.jpg] is [é.jpg]), against every name seen so far in any
    project.  A name keeps
    the project that had it first; every image either registers its name
    or raises one warning; names that are new and pairwise different raise
    none. *)
Theorem duplicate_check project imgs st :
  let names := (fun img => JS.toLowerCase (img_file img)) <$> imgs in
  let st' := foldl (fun acc img => checkDuplicate project img acc) st imgs in
  dom (allFilenames st') = dom (allFilenames st) ∪ list_to_set names
  ∧ (∀ k other, allFilenames st !! k = Some other → allFilenames st' !! k = Some other)
  ∧ (∀ k, k ∈ names → allFilenames st !! k = None →
          allFilenames st' !! k = Some (p_slug project))
  ∧ (length (warnings st') + size (allFilenames st')
     = length (warnings st) + size (allFilenames st) + length imgs)%nat
  ∧ (NoDup names → (∀ k, k ∈ names → allFilenames st !! k = None) →
     warnings st' = warnings st).
Proof.
  revert st. induction imgs as [|img imgs IH]; intros st; simpl.
  - split; [by rewrite (right_id_L ∅ (∪))|]. split; [done|]. split.
    { intros k Hk. by apply elem_of_nil in Hk. }
    split; [lia | done].
  - destruct (IH (checkDuplicate project img st)) as (Hdom & Hkeep & Hnew & Hcount & Hquiet).
    pose proof (checkDuplicate_spec project img st) as Hstep. cbv zeta in Hstep.
    destruct (allFilenames st !! JS.toLowerCase (img_file img)) as [other|] eqn:Hk.
    + destruct Hstep as [Hmap Hwarn].
      split; [|split; [|split; [|split]]].
      * rewrite Hdom, Hmap. apply elem_of_dom_2 in Hk.
        apply set_eq. intros x. rewrite !elem_of_union, elem_of_singleton.
        split; [tauto | intros [?|[->|?]]; auto].
      * intros k o Ho. apply Hkeep. by rewrite Hmap.
      * intros k [->|Hin]%elem_of_cons Hnone; [congruence|].
        apply Hnew; [done | by rewrite Hmap].
      * rewrite Hcount, Hmap, Hwarn, length_app. simpl. lia.
      * intros _ Hfresh. specialize (Hfresh _ ltac:(left)). congruence.
    + destruct Hstep as [Hmap Hwarn].
      split; [|split; [|split; [|split]]].
      * rewrite Hdom, Hmap, dom_insert_L.
        apply set_eq. intros x. rewrite !elem_of_union, elem_of_singleton. tauto.
      * intros k o Ho. apply Hkeep. rewrite Hmap.
        rewrite lookup_insert_ne; [done|]. intros <-. congruence.
      * intros k [->|Hin]%elem_of_cons Hnone.
        -- apply Hkeep. rewrite Hmap. apply lookup_insert_eq.
        -- destruct (decide (k = JS.toLowerCase (img_file img))) as [->|Hne].
           ++ apply Hkeep. rewrite Hmap. apply lookup_insert_eq.
           ++ apply Hnew; [done|]. rewrite Hmap. by rewrite lookup_insert_ne.
      * rewrite Hcount, Hmap, Hwarn.
        rewrite map_size_insert_None by done. lia.
      * intros [Hnotin Hnd]%NoDup_cons Hfresh. rewrite Hquiet, Hwarn; [done | done |].
        intros k Hin. rewrite Hmap, lookup_insert_ne; [|by intros <-].
        apply Hfresh. by right.
Qed.

Lemma duplicate_check_witness :
  let st' := foldl (fun acc img => checkDuplicate (Demo.project []) img acc)
               initialImagesState [Demo.image "Cover.JPG" 1; Demo.image "02.jpg" 2] in
  let st'' := foldl (fun acc img => checkDuplicate (Demo.project []) img acc)
                initialImagesState
                [Demo.image (Sample.accented true) 1; Demo.image (Sample.accented false) 2] in
  warnings st' = []
  ∧ allFilenames st' !! "cover.jpg" = Some "a"
  ∧ allFilenames st'' !! Sample.accented false = Some "a"
  ∧ length (warnings st'') = 1%nat.
Proof.
  pose proof (duplicate_check (Demo.project [])
                [Demo.image "Cover.JPG" 1; Demo.image "02.jpg" 2] initialImagesState)
    as (_ & _ & Hnew & _ & Hquiet).
  pose proof (duplicate_check (Demo.project [])
                [Demo.image (Sample.accented true) 1; Demo.image (Sample.accented false) 2]
                initialImagesState)
    as (_ & _ & Hnew' & _ & _).
  split; [|split; [|split]].
  - apply Hquiet.
    + apply (bool_decide_unpack _). vm_compute. exact I.
    + intros k _. apply lookup_empty.
  - apply Hnew.
    + vm_compute. left.
    + apply lookup_empty.
  - apply Hnew'.
    + vm_compute. left.
    + apply lookup_empty.
  - vm_compute. reflexivity.
Defined.

(** ** The cache file during the stages *)

Global Instance fileKept_preorder : PreOrder fileKept.
Proof.
  split.
  - intros w. reflexivity.
  - intros w1 w2 w3 H12 H23. unfold fileKept in *. congruence.
Qed.

Lemma buildStages_fileKept dirname env w0 w r :
  buildStages dirname env w0 = (w, r) → cacheFile w = cacheFile w0.
Proof.
  intros H.
  apply (frame_buildStages dirname env fileKept) in H as (wl & Hload & Hkept);
    try (intros; reflexivity).
  rewrite Hkept. revert Hload. unfold loadImageCache. simpl.
  destruct (cacheFile w0) as [[c|e]|] eqn:Hfile; intros [= <-]; simpl; by rewrite Hfile.
Qed.

(** ** A build that fails *)

(** X7. [saveImageCache] is the last call of the [try] block of [build], after
    the pages, the assets and the sitemap: when any stage throws, [build]
    ends with status 1 and the cache file is what it was before the build,
    whatever the image loops have stored in memory. *)
Theorem failed_build_keeps_cache_file dirname env w0 w' :
  build dirname env w0 = (w', Ok 1) →
  cacheFile w' = cacheFile w0
  ∧ ∃ e, head (console w') = Some (Stderr ("Build failed: " +:+ e)).
Proof.
  unfold build, log. rewrite bind_modify. unfold try_catch. unfold bind at 1.
  destruct (buildStages dirname env _) as [w1 [[]|e]] eqn:E.
  - destruct (saveImageCache_Ok dirname env w1) as (w2 & Hsave & _).
    unfold bind at 1. rewrite Hsave. rewrite bind_modify. unfold ret. intros [= _ ?].
  - unfold error. rewrite bind_modify. unfold ret. intros [= <-].
    apply buildStages_fileKept in E. simpl in *. split; [exact E | eauto].
Qed.

Lemma failed_build_keeps_cache_file_witness :
  ∃ w',
    build "." Sample.brokenTemplates Demo.site = (w', Ok 1)
    ∧ cacheFile w' = None
    ∧ imageCacheUpdated w' = true
    ∧ size (imageCache w') = 4%nat.
Proof.
  eexists. split; [vm_compute; reflexivity|].
  split.
  - apply (failed_build_keeps_cache_file "." Sample.brokenTemplates Demo.site).
    vm_compute. reflexivity.
  - split; vm_compute; reflexivity.
Defined.

(** ** Decimal numerals *)

Lemma chars_app s t : chars (s +:+ t) = chars s ++ chars t.
Proof.
  induction s as [|c s IH]; [done|].
  change (c :: chars (s +:+ t) = c :: chars s ++ chars t). by rewrite IH.
Qed.

Lemma chars_inj s t : chars s = chars t → s = t.
Proof.
  revert t. induction s as [|c s IH]; intros [|d t]; simpl; try done.
  intros [= -> H]. f_equal. by apply IH.
Qed.

Lemma pretty_N_char_digit x : JS.isDigit (pretty_N_char x) = true.
Proof. unfold pretty_N_char. by repeat case_match. Qed.

Lemma pretty_N_char_nonzero x : (0 < x < 10)%N → pretty_N_char x ≠ "0"%char.
Proof.
  intros Hx.
  assert (x = 1 ∨ x = 2 ∨ x = 3 ∨ x = 4 ∨ x = 5 ∨ x = 6 ∨ x = 7 ∨ x = 8 ∨ x = 9)%N
    as Hcases by lia.
  destruct Hcases as [->|[->|[->|[->|[->|[->|[->|[->| ->]]]]]]]]; done.
Qed.

(** [pretty_N_go x s] puts in front of [s] the digits of [x], the first of
    which is not a zero. *)
Lemma pretty_N_go_shape x s :
  ∃ ds, pretty_N_go x s = ds +:+ s
        ∧ Forall (fun c => JS.isDigit c = true) (chars ds)
        ∧ ((0 < x)%N → ∃ c rest, ds = String c rest ∧ c ≠ "0"%char).
Proof.
  revert s. induction (N.lt_wf_0 x) as [x _ IH]; intros s.
  assert (x = 0 ∨ 0 < x < 10 ∨ 10 ≤ x)%N as [->|[[??]|?]] by lia.
  - exists "". rewrite pretty_N_go_0. split; [done|]. split; [constructor | lia].
  - rewrite pretty_N_go_step by done.
    rewrite (N.div_small x 10) by done. rewrite pretty_N_go_0.
    rewrite N.mod_small by done.
    exists (String (pretty_N_char x) ""). split; [done|]. split.
    + repeat constructor. apply pretty_N_char_digit.
    + intros _. eexists _, _. split; [done|]. by apply pretty_N_char_nonzero.
  - rewrite pretty_N_go_step by lia.
    destruct (IH (x `div` 10)%N ltac:(apply N.div_lt; lia)
                (String (pretty_N_char (x `mod` 10)) s)) as (ds & -> & Hds & Hlead).
    exists (ds +:+ String (pretty_N_char (x `mod` 10)) ""). split.
    { by rewrite string_app_assoc. }
    split.
    + rewrite chars_app. apply Forall_app. split; [done|].
      repeat constructor. apply pretty_N_char_digit.
    + intros _. destruct Hlead as (c & rest & -> & Hc).
      { apply N.div_str_pos_iff; lia. }
      eexists _, _. split; [reflexivity | done].
Qed.

(** The decimal numeral of a natural number: digits only, at least one,
    and no leading zero but for [0] itself. *)
Lemma pretty_N_shape (n : N) :
  Forall (fun c => JS.isDigit c = true) (chars (pretty n))
  ∧ ∃ c rest, pretty n = String c rest ∧ (c = "0"%char → n = 0%N).
Proof.
  unfold pretty, pretty_N. case_decide as Hn.
  - subst. split; [by repeat constructor|]. by exists "0"%char, "".
  - destruct (pretty_N_go_shape n "") as (ds & Hgo & Hds & Hlead).
    assert (ds +:+ "" = ds) as Hnil.
    { apply chars_inj. by rewrite chars_app, app_nil_r. }
    rewrite Hnil in Hgo. rewrite Hgo. split; [done|].
    destruct Hlead as (c & rest & -> & Hc); [lia|].
    exists c, rest. split; [done|]. done.
Qed.

Lemma pretty_Z_nonneg (z : Z) : 0 ≤ z → pretty z = pretty (Z.to_N z).
Proof. intros Hz. destruct z as [|p|p]; [done | done | lia]. Qed.

(** The numeral of an integer: an optional sign and digits; it holds no
    slash and starts with a zero only when it is [0]. *)
Lemma pretty_Z_shape (z : Z) :
  Forall (fun c => c ≠ "/"%char) (chars (pretty z))
  ∧ ∃ c rest, pretty z = String c rest ∧ (c = "0"%char → z = 0).
Proof.
  assert (∀ c, JS.isDigit c = true → c ≠ "/"%char) as Hslash.
  { intros c Hc ->. done. }
  destruct z as [|p|p].
  - split; [by repeat constructor|]. by exists "0"%char, "".
  - destruct (pretty_N_shape (N.pos p)) as (Hds & c & rest & Hp & Hc).
    change (pretty (Z.pos p)) with (pretty (N.pos p)). split.
    + eapply Forall_impl; [exact Hds | exact Hslash].
    + exists c, rest. split; [done|]. intros Hz. apply Hc in Hz. lia.
  - destruct (pretty_N_shape (N.pos p)) as (Hds & _).
    change (pretty (Z.neg p)) with ("-" +:+ pretty (N.pos p)). split.
    + constructor; [done|]. eapply Forall_impl; [exact Hds | exact Hslash].
    + eexists _, _. split; [reflexivity | done].
Qed.

(** ** Output directories *)

Lemma string_app_inv_head (s t1 t2 : string) : s +:+ t1 = s +:+ t2 → t1 = t2.
Proof.
  induction s as [|c s IH]; [done|].
  change (String c (s +:+ t1) = String c (s +:+ t2) → t1 = t2).
  intros [= H]. by apply IH.
Qed.

Lemma last_separator_inj {A} (x : A) (l1 m1 l2 m2 : list A) :
  x ∉ m1 → x ∉ m2 → l1 ++ x :: m1 = l2 ++ x :: m2 → l1 = l2 ∧ m1 = m2.
Proof.
  intros H1 H2. revert l2. induction l1 as [|a l1 IH]; intros [|b l2]; simpl.
  - by intros [= ->].
  - intros [= <- ->]. destruct H1. apply elem_of_app. right. by left.
  - intros [= -> <-]. destruct H2. apply elem_of_app. right. by left.
  - intros [= -> H]. apply IH in H as [-> ->]. done.
Qed.

(** Two paths that end in a segment free of slashes agree only if they
    agree on that segment and on what stands before it. *)
Lemma last_segment_inj (s1 t1 s2 t2 : string) :
  Forall (fun c => c ≠ "/"%char) (chars t1) →
  Forall (fun c => c ≠ "/"%char) (chars t2) →
  s1 +:+ "/" +:+ t1 = s2 +:+ "/" +:+ t2 → s1 = s2 ∧ t1 = t2.
Proof.
  intros H1 H2 H. apply (f_equal chars) in H. rewrite !chars_app in H.
  apply last_separator_inj in H as [Hs Ht].
  - split; by apply chars_inj.
  - intros Hin. rewrite Forall_forall in H1. by apply H1 in Hin.
  - intros Hin. rewrite Forall_forall in H2. by apply H2 in Hin.
Qed.

Lemma padStart2_cases (z : Z) :
  (∃ c, pretty z = String c "" ∧ JS.padStart (pretty z) 2 "0" = String "0" (String c ""))
  ∨ (∃ c d rest, pretty z = String c (String d rest)
                 ∧ JS.padStart (pretty z) 2 "0" = pretty z).
Proof.
  destruct (pretty_Z_shape z) as (_ & c & rest & Hp & _). rewrite Hp.
  destruct rest as [|d rest]; [left | right]; eauto.
Qed.

Lemma padStart2_inj (a b : Z) :
  JS.padStart (pretty a) 2 "0" = JS.padStart (pretty b) 2 "0" → a = b.
Proof.
  destruct (padStart2_cases a) as [(c & Ha & ->)|(c & d & rest & Ha & ->)],
           (padStart2_cases b) as [(c' & Hb & ->)|(c' & d' & rest' & Hb & ->)].
  - intros [= ->]. apply (inj pretty). congruence.
  - intros Heq. destruct (pretty_Z_shape b) as (_ & c0 & r0 & Hb0 & Hzero).
    rewrite <- Heq in Hb0. injection Hb0 as <- <-.
    rewrite (Hzero eq_refl) in Hb. done.
  - intros Heq. destruct (pretty_Z_shape a) as (_ & c0 & r0 & Ha0 & Hzero).
    rewrite Heq in Ha0. injection Ha0 as <- <-.
    rewrite (Hzero eq_refl) in Ha. done.
  - apply (inj pretty).
Qed.

Lemma padStart2_no_slash (z : Z) :
  Forall (fun c => c ≠ "/"%char) (chars (JS.padStart (pretty z) 2 "0")).
Proof.
  destruct (pretty_Z_shape z) as (Hz & _).
  destruct (padStart2_cases z) as [(c & Ha & ->)|(c & d & rest & Ha & ->)]; [|done].
  rewrite Ha in Hz. simpl. constructor; [done|]. exact Hz.
Qed.

Lemma projectOutputDir_inj dirname p1 i1 p2 i2 :
  projectOutputDir dirname p1 i1 = projectOutputDir dirname p2 i2 →
  p_slug p1 = p_slug p2 ∧ img_index i1 = img_index i2.
Proof.
  unfold projectOutputDir, path_join. simpl JS.join.
  intros H. do 4 apply string_app_inv_head in H.
  apply last_segment_inj in H as [Hs Hi]; [|apply padStart2_no_slash..].
  split; [done|]. by apply padStart2_inj.
Qed.

Lemma imageOutputs_NoDup dirname project :
  NoDup (img_index <$> p_images project) → NoDup (imageOutputs dirname project).
Proof.
  unfold imageOutputs.
  induction (p_images project) as [|img imgs IH]; simpl; [constructor|].
  rewrite !NoDup_cons. intros [Hnotin Hnd]. split; [|by apply IH].
  intros (img' & Heq & Hin)%list_elem_of_fmap.
  apply projectOutputDir_inj in Heq as [_ Heq]. apply Hnotin.
  rewrite Heq. by apply list_elem_of_fmap_2.
Qed.

(** X8. Two project images whose slugs are plain names are given the same
    output directory only when they have the same slug and the same index;
    two homepage files with safe numbers only when they have the same
    number.  Images with different indices in one project never write into
    one another's folder. *)
Theorem output_directories_distinct dirname :
  (∀ p1 i1 p2 i2,
     isPlainName (p_slug p1) = true → isPlainName (p_slug p2) = true →
     (projectOutputDir dirname p1 i1 = projectOutputDir dirname p2 i2 ↔
      p_slug p1 = p_slug p2 ∧ img_index i1 = img_index i2))
  ∧ (∀ f g,
       fileNumber f <= MAX_SAFE_INTEGER → fileNumber g <= MAX_SAFE_INTEGER →
       (homepageOutputDir dirname f = homepageOutputDir dirname g ↔
        fileNumber f = fileNumber g))
  ∧ (∀ project,
       isPlainName (p_slug project) = true →
       NoDup (img_index <$> p_images project) →
       NoDup (imageOutputs dirname project)).
Proof.
  split; [|split].
  - intros p1 i1 p2 i2 _ _. split; [apply projectOutputDir_inj|].
    intros [Hs Hi]. unfold projectOutputDir. by rewrite Hs, Hi.
  - intros f g _ _. split.
    + unfold homepageOutputDir, path_join. simpl JS.join.
      intros H. do 6 apply string_app_inv_head in H. by apply (inj pretty).
    + intros H. unfold homepageOutputDir. by rewrite H.
  - intros project _. apply imageOutputs_NoDup.
Qed.

Lemma output_directories_distinct_witness :
  NoDup (imageOutputs "." (Demo.project Demo.ten)).
Proof.
  apply (proj2 (proj2 (output_directories_distinct "."))); [reflexivity|].
  apply (bool_decide_unpack _). vm_compute. exact I.
Defined.

(** ** [Array.prototype.sort] *)

Lemma insert_with_perm {A} (cmp : A → A → Z) x xs :
  JSArray.insert_with cmp x xs ≡ₚ x :: xs.
Proof.
  induction xs as [|y xs IH]; simpl; [done|].
  case_bool_decide; [done|]. rewrite IH. apply Permutation_swap.
Qed.

Lemma sort_with_perm {A} (cmp : A → A → Z) xs : JSArray.sort_with cmp xs ≡ₚ xs.
Proof.
  induction xs as [|x xs IH]; [done|].
  unfold JSArray.sort_with in *. simpl. by rewrite insert_with_perm, IH.
Qed.

(** ** The inventory of a project *)

Lemma imap_numbered {A B} (f : nat → A → B) (g : B → A) (xs : list A) :
  (∀ i x, g (f i x) = x) → g <$> imap f xs = xs.
Proof.
  intros Hg. revert f Hg. induction xs as [|x xs IH]; intros f Hg; simpl; [done|].
  rewrite Hg. f_equal. apply IH. intros i y. apply Hg.
Qed.

Lemma numberImages_files size files : img_file <$> numberImages size files = files.
Proof. unfold numberImages. by apply imap_numbered. Qed.

Lemma numberImages_lookup size files i img :
  numberImages size files !! i = Some img →
  img_index img = Z.of_nat i + 1
  ∧ files !! i = Some (img_file img)
  ∧ img_size img = size (img_file img).
Proof.
  unfold numberImages. rewrite list_lookup_imap.
  destruct (files !! i) as [f|]; simpl; [|done]. by intros [= <-].
Qed.

Lemma numberImages_indices size files :
  img_index <$> numberImages size files
  = (fun i => Z.of_nat i + 1) <$> seq 0 (length files).
Proof.
  apply list_eq. intros i. rewrite !list_lookup_fmap.
  destruct (numberImages size files !! i) as [img|] eqn:E; simpl.
  - apply numberImages_lookup in E as (Hi & Hf & _).
    rewrite lookup_seq_lt by (eapply lookup_lt_Some; exact Hf). simpl. by rewrite Hi.
  - unfold numberImages in E. rewrite list_lookup_imap in E.
    destruct (files !! i) eqn:Ef; [done|].
    apply lookup_ge_None in Ef. rewrite lookup_seq_ge by lia. done.
Qed.

Lemma numberImages_NoDup size files : NoDup (img_index <$> numberImages size files).
Proof.
  rewrite numberImages_indices. apply NoDup_fmap_2; [|apply NoDup_seq].
  intros i j. lia.
Qed.

Lemma filter_all {A} (P : A → Prop) `{∀ x, Decision (P x)} (l : list A) :
  (∀ x, P x) → filter P l = l.
Proof.
  intros HP. induction l as [|x l IH]; [done|].
  rewrite filter_cons_True by done. by rewrite IH.
Qed.

(** The file names of [projectImages]: the listed ones that are on disk,
    then the others. *)
Lemma projectImages_files cmp configImages files :
  let imageFiles := filter (fun f => isProjectImage f = true) files in
  let listed := filter (fun f => f ∈ imageFiles) (omap ci_file configImages) in
  ∃ unlisted,
    img_file <$> projectImages cmp configImages files = listed ++ unlisted
    ∧ unlisted ≡ₚ filter (fun f => f ∉ listed) imageFiles.
Proof.
  intros imageFiles listed. unfold projectImages. fold imageFiles.
  assert (∀ l : list string, filter (fun f => JSArray.includes imageFiles f = true) l
               = filter (fun f => f ∈ imageFiles) l) as Hin.
  { intros l. apply list_filter_iff. intros f. unfold JSArray.includes.
    by rewrite bool_decide_eq_true. }
  assert (∀ m l : list string, filter (fun f => JSArray.includes m f = false) l
                 = filter (fun f => f ∉ m) l) as Hout.
  { intros m l. apply list_filter_iff. intros f. unfold JSArray.includes.
    by rewrite bool_decide_eq_false. }
  case_bool_decide as Hlen.
  - rewrite numberImages_files, Hin, Hout. fold listed.
    eexists. split; [reflexivity|]. apply sort_with_perm.
  - rewrite numberImages_files.
    assert (configImages = []) as -> by (destruct configImages; [done | simpl in Hlen; lia]).
    subst listed. simpl. eexists. split; [reflexivity|].
    rewrite sort_with_perm. rewrite filter_all; [done|].
    intros f. apply not_elem_of_nil.
Qed.

(** X9. The images [loadProjects] gives a project are numbered 1, 2, 3, ... in
    their order; they are the [.jpg], [.jpeg] and [.png] entries of the
    [original] folder and nothing else; those listed in [project.json]
    come first, in the order of the listing; and each file appears once,
    provided [project.json] names no file twice.  No two of them are given
    the same output directory. *)
Theorem project_inventory cmp configImages files :
  let images := projectImages cmp configImages files in
  let onDisk := fun f => f ∈ files ∧ isProjectImage f = true in
  img_index <$> images = (fun i => Z.of_nat i + 1) <$> seq 0 (length images)
  ∧ (∀ f, f ∈ img_file <$> images ↔ onDisk f)
  ∧ (∃ unlisted,
       img_file <$> images = filter onDisk (omap ci_file configImages) ++ unlisted)
  ∧ (NoDup files → NoDup (omap ci_file configImages) → NoDup (img_file <$> images))
  ∧ (∀ dirname dir cfg,
       NoDup (imageOutputs dirname (entry (makeLoaded dir cfg images)))).
Proof.
  intros images onDisk.
  destruct (projectImages_files cmp configImages files) as (unlisted & Hfiles & Hperm).
  cbv zeta in Hfiles, Hperm. fold images in Hfiles.
  set (imageFiles := filter (fun f => isProjectImage f = true) files) in *.
  set (listed := filter (fun f => f ∈ imageFiles) (omap ci_file configImages)) in *.
  assert (∀ f, f ∈ imageFiles ↔ onDisk f) as HonDisk.
  { intros f. unfold imageFiles, onDisk. rewrite list_elem_of_filter. tauto. }
  assert (listed = filter onDisk (omap ci_file configImages)) as Hlisted.
  { unfold listed. apply list_filter_iff. exact HonDisk. }
  split; [|split; [|split; [|split]]].
  - assert (length images = length (img_file <$> images)) as -> by by rewrite length_fmap.
    unfold images, projectImages. case_bool_decide;
      rewrite numberImages_indices, numberImages_files; done.
  - intros f. rewrite Hfiles, elem_of_app, Hperm, !list_elem_of_filter, HonDisk.
    unfold listed. rewrite list_elem_of_filter, HonDisk.
    destruct (decide (f ∈ omap ci_file configImages)); tauto.
  - exists unlisted. by rewrite Hfiles, Hlisted.
  - intros Hnd Hcfg. rewrite Hfiles. apply NoDup_app. split; [|split].
    + by apply NoDup_filter.
    + intros f Hin Hun. rewrite Hperm in Hun.
      apply list_elem_of_filter in Hun as [Hnot _]. done.
    + rewrite Hperm. apply NoDup_filter. by apply NoDup_filter.
  - intros dirname dir cfg. apply imageOutputs_NoDup. simpl.
    unfold images, projectImages. case_bool_decide; apply numberImages_NoDup.
Qed.

Lemma project_inventory_witness :
  let images :=
    projectImages (fun a b => if String.ltb a b then -1 else if String.eqb a b then 0 else 1)
      [ {| ci_file := Some "cover.jpg"; ci_size := Some "wide" |};
        {| ci_file := Some "gone.jpg"; ci_size := None |} ]
      ["b.png"; "notes.txt"; "cover.jpg"; "a.JPG"] in
  images = [ {| img_file := "cover.jpg"; img_index := 1; img_size := "wide" |};
             {| img_file := "a.JPG"; img_index := 2; img_size := "full" |};
             {| img_file := "b.png"; img_index := 3; img_size := "full" |} ]
  ∧ NoDup (img_file <$> images).
Proof.
  split; [vm_compute; reflexivity|].
  apply (proj1 (proj2 (proj2 (proj2
           (project_inventory
              (fun a b => if String.ltb a b then -1 else if String.eqb a b then 0 else 1)
              [ {| ci_file := Some "cover.jpg"; ci_size := Some "wide" |};
                {| ci_file := Some "gone.jpg"; ci_size := None |} ]
              ["b.png"; "notes.txt"; "cover.jpg"; "a.JPG"])))));
    apply (bool_decide_unpack _); vm_compute; exact I.
Defined.

(** ** The order of the projects *)

Lemma list_filter_Forall {A} (P : A → Prop) `{∀ x, Decision (P x)} (l : list A) :
  Forall P (filter P l).
Proof. apply Forall_forall. intros x [? _]%list_elem_of_filter. done. Qed.

Section ProjectOrder.

Context (localeCompare : string → string → Z).

Local Abbreviation cmp := (compareProjects localeCompare).
Local Abbreviation ordered := (fun p : Loaded => orderOf p ≠ None).
Local Abbreviation unordered := (fun p : Loaded => orderOf p = None).
Local Abbreviation byOrder := (fun a b : Loaded => default 0 (orderOf a) <= default 0 (orderOf b)).

Lemma insert_ordered x l1 l2 :
  ordered x → Forall unordered l2 →
  JSArray.insert_with cmp x (l1 ++ l2) = JSArray.insert_with cmp x l1 ++ l2.
Proof.
  intros Hx Hl2. cbv beta in Hx. induction l1 as [|y l1 IH]; simpl.
  - destruct l2 as [|y l2]; simpl; [done|].
    apply Forall_cons in Hl2 as [Hy _].
    rewrite bool_decide_eq_true_2; [done|].
    unfold compareProjects. rewrite Hy. destruct (orderOf x) as [ox|]; [lia | done].
  - case_bool_decide; [done|]. by rewrite IH.
Qed.

Lemma insert_unordered x l1 l2 :
  unordered x → Forall ordered l1 →
  JSArray.insert_with cmp x (l1 ++ l2) = l1 ++ JSArray.insert_with cmp x l2.
Proof.
  intros Hx Hl1. cbv beta in Hx. induction l1 as [|y l1 IH]; simpl; [done|].
  apply Forall_cons in Hl1 as [Hy Hl1]. cbv beta in Hy.
  rewrite bool_decide_eq_false_2; [by rewrite IH|].
  unfold compareProjects. rewrite Hx. destruct (orderOf y); [lia | done].
Qed.

Lemma sort_with_Forall {A} (c : A → A → Z) (P : A → Prop) l :
  Forall P l → Forall P (JSArray.sort_with c l).
Proof. intros H. by rewrite sort_with_perm. Qed.

Lemma sort_split ps :
  JSArray.sort_with cmp ps
  = JSArray.sort_with cmp (filter ordered ps) ++ JSArray.sort_with cmp (filter unordered ps).
Proof.
  induction ps as [|p ps IH]; [done|].
  change (JSArray.sort_with cmp (p :: ps))
    with (JSArray.insert_with cmp p (JSArray.sort_with cmp ps)).
  rewrite IH. destruct (orderOf p) as [x|] eqn:Hp.
  - rewrite filter_cons_True by congruence.
    rewrite (filter_cons_False unordered) by congruence.
    rewrite insert_ordered; [done | congruence |].
    apply sort_with_Forall, list_filter_Forall.
  - rewrite filter_cons_False by (intros H; by apply H).
    rewrite (filter_cons_True unordered) by done.
    rewrite insert_unordered; [done | done |].
    apply sort_with_Forall, list_filter_Forall.
Qed.

Lemma insert_ordered_sorted x l :
  ordered x → Forall ordered l → StronglySorted byOrder l →
  StronglySorted byOrder (JSArray.insert_with cmp x l).
Proof.
  intros Hx Hl Hs. cbv beta in Hx. induction Hs as [|y l Hs IH Hall]; simpl.
  - repeat constructor.
  - apply Forall_cons in Hl as [Hy Hl]. cbv beta in Hy.
    assert (cmp x y = default 0 (orderOf x) - default 0 (orderOf y)) as Hcmp.
    { unfold compareProjects. destruct (orderOf x), (orderOf y); done. }
    case_bool_decide as Hxy.
    + constructor; [by constructor|].
      constructor; [lia|]. eapply Forall_impl; [exact Hall|]. simpl. intros; lia.
    + constructor; [by apply IH|].
      rewrite insert_with_perm. constructor; [lia | done].
Qed.

Lemma sort_ordered_sorted l :
  Forall ordered l → StronglySorted byOrder (JSArray.sort_with cmp l).
Proof.
  induction l as [|x l IH]; [constructor|].
  intros [Hx Hl]%Forall_cons.
  change (JSArray.sort_with cmp (x :: l))
    with (JSArray.insert_with cmp x (JSArray.sort_with cmp l)).
  apply insert_ordered_sorted; [done | by apply sort_with_Forall | by apply IH].
Qed.

End ProjectOrder.

Lemma loadProject_inv lcn d projects projects' :
  loadProject lcn d projects = Ok projects' →
  (d_config d = None ∧ projects' = projects)
  ∨ ∃ cfg images,
      d_config d = Some (Ok cfg)
      ∧ projects' = projects ++ [makeLoaded (d_name d) cfg images]
      ∧ ((d_original d = None ∧ images = [])
         ∨ ∃ files, d_original d = Some (Ok files)
                    ∧ images = projectImages lcn (c_images cfg) files).
Proof.
  unfold loadProject. destruct (d_config d) as [[cfg|e]|]; [|done|].
  - destruct (d_original d) as [[files|e]|]; [|done|]; intros [= <-]; right;
      eexists _, _; (split; [done|]); (split; [done|]); eauto.
  - intros [= <-]. by left.
Qed.

(** X10. [loadProjects] hands the projects over sorted: first those with an
    [order], in ascending order, then those without one, a project whose
    [order] is 0 among them; none is lost or repeated on the way. *)
Theorem projects_sorted_by_order lcn lc ds loaded ps :
  loadProjectDirs lcn ds [] = Ok loaded →
  loadProjectList lcn lc ds = Ok ps →
  ps ≡ₚ loaded
  ∧ ∃ first rest,
      ps = first ++ rest
      ∧ Forall (fun p => ∃ x, c_order (config p) = Some x ∧ x ≠ 0) first
      ∧ Forall (fun p => c_order (config p) = None ∨ c_order (config p) = Some 0) rest
      ∧ StronglySorted
          (fun a b => default 0 (c_order (config a)) <= default 0 (c_order (config b)))
          first.
Proof.
  intros Hloaded. unfold loadProjectList. rewrite Hloaded. intros [= <-].
  split; [apply sort_with_perm|].
  rewrite sort_split.
  eexists _, _. split; [reflexivity|].
  assert (∀ l, Forall (fun p : Loaded => orderOf p ≠ None) l →
               Forall (fun p => ∃ x, c_order (config p) = Some x ∧ x ≠ 0) l) as Hord.
  { intros l Hl. eapply Forall_impl; [exact Hl|]. intros p. simpl. unfold orderOf.
    destruct (c_order (config p)) as [[|x|x]|]; try done; intros _; eexists; done. }
  split; [|split].
  - apply Hord, sort_with_Forall, list_filter_Forall.
  - apply sort_with_Forall.
    eapply Forall_impl; [apply list_filter_Forall|]. intros p. simpl. unfold orderOf.
    destruct (c_order (config p)) as [[|x|x]|]; try done; auto.
  - assert (Forall (fun p : Loaded => orderOf p ≠ None)
              (filter (fun p : Loaded => orderOf p ≠ None) loaded)) as Hall
      by apply list_filter_Forall.
    pose proof (sort_ordered_sorted lc _ Hall) as Hs.
    pose proof (sort_with_Forall (compareProjects lc) _ _ Hall) as Hall'.
    revert Hs Hall'. generalize (JSArray.sort_with (compareProjects lc)
                                   (filter (fun p : Loaded => orderOf p ≠ None) loaded)).
    intros l Hs. induction Hs as [|a l Hs IH Hrest]; intros Hall'; constructor.
    + apply IH. by apply Forall_cons in Hall' as [_ ?].
    + apply Forall_cons in Hall' as [Ha Hl].
      rewrite Forall_forall in Hrest, Hl. apply Forall_forall. intros b Hb.
      specialize (Hrest b Hb). specialize (Hl b Hb). simpl in Hrest.
      unfold orderOf in *.
      destruct (c_order (config a)) as [[|x|x]|], (c_order (config b)) as [[|y|y]|];
        done.
Qed.

Lemma projects_sorted_by_order_witness :
  ∃ ps,
    loadProjectList Sample.collate Sample.collate Sample.folders = Ok ps
    ∧ (p_slug ∘ entry) <$> ps = ["markets"; "harbour"; "allotments"; "zero"]
    ∧ ps ≡ₚ [ makeLoaded "harbour" (Sample.projectJson "Harbour" (Some 2))
                (projectImages Sample.collate [] ["02.jpg"; "01.jpg"; "10.jpg"]);
              makeLoaded "allotments" (Sample.projectJson "Allotments" None) [];
              makeLoaded "zero" (Sample.projectJson "Zero" (Some 0))
                (projectImages Sample.collate [] []);
              makeLoaded "markets" (Sample.projectJson "Markets" (Some 1))
                (projectImages Sample.collate [] ["a.png"]) ].
Proof.
  eexists. split; [vm_compute; reflexivity|].
  split; [vm_compute; reflexivity|].
  refine (proj1 (projects_sorted_by_order Sample.collate Sample.collate Sample.folders
                   _ _ _ _)); vm_compute; reflexivity.
Defined.

(** ** The folders of [projects/] *)

Lemma loadProjectDirs_spec lcn ds :
  ∀ projects,
    match loadProjectDirs lcn ds projects with
    | Ok projects' =>
        (∀ d e, d ∈ ds → ¬ unreadable d e)
        ∧ ∃ new, projects' = projects ++ new
            ∧ length new = length (filter (fun d => is_Some (d_config d)) ds)
            ∧ ∀ p, p ∈ new →
                ∃ d cfg, d ∈ ds ∧ d_config d = Some (Ok cfg) ∧ config p = cfg
                  ∧ p_slug (entry p) = orElse (c_slug cfg) (d_name d)
                  ∧ p_title (entry p) = c_title cfg
                  ∧ (p_hasImages (entry p) = true ↔ p_images (entry p) ≠ [])
                  ∧ (d_original d = None → p_images (entry p) = [])
    | Throw e => ∃ d, d ∈ ds ∧ unreadable d e
    end.
Proof.
  induction ds as [|d ds IH]; intros projects; simpl.
  - split; [intros d e Hd; by apply elem_of_nil in Hd|].
    exists []. rewrite app_nil_r. split; [done|]. split; [done|].
    intros p Hp. by apply elem_of_nil in Hp.
  - destruct (loadProject lcn d projects) as [projects1|e] eqn:Hd.
    + specialize (IH projects1).
      destruct (loadProjectDirs lcn ds projects1) as [projects'|e].
      * destruct IH as (Hread & new & -> & Hlen & Hnew).
        apply loadProject_inv in Hd
          as [[Hcfg ->]|(cfg & images & Hcfg & -> & Himages)].
        -- split.
           { intros d' e [->|Hin]%elem_of_cons; [|by apply Hread].
             intros [H|(c & H & _)]; congruence. }
           exists new. split; [done|]. split.
           { rewrite filter_cons_False; [done|]. rewrite Hcfg. by intros [? ?]. }
           intros p Hp. destruct (Hnew p Hp) as (d' & c & Hin & Hrest).
           exists d', c. split; [by right | done].
        -- split.
           { intros d' e [->|Hin]%elem_of_cons; [|by apply Hread].
             intros [H|(c & H & Ho)]; [congruence|].
             destruct Himages as [[Hnone _]|(files & Hfiles & _)]; congruence. }
           exists (makeLoaded (d_name d) cfg images :: new). split.
           { by rewrite <- app_assoc. }
           split.
           { rewrite filter_cons_True by (rewrite Hcfg; eauto). simpl. by rewrite Hlen. }
           intros p [->|Hp]%elem_of_cons.
           ++ exists d, cfg. split; [by left|]. split; [done|]. simpl.
              do 3 (split; [done|]). split.
              ** rewrite bool_decide_eq_true. destruct images; simpl; [|split; [done | lia]].
                 split; [lia | done].
              ** intros Hnone. destruct Himages as [[_ ->]|(files & Hfiles & _)];
                   [done | congruence].
           ++ destruct (Hnew p Hp) as (d' & c & Hin & Hrest).
              exists d', c. split; [by right | done].
      * destruct IH as (d' & Hin & Hbad). exists d'. split; [by right | done].
    + exists d. split; [by left|]. revert Hd. unfold loadProject, unreadable.
      destruct (d_config d) as [[cfg|e']|]; [|by intros [= ->]; left|done].
      destruct (d_original d) as [[files|e']|]; [done| |done].
      intros [= ->]. right. eauto.
Qed.

(** X11. Once the [projects] folder is listed, the loop of [loadProjects]
    over its folders skips a folder that has no [project.json] and takes
    every other one: its slug is the [slug] of the file or, when that is
    absent or empty, the name of the folder; it has images exactly when its
    list of images is not empty, and none when there is no [original]
    folder.  A [project.json] or an [original] folder that cannot be read
    is not caught: the loop throws it, and the loop throws nothing else.
    (The sort that follows the loop is another matter: it compares titles,
    and throws on a project without one.) *)
Theorem projects_folders lcn ds :
  match loadProjectDirs lcn ds [] with
  | Ok ps =>
      (∀ d e, d ∈ ds → ¬ unreadable d e)
      ∧ length ps = length (filter (fun d => is_Some (d_config d)) ds)
      ∧ ∀ p, p ∈ ps →
          ∃ d cfg, d ∈ ds ∧ d_config d = Some (Ok cfg) ∧ config p = cfg
            ∧ p_slug (entry p) = orElse (c_slug cfg) (d_name d)
            ∧ (p_hasImages (entry p) = true ↔ p_images (entry p) ≠ [])
            ∧ (d_original d = None → p_images (entry p) = [])
  | Throw e => ∃ d, d ∈ ds ∧ unreadable d e
  end.
Proof.
  pose proof (loadProjectDirs_spec lcn ds []) as H.
  destruct (loadProjectDirs lcn ds []) as [loaded|e]; [|done].
  destruct H as (Hread & new & -> & Hlen & Hnew). simpl in *.
  split; [done|]. split; [done|].
  intros p Hp. destruct (Hnew p Hp) as (d & cfg & Hd & Hcfg & Hc & Hslug & _ & Hrest).
  by exists d, cfg.
Qed.

Lemma projects_folders_witness :
  ∃ d, d ∈ Sample.brokenFolders ∧ unreadable d "Unexpected token } in JSON".
Proof.
  exact (projects_folders Sample.collate Sample.brokenFolders).
Defined.

(** ** The pages of the site *)

Lemma mjoin_pairs_length {A B} (f : A → list B) (l : list A) :
  (∀ x, length (f x) = 2%nat) → length (mjoin (f <$> l)) = (2 * length l)%nat.
Proof.
  intros Hf. induction l as [|x l IH]; [done|].
  csimpl. rewrite length_app, Hf, IH. lia.
Qed.

Lemma pages_length dirname projects :
  length (pages dirname projects)
  = (23 + 2 * (length (personalProjects projects)
               + length (commercialProjects projects) + length projects))%nat.
Proof.
  unfold pages. rewrite !length_app, !mjoin_pairs_length by done.
  rewrite length_fmap. simpl. lia.
Qed.

Section WritePages.

Context (dirname : string) (penv : PageEnv).

Lemma writePage_written pg n w :
  pageWritten penv pg → writePage penv pg n w = (add_written (file pg) w, Ok (S n)).
Proof.
  intros [[html Hr] Ho]. unfold writePage, lift, lift_unit, bind, modify, ret.
  by rewrite Hr, Ho.
Qed.

Lemma writePage_fails pg n w e :
  pageFails penv pg e → writePage penv pg n w = (w, Throw e).
Proof.
  unfold writePage, lift, lift_unit, bind, modify, ret.
  intros [Hr|[[html Hr] Ho]]; rewrite Hr; [done|]. by rewrite Ho.
Qed.

Lemma writePages_all pgs :
  ∀ n w, Forall (pageWritten penv) pgs →
    ∃ w', forEach (writePage penv) pgs n w = (w', Ok (n + length pgs)%nat)
          ∧ written w' = reverse (file <$> pgs) ++ written w
          ∧ console w' = console w.
Proof.
  induction pgs as [|pg pgs IH]; intros n w Hall; simpl.
  - exists w. rewrite Nat.add_0_r. done.
  - apply Forall_cons in Hall as [Hpg Hall].
    erewrite bind_eq by (by apply writePage_written).
    destruct (IH (S n) (add_written (file pg) w) Hall) as (w' & Hrun & Hw & Hc).
    exists w'. split; [|split].
    + rewrite Hrun. do 2 f_equal. lia.
    + rewrite Hw, reverse_cons, <- app_assoc. done.
    + by rewrite Hc.
Qed.

Lemma writePages_stop before pg after e :
  ∀ n w, Forall (pageWritten penv) before → pageFails penv pg e →
    ∃ w', forEach (writePage penv) (before ++ pg :: after) n w = (w', Throw e)
          ∧ written w' = reverse (file <$> before) ++ written w
          ∧ console w' = console w.
Proof.
  induction before as [|b before IH]; intros n w Hall Hfail; simpl.
  - exists w. unfold bind. by rewrite (writePage_fails _ _ _ e).
  - apply Forall_cons in Hall as [Hb Hall].
    erewrite bind_eq by (by apply writePage_written).
    destruct (IH (S n) (add_written (file b) w) Hall Hfail) as (w' & Hrun & Hw & Hc).
    exists w'. split; [done|]. split; [|by rewrite Hc].
    rewrite Hw, reverse_cons, <- app_assoc. done.
Qed.

End WritePages.

(** X12. [generatePages] renders and writes 23 pages and two more for every
    personal project, every commercial project and, as legacy pages, every
    project.  When every page can be rendered and written it returns after
    writing them in order and printing their number.  Nothing is caught:
    the first page that cannot be rendered or written ends [generatePages]
    with that error, the pages before it written and the others not. *)
Theorem generatePages_writes dirname penv projects w :
  (Forall (pageWritten penv) (pages dirname projects) →
   ∃ w', generatePages dirname penv projects w = (w', Ok tt)
         ∧ written w' = reverse (file <$> pages dirname projects) ++ written w
         ∧ head (console w')
           = Some (Stdout ("  Generated "
                           +:+ pretty (23 + 2 * (length (personalProjects projects)
                                                 + length (commercialProjects projects)
                                                 + length projects))%nat
                           +:+ " pages")))
  ∧ (∀ before pg after e,
       pages dirname projects = before ++ pg :: after →
       Forall (pageWritten penv) before → pageFails penv pg e →
       ∃ w', generatePages dirname penv projects w = (w', Throw e)
             ∧ written w' = reverse (file <$> before) ++ written w).
Proof.
  split.
  - intros Hall. unfold generatePages. rewrite bind_modify.
    destruct (writePages_all penv _ 0%nat (print (Stdout "Generating HTML pages...") w) Hall)
      as (w' & Hrun & Hw & Hc).
    rewrite Nat.add_0_l, pages_length in Hrun.
    erewrite bind_eq by exact Hrun. eexists. split; [reflexivity|].
    split; [exact Hw | reflexivity].
  - intros before pg after e Hpages Hall Hfail. unfold generatePages.
    rewrite bind_modify, Hpages.
    destruct (writePages_stop penv before pg after e 0%nat
                (print (Stdout "Generating HTML pages...") w) Hall Hfail)
      as (w' & Hrun & Hw & Hc).
    exists w'. unfold bind. rewrite Hrun. split; [done | by rewrite Hw].
Qed.

Lemma generatePages_writes_witness :
  (∃ w', generatePages "." Sample.rendersAll Sample.threeProjects Demo.empty = (w', Ok tt)
         ∧ length (written w') = 33%nat
         ∧ head (console w') = Some (Stdout "  Generated 33 pages"))
  ∧ (∃ w', generatePages "." Sample.categoryFails Sample.threeProjects Demo.empty
           = (w', Throw "Template render error: category-commercial.njk")
           ∧ written w' = ["./dist/commercial/work/index.html";
                           "./dist/commercial/index.html";
                           "./dist/personal/contact/index.html";
                           "./dist/personal/about/index.html";
                           "./dist/personal/projects/harbour/grid/index.html";
                           "./dist/personal/projects/harbour/index.html";
                           "./dist/personal/work/index.html";
                           "./dist/personal/index.html";
                           "./dist/index.html"]).
Proof.
  split.
  - destruct (proj1 (generatePages_writes "." Sample.rendersAll Sample.threeProjects
                       Demo.empty)) as (w' & Hrun & Hw & Hc).
    { apply Forall_forall. intros pg _. split; [by eexists | done]. }
    exists w'. split; [exact Hrun|]. split.
    + rewrite Hw. vm_compute. reflexivity.
    + rewrite Hc. vm_compute. reflexivity.
  - destruct (proj2 (generatePages_writes "." Sample.categoryFails Sample.threeProjects
                       Demo.empty)
                (take 9 (pages "." Sample.threeProjects))
                (categoryPage "." "food-drink")
                (drop 10 (pages "." Sample.threeProjects))
                "Template render error: category-commercial.njk")
      as (w' & Hrun & Hw).
    + vm_compute. reflexivity.
    + vm_compute.
      repeat (constructor; [split; [eexists; reflexivity | reflexivity]|]). constructor.
    + left. reflexivity.
    + exists w'. split; [exact Hrun|]. rewrite Hw. vm_compute. reflexivity.
Defined.

(** Equality of two strings put together from the same pieces. *)
Ltac chars_eq :=
  apply chars_inj;
  repeat first [rewrite chars_app | rewrite <- app_assoc | progress cbn [chars app]];
  reflexivity.

Lemma projectPages_placed dirname base folders f p pg :
  (∀ a rest, distFile dirname (folders ++ "projects" :: a :: rest)
             = distDir (CONFIG dirname) +:+ base +:+ "/projects/"
               +:+ JS.join "/" (a :: rest)) →
  pg ∈ projectPages dirname base folders f p →
  file pg = distDir (CONFIG dirname) +:+ currentPath pg +:+ "index.html".
Proof.
  intros Hbase. unfold projectPages. rewrite !elem_of_cons, elem_of_nil.
  intros [->|[->|[]]]; cbn [file currentPath]; rewrite Hbase; cbn [JS.join]; chars_eq.
Qed.

(** X13. Every page is written where its URL says: the file of a page is
    [index.html] in the folder that [currentPath] names under [dist], and
    [404.html] for the error page. *)
Theorem pages_placed dirname projects pg :
  pg ∈ pages dirname projects →
  file pg = distDir (CONFIG dirname) +:+ currentPath pg +:+ "index.html"
  ∨ (currentPath pg = "/404.html"
     ∧ file pg = distDir (CONFIG dirname) +:+ "/404.html").
Proof.
  unfold pages. rewrite !elem_of_app, !list_elem_of_join, !elem_of_cons, !elem_of_nil.
  intros Hin.
  repeat match goal with
         | H : _ ∨ _ |- _ => destruct H as [H|H]
         | H : False |- _ => destruct H
         end;
    try (subst pg; cbn [file currentPath]; unfold distFile, path_join; cbn [JS.join];
         first [left; chars_eq | right; split; [reflexivity | chars_eq]]).
  - destruct Hin as (l & Hpg & (p & -> & _)%list_elem_of_fmap). left.
    eapply (projectPages_placed dirname "/personal" ["personal"]); [|exact Hpg].
    intros a rest. unfold distFile, path_join. cbn [app JS.join]. chars_eq.
  - apply list_elem_of_fmap in Hin as (slug & -> & _). left.
    unfold categoryPage, distFile, path_join. cbn [file currentPath JS.join]. chars_eq.
  - destruct Hin as (l & Hpg & (p & -> & _)%list_elem_of_fmap). left.
    eapply (projectPages_placed dirname "/commercial" ["commercial"]); [|exact Hpg].
    intros a rest. unfold distFile, path_join. cbn [app JS.join]. chars_eq.
  - destruct Hin as (l & Hpg & (p & -> & _)%list_elem_of_fmap). left.
    eapply (projectPages_placed dirname "" []); [|exact Hpg].
    intros a rest. unfold distFile, path_join. cbn [app JS.join]. chars_eq.
Qed.

Lemma pages_placed_witness :
  file (categoryPage "." "travel") = "./dist/commercial/travel/index.html".
Proof.
  destruct (pages_placed "." Sample.threeProjects (categoryPage "." "travel"))
    as [H|[H _]].
  - apply list_elem_of_In. vm_compute. tauto.
  - exact H.
  - discriminate H.
Defined.

(** ** The sitemap and the cache manifest *)

Lemma elem_of_static_part {A} (l0 m1 l1 c m2 l2 m3 l3 : list A) x :
  x ∈ l0 ++ [] ++ l1 ++ c ++ [] ++ l2 ++ [] ++ l3 →
  x ∈ l0 ++ m1 ++ l1 ++ c ++ m2 ++ l2 ++ m3 ++ l3.
Proof. rewrite !elem_of_app, !elem_of_nil. tauto. Qed.

(** Where a page of [pages] comes from. *)
Lemma elem_of_pages_static dirname projects pg :
  pg ∈ pages dirname [] → pg ∈ pages dirname projects.
Proof. intros H. unfold pages. eapply elem_of_static_part. exact H. Qed.

Lemma elem_of_pages_personal dirname projects p pg :
  p ∈ personalProjects projects →
  pg ∈ projectPages dirname "/personal" ["personal"] (fun _ => Some "personal") p →
  pg ∈ pages dirname projects.
Proof.
  intros Hp Hpg. unfold pages. rewrite !elem_of_app, !list_elem_of_join.
  right. left. eexists. split; [exact Hpg|]. by apply list_elem_of_fmap_2.
Qed.

Lemma elem_of_pages_commercial dirname projects p pg :
  p ∈ commercialProjects projects →
  pg ∈ projectPages dirname "/commercial" ["commercial"] (fun _ => Some "commercial") p →
  pg ∈ pages dirname projects.
Proof.
  intros Hp Hpg. unfold pages. rewrite !elem_of_app, !list_elem_of_join.
  do 4 right. left. eexists. split; [exact Hpg|]. by apply list_elem_of_fmap_2.
Qed.

Lemma elem_of_pages_legacy dirname projects p pg :
  p ∈ projects →
  pg ∈ projectPages dirname "" []
         (fun p => Some (orElse (c_portfolio (config p)) "personal")) p →
  pg ∈ pages dirname projects.
Proof.
  intros Hp Hpg. unfold pages. rewrite !elem_of_app, !list_elem_of_join.
  do 6 right. left. eexists. split; [exact Hpg|]. by apply list_elem_of_fmap_2.
Qed.

(** The paths of the pages that are there whatever the projects. *)
Lemma static_paths dirname projects path :
  path ∈ currentPath <$> pages dirname [] →
  ∃ pg, pg ∈ pages dirname projects ∧ currentPath pg = path.
Proof.
  intros (pg & -> & Hpg)%list_elem_of_fmap. exists pg. split; [|done].
  by apply elem_of_pages_static.
Qed.

(** X14. Every URL of [sitemap.xml] is the address of a page that
    [generatePages] writes for the same projects: the site URL followed by
    the [currentPath] of that page.  There are 17 of them and two more for
    every personal and every commercial project. *)
Theorem sitemap_lists_generated_pages dirname projects :
  (∀ u, u ∈ sitemapUrls projects →
        ∃ pg, pg ∈ pages dirname projects ∧ loc u = siteUrl +:+ currentPath pg)
  ∧ length (sitemapUrls projects)
    = (17 + 2 * (length (personalProjects projects)
                 + length (commercialProjects projects)))%nat.
Proof.
  split.
  - intros u. unfold sitemapUrls.
    rewrite !elem_of_app, !list_elem_of_join.
    intros [Hu|[Hu|[Hu|Hu]]].
    + assert (∃ path, path ∈ currentPath <$> pages dirname [] ∧ loc u = siteUrl +:+ path)
        as (path & Hpath & ->).
      { apply list_elem_of_In in Hu. simpl in Hu.
        repeat match goal with H : _ ∨ _ |- _ => destruct H as [H|H] end;
          try done; subst u; eexists; (split; [|reflexivity]);
          apply list_elem_of_In; vm_compute; tauto. }
      destruct (static_paths dirname projects path Hpath) as (pg & Hpg & <-). eauto.
    + apply list_elem_of_fmap in Hu as (slug & -> & Hslug).
      exists (categoryPage dirname slug). split; [|done].
      apply elem_of_pages_static. unfold pages.
      rewrite !elem_of_app. do 3 right. left. by apply list_elem_of_fmap_2.
    + destruct Hu as (l & Hu & (p & -> & Hp)%list_elem_of_fmap).
      rewrite !elem_of_cons, elem_of_nil in Hu.
      destruct Hu as [->|[->|[]]]; eexists; (split;
        [eapply elem_of_pages_personal; [exact Hp|] | ]).
      * left.
      * simpl. chars_eq.
      * right. left.
      * simpl. chars_eq.
    + destruct Hu as (l & Hu & (p & -> & Hp)%list_elem_of_fmap).
      rewrite !elem_of_cons, elem_of_nil in Hu.
      destruct Hu as [->|[->|[]]]; eexists; (split;
        [eapply elem_of_pages_commercial; [exact Hp|] | ]).
      * left.
      * simpl. chars_eq.
      * right. left.
      * simpl. chars_eq.
  - unfold sitemapUrls. rewrite !length_app, !mjoin_pairs_length by done.
    rewrite length_fmap. simpl. lia.
Qed.

(** X15. Every path of [cache-manifest.json] is the [currentPath] of a page
    that [generatePages] writes for the same projects; the count printed
    is 15 and one for every personal, every commercial and, as a legacy
    page, every project. *)
Theorem manifest_lists_generated_pages dirname projects :
  let m := cacheManifest projects in
  (∀ path, path ∈ cm_pages m ++ cm_personal m ++ cm_commercial m ++ cm_legacy m →
           ∃ pg, pg ∈ pages dirname projects ∧ currentPath pg = path)
  ∧ manifestPageCount m
    = (15 + (length (personalProjects projects)
             + length (commercialProjects projects) + length projects))%nat.
Proof.
  split.
  - intros path. rewrite !elem_of_app. intros [Hp|[Hp|[Hp|Hp]]].
    + apply static_paths. apply list_elem_of_In in Hp. simpl in Hp.
      repeat match goal with H : _ ∨ _ |- _ => destruct H as [H|H] end;
        try done; subst path; apply list_elem_of_In; vm_compute; tauto.
    + apply list_elem_of_fmap in Hp as (p & -> & Hp).
      eexists. split; [eapply elem_of_pages_personal; [exact Hp | left] | reflexivity].
    + apply list_elem_of_fmap in Hp as (p & -> & Hp).
      eexists. split; [eapply elem_of_pages_commercial; [exact Hp | left] | reflexivity].
    + apply list_elem_of_fmap in Hp as (p & -> & Hp).
      eexists. split; [eapply elem_of_pages_legacy; [exact Hp | left] | reflexivity].
  - unfold manifestPageCount. simpl. rewrite !length_fmap. lia.
Qed.

Lemma sitemap_lists_generated_pages_witness :
  ∃ pg, pg ∈ pages "." Sample.threeProjects
        ∧ siteUrl +:+ "/commercial/projects/canteen/grid/" = siteUrl +:+ currentPath pg.
Proof.
  apply (proj1 (sitemap_lists_generated_pages "." Sample.threeProjects)
           {| loc := siteUrl +:+ "/commercial/projects/canteen/grid/";
              priority := "0.7"; changefreq := "monthly" |}).
  apply list_elem_of_In. vm_compute. tauto.
Defined.

Lemma manifest_lists_generated_pages_witness :
  ∃ pg, pg ∈ pages "." Sample.threeProjects ∧ currentPath pg = "/projects/zine/".
Proof.
  apply (proj1 (manifest_lists_generated_pages "." Sample.threeProjects)).
  apply list_elem_of_In. vm_compute. tauto.
Defined.

(** ** Cutting the size off a [src] *)

Lemma span_digits_spec s :
  ∀ ds tl, JS.span_digits s = (ds, tl) →
    s = ds +:+ tl ∧ Forall (fun c => JS.isDigit c = true) (chars ds).
Proof.
  induction s as [|c s IH]; intros ds tl; simpl.
  - intros [= <- <-]. split; [done | constructor].
  - destruct (JS.isDigit c) eqn:Hc.
    + destruct (JS.span_digits s) as [ds' tl'] eqn:Hs. intros [= <- <-].
      destruct (IH ds' tl' eq_refl) as [-> Hds]. split; [done|].
      by constructor.
    + intros [= <- <-]. split; [done | constructor].
Qed.

Lemma span_digits_app ds tl :
  Forall (fun c => JS.isDigit c = true) (chars ds) →
  match tl with String c _ => JS.isDigit c = false | EmptyString => True end →
  JS.span_digits (ds +:+ tl) = (ds, tl).
Proof.
  intros Hds Htl. induction ds as [|d ds IH].
  - change ("" +:+ tl) with tl. destruct tl as [|c tl]; simpl; [done|]. by rewrite Htl.
  - apply Forall_cons in Hds as [Hd Hds].
    change (String d ds +:+ tl) with (String d (ds +:+ tl)). simpl.
    rewrite Hd, IH by done. done.
Qed.

Lemma isSizeName_no_slash c s : isSizeName (String c s) = true → "/"%char ∉ chars s.
Proof.
  unfold isSizeName. destruct (Ascii.eqb_spec c "/") as [->|Hc].
  2: { destruct c as [[] [] [] [] [] [] [] []]; try done. }
  destruct (JS.span_digits s) as [ds tl] eqn:Hs.
  intros [_ Htl%String.eqb_eq]%andb_prop. subst tl.
  apply span_digits_spec in Hs as [-> Hds].
  rewrite chars_app, elem_of_app. intros [Hin|Hin].
  - rewrite Forall_forall in Hds. by apply Hds in Hin.
  - apply list_elem_of_In in Hin. simpl in Hin.
    destruct Hin as [H|[H|[H|[H|[]]]]]; discriminate H.
Qed.

(** Nothing is cut off before the last slash. *)
Lemma stripSize_app u t :
  stripSize (u +:+ String "/" t) = u +:+ stripSize (String "/" t).
Proof.
  induction u as [|c u IH]; [done|].
  change (String c u +:+ String "/" t) with (String c (u +:+ String "/" t)).
  cbn [stripSize].
  destruct (isSizeName (String c (u +:+ String "/" t))) eqn:Hname.
  - apply isSizeName_no_slash in Hname. destruct Hname.
    rewrite chars_app, elem_of_app. right. by left.
  - by rewrite IH.
Qed.

Lemma stripSize_size u (x : Z) :
  0 ≤ x → stripSize (u +:+ "/" +:+ pretty x +:+ ".jpg") = u.
Proof.
  intros Hx. change ("/" +:+ pretty x +:+ ".jpg") with (String "/" (pretty x +:+ ".jpg")).
  rewrite stripSize_app. cbn [stripSize].
  assert (isSizeName (String "/" (pretty x +:+ ".jpg")) = true) as ->.
  { unfold isSizeName. rewrite pretty_Z_nonneg by done.
    destruct (pretty_N_shape (Z.to_N x)) as (Hds & c & rest & Hp & _).
    rewrite span_digits_app; [|done|done]. rewrite Hp. done. }
  apply chars_inj. by rewrite chars_app, app_nil_r.
Qed.

Lemma stripSize_Infinity u :
  stripSize (u +:+ "/" +:+ "-Infinity" +:+ ".jpg") = u +:+ "/" +:+ "-Infinity" +:+ ".jpg".
Proof.
  change ("/" +:+ "-Infinity" +:+ ".jpg") with (String "/" "-Infinity.jpg").
  by rewrite stripSize_app.
Qed.

Lemma maxAvailableSize_cases ladder W :
  (∃ z, maxAvailableSize ladder W = JS.Num z ∧ z ∈ ladder ∧ z ≤ W)
  ∨ (maxAvailableSize ladder W = JS.NegInfinity ∧ ∀ z, z ∈ ladder → W < z).
Proof.
  unfold maxAvailableSize.
  destruct (filter (fun s => W >= s) ladder) as [|y ys] eqn:Hf.
  - right. split; [done|]. intros z Hz.
    destruct (decide (W >= z)) as [Hge|]; [|lia].
    assert (z ∈ filter (fun s => W >= s) ladder) as Hin by by apply list_elem_of_filter.
    rewrite Hf in Hin. by apply elem_of_nil in Hin.
  - left. destruct (Math_max_elem (y :: ys)) as (z & Hz & Hin); [done|].
    exists z. split; [done|]. rewrite <- Hf in Hin.
    apply list_elem_of_filter in Hin as [? ?]. split; [done | lia].
Qed.

(** X16. The grid of the commercial pages takes its folders from the [src] of
    the landing images by cutting off the file name [/<digits>.jpg].  For
    a landing image at least as wide as the smallest landing size this
    gives back the URL of its folder; for a narrower one the [src] ends in
    [-Infinity.jpg], nothing is cut off, and the grid points at a file
    name instead of a folder. *)
Theorem grid_path_of_landing_image dirname env type n inputPath w w' entry :
  deriveLandingImage dirname env type n inputPath w = (w', Ok entry) →
  (800 ≤ l_width entry → stripSize (l_src entry) = landingUrlDir type n)
  ∧ (l_width entry < 800 →
     stripSize (l_src entry) = landingUrlDir type n +:+ "/-Infinity.jpg").
Proof.
  intros (Hsrc & _)%deriveLandingImage_Ok. rewrite Hsrc.
  destruct (maxAvailableSize_cases landingSizes (l_width entry))
    as [(z & -> & Hz & Hle)|[-> Hnone]].
  - split.
    + intros _. apply stripSize_size.
      unfold landingSizes in Hz. rewrite !elem_of_cons, elem_of_nil in Hz. lia.
    + intros Hlt. unfold landingSizes in Hz. rewrite !elem_of_cons, elem_of_nil in Hz. lia.
  - split.
    + intros Hge. specialize (Hnone 800). unfold landingSizes in Hnone.
      rewrite !elem_of_cons in Hnone. lia.
    + intros _. apply stripSize_Infinity.
Qed.

Lemma grid_path_of_landing_image_witness :
  (∃ w' entry,
     deriveLandingImage "." Demo.env "commercial" 0
       "./homepage/Commercial Home Images/a.jpg" Demo.landing = (w', Ok entry)
     ∧ stripSize (l_src entry) = "/images/landing/commercial/commercial-1")
  ∧ (∃ w' entry,
       deriveLandingImage "." Demo.env "commercial" 1
         "./homepage/Commercial Home Images/small.jpg" Demo.landing = (w', Ok entry)
       ∧ stripSize (l_src entry) = "/images/landing/commercial/commercial-2/-Infinity.jpg").
Proof.
  split.
  - eexists _, _. split; [vm_compute; reflexivity|].
    apply (proj1 (grid_path_of_landing_image "." Demo.env "commercial" 0
                    "./homepage/Commercial Home Images/a.jpg" Demo.landing _ _
                    ltac:(vm_compute; reflexivity))).
    vm_compute. discriminate.
  - eexists _, _. split; [vm_compute; reflexivity|].
    apply (proj2 (grid_path_of_landing_image "." Demo.env "commercial" 1
                    "./homepage/Commercial Home Images/small.jpg" Demo.landing _ _
                    ltac:(vm_compute; reflexivity))).
    vm_compute. reflexivity.
Defined.

(** ** The commercial grids *)

Section Grid.

Context (commercial : list LandingImage).

Lemma gridLoop_spec fuel :
  ∀ grid, (0 < length commercial)%nat → gridCycles commercial grid →
    (6 ≤ fuel + length grid)%nat →
    ∃ grid', gridLoop fuel commercial grid = Ok grid'
             ∧ gridCycles commercial grid'
             ∧ length grid' = Nat.max 6 (length grid).
Proof.
  induction fuel as [|fuel IH]; intros grid Hn Hgrid Hfuel; simpl.
  - exists grid. split; [done|]. split; [done | lia].
  - case_bool_decide as Hlen; simpl.
    + rewrite bool_decide_eq_true_2 by done.
      destruct (lookup_lt_is_Some_2 commercial (length grid mod length commercial)%nat)
        as [img Himg].
      { apply Nat.mod_upper_bound. lia. }
      rewrite Himg.
      destruct (IH (grid ++ [gridImage img (length grid + 1)]) Hn) as (grid' & Hrun & Hc & Hl).
      * intros i. rewrite length_app. simpl. intros Hi.
        destruct (decide (i < length grid)%nat) as [Hlt|Hge].
        -- destruct (Hgrid i Hlt) as (img' & Himg' & Hi').
           exists img'. split; [done|]. by rewrite lookup_app_l.
        -- assert (i = length grid) as -> by lia.
           exists img. split; [done|].
           rewrite lookup_app_r by lia. by rewrite Nat.sub_diag.
      * rewrite length_app. simpl. lia.
      * exists grid'. split; [done|]. split; [done|].
        rewrite Hl, length_app. simpl. lia.
    + exists grid. split; [done|]. split; [done | lia].
Qed.

End Grid.

Lemma omap_total {A B} (f : A → option B) (g : A → B) (l : list A) :
  (∀ x, x ∈ l → f x = Some (g x)) → omap f l = g <$> l.
Proof.
  induction l as [|x l IH]; intros Hf; [done|]. csimpl.
  rewrite (Hf x) by by left. simpl. f_equal. apply IH. intros y Hy. apply Hf. by right.
Qed.

Lemma omap_none {A B} (f : A → option B) (l : list A) :
  (∀ x, x ∈ l → f x = None) → omap f l = [].
Proof.
  induction l as [|x l IH]; intros Hf; [done|]. csimpl.
  rewrite (Hf x) by by left. apply IH. intros y Hy. apply Hf. by right.
Qed.

(** X17. The grid of the commercial home page: with no landing image it is
    empty; otherwise it has exactly six entries, the landing images in
    their order, repeated from the first when there are fewer than six, and
    the loop that fills it never reads past the end of the array. *)
Theorem commercial_grid commercial :
  (commercial = [] → gridImages commercial = Ok [])
  ∧ (commercial ≠ [] →
     ∃ grid, gridImages commercial = Ok grid
             ∧ length grid = 6%nat
             ∧ gridCycles commercial grid).
Proof.
  split; [by intros ->|].
  intros Hne. assert (0 < length commercial)%nat as Hn.
  { destruct commercial; [done | simpl; lia]. }
  unfold gridImages, commercialGridImages.
  destruct (gridLoop_spec commercial 6
              (imap (fun i img => gridImage img (i + 1)) commercial) Hn)
    as (grid & -> & Hc & Hl).
  - intros i. rewrite length_imap. intros Hi.
    destruct (lookup_lt_is_Some_2 commercial i Hi) as [img Himg].
    exists img. rewrite Nat.mod_small by done. split; [done|].
    by rewrite list_lookup_imap, Himg.
  - lia.
  - exists (take 6 grid). split; [done|]. split.
    + rewrite length_take, Hl. lia.
    + intros i. rewrite length_take. intros Hi.
      destruct (Hc i ltac:(lia)) as (img & Himg & Hgrid).
      exists img. split; [done|]. rewrite lookup_take_lt by lia. done.
Qed.

Lemma commercial_grid_witness :
  ∃ grid,
    gridImages [ {| l_src := "/images/landing/commercial/commercial-1/1800.jpg";
                    l_srcset := {| ss_avif := ""; ss_webp := ""; ss_jpg := "" |};
                    l_width := 2000; l_height := 1000; l_aspectRatio := (2000, 1000) |};
                 {| l_src := "/images/landing/commercial/commercial-2/800.jpg";
                    l_srcset := {| ss_avif := ""; ss_webp := ""; ss_jpg := "" |};
                    l_width := 900; l_height := 600; l_aspectRatio := (900, 600) |} ]
    = Ok grid
    ∧ g_path <$> grid
      = [ "/images/landing/commercial/commercial-1";
          "/images/landing/commercial/commercial-2";
          "/images/landing/commercial/commercial-1";
          "/images/landing/commercial/commercial-2";
          "/images/landing/commercial/commercial-1";
          "/images/landing/commercial/commercial-2" ].
Proof.
  destruct (proj2 (commercial_grid
              [ {| l_src := "/images/landing/commercial/commercial-1/1800.jpg";
                   l_srcset := {| ss_avif := ""; ss_webp := ""; ss_jpg := "" |};
                   l_width := 2000; l_height := 1000; l_aspectRatio := (2000, 1000) |};
                {| l_src := "/images/landing/commercial/commercial-2/800.jpg";
                   l_srcset := {| ss_avif := ""; ss_webp := ""; ss_jpg := "" |};
                   l_width := 900; l_height := 600; l_aspectRatio := (900, 600) |} ])
              ltac:(discriminate)) as (grid & Hrun & _).
  exists grid. split; [exact Hrun|].
  vm_compute in Hrun. injection Hrun as <-. reflexivity.
Defined.

(** X18. The masonry grid of a commercial category: with no landing image it
    is empty (the index is not a number and nothing is read); otherwise it
    has [9 + categoryIndex mod 4] entries, the landing images in a cycle
    that starts at the position of the category. *)
Theorem category_portfolio commercial categoryIndex title :
  (commercial = [] → portfolioImages commercial categoryIndex title = [])
  ∧ (commercial ≠ [] →
     length (portfolioImages commercial categoryIndex title)
     = (9 + categoryIndex mod 4)%nat
     ∧ ∀ i entry,
         portfolioImages commercial categoryIndex title !! i = Some entry →
         ∃ img, commercial !! ((categoryIndex + i) mod length commercial)%nat = Some img
                ∧ f_path entry = stripSize (l_src img)
                ∧ f_alt entry = title +:+ " photography - Image " +:+ pretty (i + 1)%nat
                ∧ f_width entry = l_width img ∧ f_height entry = l_height img).
Proof.
  split.
  - intros ->. unfold portfolioImages. apply omap_none. intros i _. done.
  - intros Hne. assert (0 < length commercial)%nat as Hn.
    { destruct commercial; [done | simpl; lia]. }
    destruct (lookup_lt_is_Some_2 commercial 0%nat Hn) as [first _].
    set (pick := fun i => default first
                   (commercial !! ((categoryIndex + i) mod length commercial)%nat)).
    unfold portfolioImages.
    erewrite (omap_total _
      (fun i => {| f_path := stripSize (l_src (pick i));
                   f_alt := title +:+ " photography - Image " +:+ pretty (i + 1)%nat;
                   f_aspectRatio :=
                     (let '(w, h) := l_aspectRatio (pick i) in
                      if bool_decide (w = 0) then OneAndAHalf else Quotient w h);
                   f_width := l_width (pick i);
                   f_height := l_height (pick i) |})).
    + split; [by rewrite length_fmap, length_seq|].
      intros i entry. rewrite list_lookup_fmap.
      destruct (seq 0 (9 + categoryIndex mod 4) !! i) as [j|] eqn:Hj; [|done].
      apply lookup_seq in Hj as [-> _]. simpl. intros [= <-]. simpl.
      destruct (lookup_lt_is_Some_2 commercial ((categoryIndex + i) mod length commercial)%nat)
        as [img Himg].
      { apply Nat.mod_upper_bound. lia. }
      exists img. unfold pick. rewrite Himg. simpl. done.
    + intros i _. rewrite bool_decide_eq_false_2 by lia.
      destruct (lookup_lt_is_Some_2 commercial ((categoryIndex + i) mod length commercial)%nat)
        as [img Himg].
      { apply Nat.mod_upper_bound. lia. }
      unfold pick. rewrite Himg. simpl. done.
Qed.

Lemma category_portfolio_witness :
  length (portfolioImages
            [ {| l_src := "/images/landing/commercial/commercial-1/1800.jpg";
                 l_srcset := {| ss_avif := ""; ss_webp := ""; ss_jpg := "" |};
                 l_width := 2000; l_height := 1000; l_aspectRatio := (2000, 1000) |} ]
            3 "Travel") = 12%nat.
Proof.
  apply (proj2 (category_portfolio
                  [ {| l_src := "/images/landing/commercial/commercial-1/1800.jpg";
                       l_srcset := {| ss_avif := ""; ss_webp := ""; ss_jpg := "" |};
                       l_width := 2000; l_height := 1000;
                       l_aspectRatio := (2000, 1000) |} ]
                  3 "Travel")).
  discriminate.
Defined.

(** ** The description of a project *)

Lemma contains_spec c s : contains c s = true ↔ c ∈ chars s.
Proof.
  induction s as [|d s IH]; simpl.
  - split; [done | by intros ?%elem_of_nil].
  - rewrite orb_true_iff, IH, elem_of_cons.
    destruct (Ascii.eqb_spec d c); split; intros [?|?]; auto; congruence.
Qed.

Lemma stripFrom_tagFree s : ∀ inTag, tagFree (stripFrom inTag s).
Proof.
  induction s as [|c s IH]; intros inTag; simpl.
  - intros l1 l2 H. destruct l1; discriminate H.
  - destruct inTag.
    + destruct (Ascii.eqb c ">"); apply IH.
    + destruct (Ascii.eqb_spec c "<") as [->|Hc].
      * destruct (contains ">" s) eqn:Hs; [apply IH|].
        intros l1 l2 H Hin.
        assert (">"%char ∈ chars s) as Hs'.
        { destruct l1 as [|a l1]; simpl in H.
          - injection H as H. by rewrite H.
          - injection H as _ H. rewrite H, elem_of_app. right. by right. }
        apply contains_spec in Hs'. congruence.
      * intros l1 l2 H. destruct l1 as [|a l1]; simpl in H; injection H as H1 H2.
        -- by destruct Hc.
        -- by apply (IH false l1 l2).
Qed.

Lemma stripFrom_length s : ∀ inTag, (String.length (stripFrom inTag s) ≤ String.length s)%nat.
Proof.
  induction s as [|c s IH]; intros inTag; simpl; [done|].
  destruct inTag.
  - destruct (Ascii.eqb c ">"); etrans; [apply IH | lia | apply IH | lia].
  - destruct (Ascii.eqb c "<").
    + destruct (contains ">" s); [etrans; [apply IH | lia] | done].
    + simpl. specialize (IH false). lia.
Qed.

Lemma stripFrom_plain s : "<"%char ∉ chars s → stripFrom false s = s.
Proof.
  induction s as [|c s IH]; [done|]. simpl. rewrite not_elem_of_cons. intros [Hc Hs].
  destruct (Ascii.eqb_spec c "<") as [->|_]; [done|]. by rewrite IH.
Qed.

Lemma substring0_length n s : (String.length (substring0 n s) ≤ n)%nat.
Proof.
  revert s. induction n as [|n IH]; intros [|c s]; simpl; try lia.
  specialize (IH s). lia.
Qed.

Lemma substring0_prefix n s : ∃ rest, chars s = chars (substring0 n s) ++ rest.
Proof.
  revert s. induction n as [|n IH]; intros [|c s]; simpl; eauto.
  destruct (IH s) as (rest & ->). eauto.
Qed.

Lemma tagFree_prefix s t rest : chars t = chars s ++ rest → tagFree t → tagFree s.
Proof.
  intros Ht Hfree l1 l2 Hs Hin.
  apply (Hfree l1 (l2 ++ rest)).
  - rewrite Ht, Hs, <- app_assoc. done.
  - apply elem_of_app. by left.
Qed.

(** X19. The description put on a project page, when [project.json] has one:
    the text of the description with every [<...>] removed, cut to its
    first 160 characters; no complete tag is left in it.  A description
    without a [<] is only cut.  The same holds on the personal, the
    commercial and the legacy page. *)
Theorem project_description p d desc :
  desc ∈ [personalDesc; commercialDesc; legacyDesc] →
  c_description (config p) = Some d → d ≠ "" →
  desc p = substring0 160 (stripTags d)
  ∧ (String.length (desc p) ≤ 160)%nat
  ∧ tagFree (desc p)
  ∧ ("<"%char ∉ chars d → desc p = substring0 160 d).
Proof.
  intros Hdesc Hd Hne.
  assert (∀ fallback, describe p fallback = substring0 160 (stripTags d)) as Hdescribe.
  { intros fallback. unfold describe, truthy, orElse. rewrite Hd.
    destruct (String.eqb_spec d ""); done. }
  assert (desc p = substring0 160 (stripTags d)) as ->.
  { rewrite !elem_of_cons, elem_of_nil in Hdesc.
    destruct Hdesc as [->|[->|[->|[]]]]; apply Hdescribe. }
  split; [done|]. split; [apply substring0_length|]. split.
  - destruct (substring0_prefix 160 (stripTags d)) as (rest & Hrest).
    eapply tagFree_prefix; [exact Hrest|]. apply stripFrom_tagFree.
  - intros Hplain. unfold stripTags. by rewrite stripFrom_plain.
Qed.

Lemma project_description_witness :
  let p := {| config := {| c_title := "Harbour"; c_slug := None; c_order := None;
                           c_images := []; c_portfolio := None; c_featured := None;
                           c_description := Some "<p>Boats at <em>dawn</em>.</p> 1 < 2";
                           c_location := None; c_client := None; c_category := None |};
              entry := {| p_slug := "harbour"; p_title := "Harbour";
                          p_hasImages := false; p_images := [] |} |} in
  personalDesc p = "Boats at dawn. 1 < 2" ∧ tagFree (personalDesc p).
Proof.
  intros p.
  destruct (project_description p "<p>Boats at <em>dawn</em>.</p> 1 < 2" personalDesc)
    as (Heq & _ & Hfree & _).
  - by left.
  - reflexivity.
  - discriminate.
  - split; [|exact Hfree]. rewrite Heq. vm_compute. reflexivity.
Defined.

(** ** The preview image of a project *)

Lemma sizeFile_1200 o x f :
  x ∈ [400; 800; 1200] → sizeFile o x f = sizeFile o 1200 JPEG → x = 1200.
Proof.
  rewrite !elem_of_cons, elem_of_nil. unfold sizeFile, path_join. cbn [JS.join].
  intros [->|[->|[->|[]]]] H; [| |done];
    rewrite !string_app_assoc in H; apply string_app_inv_head in H;
    destruct f; discriminate H.
Qed.

(** X20. The preview image ([og:image]) of a project page is always
    [1200.jpg] in the folder of image 01.  When the first image of the
    project is derived in this build, that file is written if and only if
    the source is at least 1200 pixels wide: for a narrower first image the
    page names a preview that the build did not produce. *)
Theorem preview_image_of_first_image dirname env p img rest st w h md :
  p_images (entry p) = img :: rest →
  img_index img = 1 →
  fs_readFile_md5 env (projectInputPath dirname (entry p) img) = Ok h →
  cacheHit w (projectCacheKey (entry p) img) h (projectOutputDir dirname (entry p) img)
  = None →
  sharp_metadata env (projectInputPath dirname (entry p) img) = Ok md →
  ∀ w' st',
    processProjectImage dirname env (entry p) img st w = (w', Ok st') →
    totalProcessed st' = S (totalProcessed st) →
    ogImage (imageData st') p
    = Some (siteUrl +:+ "/images/" +:+ p_slug (entry p) +:+ "/01/1200.jpg")
    ∧ ∃ new, written w' = new ++ written w
        ∧ (distDir (CONFIG dirname) +:+ "/images/" +:+ p_slug (entry p) +:+ "/01/1200.jpg"
           ∈ new ↔ 1200 ≤ m_width md).
Proof.
  intros Himgs Hidx Hh Hmiss Hmd w' st'.
  rewrite processProjectImage_shape. cbv zeta. rewrite cachedStep_eq. cbv zeta.
  unfold stepResult. rewrite Hh, Hmiss.
  destruct (processImage _ _ _ _ _ _ _) as [w2 [res|e]] eqn:Hrun; cbn [stepWorld stepState].
  2: { intros [= <- <-]. simpl. lia. }
  intros [= <- <-] _. split.
  - unfold ogImage, imageDataOf. rewrite Himgs. simpl.
    rewrite lookup_insert_eq, lookup_insert_eq. done.
  - rewrite Hrun. cbn [fst].
    apply processImage_Ok in Hrun as (md' & Hmd' & _ & _ & _ & _ & _ & new & Hnew & Hmem).
    rewrite Hmd in Hmd'. injection Hmd' as <-.
    exists (path_join [projectOutputDir dirname (entry p) img; "original.jpg"] :: new).
    split; [simpl; by rewrite Hnew|].
    assert (distDir (CONFIG dirname) +:+ "/images/" +:+ p_slug (entry p) +:+ "/01/1200.jpg"
            = sizeFile (projectOutputDir dirname (entry p) img) 1200 JPEG) as ->.
    { unfold sizeFile, projectOutputDir, path_join. rewrite Hidx. cbn [JS.join]. chars_eq. }
    rewrite elem_of_cons, Hmem. split.
    + intros [Heq|(x & Hx & Hle & Hin)].
      * exfalso. revert Heq. unfold sizeFile, path_join. cbn [JS.join].
        rewrite !string_app_assoc. intros Heq. apply string_app_inv_head in Heq.
        discriminate Heq.
      * unfold encodings in Hin. rewrite !elem_of_cons, elem_of_nil in Hin.
        assert (x = 1200) as ->; [|lia].
        destruct Hin as [Hin|[Hin|[Hin|[]]]]; symmetry in Hin;
          by apply sizeFile_1200 in Hin.
    + intros Hle. right. exists 1200. split; [|split; [done|]].
      * unfold CONFIG. simpl. rewrite !elem_of_cons. auto.
      * unfold encodings. rewrite !elem_of_cons. auto.
Qed.

Lemma preview_image_of_first_image_witness :
  ∃ w' st',
    processProjectImage "." Demo.env (entry Sample.harbour) (Demo.image "01.jpg" 1)
      initialImagesState Demo.site = (w', Ok st')
    ∧ ogImage (imageData st') Sample.harbour
      = Some "https://jonathanclifford.com/images/a/01/1200.jpg"
    ∧ "./dist/images/a/01/1200.jpg" ∉ written w'.
Proof.
  eexists _, _. split; [vm_compute; reflexivity|].
  destruct (preview_image_of_first_image "." Demo.env Sample.harbour
              (Demo.image "01.jpg" 1) [Demo.image "02.jpg" 2] initialImagesState Demo.site
              "md5 of ./projects/a/original/01.jpg" {| m_width := 900; m_height := 600 |}
              eq_refl eq_refl eq_refl eq_refl eq_refl _ _
              ltac:(vm_compute; reflexivity) ltac:(vm_compute; reflexivity))
    as (Hog & new & Hnew & Hfile).
  split; [exact Hog|].
  intros Hin. rewrite Hnew, app_nil_r in Hin.
  apply Hfile in Hin. simpl in Hin. lia.
Defined.

(** ** [clean] and the images *)

Lemma startsWith_spec p s : startsWith p s = true ↔ ∃ t, s = p +:+ t.
Proof.
  revert s. induction p as [|a p IH]; intros s; simpl.
  - split; [by eexists | done].
  - destruct s as [|b s].
    + split; [done | by intros [t ?]].
    + rewrite andb_true_iff, IH. split.
      * intros [->%Ascii.eqb_eq [t ->]]. by exists t.
      * intros [t H]. change (String b s = String a (p +:+ t)) in H.
        injection H as -> ->. split; [apply Ascii.eqb_refl | by eexists].
Qed.

Lemma first_separator_inj {A} (x : A) (l1 m1 l2 m2 : list A) :
  x ∉ l1 → x ∉ l2 → l1 ++ x :: m1 = l2 ++ x :: m2 → l1 = l2.
Proof.
  revert l2. induction l1 as [|a l1 IH]; intros [|b l2]; simpl; intros H1 H2.
  - done.
  - intros [= <- _]. destruct H2. by left.
  - intros [= -> _]. destruct H1. by left.
  - intros [= -> H]. f_equal. apply (IH l2); [| |done].
    + intros ?. apply H1. by right.
    + intros ?. apply H2. by right.
Qed.

(** A folder at or below [dist/images] is not below any other entry of
    [dist]. *)
Lemma images_not_under dist item rest :
  item ≠ "images" → "/"%char ∉ chars item →
  (rest = "" ∨ ∃ rest', rest = String "/" rest') →
  isUnder (path_join [dist; item]) (path_join [dist; "images"] +:+ rest) = false.
Proof.
  intros Hitem Hslash Hrest. unfold isUnder, path_join. cbn [JS.join].
  apply orb_false_iff. split.
  - apply String.eqb_neq. intros H.
    rewrite !string_app_assoc in H. do 2 apply string_app_inv_head in H.
    destruct Hrest as [->|[rest' ->]].
    + change ("images" +:+ "") with "images" in H. congruence.
    + apply (f_equal chars) in H. rewrite chars_app in H.
      apply Hslash. rewrite <- H. apply elem_of_app. right. by left.
  - apply not_true_iff_false. rewrite startsWith_spec. intros [t H].
    rewrite !string_app_assoc in H. do 2 apply string_app_inv_head in H.
    apply (f_equal chars) in H. rewrite !chars_app in H.
    destruct Hrest as [->|[rest' ->]].
    + simpl in H. assert ("/"%char ∈ chars "images") as Hin.
      { simpl. rewrite H. apply elem_of_app. right. by left. }
      apply list_elem_of_In in Hin. simpl in Hin.
      repeat destruct Hin as [Hin|Hin]; try discriminate Hin; done.
    + change (chars (String "/" rest')) with ("/"%char :: chars rest') in H.
      change (chars "/" ++ chars t) with ("/"%char :: chars t) in H.
      apply first_separator_inj in H.
      * apply chars_inj in H. congruence.
      * intros Hin. apply list_elem_of_In in Hin. simpl in Hin.
        repeat destruct Hin as [Hin|Hin]; try discriminate Hin; done.
      * done.
Qed.

Global Instance imagesKept_preorder dirname : PreOrder (imagesKept dirname).
Proof.
  split.
  - intros w. by split.
  - intros w1 w2 w3 [Hc1 Hu1 Hf1 Hd1] [Hc2 Hu2 Hf2 Hd2].
    split; [congruence..|]. intros rest Hrest. by rewrite Hd2, Hd1.
Qed.

Lemma string_app_nonempty (s t : string) : s +:+ t = s → t = "".
Proof.
  intros H. apply (f_equal chars) in H. rewrite chars_app in H.
  rewrite <- (app_nil_r (chars s)) in H at 2. apply app_inv_head in H.
  by destruct t.
Qed.

Section CleanKeeps.

Context (dirname : string) (env : Env) (fs_remove : string → option exn).

Lemma cleanItem_imagesKept item u :
  "/"%char ∉ chars item →
  keeps (imagesKept dirname) (cleanItem dirname fs_remove item u).
Proof.
  intros Hslash. unfold cleanItem, remove.
  destruct (String.eqb_spec item "images") as [->|Hne]; simpl.
  - apply keeps_ret; exact _.
  - apply keeps_bind; [exact _ | apply keeps_lift_unit; exact _ | intros ?].
    apply keeps_modify. intros w. split; [done..|].
    intros rest Hrest. simpl. rewrite elem_of_filter.
    rewrite images_not_under by done. tauto.
Qed.

Lemma clean_imagesKept :
  (∀ items, fs_readdir env (distDir (CONFIG dirname)) = Ok items →
            Forall (fun item => "/"%char ∉ chars item) items) →
  keeps (imagesKept dirname) (clean dirname env fs_remove).
Proof.
  intros Hnames. unfold clean, log, readdir, ensureDir.
  apply keeps_bind; [exact _ | by apply keeps_modify | intros ?].
  apply keeps_bind; [exact _ | | intros present].
  { intros w w' r [= <- _]. reflexivity. }
  destruct present.
  - assert (∀ l, Forall (fun item => "/"%char ∉ chars item) l →
                 keeps (imagesKept dirname) (forEach (cleanItem dirname fs_remove) l tt))
      as Hloop.
    { induction l as [|item l IH]; intros Hl; simpl.
      - apply keeps_ret; exact _.
      - apply Forall_cons in Hl as [Hitem Hl].
        apply keeps_bind; [exact _ | by apply cleanItem_imagesKept | intros []].
        by apply IH. }
    intros w w' r. unfold bind at 1, lift.
    destruct (fs_readdir env (distDir (CONFIG dirname))) as [items|e] eqn:Hitems.
    + apply Hloop. by apply Hnames.
    + intros [= <- _]. reflexivity.
  - apply keeps_bind; [exact _ | apply keeps_lift_unit; exact _ | intros ?].
    apply keeps_modify. intros w. split; [done..|].
    intros rest Hrest. simpl. rewrite elem_of_union, elem_of_singleton.
    split; [|auto]. intros [H|H]; [|done]. exfalso.
    unfold path_join in H. cbn [JS.join] in H.
    rewrite !string_app_assoc in H. do 2 apply string_app_inv_head in H.
    apply string_app_nonempty in H. discriminate H.
Qed.

End CleanKeeps.

Lemma cacheHit_imagesKept dirname w w' k h rest :
  imagesKept dirname w w' →
  (rest = "" ∨ ∃ rest', rest = String "/" rest') →
  cacheHit w' k h (path_join [distDir (CONFIG dirname); "images"] +:+ rest)
  = cacheHit w k h (path_join [distDir (CONFIG dirname); "images"] +:+ rest).
Proof.
  intros [Hc _ _ Hd] Hrest. unfold cacheHit. rewrite Hc.
  destruct (imageCache w !! k) as [cached|]; [|done].
  by rewrite (bool_decide_ext _ _ (Hd rest Hrest)).
Qed.

Lemma cleanItems_removed dirname fs_remove items :
  ∀ w w', forEach (cleanItem dirname fs_remove) items tt w = (w', Ok tt) →
    dirs w' ⊆ dirs w
    ∧ ∀ item d, item ∈ items → item ≠ "images" →
        isUnder (path_join [distDir (CONFIG dirname); item]) d = true → d ∉ dirs w'.
Proof.
  induction items as [|item items IH]; intros w w'; simpl.
  - intros [= <-]. split; [done|]. intros item d Hin. by apply elem_of_nil in Hin.
  - unfold bind at 1.
    destruct (cleanItem dirname fs_remove item tt w) as [w1 [[]|e]] eqn:Hitem; [|done].
    intros Hrest. apply IH in Hrest as [Hsub Hgone].
    assert (dirs w1 ⊆ dirs w
            ∧ (item ≠ "images" →
               ∀ d, isUnder (path_join [distDir (CONFIG dirname); item]) d = true →
                    d ∉ dirs w1)) as [Hsub1 Hgone1].
    { revert Hitem. unfold cleanItem, remove.
      destruct (String.eqb_spec item "images") as [->|Hne]; simpl.
      - intros [= <-]. done.
      - unfold bind, lift_unit, modify. destruct (fs_remove _); [done|].
        intros [= <-]. simpl. split.
        + intros d [_ ?]%elem_of_filter. done.
        + intros _ d Hd [Hnot _]%elem_of_filter. congruence. }
    split; [by etrans|].
    intros item' d [->|Hin]%elem_of_cons Hne Hd.
    + intros Hd'. apply Hsub in Hd'. by apply (Hgone1 Hne d).
    + by apply (Hgone item' d).
Qed.

(** X21. [clean] empties [dist] but for its [images] folder: the image cache
    in memory and every folder at or below [dist/images] are after it what
    they were before, so the answer of the cache test is the same for
    every image of a project whose slug is a plain name and for every
    slide with a safe number; when it returns, every other entry of
    [dist] is gone with all that was below it. *)
Theorem clean_keeps_the_images dirname env fs_remove items w w' r :
  fs_readdir env (distDir (CONFIG dirname)) = Ok items →
  Forall (fun item => "/"%char ∉ chars item) items →
  clean dirname env fs_remove w = (w', r) →
  imageCache w' = imageCache w
  ∧ (∀ project img h,
       isPlainName (p_slug project) = true →
       cacheHit w' (projectCacheKey project img) h (projectOutputDir dirname project img)
       = cacheHit w (projectCacheKey project img) h (projectOutputDir dirname project img))
  ∧ (∀ f h,
       fileNumber f <= MAX_SAFE_INTEGER →
       cacheHit w' (homepageCacheKey f) h (homepageOutputDir dirname f)
       = cacheHit w (homepageCacheKey f) h (homepageOutputDir dirname f))
  ∧ (r = Ok tt → distDir (CONFIG dirname) ∈ dirs w →
     ∀ item d, item ∈ items → item ≠ "images" →
       isUnder (path_join [distDir (CONFIG dirname); item]) d = true → d ∉ dirs w').
Proof.
  intros Hitems Hnames Hrun.
  assert (imagesKept dirname w w') as Hkept.
  { eapply clean_imagesKept; [|exact Hrun].
    intros items' Hitems'. rewrite Hitems in Hitems'. by injection Hitems' as <-. }
  split; [apply Hkept|]. split; [|split].
  - intros project img h _.
    assert (projectOutputDir dirname project img
            = path_join [distDir (CONFIG dirname); "images"]
              +:+ String "/" (p_slug project +:+ "/"
                              +:+ JS.padStart (pretty (img_index img)) 2 "0")) as ->.
    { unfold projectOutputDir, path_join. cbn [JS.join]. chars_eq. }
    apply cacheHit_imagesKept; [done | eauto].
  - intros f h _.
    assert (homepageOutputDir dirname f
            = path_join [distDir (CONFIG dirname); "images"]
              +:+ String "/" ("homepage" +:+ "/" +:+ pretty (fileNumber f))) as ->.
    { unfold homepageOutputDir, path_join. cbn [JS.join]. chars_eq. }
    apply cacheHit_imagesKept; [done | eauto].
  - intros -> Hdist. revert Hrun. unfold clean. rewrite bind_log.
    erewrite bind_eq by (apply pathExists_present; exact Hdist).
    unfold readdir. rewrite Hitems. erewrite bind_eq by reflexivity.
    intros Hloop. apply cleanItems_removed in Hloop as [_ Hgone]. exact Hgone.
Qed.

Lemma clean_keeps_the_images_witness :
  ∃ w',
    clean "." Sample.listsDist Sample.removesAll Sample.builtBefore = (w', Ok tt)
    ∧ cacheHit w' "a/01.jpg" "md5 of ./projects/a/original/01.jpg" "./dist/images/a/01"
      = Some {| hash := "md5 of ./projects/a/original/01.jpg";
                data := ProjectData Demo.results900 |}
    ∧ ("./dist/personal/work" ∉ dirs w')
    ∧ ("./dist/imagesets" ∉ dirs w').
Proof.
  exists (fst (clean "." Sample.listsDist Sample.removesAll Sample.builtBefore)).
  assert (clean "." Sample.listsDist Sample.removesAll Sample.builtBefore
          = (fst (clean "." Sample.listsDist Sample.removesAll Sample.builtBefore), Ok tt))
    as Hrun by (vm_compute; reflexivity).
  split; [exact Hrun|].
  assert (Forall (fun item => "/"%char ∉ chars item)
            ["css"; "images"; "imagesets"; "index.html"; "personal"]) as Hnames.
  { repeat constructor; intros Hin; apply list_elem_of_In in Hin; simpl in Hin;
      repeat destruct Hin as [Hin|Hin]; try discriminate Hin; done. }
  destruct (clean_keeps_the_images "." Sample.listsDist Sample.removesAll
              ["css"; "images"; "imagesets"; "index.html"; "personal"]
              Sample.builtBefore _ (Ok tt) eq_refl Hnames Hrun)
    as (_ & Hhit & _ & Hgone).
  split; [|split].
  - rewrite (Hhit (Demo.project []) (Demo.image "01.jpg" 1)) by reflexivity.
    vm_compute. reflexivity.
  - apply (Hgone eq_refl ltac:(vm_compute; set_solver) "personal");
      [apply list_elem_of_In; simpl; tauto | discriminate | reflexivity].
  - apply (Hgone eq_refl ltac:(vm_compute; set_solver) "imagesets");
      [apply list_elem_of_In; simpl; tauto | discriminate | reflexivity].
Defined.

(** * The migration script *)

(** ** The matcher *)

Lemma append_empty_r (s : string) : s +:+ "" = s.
Proof. apply chars_inj. rewrite chars_app. apply app_nil_r. Qed.

Lemma append_assoc (a b c : string) : (a +:+ b) +:+ c = a +:+ (b +:+ c).
Proof. apply chars_inj. rewrite !chars_app. symmetry. apply app_assoc. Qed.

Lemma chars_length (s : string) : length (chars s) = String.length s.
Proof. induction s as [|c s IH]; [done|]. cbn. by rewrite IH. Qed.

Lemma more_sound a k taken s caps rest :
  Regex.more a k taken s = Some (caps, rest) →
  ∃ p s' caps',
    s = p +:+ s'
    ∧ Forall (fun c => Regex.accepts a c = true) (chars p)
    ∧ k s' = Some (caps', rest)
    ∧ caps = if Regex.captured a then (taken +:+ p) :: caps' else caps'.
Proof.
  assert (Hstop : ∀ taken s,
    Regex.keep a taken (k s) = Some (caps, rest) →
    ∃ p s' caps',
      s = p +:+ s'
      ∧ Forall (fun c => Regex.accepts a c = true) (chars p)
      ∧ k s' = Some (caps', rest)
      ∧ caps = if Regex.captured a then (taken +:+ p) :: caps' else caps').
  { intros t s0 H. unfold Regex.keep in H.
    destruct (k s0) as [[caps' rest']|] eqn:Hk; [|done].
    injection H as <- <-. exists "", s0, caps'.
    rewrite append_empty_r. by repeat split. }
  revert taken. induction s as [|c s IH]; intros taken; cbn [Regex.more].
  - apply Hstop.
  - destruct (Regex.accepts a c) eqn:Hc; [|apply Hstop].
    destruct (Regex.more a k (taken +:+ String c "") s) as [r|] eqn:Hmore;
      [|apply Hstop].
    intros [= ->]. apply IH in Hmore as (p & s' & caps' & -> & Hp & Hk & ->).
    exists (String c p), s', caps'. repeat split; [by constructor|done|].
    by rewrite append_assoc.
Qed.

Lemma matchAt_sound atoms s caps rest :
  Regex.matchAt atoms s = Some (caps, rest) → Regex.matches atoms s caps rest.
Proof.
  revert s caps rest. induction atoms as [|a atoms IH]; intros s caps rest.
  - intros [= <- <-]. constructor.
  - assert (Hkeep : ∀ p s',
      Regex.fits a p →
      Regex.keep a p (Regex.matchAt atoms s') = Some (caps, rest) →
      Regex.matches (a :: atoms) (p +:+ s') caps rest).
    { intros p s' Hfit H. unfold Regex.keep in H.
      destruct (Regex.matchAt atoms s') as [[caps' rest']|] eqn:Hm; [|done].
      injection H as <- <-. constructor; [done|]. by apply IH. }
    assert (Hmore : ∀ taken s',
      Forall (fun c => Regex.accepts a c = true) (chars taken) →
      Regex.more a (Regex.matchAt atoms) taken s' = Some (caps, rest) →
      Regex.quant a ≠ Regex.One →
      (Regex.quant a = Regex.Plus → (1 <= String.length taken)%nat) →
      Regex.matches (a :: atoms) (taken +:+ s') caps rest).
    { intros taken s' Htaken H Hq Hlen.
      apply more_sound in H as (p & s'' & caps' & -> & Hp & Hk & ->).
      rewrite <- append_assoc.
      apply (Regex.matches_cons a atoms (taken +:+ p) s'' caps' rest);
        [|by apply IH].
      split.
      - rewrite chars_app. by apply Forall_app.
      - destruct (Regex.quant a) eqn:Hqa; [done|done|].
        specialize (Hlen eq_refl). rewrite <- chars_length, chars_app, length_app,
          !chars_length. lia. }
    cbn [Regex.matchAt].
    destruct s as [|c s].
    + destruct (Regex.quant a) eqn:Hq; [done| |done].
      intros H. apply (Hkeep "" ""); [|done]. split; [constructor|by rewrite Hq].
    + destruct (Regex.accepts a c) eqn:Hc.
      * destruct (Regex.quant a) eqn:Hq.
        -- intros H. apply (Hkeep (String c "") s); [|done].
           split; [by repeat constructor|by rewrite Hq].
        -- intros H. by apply (Hmore "" (String c s)).
        -- intros H. apply (Hmore (String c "") s); try done.
           by repeat constructor.
      * destruct (Regex.quant a) eqn:Hq; [done| |done].
        intros H. apply (Hkeep "" (String c s)); [|done].
        split; [constructor|by rewrite Hq].
Qed.

Lemma matches_cons_inv a atoms s caps rest :
  Regex.matches (a :: atoms) s caps rest →
  ∃ p s' caps',
    s = p +:+ s' ∧ Regex.fits a p ∧ Regex.matches atoms s' caps' rest
    ∧ caps = if Regex.captured a then p :: caps' else caps'.
Proof. inversion 1; subst. by eexists _, _, _. Qed.

Lemma matches_app_inv atoms1 atoms2 s caps rest :
  Regex.matches (atoms1 ++ atoms2) s caps rest →
  ∃ m s' caps1 caps2,
    s = m +:+ s' ∧ Regex.matches atoms1 s caps1 s'
    ∧ Regex.matches atoms2 s' caps2 rest ∧ caps = caps1 ++ caps2.
Proof.
  revert s caps. induction atoms1 as [|a atoms1 IH]; intros s caps H.
  - exists "", s, [], caps. repeat split; [constructor|done].
  - apply matches_cons_inv in H as (p & s1 & caps' & -> & Hfit & H & ->).
    apply IH in H as (m & s' & caps1 & caps2 & -> & H1 & H2 & ->).
    exists (p +:+ m), s', (if Regex.captured a then p :: caps1 else caps1), caps2.
    repeat split; [by rewrite append_assoc|by constructor|done|].
    by destruct (Regex.captured a).
Qed.

(** The folding of the flag [i] and [toLowerCase]: letters that the
    pattern takes for one another have one lower case, and a character
    with the lower case of an ASCII character folds as it does. *)
Lemma lower_char_cases (c : ascii) :
  (((192 <=? N_of_ascii c) && (N_of_ascii c <=? 222))%N = true
   ∧ JS.lower_ascii c = c
   ∧ (JS.lower_char c = c ∨ (224 <= N_of_ascii (JS.lower_char c))%N))
  ∨ (((192 <=? N_of_ascii c) && (N_of_ascii c <=? 222))%N = false
     ∧ JS.lower_char c = JS.lower_ascii c
     ∧ ((N_of_ascii c < 128)%N → (N_of_ascii (JS.lower_ascii c) < 128)%N)).
Proof.
  unfold JS.lower_char, JS.lower_ascii. cbv zeta.
  pose proof (N_ascii_bounded c) as Hb.
  destruct ((192 <=? N_of_ascii c) && (N_of_ascii c <=? 222))%N eqn:Hlat.
  - left. apply andb_true_iff in Hlat as [H1%N.leb_le H2%N.leb_le].
    split; [done|].
    assert (((65 <=? N_of_ascii c) && (N_of_ascii c <=? 90))%N = false) as ->.
    { apply andb_false_iff. right. apply N.leb_gt. lia. }
    split; [done|]. simpl.
    destruct (negb (N_of_ascii c =? 215)%N); [right | by left].
    rewrite N_ascii_embedding by lia. lia.
  - right. split; [done|]. simpl. rewrite orb_false_r.
    split; [done|].
    destruct ((65 <=? N_of_ascii c) && (N_of_ascii c <=? 90))%N eqn:Hup; [|done].
    apply andb_true_iff in Hup as [H1%N.leb_le H2%N.leb_le].
    intros _. rewrite N_ascii_embedding by lia. lia.
Qed.

Lemma fold_lower (x c : ascii) :
  JS.lower_ascii x = JS.lower_ascii c → JS.lower_char x = JS.lower_char c.
Proof.
  intros H.
  destruct (lower_char_cases x) as [(Hx & Hax & _)|(Hx & -> & _)],
    (lower_char_cases c) as [(Hc & Hac & _)|(Hc & Hcc & _)].
  - rewrite Hax, Hac in H. by subst.
  - rewrite Hax in H. exfalso. revert Hx Hc. rewrite H. clear.
    unfold JS.lower_ascii. cbv zeta. pose proof (N_ascii_bounded c).
    destruct ((65 <=? N_of_ascii c) && (N_of_ascii c <=? 90))%N eqn:Hup.
    + apply andb_true_iff in Hup as [H1%N.leb_le H2%N.leb_le].
      rewrite N_ascii_embedding by lia.
      intros [?%N.leb_le ?%N.leb_le]%andb_true_iff. lia.
    + congruence.
  - rewrite Hac in H. exfalso. revert Hx Hc. rewrite <- H. clear.
    unfold JS.lower_ascii. cbv zeta. pose proof (N_ascii_bounded x).
    destruct ((65 <=? N_of_ascii x) && (N_of_ascii x <=? 90))%N eqn:Hup.
    + apply andb_true_iff in Hup as [H1%N.leb_le H2%N.leb_le].
      rewrite N_ascii_embedding by lia.
      intros _ [?%N.leb_le ?%N.leb_le]%andb_true_iff. lia.
    + congruence.
  - by rewrite Hcc.
Qed.

Lemma lower_fold (x c : ascii) :
  (N_of_ascii c < 128)%N →
  JS.lower_char x = JS.lower_char c → JS.lower_ascii x = JS.lower_ascii c.
Proof.
  intros Hascii H.
  destruct (lower_char_cases c) as [(Hc & _)|(_ & Hcc & Hlow)].
  { apply andb_true_iff in Hc as [?%N.leb_le _]. lia. }
  specialize (Hlow Hascii). rewrite Hcc in H.
  destruct (lower_char_cases x) as [(Hx & Hax & Hhigh)|(_ & Hxx & _)].
  - exfalso. apply andb_true_iff in Hx as [?%N.leb_le _].
    destruct Hhigh as [Hsame|Hhigh]; rewrite H in *; [rewrite Hsame in Hlow|]; lia.
  - by rewrite <- Hxx.
Qed.

(** A match of a row of literals is the same word, whatever the case of
    its letters. *)
Lemma matches_lits_inv w s caps rest :
  Regex.matches (Regex.lits w) s caps rest →
  ∃ w', s = w' +:+ rest ∧ JS.toLowerCase w' = JS.toLowerCase w ∧ caps = [].
Proof.
  revert s caps. induction w as [|c w IH]; intros s caps H.
  - inversion H; subst. by exists "".
  - apply matches_cons_inv in H as (p & s1 & caps' & -> & [Hp Hlen] & H & ->).
    apply IH in H as (w' & -> & Hw & ->).
    destruct p as [|x [|??]]; try done.
    exists (String x w'). repeat split.
    apply Forall_cons in Hp as [Hx _]. cbn in Hx. apply Ascii.eqb_eq in Hx.
    cbn [JS.toLowerCase]. by rewrite (fold_lower _ _ Hx), Hw.
Qed.

(** The text after a match is the end of the text, and the match has a
    character at least for every atom that is not starred. *)
Lemma matches_rest atoms s caps rest :
  Regex.matches atoms s caps rest →
  ∃ m, s = m +:+ rest ∧ (Regex.minLength atoms <= String.length m)%nat.
Proof.
  induction 1 as [s|a atoms p s caps rest [_ Hlen] _ (m & -> & IH)].
  - exists "". split; [done|]. cbn. lia.
  - exists (p +:+ m). split; [by rewrite append_assoc|].
    rewrite <- (chars_length (p +:+ m)), chars_app, length_app, !chars_length.
    cbn [Regex.minLength foldr]. fold (Regex.minLength atoms).
    destruct (Regex.quant a); lia.
Qed.

Lemma search_sound atoms s caps rest :
  Regex.search atoms s = Some (caps, rest) →
  ∃ pre s', s = pre +:+ s' ∧ Regex.matches atoms s' caps rest.
Proof.
  induction s as [|c s IH]; cbn [Regex.search];
    destruct (Regex.matchAt atoms _) as [r|] eqn:Hm.
  - intros [= ->]. exists "", "". split; [done|]. by apply matchAt_sound.
  - done.
  - intros [= ->]. exists "", (String c s). split; [done|]. by apply matchAt_sound.
  - intros H. apply IH in H as (pre & s' & -> & H).
    by exists (String c pre), s'.
Qed.

Lemma matchAll_sound fuel atoms s caps :
  caps ∈ Regex.matchAll fuel atoms s →
  ∃ pre s' rest, s = pre +:+ s' ∧ Regex.matches atoms s' caps rest.
Proof.
  revert s. induction fuel as [|fuel IH]; intros s; cbn [Regex.matchAll].
  - by intros ?%elem_of_nil.
  - destruct (Regex.search atoms s) as [[caps' rest]|] eqn:Hs;
      [|by intros ?%elem_of_nil].
    apply search_sound in Hs as (pre & s' & -> & Hm).
    intros [->|Hin]%elem_of_cons; [by eexists _, _, _|].
    apply IH in Hin as (pre' & s'' & rest' & -> & Hm').
    apply matches_rest in Hm as (m & -> & _).
    exists (pre +:+ m +:+ pre'), s'', rest'. split; [|done].
    by rewrite !append_assoc.
Qed.

(** A pattern that cannot match the empty string ends the loop within
    as many rounds as the text has characters: more fuel changes
    nothing. *)
Lemma matchAll_enough atoms fuel s :
  (0 < Regex.minLength atoms)%nat →
  (String.length s < fuel)%nat →
  Regex.matchAll fuel atoms s = Regex.matchAll (S (String.length s)) atoms s.
Proof.
  intros Hpos.
  assert (H : ∀ n fuel fuel' s, (String.length s < n)%nat →
    (String.length s < fuel)%nat → (String.length s < fuel')%nat →
    Regex.matchAll fuel atoms s = Regex.matchAll fuel' atoms s).
  { clear fuel s. induction n as [|n IH]; intros fuel fuel' s Hn Hf Hf'; [lia|].
    destruct fuel as [|fuel]; [lia|]. destruct fuel' as [|fuel']; [lia|].
    cbn [Regex.matchAll].
    destruct (Regex.search atoms s) as [[caps rest]|] eqn:Hs; [|done].
    apply search_sound in Hs as (pre & s' & -> & Hm).
    apply matches_rest in Hm as (m & -> & Hlen).
    f_equal. rewrite <- !chars_length, !chars_app, !length_app, !chars_length in *.
    apply IH; lia. }
  intros Hf. apply (H (S (String.length s))); lia.
Qed.

Lemma more_complete a k taken p s :
  Forall (fun c => Regex.accepts a c = true) (chars p) →
  is_Some (k s) →
  is_Some (Regex.more a k taken (p +:+ s)).
Proof.
  assert (Hstop : ∀ taken s, is_Some (k s) →
            is_Some (Regex.keep a taken (k s))).
  { intros t s0 [[caps rest] ->]. by eexists. }
  intros Hp Hk. revert taken. induction p as [|c p IH]; intros taken.
  - change ("" +:+ s) with s.
    destruct s as [|c s]; cbn [Regex.more]; [by apply Hstop|].
    destruct (Regex.accepts a c); [|by apply Hstop].
    destruct (Regex.more a k _ s); [by eexists|by apply Hstop].
  - change (String c p +:+ s) with (String c (p +:+ s)). cbn [Regex.more].
    apply Forall_cons in Hp as [-> Hp].
    destruct (IH Hp (taken +:+ String c "")) as [r ->]. by eexists.
Qed.

Lemma matchAt_complete atoms s caps rest :
  Regex.matches atoms s caps rest → is_Some (Regex.matchAt atoms s).
Proof.
  induction 1 as [s|a atoms p s caps rest [Hp Hlen] _ IH]; [by eexists|].
  assert (Hkeep : ∀ t, is_Some (Regex.keep a t (Regex.matchAt atoms s))).
  { intros t. destruct IH as [[??] ->]. by eexists. }
  destruct p as [|c p].
  - change ("" +:+ s) with s.
    destruct (Regex.quant a) eqn:Hq; [done| |cbn in Hlen; lia].
    cbn [Regex.matchAt]. destruct s as [|c s]; rewrite Hq; [done|].
    destruct (Regex.accepts a c) eqn:Hc; [|done].
    apply (more_complete a _ "" ""); [constructor|done].
  - change (String c p +:+ s) with (String c (p +:+ s)). cbn [Regex.matchAt].
    apply Forall_cons in Hp as [Hc Hp]. rewrite Hc.
    destruct (Regex.quant a) eqn:Hq.
    + destruct p; [|done]. apply Hkeep.
    + apply (more_complete a _ "" (String c p)); [by constructor|done].
    + by apply more_complete.
Qed.

Lemma search_complete atoms pre s :
  is_Some (Regex.matchAt atoms s) → is_Some (Regex.search atoms (pre +:+ s)).
Proof.
  intros Hs. induction pre as [|c pre IH].
  - change ("" +:+ s) with s. destruct Hs as [r Hr].
    destruct s; cbn [Regex.search]; rewrite Hr; done.
  - change (String c pre +:+ s) with (String c (pre +:+ s)). cbn [Regex.search].
    destruct (Regex.matchAt atoms (String c _)); [by eexists|done].
Qed.

Lemma matches_lits_app_inv w atoms s caps rest :
  Regex.matches (Regex.lits w ++ atoms) s caps rest →
  ∃ w' s', s = w' +:+ s' ∧ JS.toLowerCase w' = JS.toLowerCase w
           ∧ Regex.matches atoms s' caps rest.
Proof.
  intros (m & s' & caps1 & caps2 & _ & H1 & H2 & ->)%matches_app_inv.
  apply matches_lits_inv in H1 as (w' & -> & Hw & ->). by exists w', s'.
Qed.

Lemma fits_one a p :
  Regex.quant a = Regex.One → Regex.fits a p →
  ∃ c, p = String c "" ∧ Regex.accepts a c = true.
Proof.
  intros Hq [Hp Hlen]. rewrite Hq in Hlen.
  destruct p as [|c [|??]]; try done.
  exists c. split; [done|]. by apply Forall_cons in Hp as [? _].
Qed.

Lemma matches_lits w w' s :
  Forall (fun c => (N_of_ascii c < 128)%N) (chars w) →
  JS.toLowerCase w' = JS.toLowerCase w →
  Regex.matches (Regex.lits w) (w' +:+ s) [] s.
Proof.
  revert w'. induction w as [|c w IH]; intros [|c' w'] Hascii Hw; try done.
  - constructor.
  - injection Hw as Hc Hw. apply Forall_cons in Hascii as [Hc0 Hascii].
    apply (Regex.matches_cons (Regex.lit c) (Regex.lits w) (String c' "") (w' +:+ s) [] s);
      [|by apply IH].
    split; [|done]. repeat constructor. cbn. apply Ascii.eqb_eq. by apply lower_fold.
Qed.

Lemma matches_app atoms1 atoms2 s caps1 s' caps2 rest :
  Regex.matches atoms1 s caps1 s' → Regex.matches atoms2 s' caps2 rest →
  Regex.matches (atoms1 ++ atoms2) s (caps1 ++ caps2) rest.
Proof.
  intros H1 H2. induction H1 as [s|a atoms p s caps s' Hfit _ IH]; [done|].
  specialize (IH H2).
  replace ((if Regex.captured a then p :: caps else caps) ++ caps2)
    with (if Regex.captured a then p :: (caps ++ caps2) else caps ++ caps2)
    by (by destruct (Regex.captured a)).
  by constructor.
Qed.

(** ** [extractImageUrls] *)

Lemma unique_spec seen urls :
  NoDup (Migration.unique seen urls)
  ∧ ∀ url, url ∈ Migration.unique seen urls ↔ url ∈ urls ∧ url ∉ seen.
Proof.
  revert seen. induction urls as [|u urls IH]; intros seen; cbn [Migration.unique].
  - split; [constructor|]. intros url. rewrite elem_of_nil. tauto.
  - case_bool_decide as Hu.
    + destruct (IH seen) as [Hnd Hin]. split; [done|].
      intros url. rewrite Hin, elem_of_cons. split; [tauto|].
      intros [[->|?] ?]; tauto.
    + destruct (IH (u :: seen)) as [Hnd Hin]. split.
      * constructor; [|done]. rewrite Hin, elem_of_cons. tauto.
      * intros url. rewrite !elem_of_cons, Hin, elem_of_cons.
        destruct (decide (url = u)) as [->|]; tauto.
Qed.

Lemma imgRegex_match s caps rest :
  Regex.matches Migration.imgRegex s caps rest →
  ∃ pre w q url q' post,
    s = pre +:+ w +:+ String q (url +:+ String q' post)
    ∧ JS.toLowerCase w = "src="
    ∧ Migration.isQuote q = true ∧ Migration.isQuote q' = true
    ∧ Forall (fun c => Migration.isQuote c = false) (chars url)
    ∧ caps = [url].
Proof.
  unfold Migration.imgRegex.
  intros (w1 & s1 & -> & _ & H)%matches_lits_app_inv.
  apply matches_cons_inv in H as (p1 & s2 & c1 & -> & _ & H & ->).
  apply matches_lits_app_inv in H as (w & s3 & -> & Hw & H).
  apply matches_cons_inv in H as (pq & s4 & c2 & -> & Hq & H & ->).
  apply fits_one in Hq as (q & -> & Hq); [|done].
  apply matches_cons_inv in H as (url & s5 & c3 & -> & [Hurl _] & H & ->).
  apply matches_cons_inv in H as (pq' & s6 & c4 & -> & Hq' & H & ->).
  apply fits_one in Hq' as (q' & -> & Hq'); [|done].
  apply matches_cons_inv in H as (p2 & s7 & c5 & -> & _ & H & ->).
  apply matches_lits_inv in H as (w3 & -> & _ & ->).
  exists (w1 +:+ p1), w, q, url, q', (p2 +:+ w3 +:+ rest).
  repeat split; try done.
  - by rewrite !append_assoc.
  - eapply Forall_impl; [exact Hurl|]. cbn. unfold Migration.notQuote.
    intros c. by destruct (Migration.isQuote c).
Qed.

(** The loop of [extractImageUrls] has ended within as many rounds as
    the text has characters: a larger bound finds the same matches. *)
Lemma imgRegex_rounds (h : string) (fuel : nat) :
  (String.length h < fuel)%nat →
  Regex.matchAll fuel Migration.imgRegex h
  = Regex.matchAll (S (String.length h)) Migration.imgRegex h.
Proof. apply matchAll_enough. vm_compute. lia. Qed.

(** X22. Every address that [extractImageUrls] returns is in its list
    once; it passes the test of the loop (it names the old host and
    neither a blank slide nor a text overlay); it holds no quote; and it
    stands in the text between two quotes, after [src=] in whatever
    case. *)
Theorem extracted_addresses (html : option string) (i : nat) (url : string) :
  Migration.extractImageUrls html !! i = Some url →
  (∀ j, Migration.extractImageUrls html !! j = Some url → j = i)
  ∧ Migration.isPhoto url = true
  ∧ Forall (fun c => Migration.isQuote c = false) (chars url)
  ∧ ∃ h pre w q q' post,
      html = Some h
      ∧ h = pre +:+ w +:+ String q (url +:+ String q' post)
      ∧ JS.toLowerCase w = "src="
      ∧ Migration.isQuote q = true ∧ Migration.isQuote q' = true.
Proof.
  unfold Migration.extractImageUrls. destruct html as [h|]; [|done].
  destruct (String.eqb h ""); [done|].
  set (found := Regex.matchAll _ _ _).
  destruct (unique_spec [] (filter (fun u => Migration.isPhoto u = true)
                              (Regex.group 1 <$> found))) as [Hnd Hin].
  intros Hi. split; [|].
  { intros j Hj. by apply (NoDup_lookup _ j i url Hnd). }
  apply list_elem_of_lookup_2, Hin in Hi as [Hi _].
  apply list_elem_of_filter in Hi as [Hphoto Hi].
  apply list_elem_of_fmap in Hi as (caps & -> & Hcaps).
  apply matchAll_sound in Hcaps as (pre & s' & rest & -> & Hm).
  apply imgRegex_match in Hm as (pre' & w & q & url & q' & post & -> & Hw & Hq & Hq'
                                 & Hurl & ->).
  cbn [Regex.group Nat.sub nth] in *.
  repeat split; try done.
  exists (pre +:+ pre' +:+ w +:+ String q (url +:+ String q' post)),
    (pre +:+ pre'), w, q, q', post.
  repeat split; try done. by rewrite !append_assoc.
Qed.

Lemma extracted_addresses_witness :
  Migration.extractImageUrls (Some MigrationSample.galleryHtml) !! 1%nat
    = Some (MigrationSample.cdn +:+ "two.jpg")
  ∧ Migration.isPhoto (MigrationSample.cdn +:+ "two.jpg") = true.
Proof.
  split; [vm_compute; reflexivity|].
  refine (proj1 (proj2 (extracted_addresses (Some MigrationSample.galleryHtml) 1
                          (MigrationSample.cdn +:+ "two.jpg") _))).
  vm_compute. reflexivity.
Defined.

(** ** [extractVimeoEmbed] *)

Lemma simpleVimeoRegex_match s caps rest :
  Regex.matches Migration.simpleVimeoRegex s caps rest →
  ∃ w d ds,
    s = w +:+ String d ds +:+ rest
    ∧ JS.toLowerCase w = "vimeo.com/video/"
    ∧ Forall (fun c => JS.isDigit c = true) (chars (String d ds))
    ∧ caps = [String d ds].
Proof.
  unfold Migration.simpleVimeoRegex.
  intros (w & s1 & -> & Hw & H)%matches_lits_app_inv.
  apply matches_cons_inv in H as (id & s2 & c1 & -> & [Hid Hlen] & H & ->).
  inversion H; subst. destruct id as [|d ds]; [cbn in Hlen; lia|].
  by exists w, d, ds.
Qed.

Lemma vimeoRegex_match s caps rest :
  Regex.matches Migration.vimeoRegex s caps rest →
  ∃ w d ds mid w' q t q',
    s = w +:+ String d ds +:+ mid +:+ w' +:+ String q (t +:+ String q' rest)
    ∧ JS.toLowerCase w = "vimeo.com/video/"
    ∧ Forall (fun c => JS.isDigit c = true) (chars (String d ds))
    ∧ JS.toLowerCase w' = "title="
    ∧ Migration.isQuote q = true ∧ Migration.isQuote q' = true
    ∧ t ≠ ""
    ∧ Forall (fun c => Migration.isQuote c = false) (chars t)
    ∧ caps = [String d ds; t].
Proof.
  unfold Migration.vimeoRegex.
  intros (m & s1 & caps1 & caps2 & _ & H1 & H & ->)%matches_app_inv.
  apply simpleVimeoRegex_match in H1 as (w & d & ds & -> & Hw & Hid & ->).
  apply matches_cons_inv in H as (p1 & s2 & c1 & -> & _ & H & ->).
  apply matches_cons_inv in H as (p2 & s3 & c2 & -> & _ & H & ->).
  apply matches_cons_inv in H as (p3 & s4 & c3 & -> & _ & H & ->).
  apply matches_lits_app_inv in H as (w' & s5 & -> & Hw' & H).
  apply matches_cons_inv in H as (pq & s6 & c4 & -> & Hq & H & ->).
  apply fits_one in Hq as (q & -> & Hq); [|done].
  apply matches_cons_inv in H as (t & s7 & c5 & -> & [Ht Hlen] & H & ->).
  apply matches_cons_inv in H as (pq' & s8 & c6 & -> & Hq' & H & ->).
  apply fits_one in Hq' as (q' & -> & Hq'); [|done].
  inversion H; subst.
  exists w, d, ds, (p1 +:+ p2 +:+ p3), w', q, t, q'.
  repeat split; try done.
  - by rewrite !append_assoc.
  - intros ->. cbn in Hlen. lia.
  - eapply Forall_impl; [exact Ht|]. cbn. unfold Migration.notQuote.
    intros c. by destruct (Migration.isQuote c).
Qed.

(** X23. The embed that [extractVimeoEmbed] finds has for its id a row
    of digits of the text, one at least, that follows [vimeo.com/video/]
    in whatever case; its title, when it has one, is not empty, holds no
    quote and stands further on in the text between two quotes, after
    [title=]. *)
Theorem embed_of_the_text (html : option string) (e : Migration.Embed) :
  Migration.extractVimeoEmbed html = Some e →
  ∃ h pre w post,
    html = Some h
    ∧ h = pre +:+ w +:+ Migration.vimeoId e +:+ post
    ∧ JS.toLowerCase w = "vimeo.com/video/"
    ∧ Migration.vimeoId e ≠ ""
    ∧ Forall (fun c => JS.isDigit c = true) (chars (Migration.vimeoId e))
    ∧ match Migration.embedTitle e with
      | None => True
      | Some t =>
          t ≠ ""
          ∧ Forall (fun c => Migration.isQuote c = false) (chars t)
          ∧ ∃ mid w' q q' post',
              post = mid +:+ w' +:+ String q (t +:+ String q' post')
              ∧ JS.toLowerCase w' = "title="
              ∧ Migration.isQuote q = true ∧ Migration.isQuote q' = true
      end.
Proof.
  unfold Migration.extractVimeoEmbed. destruct html as [h|]; [|done].
  destruct (String.eqb h ""); [done|].
  destruct (Regex.search Migration.vimeoRegex h) as [[caps rest]|] eqn:Hfull.
  - intros [= <-].
    apply search_sound in Hfull as (pre & s' & -> & Hm).
    apply vimeoRegex_match in Hm as (w & d & ds & mid & w' & q & t & q' & -> & Hw & Hid
                                    & Hw' & Hq & Hq' & Ht & Hnq & ->).
    cbn [Regex.group Nat.sub nth Migration.vimeoId Migration.embedTitle].
    eexists _, pre, w, _. repeat split; try done.
    by eexists mid, w', q, q', rest.
  - destruct (Regex.search Migration.simpleVimeoRegex h) as [[caps rest]|] eqn:Hs;
      [|done].
    intros [= <-].
    apply search_sound in Hs as (pre & s' & -> & Hm).
    apply simpleVimeoRegex_match in Hm as (w & d & ds & -> & Hw & Hid & ->).
    cbn [Regex.group Nat.sub nth Migration.vimeoId Migration.embedTitle].
    by eexists _, pre, w, rest.
Qed.

Lemma embed_of_the_text_witness :
  Migration.extractVimeoEmbed (Some MigrationSample.videoHtml)
    = Some {| Migration.vimeoId := "76979871"; Migration.embedTitle := Some "Jaunt" |}
  ∧ ∃ h pre w post,
      Some MigrationSample.videoHtml = Some h
      ∧ h = pre +:+ w +:+ "76979871" +:+ post
      ∧ JS.toLowerCase w = "vimeo.com/video/".
Proof.
  split; [vm_compute; reflexivity|].
  destruct (embed_of_the_text (Some MigrationSample.videoHtml)
              {| Migration.vimeoId := "76979871"; Migration.embedTitle := Some "Jaunt" |})
    as (h & pre & w & post & Hh & Hsplit & Hw & _);
    [vm_compute; reflexivity|].
  by exists h, pre, w, post.
Defined.

Lemma embed_after_address h e :
  Migration.extractVimeoEmbed (Some h) = Some e →
  ∃ pre w d post,
    h = pre +:+ w +:+ String d post
    ∧ JS.toLowerCase w = "vimeo.com/video/"
    ∧ JS.isDigit d = true.
Proof.
  unfold Migration.extractVimeoEmbed. destruct (String.eqb h ""); [done|].
  assert (Hsimple : ∀ s caps rest,
    Regex.matches Migration.simpleVimeoRegex s caps rest →
    ∃ w d post, s = w +:+ String d post
                ∧ JS.toLowerCase w = "vimeo.com/video/" ∧ JS.isDigit d = true).
  { intros s caps rest (w & d & ds & -> & Hw & Hid & _)%simpleVimeoRegex_match.
    apply Forall_cons in Hid as [Hd _]. by exists w, d, (ds +:+ rest). }
  destruct (Regex.search Migration.vimeoRegex h) as [[caps rest]|] eqn:Hfull.
  - intros _. apply search_sound in Hfull as (pre & s' & -> & Hm).
    apply matches_app_inv in Hm as (m & s1 & caps1 & caps2 & _ & Hm & _ & _).
    apply Hsimple in Hm as (w & d & post & -> & Hw & Hd). by exists pre, w, d, post.
  - destruct (Regex.search Migration.simpleVimeoRegex h) as [[caps rest]|] eqn:Hs;
      [|done].
    intros _. apply search_sound in Hs as (pre & s' & -> & Hm).
    apply Hsimple in Hm as (w & d & post & -> & Hw & Hd). by exists pre, w, d, post.
Qed.

(** X24. A text has an embed for [extractVimeoEmbed] exactly when
    [vimeo.com/video/], in whatever case, stands in it before a digit. *)
Theorem embed_found_iff (h : string) :
  is_Some (Migration.extractVimeoEmbed (Some h))
  ↔ ∃ pre w d post,
      h = pre +:+ w +:+ String d post
      ∧ JS.toLowerCase w = "vimeo.com/video/"
      ∧ JS.isDigit d = true.
Proof.
  split.
  - intros [e He]. by apply embed_after_address in He.
  - intros (pre & w & d & post & -> & Hw & Hd).
    unfold Migration.extractVimeoEmbed.
    destruct (String.eqb _ "") eqn:He.
    { apply String.eqb_eq in He. apply (f_equal chars) in He.
      rewrite !chars_app in He. destruct pre, w; done. }
    destruct (Regex.search Migration.vimeoRegex _) as [[??]|]; [by eexists|].
    assert (Hs : is_Some (Regex.search Migration.simpleVimeoRegex
                            (pre +:+ w +:+ String d post))).
    { apply search_complete.
      apply (matchAt_complete _ _ ([] ++ [String d ""]) post).
      apply (matches_app _ _ _ _ (String d post)).
      { apply matches_lits; [|done].
        apply Forall_forall. intros c Hc. apply list_elem_of_In in Hc.
        repeat (destruct Hc as [<-|Hc]; [vm_compute; reflexivity|]). destruct Hc. }
      apply (Regex.matches_cons (Regex.capture JS.isDigit Regex.Plus) []
               (String d "") post [] post); [|constructor].
      split; [by repeat constructor|cbn; lia]. }
    destruct Hs as [[??] ->]. by eexists.
Qed.

(** ** [createSlug] *)

Lemma isSpace_not_slugChar (c : ascii) :
  JSString.isSpace c = true → Migration.slugChar c = false.
Proof.
  unfold JSString.isSpace. intros Hc%bool_decide_eq_true.
  rewrite <- (ascii_nat_embedding c).
  repeat (apply elem_of_cons in Hc as [->|Hc]; [vm_compute; reflexivity|]).
  by apply elem_of_nil in Hc.
Qed.

Lemma isSpace_lower (c : ascii) :
  JSString.isSpace c = true → JS.lower_char c = c.
Proof.
  unfold JSString.isSpace. intros Hc%bool_decide_eq_true.
  rewrite <- (ascii_nat_embedding c).
  repeat (apply elem_of_cons in Hc as [->|Hc]; [vm_compute; reflexivity|]).
  by apply elem_of_nil in Hc.
Qed.

Lemma notSlugChar_spec (c : ascii) :
  Migration.notSlugChar c = false →
  JSString.isSpace c = true ∨ Migration.slugChar c = true.
Proof.
  unfold Migration.notSlugChar, Migration.slugChar. cbv zeta.
  destruct (JSString.isSpace c); [by left|]. right.
  apply negb_false_iff in H. by rewrite orb_false_r in H.
Qed.

Lemma removeAll_chars p s :
  Forall (fun c => p c = false) (chars (JSString.removeAll p s)).
Proof.
  induction s as [|c s IH]; cbn [JSString.removeAll]; [constructor|].
  destruct (p c) eqn:Hc; [done|]. by constructor.
Qed.

Lemma hyphenate_chars (p q : ascii → bool) b s :
  q "-"%char = true →
  Forall (fun c => p c = true ∨ q c = true) (chars s) →
  Forall (fun c => q c = true) (chars (JSString.hyphenate p b s)).
Proof.
  intros Hq Hs. revert b. induction s as [|c s IH]; intros b;
    cbn [JSString.hyphenate]; [constructor|].
  apply Forall_cons in Hs as [Hc Hs].
  destruct (p c) eqn:Hpc.
  - destruct b; [by apply IH|]. constructor; [done|by apply IH].
  - constructor; [by destruct Hc|by apply IH].
Qed.

Lemma hyphenate_no_run b s :
  JSString.includes (JSString.hyphenate Migration.isHyphen b s) "--" = false
  ∧ startsWith "-" (JSString.hyphenate Migration.isHyphen true s) = false.
Proof.
  revert b. induction s as [|c s IH]; intros b; [done|].
  cbn [JSString.hyphenate].
  destruct (Migration.isHyphen c) eqn:Hc.
  - split; [|apply (IH true)]. destruct b; [apply IH|].
    destruct (IH true) as [Hin Hst]. cbn [JSString.includes startsWith].
    cbn [startsWith] in Hst. by rewrite Hin, Hst, andb_false_r.
  - destruct (IH false) as [Hin _]. cbn [JSString.includes startsWith].
    rewrite Hin. unfold Migration.isHyphen in Hc. rewrite Ascii.eqb_sym, Hc. done.
Qed.

(** A string without two hyphens in a row comes out of the third
    [replace] as it went in. *)
Lemma hyphenate_fixed s :
  JSString.includes s "--" = false →
  JSString.hyphenate Migration.isHyphen false s = s
  ∧ (startsWith "-" s = false → JSString.hyphenate Migration.isHyphen true s = s).
Proof.
  induction s as [|c s IH]; [done|].
  cbn [JSString.includes startsWith JSString.hyphenate].
  intros [Hst Hin]%orb_false_iff. destruct (IH Hin) as [IH1 IH2].
  assert (Hh : Migration.isHyphen c = Ascii.eqb "-" c) by apply Ascii.eqb_sym.
  rewrite Hh. destruct (Ascii.eqb "-" c) eqn:Hc.
  - apply Ascii.eqb_eq in Hc as <-. rewrite andb_true_l in Hst.
    split; [|done]. by rewrite IH2.
  - by rewrite IH1.
Qed.

Lemma hyphenate_none p b s :
  Forall (fun c => p c = false) (chars s) → JSString.hyphenate p b s = s.
Proof.
  intros Hs. revert b. induction s as [|c s IH]; intros b; [done|].
  apply Forall_cons in Hs as [Hc Hs]. cbn [JSString.hyphenate].
  by rewrite Hc, IH.
Qed.

Lemma removeAll_none p s :
  Forall (fun c => p c = false) (chars s) → JSString.removeAll p s = s.
Proof.
  induction s as [|c s IH]; [done|]. intros [Hc Hs]%Forall_cons.
  cbn [JSString.removeAll]. by rewrite Hc, IH.
Qed.

Lemma trim_none s :
  Forall (fun c => JSString.isSpace c = false) (chars s) → JSString.trim s = s.
Proof.
  intros Hs. unfold JSString.trim.
  assert (JSString.trimStart s = s) as ->.
  { destruct s as [|c s]; [done|]. apply Forall_cons in Hs as [Hc _].
    cbn [JSString.trimStart]. by rewrite Hc. }
  induction s as [|c s IH]; [done|]. apply Forall_cons in Hs as [Hc Hs].
  cbn [JSString.trimEnd]. rewrite (IH Hs), Hc. by destruct s.
Qed.

Lemma slugChar_lower s :
  Forall (fun c => Migration.slugChar c = true) (chars s) → JS.toLowerCase s = s.
Proof.
  induction s as [|c s IH]; [done|]. intros [Hc Hs]%Forall_cons.
  cbn [JS.toLowerCase]. rewrite (IH Hs). f_equal.
  unfold JS.lower_char. cbv zeta.
  destruct (((65 <=? N_of_ascii c) && (N_of_ascii c <=? 90))%N
            || ((192 <=? N_of_ascii c) && (N_of_ascii c <=? 222)
                && negb (N_of_ascii c =? 215))%N) eqn:Hup; [|done].
  exfalso.
  assert (Hrange : (65 <= N_of_ascii c <= 90 ∨ 192 <= N_of_ascii c)%N).
  { apply orb_true_iff in Hup as [Hup|Hup].
    - apply andb_true_iff in Hup as [?%N.leb_le ?%N.leb_le]. lia.
    - apply andb_true_iff in Hup as [Hup _].
      apply andb_true_iff in Hup as [?%N.leb_le _]. lia. }
  unfold Migration.slugChar, JS.isDigit in Hc. cbv zeta in Hc.
  apply orb_true_iff in Hc as [[Hc|Hc]%orb_true_iff|Hc].
  - apply andb_true_iff in Hc as [?%N.leb_le ?%N.leb_le]. lia.
  - apply andb_true_iff in Hc as [?%N.leb_le ?%N.leb_le]. lia.
  - apply Ascii.eqb_eq in Hc. subst c.
    change (N_of_ascii "-") with 45%N in Hrange. lia.
Qed.

Lemma slugChar_spec (c : ascii) :
  Migration.slugChar c = true →
  Migration.notSlugChar c = false ∧ JSString.isSpace c = false.
Proof.
  intros Hc. assert (Hs : JSString.isSpace c = false).
  { destruct (JSString.isSpace c) eqn:Hs; [|done].
    apply isSpace_not_slugChar in Hs. congruence. }
  split; [|done]. unfold Migration.notSlugChar, Migration.slugChar in *.
  cbv zeta in *. rewrite Hs, orb_false_r. by rewrite Hc.
Qed.

Lemma createSlug_chars title :
  Forall (fun c => Migration.slugChar c = true) (chars (Migration.createSlug title))
  ∧ Migration.createSlug title
    = JSString.hyphenate Migration.isHyphen false
        (JSString.hyphenate JSString.isSpace false
           (JSString.removeAll Migration.notSlugChar (JS.toLowerCase title))).
Proof.
  unfold Migration.createSlug.
  set (s1 := JSString.removeAll _ _).
  assert (H1 : Forall (fun c => JSString.isSpace c = true ∨ Migration.slugChar c = true)
                 (chars s1)).
  { eapply Forall_impl; [apply removeAll_chars|]. apply notSlugChar_spec. }
  assert (H2 : Forall (fun c => Migration.slugChar c = true)
                 (chars (JSString.hyphenate JSString.isSpace false s1))).
  { by apply hyphenate_chars. }
  assert (H3 : Forall (fun c => Migration.slugChar c = true)
                 (chars (JSString.hyphenate Migration.isHyphen false
                           (JSString.hyphenate JSString.isSpace false s1)))).
  { apply (hyphenate_chars Migration.isHyphen); [done|].
    eapply Forall_impl; [exact H2|]. cbn. tauto. }
  rewrite trim_none; [done|].
  eapply Forall_impl; [exact H3|]. intros c Hc. by apply slugChar_spec.
Qed.

(** X25. A slug of [createSlug] is made of small letters, digits and
    hyphens, with no two hyphens in a row, and [createSlug] leaves it as
    it is. *)
Theorem createSlug_slug (title : string) :
  Forall (fun c => Migration.slugChar c = true) (chars (Migration.createSlug title))
  ∧ JSString.includes (Migration.createSlug title) "--" = false
  ∧ Migration.createSlug (Migration.createSlug title) = Migration.createSlug title.
Proof.
  destruct (createSlug_chars title) as [Hchars Heq].
  assert (Hrun : JSString.includes (Migration.createSlug title) "--" = false).
  { rewrite Heq. apply hyphenate_no_run. }
  repeat split; [done|done|].
  set (s := Migration.createSlug title) in *.
  destruct (createSlug_chars s) as [_ ->].
  rewrite (slugChar_lower s Hchars).
  rewrite removeAll_none by (eapply Forall_impl; [exact Hchars|]; intros c Hc;
                             by apply slugChar_spec).
  rewrite (hyphenate_none JSString.isSpace) by (eapply Forall_impl; [exact Hchars|]; intros c Hc;
                             by apply slugChar_spec).
  by apply hyphenate_fixed.
Qed.

(** X26. The last step of [createSlug], [trim], takes nothing away: a
    title that starts with white space has a slug that starts with a
    hyphen. *)
Theorem createSlug_of_padded_title (c : ascii) (rest : string) :
  JSString.isSpace c = true →
  startsWith "-" (Migration.createSlug (String c rest)) = true.
Proof.
  intros Hc. destruct (createSlug_chars (String c rest)) as [_ ->].
  cbn [JS.toLowerCase JSString.removeAll].
  rewrite (isSpace_lower c Hc).
  assert (Migration.notSlugChar c = false) as ->.
  { unfold Migration.notSlugChar. cbv zeta. by rewrite Hc, orb_true_r. }
  cbn [JSString.hyphenate]. rewrite Hc. cbn [JSString.hyphenate].
  by change (Migration.isHyphen "-") with true.
Qed.

Lemma createSlug_of_padded_title_witness :
  JSString.isSpace " " = true
  ∧ startsWith "-" (Migration.createSlug " Harbour  Lights! ") = true.
Proof.
  split; [reflexivity|]. apply createSlug_of_padded_title. reflexivity.
Defined.

(** ** The loop over the items *)

(** What one round does to the projects and to the videos. *)
Lemma visit_projects c item :
  Migration.projects (Migration.visit c item)
  = if Migration.hasGallery item
    then <[Migration.slugOf item := Migration.galleryOf item]> (Migration.projects c)
    else Migration.projects c.
Proof.
  assert (Hadd : ∀ c',
    Migration.projects (Migration.addGallery item c')
    = if bool_decide (Migration.extractImageUrls (Migration.content item) ≠ [])
      then <[Migration.slugOf item := Migration.galleryOf item]> (Migration.projects c')
      else Migration.projects c').
  { intros c'. unfold Migration.addGallery.
    destruct (Migration.extractImageUrls _) as [|u us] eqn:Hu.
    - rewrite (bool_decide_eq_false_2 (0 < _)%nat) by (cbn; lia).
      rewrite (bool_decide_eq_false_2 (_ ≠ _)) by (by intros H). done.
    - rewrite (bool_decide_eq_true_2 (0 < _)%nat) by (cbn; lia).
      rewrite (bool_decide_eq_true_2 (_ ≠ _)) by done.
      cbn. unfold Migration.galleryOf. by rewrite Hu. }
  unfold Migration.visit, Migration.hasGallery, Migration.isRead. cbv zeta.
  destruct (bool_decide (Migration.post_type item = Some "page")); [|done].
  destruct (Migration.isExcluded _); [done|].
  destruct (Migration.extractVimeoEmbed _) as [e|] eqn:He.
  - rewrite (bool_decide_eq_true_2 (is_Some (Some e))) by by eexists.
    destruct (Migration.isVideoPage _); cbn [negb andb]; [done|]. by rewrite Hadd.
  - rewrite (bool_decide_eq_false_2 (is_Some None)) by by intros [??].
    rewrite andb_false_r. cbn [negb andb]. by rewrite Hadd.
Qed.

Lemma visit_videos c item :
  Migration.videos (Migration.visit c item)
  = Migration.videos c
    ++ if Migration.isRead item
       then option_list (Migration.videoOf item
                           <$> Migration.extractVimeoEmbed (Migration.content item))
       else [].
Proof.
  assert (Hadd : ∀ c',
    Migration.videos (Migration.addGallery item c') = Migration.videos c').
  { intros c'. unfold Migration.addGallery. by case_bool_decide. }
  unfold Migration.visit, Migration.isRead. cbv zeta.
  destruct (bool_decide (Migration.post_type item = Some "page"));
    [|by rewrite app_nil_r].
  destruct (Migration.isExcluded _); [by rewrite app_nil_r|].
  destruct (Migration.extractVimeoEmbed _) as [e|] eqn:He.
  - destruct (Migration.isVideoPage _); cbn [negb]; [done|]. by rewrite Hadd.
  - cbn [negb]. rewrite Hadd. by rewrite app_nil_r.
Qed.

Lemma collect_snoc items item :
  Migration.collect (items ++ [item])
  = Migration.visit (Migration.collect items) item.
Proof. unfold Migration.collect. by rewrite foldl_app. Qed.

(** X27. A project of the manifest has an image at least, and comes from
    a page of the export that is not left out: the project has the title
    and the images of that page, under the slug of the page; and the page
    is no video page with an embed. *)
Theorem project_of_a_page (items : list Migration.Item) (slug : string)
    (g : Migration.Gallery) :
  Migration.projects (Migration.collect items) !! slug = Some g →
  Migration.images g ≠ []
  ∧ ∃ item,
      item ∈ items
      ∧ Migration.post_type item = Some "page"
      ∧ Migration.isExcluded (Migration.post_name item) = false
      ∧ ¬ (Migration.isVideoPage (Migration.post_name item) = true
           ∧ is_Some (Migration.extractVimeoEmbed (Migration.content item)))
      ∧ slug = Migration.slugOf item
      ∧ Migration.g_title g = Migration.title item
      ∧ Migration.images g = Migration.extractImageUrls (Migration.content item).
Proof.
  induction items as [|item items IH] using rev_ind.
  - cbn. by rewrite lookup_empty.
  - rewrite collect_snoc, visit_projects.
    assert (Hold : Migration.projects (Migration.collect items) !! slug = Some g →
      Migration.images g ≠ []
      ∧ ∃ item0, item0 ∈ items ++ [item]
          ∧ Migration.post_type item0 = Some "page"
          ∧ Migration.isExcluded (Migration.post_name item0) = false
          ∧ ¬ (Migration.isVideoPage (Migration.post_name item0) = true
               ∧ is_Some (Migration.extractVimeoEmbed (Migration.content item0)))
          ∧ slug = Migration.slugOf item0
          ∧ Migration.g_title g = Migration.title item0
          ∧ Migration.images g
            = Migration.extractImageUrls (Migration.content item0)).
    { intros H. destruct (IH H) as (Himg & item0 & Hin & Hrest).
      split; [done|]. exists item0. split; [|done].
      apply elem_of_app. by left. }
    destruct (Migration.hasGallery item) eqn:Hg; [|done].
    destruct (decide (slug = Migration.slugOf item)) as [->|Hne];
      [|by rewrite lookup_insert_ne].
    rewrite lookup_insert_eq. intros [= <-].
    unfold Migration.hasGallery, Migration.isRead in Hg.
    apply andb_true_iff in Hg as [[[Hpage Hex]%andb_true_iff Hvid]%andb_true_iff Himg].
    apply bool_decide_eq_true in Hpage, Himg. apply negb_true_iff in Hex, Hvid.
    split; [done|]. exists item. repeat split; try done.
    + apply elem_of_app. right. by apply list_elem_of_singleton.
    + intros [Hv He]. rewrite Hv, bool_decide_eq_true_2 in Hvid by done. done.
Qed.

Lemma project_of_a_page_witness :
  Migration.projects (Migration.collect MigrationSample.items) !! "harbour"
    = Some (Migration.galleryOf
              (MigrationSample.page "harbour" "Harbour" MigrationSample.galleryHtml))
  ∧ Migration.images
      (Migration.galleryOf
         (MigrationSample.page "harbour" "Harbour" MigrationSample.galleryHtml)) ≠ [].
Proof.
  split; [vm_compute; reflexivity|].
  refine (proj1 (project_of_a_page MigrationSample.items "harbour" _ _)).
  vm_compute. reflexivity.
Defined.

(** X28. Of the pages that share a slug, the last one with a project is
    the one in the manifest. *)
Theorem last_page_of_a_slug (before after : list Migration.Item)
    (item : Migration.Item) :
  Migration.hasGallery item = true →
  (∀ x, x ∈ after → Migration.hasGallery x = true →
        Migration.slugOf x ≠ Migration.slugOf item) →
  Migration.projects (Migration.collect (before ++ item :: after))
    !! Migration.slugOf item = Some (Migration.galleryOf item).
Proof.
  intros Hg. induction after as [|x after IH] using rev_ind; intros Hafter.
  - rewrite collect_snoc, visit_projects, Hg. apply lookup_insert_eq.
  - rewrite app_comm_cons, app_assoc, collect_snoc, visit_projects.
    assert (IH' : Migration.projects (Migration.collect (before ++ item :: after))
                    !! Migration.slugOf item = Some (Migration.galleryOf item)).
    { apply IH. intros y Hy. apply Hafter, elem_of_app. by left. }
    destruct (Migration.hasGallery x) eqn:Hx; [|done].
    rewrite lookup_insert_ne; [done|].
    apply Hafter; [|done]. apply elem_of_app. right. by apply list_elem_of_singleton.
Qed.

Lemma last_page_of_a_slug_witness :
  Migration.hasGallery MigrationSample.newHarbour = true
  ∧ Migration.projects
      (Migration.collect
         ([MigrationSample.oldHarbour]
          ++ MigrationSample.newHarbour :: [MigrationSample.notes]))
      !! "harbour"
    = Some (Migration.galleryOf MigrationSample.newHarbour).
Proof.
  split; [vm_compute; reflexivity|].
  apply (last_page_of_a_slug [MigrationSample.oldHarbour] [MigrationSample.notes]
           MigrationSample.newHarbour).
  - vm_compute. reflexivity.
  - intros x Hx Hg. apply list_elem_of_singleton in Hx. subst x.
    vm_compute in Hg. discriminate Hg.
Defined.

(** X29. The videos of the manifest are, in the order of the export, the
    embeds of the pages that are not left out, one for each page that has
    one: of the video pages and of the pages with a gallery alike. *)
Theorem videos_of_the_pages (items : list Migration.Item) :
  Migration.videos (Migration.collect items)
  = omap (fun item => Migration.videoOf item
                        <$> Migration.extractVimeoEmbed (Migration.content item))
      (filter (fun item => Migration.isRead item = true) items).
Proof.
  induction items as [|item items IH] using rev_ind; [done|].
  rewrite collect_snoc, visit_videos, IH, filter_app, omap_app.
  f_equal. rewrite filter_cons, filter_nil.
  destruct (Migration.isRead item) eqn:Hr.
  - rewrite decide_True by done. cbn.
    by destruct (Migration.extractVimeoEmbed _).
  - by rewrite decide_False by done.
Qed.
